(** * Vector Sort node (sverchok, nodes/vector/vertices_sort.py)

    A shallow embedding of the sorting node: the connectivity walk
    [sort_vertices_by_connexions] with its helper [find_limits], and the body
    of [SvVertSortNode.process] for each sort mode, followed by the
    properties stated for them.

    Conventions of the embedding.
    - A coordinate is a float.  A finite float is a rational number, and
      [<], [==] and the unary minus on floats are those of the rationals:
      a number is modelled as a canonical rational [Qc].  The XYZ and
      connectivity modes only compare coordinates ([<] inside [sorted],
      [==] inside [in] and [list.index]).  Where the code adds, subtracts
      or multiplies floats the result is rounded: the float operations of
      [distK] and the vector operations of [mathutils] are parameters of
      the definitions that use them, and nothing is assumed of them.
    - A vertex is a triple of coordinates, an edge a pair of original
      indices, indices are natural numbers.
    - A Python exception is a value [Raise e] of the [result] type; every
      function that can raise returns a [result]. *)

From Stdlib Require Import List Bool Arith PeanoNat Lia ZArith QArith Qcanon Lqa.
From Stdlib Require Import Permutation Sorting.Sorted Relations.
Import ListNotations.

Set Implicit Arguments.

Local Open Scope nat_scope.
Local Open Scope list_scope.

(* ================================================================== *)
(** ** Numbers, vertices, items *)

Definition num := Qc.

Definition num_of_Z (z : Z) : num := Q2Qc (inject_Z z).

(** [a < b] on numbers. *)
Definition num_ltb (a b : num) : bool := negb (Qle_bool b a).

(** [a == b] on numbers. *)
Definition num_eqb (a b : num) : bool := Qeq_bool a b.

Definition point : Type := num * num * num.

Definition pt (x y z : Z) : point := (num_of_Z x, num_of_Z y, num_of_Z z).

Definition point_eqb (p q : point) : bool :=
  let '(a, b, c) := p in
  let '(a', b', c') := q in
  num_eqb a a' && num_eqb b b' && num_eqb c c'.

(** The tuples [(e[0], e[1], e[2], i)] that the sorting modes build. *)
Definition item : Type := num * num * num * nat.

Definition item_index (it : item) : nat := snd it.          (* item[-1] *)
Definition item_coords (it : item) : point := fst it.        (* item[:3] *)

(** [operator.itemgetter(k)] for the three coordinate positions. *)
Definition itemgetter (k : nat) (it : item) : num :=
  let '(x, y, z, _) := it in
  match k with
  | 0 => x
  | 1 => y
  | _ => z
  end.

(* ================================================================== *)
(** ** Exceptions *)

Inductive exn : Type := IndexError | KeyError | ValueError.

Inductive result (A : Type) : Type :=
| Ok (a : A)
| Raise (e : exn).

Arguments Ok {A} a.
Arguments Raise {A} e.

Definition bind {A B : Type} (m : result A) (k : A -> result B) : result B :=
  match m with
  | Ok a => k a
  | Raise e => Raise e
  end.

Notation "x <- m ;; k" := (bind m (fun x => k))
  (at level 61, m at next level, right associativity).
Notation "' p <- m ;; k" := (bind m (fun p => k))
  (at level 61, p pattern, m at next level, right associativity).

Fixpoint mapM {A B : Type} (f : A -> result B) (l : list A) : result (list B) :=
  match l with
  | [] => Ok []
  | a :: l' => b <- f a ;; bs <- mapM f l' ;; Ok (b :: bs)
  end.

(* ================================================================== *)
(** ** Python sequences *)

(** [enumerate(l)] *)
Definition enumerate {A : Type} (l : list A) : list (nat * A) :=
  combine (seq 0 (length l)) l.

(** [l[i]], raising [IndexError] out of range. *)
Definition getitem {A : Type} (l : list A) (i : nat) : result A :=
  match nth_error l i with
  | Some a => Ok a
  | None => Raise IndexError
  end.

(** [l.pop(i)]: the list without position [i]; [IndexError] out of range
    (in particular on an empty list). *)
Definition pop {A : Type} (l : list A) (i : nat) : result (list A) :=
  if i <? length l then Ok (firstn i l ++ skipn (S i) l) else Raise IndexError.

Section Membership.
Context {A : Type}.
Variable eqb : A -> A -> bool.

(** [x in l] *)
Definition contains (x : A) (l : list A) : bool := existsb (eqb x) l.

(** Position of the first element equal to [x]. *)
Fixpoint find_index (x : A) (l : list A) : option nat :=
  match l with
  | [] => None
  | y :: l' => if eqb x y then Some 0 else option_map S (find_index x l')
  end.

(** [l.index(x)], raising [ValueError] when [x] is absent. *)
Definition list_index (x : A) (l : list A) : result nat :=
  match find_index x l with
  | Some k => Ok k
  | None => Raise ValueError
  end.
End Membership.

(** A value bound to a name that is either a list, which can be traversed
    any number of times, or a one-shot iterator such as the one built by
    [reversed(...)], which is empty after its first traversal. *)
Inductive pyseq (A : Type) : Type :=
| PyList (l : list A)
| PyIter (rest : list A).

Arguments PyList {A} l.
Arguments PyIter {A} rest.

(** One full traversal: the elements seen, and the value left behind. *)
Definition traverse {A : Type} (s : pyseq A) : list A * pyseq A :=
  match s with
  | PyList l => (l, PyList l)
  | PyIter l => (l, PyIter [])
  end.

(** A dictionary with natural-number keys: most recent binding first. *)
Definition dict : Type := list (nat * nat).

Definition dict_set (d : dict) (k v : nat) : dict := (k, v) :: d.

Fixpoint dict_get (d : dict) (k : nat) : result nat :=
  match d with
  | [] => Raise KeyError
  | (k', v) :: d' => if k =? k' then Ok v else dict_get d' k
  end.

(* ================================================================== *)
(** ** [sorted]

    Python's sort is stable and compares keys with [<] only.  Its result on
    keys that [<] orders totally is the one of any stable sort; the model
    is the insertion sort below.  With [reverse=True] the list is reversed,
    sorted, and reversed again. *)

Section Sort.
Context {A : Type}.
Variable ltb : A -> A -> bool.

Fixpoint insert (x : A) (s : list A) : list A :=
  match s with
  | [] => [x]
  | y :: s' => if ltb y x then y :: insert x s' else x :: s
  end.

Fixpoint isort (l : list A) : list A :=
  match l with
  | [] => []
  | x :: l' => insert x (isort l')
  end.
End Sort.

(** [sorted(l, key=key, reverse=reverse)] for a key compared by [kltb]. *)
Definition sorted {A K : Type} (kltb : K -> K -> bool) (key : A -> K)
    (reverse : bool) (l : list A) : list A :=
  let lt := fun a b => kltb (key a) (key b) in
  if reverse then rev (isort lt (rev l)) else isort lt l.

(** Tuples compare lexicographically. *)
Definition pair_ltb (a b : num * num) : bool :=
  let '(a0, a1) := a in
  let '(b0, b1) := b in
  if num_eqb a0 b0 then num_ltb a1 b1 else num_ltb a0 b0.

Definition triple_ltb (a b : num * num * num) : bool :=
  let '(a0, a1, a2) := a in
  let '(b0, b1, b2) := b in
  if num_eqb a0 b0 then
    if num_eqb a1 b1 then num_ltb a2 b2 else num_ltb a1 b1
  else num_ltb a0 b0.

(* ================================================================== *)
(** ** The outputs shared by the sorting modes *)

(** [((e[0], e[1], e[2], i) for i, e in enumerate(v))] *)
Definition tag_items (v : list point) : list item :=
  map (fun ie : nat * point => let '(i, (x, y, z)) := ie in (x, y, z, i))
      (enumerate v).

(** What one object contributes to the three output lists; [None] for an
    output that is not requested. *)
Record object_out : Type := mk_out {
  out_verts : list point;
  out_poly : option (list (list nat));
  out_order : option (list nat)
}.

Section Emit.
Context {I : Type}.
Variable vert_of : I -> result point.   (* the vertex an item stands for *)
Variable index_of : I -> nat.           (* item[-1] *)

(** [{item[-1]: j for j, item in enumerate(s_v)}] *)
Definition build_v_index (s_v : list I) : dict :=
  fold_left (fun d (ji : nat * I) => dict_set d (index_of (snd ji)) (fst ji))
            (enumerate s_v) [].

(** [[list(map(lambda n: v_index[n], pe)) for pe in p]] *)
Definition remap (v_index : dict) (p : list (list nat)) : result (list (list nat)) :=
  mapM (fun pe => mapM (dict_get v_index) pe) p.

(** The tail common to the modes that sort items: the vertex list is
    appended to [verts_out], then the remapped [p] to [poly_edge_out] when
    [poly_output], then the item order when [order_output].  Each of the
    three traverses [s_v]. *)
Definition emit_sorted (poly_output order_output : bool)
    (s_v : pyseq I) (p : list (list nat)) : result object_out :=
  let '(l1, s1) := traverse s_v in
  verts <- mapM vert_of l1 ;;
  '(poly, s2) <-
    (if poly_output then
       let '(l2, s2) := traverse s1 in
       r <- remap (build_v_index l2) p ;; Ok (Some r, s2)
     else Ok (None, s1)) ;;
  let order :=
    if order_output then Some (map index_of (fst (traverse s2))) else None in
  Ok (mk_out verts poly order).
End Emit.

(** [verts_out.append([v[:3] for v in s_v])] and [i[-1]] on 4-tuples. *)
Definition emit_items := emit_sorted (fun it : item => Ok (item_coords it)) item_index.

(* ------------------------------------------------------------------ *)
(** *** XYZ mode *)

Definition op_order (reverse_x reverse_y reverse_z : bool) : list (nat * bool) :=
  [(0, reverse_x); (1, reverse_y); (2, reverse_z)].

(** [for item_index, rev in op_order:
       s_v = sorted(s_v, key=itemgetter(item_index), reverse=rev)] *)
Definition xyz_sort (reverse_x reverse_y reverse_z : bool) (v : list point) : list item :=
  fold_left (fun s (op : nat * bool) => sorted num_ltb (itemgetter (fst op)) (snd op) s)
            (op_order reverse_x reverse_y reverse_z) (tag_items v).

Definition process_XYZ (reverse_x reverse_y reverse_z poly_output order_output : bool)
    (v : list point) (p : list (list nat)) : result object_out :=
  emit_items poly_output order_output
             (PyList (xyz_sort reverse_x reverse_y reverse_z v)) p.

(* ------------------------------------------------------------------ *)
(** *** [distK]

    The coordinates are Python floats.  A finite float is a rational
    number, and [<] and [==] on floats are those of the rationals; the
    results of the arithmetic are rounded, so the three operations that
    [distK] uses are parameters: nothing is assumed of them. *)

Section Floats.
(** [a - b] on floats *)
Variable float_sub : num -> num -> num.
(** [a ** 2] on a float *)
Variable float_sq : num -> num.
(** [sum(...)] over floats *)
Variable float_sum : list num -> num.

(** [sum((i[0]-i[1])**2 for i in zip(v1, v2))] *)
Definition distK (v1 v2 : point) : num :=
  let '(a0, a1, a2) := v1 in
  let '(b0, b1, b2) := v2 in
  float_sum [float_sq (float_sub a0 b0); float_sq (float_sub a1 b1);
             float_sq (float_sub a2 b2)].
End Floats.

(* ------------------------------------------------------------------ *)
(** *** The modes that fit a frame to the vertices

    [linear_approximation] (sverchok.utils.geom) and [to_cylindrical]
    (sverchok.utils.math) are not part of the sources at hand, and the
    vectors, matrices and quaternions come from Blender's [mathutils],
    which computes in floats; what the node obtains from them is taken as
    a parameter. *)

Record quaternion : Type := mk_quat { q_axis : point; q_angle : num }.

Section Geometry.
Variable matrix : Type.

(** [linear_approximation(v).most_similar_line().direction] *)
Variable line_direction : list point -> point.
(** [linear_approximation(v).most_similar_plane().get_matrix().inverted()] *)
Variable plane_matrix : list point -> matrix.
(** [Vector(linear_approximation(v).center)] *)
Variable center : list point -> point.
(** [to_cylindrical(v)], the triple [(rho, phi, z)] *)
Variable to_cylindrical : point -> num * num * num.
(** [m @ Vector(p)] *)
Variable mat_apply : matrix -> point -> point.
(** [intersect_point_line(p, a, b)], a point and a percentage *)
Variable intersect_point_line : point -> point -> point -> point * num.
(** [a.rotation_difference(b)] *)
Variable rotation_difference : point -> point -> quaternion.
(** [Vector(a).dot(b)] *)
Variable dot : point -> point -> num.
(** [a + b] on vectors *)
Variable vec_add : point -> point -> point.
(** [a - b] on vectors *)
Variable vec_sub : point -> point -> point.

(** AXYZ: one sort on the triple of frame coordinates, each negated
    under its flag. *)
Definition axyz_key (reverse_x reverse_y reverse_z : bool) (m : matrix)
    (it : item) : num * num * num :=
  let '(x, y, z) := mat_apply m (item_coords it) in
  let x := if reverse_x then (- x)%Qc else x in
  let y := if reverse_y then (- y)%Qc else y in
  let z := if reverse_z then (- z)%Qc else z in
  (x, y, z).

Definition process_AXYZ (reverse_x reverse_y reverse_z poly_output order_output : bool)
    (v : list point) (p : list (list nat)) : result object_out :=
  let m := plane_matrix v in
  let s_v := sorted triple_ltb (axyz_key reverse_x reverse_y reverse_z m)
                    false (tag_items v) in
  emit_items poly_output order_output (PyList s_v) p.

(** ADIR: one sort on the projection on the fitted direction; with
    [reverse], the name [s_v] is rebound to [reversed(s_v)]. *)
Definition adir_key (direction : point) (it : item) : num :=
  dot (item_coords it) direction.

Definition adir_sort (reverse : bool) (v : list point) : pyseq item :=
  let direction := line_direction v in
  let s_v := sorted num_ltb (adir_key direction) false (tag_items v) in
  if reverse then PyIter (rev s_v) else PyList s_v.

Definition process_ADIR (reverse poly_output order_output : bool)
    (v : list point) (p : list (list nat)) : result object_out :=
  emit_items poly_output order_output (adir_sort reverse v) p.

(** ACYL: one sort on [(phi, z, rho)]; [reverse] as in ADIR. *)
Definition acyl_key (m : matrix) (c : point) (it : item) : num * num * num :=
  let '(rho, phi, z) := to_cylindrical (mat_apply m (vec_sub (item_coords it) c)) in
  (phi, z, rho).

Definition acyl_sort (reverse : bool) (v : list point) : pyseq item :=
  let m := plane_matrix v in
  let c := center v in
  let s_v := sorted triple_ltb (acyl_key m c) false (tag_items v) in
  if reverse then PyIter (rev s_v) else PyList s_v.

Definition process_ACYL (reverse poly_output order_output : bool)
    (v : list point) (p : list (list nat)) : result object_out :=
  emit_items poly_output order_output (acyl_sort reverse v) p.

(** AXIS: items [(data[0][1], data[1], i)] sorted on their first two
    components; the vertex output reads [v[i[-1]]]. *)
Definition axis_f (axis : point) (q : quaternion) : num :=
  if num_ltb (Q2Qc 0) (dot axis (q_axis q)) then q_angle q else (- q_angle q)%Qc.

Definition axis_items (m : matrix) (v : list point) : list (num * num * nat) :=
  let axis := mat_apply m (pt 0 0 1) in
  let axis_norm := mat_apply m (pt 1 0 0) in
  let base_point := mat_apply m (pt 0 0 0) in
  let intersect_d := map (fun v_c => intersect_point_line v_c base_point axis) v in
  let rotate_d :=
    map (fun cl : point * (point * num) =>
           axis_f axis (rotation_difference (vec_add axis_norm (fst (snd cl))) (fst cl)))
        (combine v intersect_d) in
  map (fun id : nat * ((point * num) * num) =>
         (snd (fst (snd id)), snd (snd id), fst id))
      (enumerate (combine intersect_d rotate_d)).

Definition process_AXIS (m : matrix) (poly_output order_output : bool)
    (v : list point) (p : list (list nat)) : result object_out :=
  let s_v := sorted pair_ltb (fun it : num * num * nat => fst it) false
                    (axis_items m v) in
  emit_sorted (fun it : num * num * nat => getitem v (snd it))
              (fun it : num * num * nat => snd it)
              poly_output order_output (PyList s_v) p.
End Geometry.

(* ------------------------------------------------------------------ *)
(** *** DIST and USER modes *)

Section Dist.
Variable float_sub : num -> num -> num.
Variable float_sq : num -> num.
Variable float_sum : list num -> num.

(** DIST: items [(v_c, i)] sorted on [distK(v[0], v_base)]. *)
Definition process_DIST (v_base : point) (poly_output order_output : bool)
    (v : list point) (p : list (list nat)) : result object_out :=
  let items := map (fun iv : nat * point => (snd iv, fst iv)) (enumerate v) in
  let s_v := sorted num_ltb
                    (fun it : point * nat =>
                       distK float_sub float_sq float_sum (fst it) v_base)
                    false items in
  emit_sorted (fun it : point * nat => Ok (fst it)) (fun it : point * nat => snd it)
              poly_output order_output (PyList s_v) p.
End Dist.

(** USER: items [(data[0], data[1], i)] over [zip(index, v)], sorted on the
    supplied key. *)
Definition process_USER (index : list num) (poly_output order_output : bool)
    (v : list point) (p : list (list nat)) : result object_out :=
  let items :=
    map (fun id : nat * (num * point) => (fst (snd id), snd (snd id), fst id))
        (enumerate (combine index v)) in
  let s_v := sorted num_ltb (fun it : num * point * nat => fst (fst it))
                    false items in
  emit_sorted (fun it : num * point * nat => Ok (snd (fst it)))
              (fun it : num * point * nat => snd it)
              poly_output order_output (PyList s_v) p.

(* ================================================================== *)
(** ** Connectivity mode *)

(** An edge [e]: the pair of [e[0]] and [e[1]]. *)
Definition edge : Type := nat * nat.

Fixpoint foldM {A B : Type} (f : B -> A -> result B) (l : list A) (b : B) : result B :=
  match l with
  | [] => Ok b
  | a :: l' => b' <- f b a ;; foldM f l' b'
  end.

(** [l[i] = x] for [i] in range. *)
Definition list_set {A : Type} (l : list A) (i : nat) (x : A) : list A :=
  firstn i l ++ x :: skipn (S i) l.

(* ------------------------------------------------------------------ *)
(** *** [find_limits] *)

(** One entry [[count, side, edge]] of [v_count]. *)
Definition v_count_entry : Type := nat * nat * nat.

(** [v_count[v][0] += 1; v_count[v][1] = side; v_count[v][2] = i] *)
Definition touch (v_count : list v_count_entry) (v side i : nat)
    : result (list v_count_entry) :=
  c <- getitem v_count v ;;
  Ok (list_set v_count v (S (fst (fst c)), side, i)).

(** A limit [(vertex, side, edge)]. *)
Definition limit : Type := nat * nat * nat.

Definition lim_vertex (l : limit) : nat := fst (fst l).   (* lim[0] *)
Definition lim_side (l : limit) : nat := snd (fst l).     (* lim[1] *)
Definition lim_edge (l : limit) : nat := snd l.           (* lim[2] *)

Definition count_edges (n : nat) (edges_in : list edge) : result (list v_count_entry) :=
  foldM (fun vc (ie : nat * edge) =>
           let '(i, e) := ie in
           vc1 <- touch vc (fst e) 0 i ;;
           touch vc1 (snd e) 1 i)
        (enumerate edges_in) (repeat (0, 0, 0) n).

Definition collect_limits (v_count : list v_count_entry) : list limit :=
  flat_map (fun iv : nat * v_count_entry =>
              let '(i, (c, side, e)) := iv in
              if c =? 1 then [(i, side, e)] else [])
           (enumerate v_count).

Definition find_limits (verts_in : list point) (edges_in : list edge)
    : result (list limit) :=
  v_count <- count_edges (length verts_in) edges_in ;;
  Ok (collect_limits v_count).

(* ------------------------------------------------------------------ *)
(** *** [sort_vertices_by_connexions] *)

(** [edges_copy = [edges0, edges1, edges_index]] *)
Record edges_copy_t : Type := mk_copy {
  ec0 : list nat;
  ec1 : list nat;
  ec2 : list nat
}.

(** [for co in a: co.pop(index)] *)
Definition pop_lower_level (a : edges_copy_t) (index : nat) : result edges_copy_t :=
  c0 <- pop (ec0 a) index ;;
  c1 <- pop (ec1 a) index ;;
  c2 <- pop (ec2 a) index ;;
  Ok (mk_copy c0 c1 c2).

(** The variables the loop reads and writes. *)
Record walk_state : Type := mk_state {
  verts_out : list point;
  edges_out : list edge;
  index : list nat;
  edges_copy : edges_copy_t;
  ed_index : nat;
  or_side : nat
}.

Section Walk.
Variable verts_in : list point.
Variable edges_in : list edge.
Variable limiting : bool.
Variable limits : list limit.

(** The body of [for side in e]: returns the new [verts_out] and [index]
    and the entry appended to [ed]. *)
Definition visit (vo : list point) (idx : list nat) (side : nat)
    : result (list point * list nat * nat) :=
  p <- getitem verts_in side ;;
  if contains point_eqb p vo then
    k <- list_index point_eqb p vo ;; Ok (vo, idx, k)
  else
    let vo' := vo ++ [p] in
    k <- list_index point_eqb p vo' ;; Ok (vo', idx ++ [side], k).

(** The edge walked in this iteration, in walking direction. *)
Definition current_edge (st : walk_state) : result edge :=
  e <- getitem edges_in (ed_index st) ;;
  Ok (if or_side st =? 1 then (snd e, fst e) else e).

(** Lines 90-103: both ends are visited and the reindexed edge emitted. *)
Definition emit_edge (st : walk_state) : result (walk_state * edge) :=
  e <- current_edge st ;;
  '(vo, idx, a) <- visit (verts_out st) (index st) (fst e) ;;
  '(vo', idx', b) <- visit vo idx (snd e) ;;
  Ok (mk_state vo' (edges_out st ++ [(a, b)]) idx'
               (edges_copy st) (ed_index st) (or_side st), e).

(** Taking position [k] of the remaining edges as the next edge. *)
Definition take_edge (st : walk_state) (ed : nat) (side : nat) (k : nat)
    : result walk_state :=
  ec <- pop_lower_level (edges_copy st) k ;;
  Ok (mk_state (verts_out st) (edges_out st) (index st) ec ed side).

(** Lines 107-117: an unconsumed edge that touches [v_index]. *)
Definition find_next (st : walk_state) (v_index : nat) : result walk_state :=
  let ec := edges_copy st in
  if contains Nat.eqb v_index (ec0 ec) then
    k <- list_index Nat.eqb v_index (ec0 ec) ;;
    ed <- getitem (ec2 ec) k ;;
    take_edge st ed 0 k
  else if contains Nat.eqb v_index (ec1 ec) then
    k <- list_index Nat.eqb v_index (ec1 ec) ;;
    ed <- getitem (ec2 ec) k ;;
    take_edge st ed 1 k
  else Ok st.

(** Lines 126-133: the first limit whose vertex is not in [index]. *)
Definition next_limit (idx : list nat) : option limit :=
  find (fun lim => negb (contains Nat.eqb (lim_vertex lim) idx)) limits.

(** Lines 120-133: nothing continues the walk and edges remain. *)
Definition restart (st : walk_state) : result walk_state :=
  let ec := edges_copy st in
  if negb limiting then
    ed <- getitem (ec2 ec) 0 ;;
    take_edge st ed 0 0
  else
    match next_limit (index st) with
    | Some lim =>
        k <- (if contains Nat.eqb (lim_vertex lim) (ec0 ec)
              then list_index Nat.eqb (lim_vertex lim) (ec0 ec)
              else list_index Nat.eqb (lim_vertex lim) (ec1 ec)) ;;
        take_edge st (lim_edge lim) (lim_side lim) k
    | None => Ok st
    end.

(** One iteration of [for j in range(edges_len)]. *)
Definition walk_step (st : walk_state) : result walk_state :=
  '(st1, e) <- emit_edge st ;;
  let ed_index_old := ed_index st1 in
  st2 <- find_next st1 (snd e) ;;
  if (ed_index st2 =? ed_index_old) && (0 <? length (ec0 (edges_copy st2)))
  then restart st2
  else Ok st2.

Fixpoint walk (n : nat) (st : walk_state) : result walk_state :=
  match n with
  | 0 => Ok st
  | S n' => st' <- walk_step st ;; walk n' st'
  end.

(** Lines 137-139: a vertex whose coordinates are not in [verts_out] is
    appended with its index. *)
Definition look_at (acc : list point * list nat) (iv : nat * point)
    : list point * list nat :=
  let '(vo, idx) := acc in
  let '(i, verts) := iv in
  if contains point_eqb verts vo then (vo, idx)
  else (vo ++ [verts], idx ++ [i]).

(** Lines 135-139: the vertices that the walk did not emit. *)
Definition add_unconnected (vo : list point) (idx : list nat)
    : list point * list nat :=
  if length vo =? length verts_in then (vo, idx)
  else fold_left look_at (enumerate verts_in) (vo, idx).
End Walk.

(** Lines 68-87: the state before the first iteration, with [limiting] and
    the limits left after [limits.pop(0)]. *)
Definition walk_init (verts_in : list point) (edges_in : list edge) (limit_mode : bool)
    : result (bool * list limit * walk_state) :=
  let edges_len := length edges_in in
  let edges_copy := mk_copy (map fst edges_in) (map snd edges_in) (seq 0 edges_len) in
  limits <- (if limit_mode then find_limits verts_in edges_in else Ok []) ;;
  let limiting := limit_mode && (0 <? length limits) in
  '(ed_index, or_side, limits) <-
    (if limiting then
       l0 <- getitem limits 0 ;; Ok (lim_edge l0, lim_side l0, tl limits)
     else Ok (0, 0, limits)) ;;
  ec <- pop_lower_level edges_copy ed_index ;;
  Ok (limiting, limits, mk_state [] [] [] ec ed_index or_side).

(** The state when the [for] loop is over. *)
Definition walk_result (verts_in : list point) (edges_in : list edge) (limit_mode : bool)
    : result walk_state :=
  '(limiting, limits, st) <- walk_init verts_in edges_in limit_mode ;;
  walk verts_in edges_in limiting limits (length edges_in) st.

Definition sort_vertices_by_connexions (verts_in : list point) (edges_in : list edge)
    (limit_mode : bool) : result (list point * list edge * list nat) :=
  st <- walk_result verts_in edges_in limit_mode ;;
  let '(vo, idx) := add_unconnected verts_in (verts_out st) (index st) in
  Ok (vo, edges_out st, idx).

(* ------------------------------------------------------------------ *)
(** *** [sort_vertices_by_connexions] on entries of any length

    The entries of [edges_in] are lists.  The function reads an entry
    through [e[0]] and [e[1]], except in [for side in e], which visits
    every index of an entry walked in direction 0.  The definitions above
    are the function on entries of two indices, written as pairs; the
    ones below are the function on any entries. *)

(** [(e[0], e[1])] *)
Definition entry_ends (e : list nat) : result edge :=
  a <- getitem e 0 ;;
  b <- getitem e 1 ;;
  Ok (a, b).

Section WalkEntries.
Variable verts_in : list point.
Variable entries : list (list nat).
Variable limiting : bool.
Variable limits : list limit.

(** [for side in e]: the new [verts_out] and [index], and the list
    [ed]. *)
Fixpoint visit_all (vo : list point) (idx : list nat) (e : list nat)
    : result (list point * list nat * list nat) :=
  match e with
  | [] => Ok (vo, idx, [])
  | side :: e' =>
      '(vo1, idx1, k) <- visit verts_in vo idx side ;;
      '(vo2, idx2, ed) <- visit_all vo1 idx1 e' ;;
      Ok (vo2, idx2, k :: ed)
  end.

(** Lines 89-92: [e = edges_in[ed_index]], and [[e[1], e[0]]] in
    direction 1. *)
Definition current_entry (st : walk_state) : result (list nat) :=
  e <- getitem entries (ed_index st) ;;
  if or_side st =? 1 then
    e1 <- getitem e 1 ;;
    e0 <- getitem e 0 ;;
    Ok [e1; e0]
  else Ok e.

(** One iteration of [for j in range(edges_len)].  The first component
    carries the variables of the loop except [edges_out], whose entries
    are lists here and are kept in the second component. *)
Definition entries_step (s : walk_state * list (list nat))
    : result (walk_state * list (list nat)) :=
  let '(st, edges_out_all) := s in
  e <- current_entry st ;;
  '(vo, idx, ed) <- visit_all (verts_out st) (index st) e ;;
  let st1 := mk_state vo (edges_out st) idx (edges_copy st) (ed_index st)
                      (or_side st) in
  v_index <- getitem e 1 ;;
  st2 <- find_next st1 v_index ;;
  st3 <- (if (ed_index st2 =? ed_index st1) && (0 <? length (ec0 (edges_copy st2)))
          then restart limiting limits st2
          else Ok st2) ;;
  Ok (st3, edges_out_all ++ [ed]).

Fixpoint walk_entries (n : nat) (s : walk_state * list (list nat))
    : result (walk_state * list (list nat)) :=
  match n with
  | 0 => Ok s
  | S n' => s' <- entries_step s ;; walk_entries n' s'
  end.
End WalkEntries.

(** Lines 61-141 on any entries: [edges0] and [edges1] read [j[0]] and
    [j[1]] of every entry, as [find_limits] does. *)
Definition sort_vertices_by_connexions_any (verts_in : list point)
    (entries : list (list nat)) (limit_mode : bool)
    : result (list point * list (list nat) * list nat) :=
  edges_in <- mapM entry_ends entries ;;
  '(limiting, limits, st0) <- walk_init verts_in edges_in limit_mode ;;
  '(st, edges_out_all) <-
    walk_entries verts_in entries limiting limits (length entries) (st0, []) ;;
  let '(vo, idx) := add_unconnected verts_in (verts_out st) (index st) in
  Ok (vo, edges_out_all, idx).

(* ------------------------------------------------------------------ *)
(** *** CONNEX in [process] *)

(** What CONNEX appends to [poly_edge_out]: the reindexed edges, or the
    remapped polygons wrapped in a list ([pol_edge_new = [new_pols]]). *)
Inductive connex_poly : Type :=
| New_edges (pol_edge_new : list (list nat))
| New_pols (wrapped : list (list (list nat))).

Section Connex.
(** [polygons_to_edges([p], True)[0]] (sverchok.utils.sv_mesh_utils), which
    is not part of the sources at hand. *)
Variable polygons_to_edges : list (list nat) -> list edge.

(** Lines 441-445: every polygon entry becomes [index_new.index(i)]. *)
Definition remap_pols (index_new : list nat) (pols : list (list nat))
    : result (list (list nat)) :=
  mapM (fun pol => mapM (fun i => list_index Nat.eqb i index_new) pol) pols.

(** Lines 433-450 for one object. *)
Definition process_CONNEX (limit_mode : bool) (v : list point) (p : list (list nat))
    : result (list point * connex_poly * list nat) :=
  p0 <- getitem p 0 ;;
  if 2 <? length p0 then
    '(vect_new, _, index_new) <-
      sort_vertices_by_connexions v (polygons_to_edges p) limit_mode ;;
    new_pols <- remap_pols index_new p ;;
    Ok (vect_new, New_pols [new_pols], index_new)
  else
    '(vect_new, pol_edge_new, index_new) <-
      sort_vertices_by_connexions_any v p limit_mode ;;
    Ok (vect_new, New_edges pol_edge_new, index_new).
End Connex.

(* ------------------------------------------------------------------ *)
(** *** The loop over the objects *)

(** [for v, p in zip(verts, poly_edge): ...]: the body runs on every
    object in turn; an exception leaves the loop, and [process], before
    any output socket is set. *)
Definition process_objects {A : Type}
    (body : list point -> list (list nat) -> result A)
    (objects : list (list point * list (list nat))) : result (list A) :=
  mapM (fun vp => body (fst vp) (snd vp)) objects.

(* ================================================================== *)
(** ** Reference definitions for the stated properties *)

(** The stable sort on a single numeric key. *)
Definition key_lt {A : Type} (key : A -> num) (a b : A) : bool :=
  num_ltb (key a) (key b).

Definition stable_sort_by {A : Type} (key : A -> num) (l : list A) : list A :=
  isort (key_lt key) l.

(** A coordinate, negated under its reverse flag. *)
Definition signed_key (k : nat) (reverse : bool) (it : item) : num :=
  if reverse then (- itemgetter k it)%Qc else itemgetter k it.

(** Successive stable sorts: by x, then by y, then by z. *)
Definition xyz_spec (reverse_x reverse_y reverse_z : bool) (v : list point) : list item :=
  stable_sort_by (signed_key 2 reverse_z)
    (stable_sort_by (signed_key 1 reverse_y)
       (stable_sort_by (signed_key 0 reverse_x) (tag_items v))).

(** The arrangement of items by original index. *)
Definition by_index (a b : item) : Prop := item_index a < item_index b.

(** The order of a stable sort of a list arranged by [R]: ascending keys,
    and [R] between equal keys. *)
Definition lex {A : Type} (ltb : A -> A -> bool) (R : A -> A -> Prop) (a b : A) : Prop :=
  ltb b a = false /\ (ltb a b = false -> R a b).

(** Auto Direction as stated: the stable sort on the projection on the
    fitted direction, negated under the reverse option. *)
Definition projection_key (dot : point -> point -> num) (direction : point)
    (reverse : bool) (it : item) : num :=
  if reverse then (- dot (item_coords it) direction)%Qc
  else dot (item_coords it) direction.

Definition adir_spec (dot : point -> point -> num) (direction : point)
    (reverse : bool) (v : list point) : list item :=
  stable_sort_by (projection_key dot direction reverse) (tag_items v).

(** The dot product in exact arithmetic: what [Vector.dot] returns where
    its float arithmetic does not round, as on the small integers of the
    examples. *)
Definition dot_exact (a b : point) : num :=
  let '(a0, a1, a2) := a in
  let '(b0, b1, b2) := b in
  (a0 * b0 + a1 * b1 + a2 * b2)%Qc.

(** Pairwise distinct, decided with [eqb]. *)
Fixpoint all_distinct {A : Type} (eqb : A -> A -> bool) (l : list A) : bool :=
  match l with
  | [] => true
  | x :: l' => negb (existsb (eqb x) l') && all_distinct eqb l'
  end.

(** The strict order in which [xyz_spec] leaves the items. *)
Definition xyz_order (rx ry rz : bool) : item -> item -> Prop :=
  lex (key_lt (signed_key 2 rz))
    (lex (key_lt (signed_key 1 ry))
       (lex (key_lt (signed_key 0 rx)) by_index)).

(** [xyz_order] without its last component: a relation on coordinates. *)
Definition xyz_coords_order (rx ry rz : bool) : item -> item -> Prop :=
  lex (key_lt (signed_key 2 rz))
    (lex (key_lt (signed_key 1 ry))
       (lex (key_lt (signed_key 0 rx)) (fun _ _ => True))).

(* ------------------------------------------------------------------ *)
(** *** The walk observed *)

(** The edges that the iterations walk, in order: each with its index in
    [edges_in] and its two ends in walking direction. *)
Fixpoint walk_trace (verts_in : list point) (edges_in : list edge) (limiting : bool)
    (limits : list limit) (n : nat) (st : walk_state) : result (list (nat * edge)) :=
  match n with
  | 0 => Ok []
  | S n' =>
      e <- current_edge edges_in st ;;
      st' <- walk_step verts_in edges_in limiting limits st ;;
      t <- walk_trace verts_in edges_in limiting limits n' st' ;;
      Ok ((ed_index st, e) :: t)
  end.

Definition connex_trace (verts_in : list point) (edges_in : list edge)
    (limit_mode : bool) : result (list (nat * edge)) :=
  '(limiting, limits, st) <- walk_init verts_in edges_in limit_mode ;;
  walk_trace verts_in edges_in limiting limits (length edges_in) st.

(** The original indices in the order in which the walk looks at them. *)
Definition visits_of (t : list (nat * edge)) : list nat :=
  flat_map (fun ie : nat * edge => [fst (snd ie); snd (snd ie)]) t.

(** All the original indices in the order in which the function looks at
    them: the walk, then the pass over [verts_in]. *)
Definition connex_visits (verts_in : list point) (edges_in : list edge)
    (limit_mode : bool) : result (list nat) :=
  t <- connex_trace verts_in edges_in limit_mode ;;
  Ok (visits_of t ++ seq 0 (length verts_in)).

(** The three lists that the function returns. *)
Definition outputs (st : walk_state) : list point * list edge * list nat :=
  (verts_out st, edges_out st, index st).

(** Vertex [i] is an end of some edge. *)
Definition touched (edges_in : list edge) (i : nat) : Prop :=
  exists e, In e edges_in /\ (fst e = i \/ snd e = i).

(** Position [k] of [vo] holds the coordinates of vertex [side]. *)
Definition at_vertex (verts_in vo : list point) (k side : nat) : Prop :=
  exists p, nth_error verts_in side = Some p /\ nth_error vo k = Some p.

(** [ab] is the walked edge [ie] with each end replaced by its position. *)
Definition reindexed (verts_in vo : list point) (ie : nat * edge) (ab : edge) : Prop :=
  at_vertex verts_in vo (fst ab) (fst (snd ie)) /\
  at_vertex verts_in vo (snd ab) (snd (snd ie)).

(** [ie] is an edge of the input, in one of its two directions. *)
Definition input_edge (edges_in : list edge) (ie : nat * edge) : Prop :=
  exists e0, nth_error edges_in (fst ie) = Some e0 /\
             (snd ie = e0 \/ snd ie = (snd e0, fst e0)).

(** Every index of [idx] is, in [visits], the first one with its
    coordinates. *)
Definition first_seen (verts_in : list point) (idx visits : list nat) : Prop :=
  forall r, In r idx ->
    exists pre post, visits = pre ++ r :: post /\
      forall k, In k pre -> nth_error verts_in k <> nth_error verts_in r.

(** The coordinates of every visited index are in [vo]. *)
Definition covered (verts_in vo : list point) (visits : list nat) : Prop :=
  forall k, In k visits -> exists q, nth_error verts_in k = Some q /\ In q vo.

(** The index list names the vertices of [vo], position by position. *)
Definition names (verts_in : list point) (idx : list nat) (vo : list point) : Prop :=
  Forall2 (fun i p => nth_error verts_in i = Some p) idx vo.

(** What holds of the outputs after the walk [tr]. *)
Definition out_inv (verts_in : list point) (edges_in : list edge)
    (o : list point * list edge * list nat) (tr : list (nat * edge)) : Prop :=
  let '(vo, eo, idx) := o in
  names verts_in idx vo /\ NoDup vo /\
  Forall2 (reindexed verts_in vo) tr eo /\
  Forall (input_edge edges_in) tr /\
  covered verts_in vo (visits_of tr) /\
  first_seen verts_in idx (visits_of tr).

(** The call returns. *)
Definition returns {A : Type} (r : result A) : Prop := exists a, r = Ok a.


(** The walk is at a dead end after an edge that arrives in [v]: no
    remaining edge touches [v], and edges remain. *)
Definition dead_end (st : walk_state) (v : nat) : Prop :=
  contains Nat.eqb v (ec0 (edges_copy st)) = false /\
  contains Nat.eqb v (ec1 (edges_copy st)) = false /\
  ec0 (edges_copy st) <> [].

(** A limit whose vertex the walk has not emitted. *)
Definition unvisited (idx : list nat) (lim : limit) : Prop :=
  ~ In (lim_vertex lim) idx.

(** The limits in ascending order of their vertex. *)
Definition by_vertex (a b : limit) : Prop := lim_vertex a < lim_vertex b.

(** [edges_copy] holds, position by position, the two ends and the index
    of the edges that remain. *)
Definition copy_ok (edges_in : list edge) (ec : edges_copy_t) : Prop :=
  ec0 ec = map (fun i => fst (nth i edges_in (0, 0))) (ec2 ec) /\
  ec1 ec = map (fun i => snd (nth i edges_in (0, 0))) (ec2 ec).

(** Every edge index is among those walked before ([consumed]), the one
    about to be walked, and those that remain, exactly once. *)
Definition edges_accounted (edges_in : list edge) (st : walk_state)
    (consumed : list nat) : Prop :=
  copy_ok edges_in (edges_copy st) /\
  Permutation (consumed ++ ed_index st :: ec2 (edges_copy st))
              (seq 0 (length edges_in)).

(** Every end of every edge is the index of a vertex. *)
Definition edges_in_range (n : nat) (edges_in : list edge) : Prop :=
  Forall (fun e : edge => fst e < n /\ snd e < n) edges_in.

(** The number of edge ends that are vertex [v]. *)
Fixpoint degree (v : nat) (edges : list edge) : nat :=
  match edges with
  | [] => 0
  | e :: es =>
      (if fst e =? v then 1 else 0) + (if snd e =? v then 1 else 0) + degree v es
  end.

(** Edge [i] of [edges] has vertex [v] at its end [side]. *)
Definition end_of (edges : list edge) (v side i : nat) : Prop :=
  exists e, nth_error edges i = Some e /\
            ((side = 0 /\ fst e = v) \/ (side = 1 /\ snd e = v)).

(** [v_count] after the edges [done]: every entry counts the ends at its
    vertex and, when there is one, names an edge and a side that touch
    it. *)
Definition counted (n : nat) (done : list edge) (vc : list v_count_entry) : Prop :=
  length vc = n /\
  forall v c side i,
    nth_error vc v = Some (c, side, i) ->
    c = degree v done /\ (0 < c -> end_of done v side i).

(** Both ends of edge [i] are in the item order. *)
Definition walked_edge (edges_in : list edge) (idx : list nat) (i : nat) : Prop :=
  exists e, nth_error edges_in i = Some e /\ In (fst e) idx /\ In (snd e) idx.

(** Every edge remains, is the current one, or has been walked. *)
Definition no_edge_lost (edges_in : list edge) (st : walk_state) : Prop :=
  forall i, i < length edges_in ->
    In i (ec2 (edges_copy st)) \/ i = ed_index st \/
    walked_edge edges_in (index st) i.

(** The state of a walk over vertices with pairwise distinct coordinates. *)
Definition walk_ok (verts_in : list point) (edges_in : list edge)
    (st : walk_state) : Prop :=
  copy_ok edges_in (edges_copy st) /\
  Forall (fun i => i < length edges_in) (ec2 (edges_copy st)) /\
  ed_index st < length edges_in /\
  names verts_in (index st) (verts_out st) /\ NoDup (verts_out st) /\
  no_edge_lost edges_in st.

(** The limits that the walk consults are ends of edges, at vertices of
    degree one. *)
Definition limits_ok (edges_in : list edge) (limits : list limit) : Prop :=
  forall lim, In lim limits ->
    degree (lim_vertex lim) edges_in = 1 /\
    end_of edges_in (lim_vertex lim) (lim_side lim) (lim_edge lim).

(* ================================================================== *)
(** ** Reference definitions for the further properties *)

(* ------------------------------------------------------------------ *)
(** *** The outputs of the walk *)

(** The output edge [ab] joins, in [vo], the coordinates that an edge of
    the input joins in [verts_in]. *)
Definition same_segment (verts_in vo : list point) (edges_in : list edge)
    (ab : edge) : Prop :=
  exists e, In e edges_in /\
    ((at_vertex verts_in vo (fst ab) (fst e) /\
      at_vertex verts_in vo (snd ab) (snd e)) \/
     (at_vertex verts_in vo (fst ab) (snd e) /\
      at_vertex verts_in vo (snd ab) (fst e))).

(** The coordinates of vertex [i] are those of a vertex of [idx]. *)
Definition seen (verts_in : list point) (idx : list nat) (i : nat) : bool :=
  existsb (fun j => match nth_error verts_in i, nth_error verts_in j with
                    | Some p, Some q => point_eqb p q
                    | _, _ => false
                    end) idx.

(** Looking at vertex [i]: it is recorded when its coordinates are new. *)
Definition note_visit (verts_in : list point) (idx : list nat) (i : nat) : list nat :=
  if seen verts_in idx i then idx else idx ++ [i].

(** The indices of [visits] that come first with their coordinates. *)
Definition first_visits (verts_in : list point) (visits : list nat) : list nat :=
  fold_left (note_visit verts_in) visits [].

(* ------------------------------------------------------------------ *)
(** *** Polylines *)

(** The consecutive pairs of a list of vertices. *)
Fixpoint chain (path : list nat) : list edge :=
  match path with
  | a :: ((b :: _) as rest) => (a, b) :: chain rest
  | _ => []
  end.

(** The edges of [edges_in] run along [path]: [order] lists the index of
    the edge between each vertex of [path] and the next, in either
    direction, and holds every edge index once. *)
Definition trail (edges_in : list edge) (order path : list nat) : Prop :=
  Permutation order (seq 0 (length edges_in)) /\
  Forall2 (fun i ab => input_edge edges_in (i, ab)) order (chain path).

(** The indices below [n] that are not on [path], in ascending order. *)
Definition off_path (n : nat) (path : list nat) : list nat :=
  filter (fun i => negb (contains Nat.eqb i path)) (seq 0 n).

(** The coordinates of the vertices [idx]. *)
Definition coords (verts_in : list point) (idx : list nat) : list point :=
  map (fun i => nth i verts_in (pt 0 0 0)) idx.

(** Where the walk stands: on the edge [o], from [a] to [b], with the
    edges [remaining] not taken yet. *)
Definition standing (edges_in : list edge) (st : walk_state) (o a b : nat)
    (remaining : list nat) : Prop :=
  ed_index st = o /\ current_edge edges_in st = Ok (a, b) /\
  copy_ok edges_in (edges_copy st) /\ NoDup (ec2 (edges_copy st)) /\
  (forall i, In i (ec2 (edges_copy st)) <-> In i remaining).

(** Looking at index [i]: it is recorded when it is new. *)
Definition note_index (acc : list nat) (i : nat) : list nat :=
  if contains Nat.eqb i acc then acc else acc ++ [i].

(** The entries of [l] without their repetitions, in the order of their
    first occurrences. *)
Definition first_occurrences (l : list nat) : list nat :=
  fold_left note_index l [].

(** The position of [i] in [idx]. *)
Definition position (idx : list nat) (i : nat) : nat :=
  match find_index Nat.eqb i idx with
  | Some k => k
  | None => 0
  end.

(** An edge with each end replaced by its position in [idx]. *)
Definition reindex (idx : list nat) (ab : edge) : edge :=
  (position idx (fst ab), position idx (snd ab)).

(** The two ends of each edge, one edge after the other. *)
Definition ends (es : list edge) : list nat :=
  flat_map (fun e : edge => [fst e; snd e]) es.

(** The vertex of degree one with the lowest index. *)
Definition lowest_limit (n : nat) (edges_in : list edge) (v : nat) : Prop :=
  v < n /\ degree v edges_in = 1 /\ forall w, w < v -> degree w edges_in <> 1.

(* ------------------------------------------------------------------ *)
(** *** The outputs of the sorting modes *)

(** [r] is [p] with every index replaced by a position: the position at
    which [order] holds this index, and [verts] the vertex of this
    index. *)
Definition remapped (v : list point) (order : list nat) (verts : list point)
    (p r : list (list nat)) : Prop :=
  Forall2 (Forall2 (fun n j => nth_error order j = Some n /\ at_vertex v verts j n))
          p r.

(** The three outputs of one object describe the mesh [v], [p] with its
    vertices rearranged in the order [order]. *)
Definition mesh_preserved (v : list point) (p : list (list nat))
    (poly_output order_output : bool) (order : list nat) (out : object_out) : Prop :=
  names v order (out_verts out) /\
  out_order out = (if order_output then Some order else None) /\
  (if poly_output
   then exists r, out_poly out = Some r /\ remapped v order (out_verts out) p r
   else out_poly out = None).

(** Whenever the call returns, it returns the mesh rearranged in an order
    that is a permutation of the indices below [n]. *)
Definition rearranges (n : nat) (v : list point) (p : list (list nat))
    (poly_output order_output : bool) (r : result object_out) : Prop :=
  forall out, r = Ok out ->
    exists order,
      Permutation order (seq 0 n) /\
      mesh_preserved v p poly_output order_output order out.

(** The call raises exactly when the remapping is requested and [p] holds
    an index that is not below [bound]; the exception is [KeyError]. *)
Definition raises_on_unknown_index (bound : nat) (poly_output : bool)
    (p : list (list nat)) (r : result object_out) : Prop :=
  (returns r <->
   (poly_output = true -> forall pe n, In pe p -> In n pe -> n < bound)) /\
  (forall e, r = Raise e -> e = KeyError).

(** Ascending keys, and ascending indices between equal keys. *)
Definition sorted_by {K : Type} (kltb : K -> K -> bool) (key : nat -> K)
    (order : list nat) : Prop :=
  StronglySorted (lex (fun i j => kltb (key i) (key j)) lt) order.

(** Whenever the call returns, its item order is the one of a stable sort
    of the indices on [key]. *)
Definition ordered_by {K : Type} (kltb : K -> K -> bool) (key : nat -> K)
    (r : result object_out) : Prop :=
  forall out, r = Ok out ->
    exists order, out_order out = Some order /\ sorted_by kltb key order.

(** Vertex [i] of [v]. *)
Definition vertex (v : list point) (i : nat) : point := nth i v (pt 0 0 0).

(** The item that stands for vertex [i] of [v]. *)
Definition item_at (v : list point) (i : nat) : item :=
  let '(x, y, z) := vertex v i in (x, y, z, i).

Section AxisKey.
Variable matrix : Type.
Variable mat_apply : matrix -> point -> point.
Variable intersect_point_line : point -> point -> point -> point * num.
Variable rotation_difference : point -> point -> quaternion.
Variable dot : point -> point -> num.
Variable vec_add : point -> point -> point.

(** The sort key of vertex [i] in Axis mode: [(data[0][1], data[1])]. *)
Definition axis_key (m : matrix) (v : list point) (i : nat) : num * num :=
  let axis := mat_apply m (pt 0 0 1) in
  let axis_norm := mat_apply m (pt 1 0 0) in
  let base_point := mat_apply m (pt 0 0 0) in
  let v_l := intersect_point_line (vertex v i) base_point axis in
  (snd v_l,
   axis_f dot axis (rotation_difference (vec_add axis_norm (fst v_l)) (vertex v i))).
End AxisKey.


(* ------------------------------------------------------------------ *)
(** *** Several polylines *)

(** The edges of [edges_in] run along the polylines [paths]: [orders]
    lists, for every polyline, the indices of its edges from its first
    vertex to its last, and holds every edge index once. *)
Definition trails (edges_in : list edge) (orders paths : list (list nat)) : Prop :=
  Permutation (concat orders) (seq 0 (length edges_in)) /\
  Forall2 (fun order path =>
             order <> [] /\
             Forall2 (fun i ab => input_edge edges_in (i, ab)) order (chain path))
          orders paths.

(** The edges of polylines of [lens] vertices laid end to end from the
    position [start]: each joins a position to the next. *)
Fixpoint segments (start : nat) (lens : list nat) : list edge :=
  match lens with
  | [] => []
  | n :: lens' =>
      map (fun k => (k, S k)) (seq start (pred n)) ++ segments (start + n) lens'
  end.

(** The item order holds the vertices [vs], and the vertex output their
    coordinates, each once. *)
Definition visited (verts_in : list point) (st : walk_state) (vs : list nat) : Prop :=
  names verts_in (index st) (verts_out st) /\ NoDup (verts_out st) /\
  forall v, In v (index st) <-> In v vs.

(* ------------------------------------------------------------------ *)
(** *** Entries of two indices *)

(** The entry [[e[0], e[1]]] of an edge. *)
Definition edge_entry (e : edge) : list nat := [fst e; snd e].

(** The variables of the loop other than [edges_out]. *)
Definition without_edges (st : walk_state) : walk_state :=
  mk_state (verts_out st) [] (index st) (edges_copy st) (ed_index st) (or_side st).

(* ================================================================== *)
(** * Properties *)

(* ================================================================== *)
(** ** Numbers *)

Lemma num_ltb_asym (a b : num) : num_ltb a b = true -> num_ltb b a = false.
Proof.
  unfold num_ltb. intros H.
  apply negb_true_iff in H. apply negb_false_iff.
  apply Qle_bool_iff.
  destruct (Qlt_le_dec a b) as [Hlt | Hle].
  - apply Qlt_le_weak. exact Hlt.
  - apply Qle_bool_iff in Hle. congruence.
Qed.

Lemma num_ltb_negtrans (a b c : num) :
  num_ltb b a = false -> num_ltb c b = false -> num_ltb c a = false.
Proof.
  unfold num_ltb. intros H1 H2.
  apply negb_false_iff in H1, H2. apply negb_false_iff.
  apply Qle_bool_iff in H1, H2. apply Qle_bool_iff.
  eapply Qle_trans; eassumption.
Qed.

Lemma num_ltb_opp (a b : num) : num_ltb (- a)%Qc (- b)%Qc = num_ltb b a.
Proof.
  unfold num_ltb. f_equal.
  apply eq_true_iff_eq. rewrite !Qle_bool_iff.
  change (- b <= - a <-> a <= b)%Qc.
  split; intros H.
  - apply Qcopp_le_compat in H. now rewrite !Qcopp_involutive in H.
  - now apply Qcopp_le_compat.
Qed.

Lemma num_eqb_eq (a b : num) : num_eqb a b = true <-> a = b.
Proof.
  unfold num_eqb. rewrite Qeq_bool_iff. split.
  - apply Qc_is_canon.
  - intros ->. reflexivity.
Qed.

Lemma point_eqb_eq (p q : point) : point_eqb p q = true <-> p = q.
Proof.
  destruct p as [[a b] c], q as [[a' b'] c']. unfold point_eqb.
  rewrite !andb_true_iff, !num_eqb_eq. split.
  - intros [[-> ->] ->]. reflexivity.
  - intros H. inversion H. auto.
Qed.

Lemma point_eqb_refl (p : point) : point_eqb p p = true.
Proof. now apply point_eqb_eq. Qed.

(* ================================================================== *)
(** ** Membership and positions *)

Section MembershipFacts.
Context {A : Type}.
Variable eqb : A -> A -> bool.
Hypothesis eqb_eq : forall a b, eqb a b = true <-> a = b.

Lemma contains_In (x : A) (l : list A) : contains eqb x l = true <-> In x l.
Proof.
  unfold contains. rewrite existsb_exists. split.
  - intros (y & Hy & E). apply eqb_eq in E. now subst.
  - intros H. exists x. split; [exact H | now apply eqb_eq].
Qed.

Lemma contains_not_In (x : A) (l : list A) : contains eqb x l = false <-> ~ In x l.
Proof.
  rewrite <- contains_In. destruct (contains eqb x l); split; congruence.
Qed.

Lemma find_index_Some (x : A) (l : list A) (k : nat) :
  find_index eqb x l = Some k ->
  nth_error l k = Some x /\ ~ In x (firstn k l).
Proof.
  revert k. induction l as [| y l IH]; simpl; intros k H; [discriminate |].
  destruct (eqb x y) eqn:E.
  - inversion H; subst. apply eqb_eq in E. subst. simpl. auto.
  - destruct (find_index eqb x l) as [k' |]; [| discriminate].
    inversion H; subst. destruct (IH k' eq_refl) as [H1 H2].
    simpl. split; [exact H1 |].
    intros [-> | Hin]; [| auto].
    assert (eqb x x = true) by now apply eqb_eq. congruence.
Qed.

Lemma find_index_None (x : A) (l : list A) :
  find_index eqb x l = None <-> ~ In x l.
Proof.
  induction l as [| y l IH]; simpl; [tauto |].
  destruct (eqb x y) eqn:E.
  - apply eqb_eq in E. subst. split; [discriminate | tauto].
  - assert (y <> x).
    { intros ->. assert (eqb x x = true) by now apply eqb_eq. congruence. }
    destruct (find_index eqb x l); simpl.
    + split; [discriminate |]. intros Hn.
      assert (Hl : ~ In x l) by tauto.
      apply IH in Hl. discriminate.
    + split; [| reflexivity]. intros _ [-> | Hin]; [congruence |].
      destruct IH as [IH _]. now apply IH.
Qed.
End MembershipFacts.

(* ================================================================== *)
(** ** The stable sort *)

Section SortFacts.
Context {A : Type}.
Variable ltb : A -> A -> bool.

Lemma insert_perm (x : A) (s : list A) : Permutation (insert ltb x s) (x :: s).
Proof.
  induction s as [| y s IH]; simpl; [reflexivity |].
  destruct (ltb y x); [| reflexivity].
  rewrite IH. apply perm_swap.
Qed.

Lemma isort_perm (l : list A) : Permutation (isort ltb l) l.
Proof.
  induction l as [| x l IH]; simpl; [reflexivity |].
  rewrite insert_perm. now constructor.
Qed.

Lemma sorted_rev_perm (l : list A) : Permutation (rev (isort ltb (rev l))) l.
Proof.
  rewrite <- Permutation_rev, isort_perm. symmetry. apply Permutation_rev.
Qed.

(** [<] is a strict weak order: asymmetric, and "not greater" is
    transitive. *)
Hypothesis ltb_asym : forall a b, ltb a b = true -> ltb b a = false.
Hypothesis ltb_negtrans :
  forall a b c, ltb b a = false -> ltb c b = false -> ltb c a = false.

Lemma lex_asym (R : A -> A -> Prop) :
  (forall a b, R a b -> R b a -> False) ->
  forall a b, lex ltb R a b -> lex ltb R b a -> False.
Proof.
  intros HR a b [H1 H2] [H3 H4]. eauto.
Qed.

Lemma insert_lex (R : A -> A -> Prop) (x : A) (s : list A) :
  StronglySorted (lex ltb R) s -> Forall (R x) s ->
  StronglySorted (lex ltb R) (insert ltb x s).
Proof.
  induction s as [| y s IH]; simpl; intros Hs Hx.
  - repeat constructor.
  - apply StronglySorted_inv in Hs. destruct Hs as [Hs Hy].
    apply Forall_cons_iff in Hx. destruct Hx as [Hxy Hx].
    destruct (ltb y x) eqn:E.
    + constructor; [now apply IH |].
      apply (Permutation_Forall (x := x :: s)).
      * symmetry. apply insert_perm.
      * constructor; [| exact Hy].
        split; [now apply ltb_asym | congruence].
    + constructor; [now constructor |].
      constructor; [split; auto |].
      rewrite Forall_forall in *. intros z Hz.
      split; [| auto].
      destruct (Hy z Hz) as [Hyz _]. eapply ltb_negtrans; eassumption.
Qed.

(** Stability: a list arranged by [R] is sorted into the order [lex ltb R]. *)
Lemma isort_stable (R : A -> A -> Prop) (l : list A) :
  StronglySorted R l -> StronglySorted (lex ltb R) (isort ltb l).
Proof.
  induction l as [| x l IH]; simpl; intros H; [constructor |].
  apply StronglySorted_inv in H. destruct H as [Hl Hx].
  apply insert_lex; [now apply IH |].
  apply (Permutation_Forall (x := l)); [| exact Hx].
  symmetry. apply isort_perm.
Qed.
End SortFacts.

Section Unique.
Context {A : Type}.
Variable R : A -> A -> Prop.
Hypothesis R_asym : forall a b, R a b -> R b a -> False.

(** Two arrangements of the same elements in a strict order coincide. *)
Lemma sorted_unique (l1 l2 : list A) :
  Permutation l1 l2 -> StronglySorted R l1 -> StronglySorted R l2 -> l1 = l2.
Proof.
  revert l2. induction l1 as [| a l1 IH]; intros l2 HP H1 H2.
  - apply Permutation_nil in HP. now subst.
  - destruct l2 as [| b l2].
    { symmetry in HP. apply Permutation_nil in HP. discriminate. }
    apply StronglySorted_inv in H1, H2.
    destruct H1 as [H1 Ha], H2 as [H2 Hb].
    rewrite Forall_forall in Ha, Hb.
    assert (a = b) as ->.
    { assert (Hin1 : In a (b :: l2)).
      { eapply Permutation_in; [exact HP | now left]. }
      assert (Hin2 : In b (a :: l1)).
      { eapply Permutation_in; [symmetry; exact HP | now left]. }
      destruct Hin1 as [-> | Hin1]; [reflexivity |].
      destruct Hin2 as [-> | Hin2]; [reflexivity |].
      exfalso. eapply R_asym; [apply Ha | apply Hb]; eassumption. }
    f_equal. apply IH; auto.
    eapply Permutation_cons_inv; eassumption.
Qed.

Lemma StronglySorted_app (l1 l2 : list A) :
  StronglySorted R l1 -> StronglySorted R l2 ->
  (forall a b, In a l1 -> In b l2 -> R a b) ->
  StronglySorted R (l1 ++ l2).
Proof.
  induction l1 as [| x l1 IH]; simpl; intros H1 H2 H12; [exact H2 |].
  apply StronglySorted_inv in H1. destruct H1 as [H1 Hx].
  constructor; [apply IH; auto |].
  apply Forall_app. split; [exact Hx |].
  apply Forall_forall. auto.
Qed.
End Unique.

Lemma StronglySorted_rev {A : Type} (R : A -> A -> Prop) (l : list A) :
  StronglySorted R l -> StronglySorted (fun a b => R b a) (rev l).
Proof.
  induction 1 as [| x l Hl IH Hx]; simpl; [constructor |].
  apply StronglySorted_app; [exact IH | repeat constructor |].
  intros a b Ha [<- | []]. rewrite Forall_forall in Hx.
  apply Hx. now apply in_rev.
Qed.

Lemma StronglySorted_impl {A : Type} (R R' : A -> A -> Prop) (l : list A) :
  (forall a b, R a b -> R' a b) -> StronglySorted R l -> StronglySorted R' l.
Proof.
  intros HR. induction 1 as [| x l Hl IH Hx]; constructor; [exact IH |].
  eapply Forall_impl; [| exact Hx]. auto.
Qed.

Lemma isort_ext {A : Type} (lt1 lt2 : A -> A -> bool) (l : list A) :
  (forall a b, lt1 a b = lt2 a b) -> isort lt1 l = isort lt2 l.
Proof.
  intros E. induction l as [| x l IH]; simpl; [reflexivity |].
  rewrite IH. generalize (isort lt2 l). intros s.
  induction s as [| y s IHs]; simpl; [reflexivity |].
  now rewrite E, IHs.
Qed.

(** [sorted(..., reverse=True)] of a list whose arrangement is a strict
    order is the stable sort for the opposite comparison of keys. *)
Lemma sorted_reverse {A K : Type} (kltb : K -> K -> bool) (key : A -> K)
    (R : A -> A -> Prop) (l : list A) :
  (forall a b, kltb a b = true -> kltb b a = false) ->
  (forall a b c, kltb b a = false -> kltb c b = false -> kltb c a = false) ->
  (forall a b, R a b -> R b a -> False) ->
  StronglySorted R l ->
  sorted kltb key true l = isort (fun a b => kltb (key b) (key a)) l.
Proof.
  intros Hasym Hnt HR Hl. unfold sorted.
  set (lt := fun a b => kltb (key a) (key b)).
  set (gt := fun a b => kltb (key b) (key a)).
  apply (sorted_unique (R := lex gt R)).
  - now apply lex_asym.
  - rewrite sorted_rev_perm. symmetry. apply isort_perm.
  - apply StronglySorted_rev in Hl.
    apply (isort_stable lt) in Hl; unfold lt; eauto.
    apply StronglySorted_rev in Hl.
    eapply StronglySorted_impl; [| exact Hl].
    unfold lex, gt. simpl. tauto.
  - apply isort_stable; unfold gt; eauto.
Qed.

(* ================================================================== *)
(** ** Items and their indices *)

Lemma key_lt_asym {A : Type} (key : A -> num) (a b : A) :
  key_lt key a b = true -> key_lt key b a = false.
Proof. apply num_ltb_asym. Qed.

Lemma key_lt_negtrans {A : Type} (key : A -> num) (a b c : A) :
  key_lt key b a = false -> key_lt key c b = false -> key_lt key c a = false.
Proof. apply num_ltb_negtrans. Qed.

Lemma stable_sort_by_perm {A : Type} (key : A -> num) (l : list A) :
  Permutation (stable_sort_by key l) l.
Proof. apply isort_perm. Qed.

(** [stable_sort_by] is a stable sort: it keeps, between equal keys, the
    arrangement [R] of its argument. *)
Lemma stable_sort_by_stable {A : Type} (key : A -> num) (R : A -> A -> Prop)
    (l : list A) :
  StronglySorted R l -> StronglySorted (lex (key_lt key) R) (stable_sort_by key l).
Proof.
  apply isort_stable.
  - apply key_lt_asym.
  - apply key_lt_negtrans.
Qed.

Lemma sorted_perm {A K : Type} (kltb : K -> K -> bool) (key : A -> K)
    (reverse : bool) (l : list A) :
  Permutation (sorted kltb key reverse l) l.
Proof.
  unfold sorted. destruct reverse.
  - apply sorted_rev_perm.
  - apply isort_perm.
Qed.

Lemma combine_seq_sorted {A : Type} (l : list A) (k : nat) :
  StronglySorted (fun a b : nat * A => fst a < fst b) (combine (seq k (length l)) l).
Proof.
  revert k. induction l as [| x l IH]; intros k; simpl; constructor.
  - apply IH.
  - apply Forall_forall. intros [j y] Hin. simpl.
    apply in_combine_l in Hin. apply in_seq in Hin. lia.
Qed.

Lemma StronglySorted_map {A B : Type} (f : A -> B) (R : B -> B -> Prop) (l : list A) :
  StronglySorted (fun a b => R (f a) (f b)) l -> StronglySorted R (map f l).
Proof.
  induction 1 as [| x l Hl IH Hx]; simpl; constructor; [exact IH |].
  apply Forall_map. exact Hx.
Qed.

Lemma map_fst_enumerate {A : Type} (l : list A) :
  map fst (enumerate l) = seq 0 (length l).
Proof.
  unfold enumerate. generalize 0.
  induction l as [| x l IH]; intros k; simpl; [reflexivity |].
  now rewrite IH.
Qed.

Lemma map_snd_enumerate {A : Type} (l : list A) : map snd (enumerate l) = l.
Proof.
  unfold enumerate. generalize 0.
  induction l as [| x l IH]; intros k; simpl; [reflexivity |].
  now rewrite IH.
Qed.

Lemma length_enumerate {A : Type} (l : list A) : length (enumerate l) = length l.
Proof.
  unfold enumerate. rewrite length_combine, length_seq. apply Nat.min_id.
Qed.

Lemma tag_items_index (v : list point) :
  map item_index (tag_items v) = seq 0 (length v).
Proof.
  unfold tag_items. rewrite map_map, <- map_fst_enumerate.
  apply map_ext. intros [i [[x y] z]]. reflexivity.
Qed.

Lemma tag_items_coords (v : list point) : map item_coords (tag_items v) = v.
Proof.
  unfold tag_items. rewrite map_map.
  rewrite <- (map_snd_enumerate v) at 2.
  apply map_ext. intros [i [[x y] z]]. reflexivity.
Qed.

Lemma tag_items_sorted (v : list point) : StronglySorted by_index (tag_items v).
Proof.
  unfold tag_items. apply StronglySorted_map.
  eapply StronglySorted_impl; [| apply combine_seq_sorted].
  intros [i [[x y] z]] [j [[x' y'] z']]. unfold by_index. simpl. auto.
Qed.

Lemma by_index_asym (a b : item) : by_index a b -> by_index b a -> False.
Proof. unfold by_index. lia. Qed.

(* ================================================================== *)
(** ** XYZ mode *)

Lemma xyz_sort_unfold (rx ry rz : bool) (v : list point) :
  xyz_sort rx ry rz v =
  sorted num_ltb (itemgetter 2) rz
    (sorted num_ltb (itemgetter 1) ry
       (sorted num_ltb (itemgetter 0) rx (tag_items v))).
Proof. reflexivity. Qed.

(** One [sorted] call of the XYZ loop is the stable sort on the signed
    coordinate. *)
Lemma sorted_signed_key (k : nat) (reverse : bool) (R : item -> item -> Prop)
    (l : list item) :
  (forall a b, R a b -> R b a -> False) ->
  StronglySorted R l ->
  sorted num_ltb (itemgetter k) reverse l = stable_sort_by (signed_key k reverse) l.
Proof.
  intros HR Hl. destruct reverse.
  - rewrite (sorted_reverse num_ltb (itemgetter k) (R := R)); auto.
    + apply isort_ext. intros a b. unfold key_lt, signed_key.
      now rewrite num_ltb_opp.
    + apply num_ltb_asym.
    + apply num_ltb_negtrans.
  - reflexivity.
Qed.

Lemma xyz_order_asym (rx ry rz : bool) (a b : item) :
  xyz_order rx ry rz a b -> xyz_order rx ry rz b a -> False.
Proof.
  unfold xyz_order. repeat apply lex_asym. apply by_index_asym.
Qed.

Lemma xyz_spec_sorted (rx ry rz : bool) (v : list point) :
  StronglySorted (xyz_order rx ry rz) (xyz_spec rx ry rz v).
Proof.
  unfold xyz_order, xyz_spec.
  repeat apply stable_sort_by_stable. apply tag_items_sorted.
Qed.

Lemma xyz_spec_perm (rx ry rz : bool) (v : list point) :
  Permutation (xyz_spec rx ry rz v) (tag_items v).
Proof.
  unfold xyz_spec. now rewrite !stable_sort_by_perm.
Qed.

Lemma xyz_sort_spec (rx ry rz : bool) (v : list point) :
  xyz_sort rx ry rz v = xyz_spec rx ry rz v.
Proof.
  rewrite xyz_sort_unfold. unfold xyz_spec.
  rewrite (sorted_signed_key 0 rx (R := by_index));
    [| apply by_index_asym | apply tag_items_sorted].
  rewrite (sorted_signed_key 1 ry
             (R := lex (key_lt (signed_key 0 rx)) by_index));
    [| apply lex_asym, by_index_asym
     | apply stable_sort_by_stable, tag_items_sorted].
  rewrite (sorted_signed_key 2 rz
             (R := lex (key_lt (signed_key 1 ry))
                     (lex (key_lt (signed_key 0 rx)) by_index)));
    [reflexivity
    | repeat apply lex_asym; apply by_index_asym
    | repeat apply stable_sort_by_stable; apply tag_items_sorted].
Qed.

Lemma mapM_Ok {A B : Type} (f : A -> B) (l : list A) :
  mapM (fun a => Ok (f a)) l = Ok (map f l).
Proof.
  induction l as [| a l IH]; simpl; [reflexivity |]. now rewrite IH.
Qed.

(** Without the remapping, a sorted list is emitted as it is. *)
Lemma emit_items_order (s_v : list item) (p : list (list nat)) :
  emit_items false true (PyList s_v) p =
  Ok (mk_out (map item_coords s_v) None (Some (map item_index s_v))).
Proof.
  unfold emit_items, emit_sorted. simpl. now rewrite mapM_Ok.
Qed.

Lemma tag_items_swap (v : list point) :
  tag_items v = map (fun ie : nat * point => (snd ie, fst ie)) (enumerate v).
Proof.
  unfold tag_items. apply map_ext. intros [i [[x y] z]]. reflexivity.
Qed.

(** Numbering afresh a list arranged by a relation on coordinates keeps it
    arranged, now also by index. *)
Lemma retag_sorted (R : item -> item -> Prop) (s : list item) :
  (forall a b i j, R a b -> R (item_coords a, i) (item_coords b, j)) ->
  StronglySorted R s ->
  StronglySorted (fun a b => R a b /\ by_index a b)
                 (tag_items (map item_coords s)).
Proof.
  intros HR Hs. rewrite tag_items_swap. unfold enumerate.
  rewrite length_map. generalize 0.
  induction Hs as [| a s Hs IH Ha]; intros k; simpl; constructor.
  - apply IH.
  - apply Forall_map, Forall_forall. intros [j c] Hin. simpl.
    pose proof (in_combine_l _ _ _ _ Hin) as Hj.
    pose proof (in_combine_r _ _ _ _ Hin) as Hc.
    apply in_seq in Hj. apply in_map_iff in Hc. destruct Hc as (b & <- & Hb).
    rewrite Forall_forall in Ha. split.
    + apply HR. now apply Ha.
    + unfold by_index. simpl. lia.
Qed.

Lemma xyz_coords_order_retag (rx ry rz : bool) (a b : item) (i j : nat) :
  xyz_coords_order rx ry rz a b ->
  xyz_coords_order rx ry rz (item_coords a, i) (item_coords b, j).
Proof.
  destruct a as [[[x y] z] ia], b as [[[x' y'] z'] ib]. exact (fun H => H).
Qed.

(** Sorting the vertex output of [xyz_spec] again leaves it in place. *)
Lemma xyz_spec_idempotent (rx ry rz : bool) (v : list point) :
  let v' := map item_coords (xyz_spec rx ry rz v) in
  xyz_spec rx ry rz v' = tag_items v'.
Proof.
  intros v'.
  apply (sorted_unique (R := xyz_order rx ry rz)).
  - apply xyz_order_asym.
  - apply xyz_spec_perm.
  - apply xyz_spec_sorted.
  - subst v'.
    eapply StronglySorted_impl;
      [| apply (retag_sorted (R := xyz_coords_order rx ry rz))].
    + unfold xyz_order, xyz_coords_order, lex. tauto.
    + apply xyz_coords_order_retag.
    + eapply StronglySorted_impl; [| apply xyz_spec_sorted].
      unfold xyz_order, xyz_coords_order, lex. tauto.
Qed.


(** C9.  Axis-sort idempotence: for any reverse flags, the XYZ sort applied
    to the vertex output of an XYZ sort with the same flags returns these
    vertices unchanged, with the identity as item order. *)
Theorem xyz_sort_idempotent :
  forall rx ry rz v p p',
    let v' := map item_coords (xyz_sort rx ry rz v) in
    process_XYZ rx ry rz false true v p =
      Ok (mk_out v' None (Some (map item_index (xyz_sort rx ry rz v)))) /\
    process_XYZ rx ry rz false true v' p' =
      Ok (mk_out v' None (Some (seq 0 (length v)))).
Proof.
  intros rx ry rz v p p' v'. unfold process_XYZ.
  rewrite !emit_items_order. split; [reflexivity |].
  subst v'. rewrite !xyz_sort_spec.
  rewrite (xyz_spec_idempotent rx ry rz v).
  rewrite tag_items_coords, tag_items_index, length_map.
  now rewrite (Permutation_length (xyz_spec_perm rx ry rz v)),
    <- (length_map item_index), tag_items_index, length_seq.
Qed.

(* ================================================================== *)
(** ** Exceptions and the remapping *)

Lemma mapM_Raise {A B : Type} (f : A -> result B) (l : list A) (e : exn) :
  mapM f l = Raise e -> exists x, In x l /\ f x = Raise e.
Proof.
  induction l as [| a l IH]; simpl; [discriminate |].
  destruct (f a) as [b | e'] eqn:Ea; simpl.
  - destruct (mapM f l) as [bs | e'']; simpl; [discriminate |].
    intros H. inversion H; subst.
    destruct (IH eq_refl) as (x & Hx & Ex). eauto.
  - intros H. inversion H; subst. eauto.
Qed.

Lemma mapM_Forall2 {A B : Type} (f : A -> result B) (l : list A) (r : list B) :
  mapM f l = Ok r <-> Forall2 (fun x y => f x = Ok y) l r.
Proof.
  revert r. induction l as [| a l IH]; simpl; intros r.
  - split.
    + intros H. inversion H. constructor.
    + intros H. inversion H. reflexivity.
  - destruct (f a) as [b | e] eqn:Ea; simpl.
    + destruct (mapM f l) as [bs | e]; simpl.
      * split.
        -- intros H. inversion H; subst. constructor; [exact Ea |]. now apply IH.
        -- intros H. inversion H as [| ? y ? r' Hy Hr]; subst.
           apply IH in Hr. inversion Hr; subst. congruence.
      * split; [discriminate |].
        intros H. inversion H as [| ? y ? r' Hy Hr]; subst.
        apply IH in Hr. discriminate.
    + split; [discriminate |].
      intros H. inversion H; subst. congruence.
Qed.

Lemma mapM_total {A B : Type} (f : A -> result B) (l : list A) :
  (forall x, In x l -> exists y, f x = Ok y) -> exists r, mapM f l = Ok r.
Proof.
  induction l as [| a l IH]; simpl; intros H; [eauto |].
  destruct (H a (or_introl eq_refl)) as [b ->].
  destruct IH as [bs ->]; [auto |]. simpl. eauto.
Qed.

Lemma mapM_In_Raise {A B : Type} (f : A -> result B) (l : list A) (x : A) (e : exn) :
  In x l -> f x = Raise e -> exists e', mapM f l = Raise e'.
Proof.
  intros Hx Ex. destruct (mapM f l) as [r | e'] eqn:E; [| eauto].
  apply mapM_Forall2 in E. exfalso.
  induction E as [| a b l r Hab E IH]; simpl in Hx; [contradiction |].
  destruct Hx as [-> | Hx]; [congruence | auto].
Qed.

Lemma In_enumerate {A : Type} (l : list A) (j : nat) (x : A) :
  In (j, x) (enumerate l) <-> nth_error l j = Some x.
Proof.
  unfold enumerate.
  assert (G : forall k, In (j, x) (combine (seq k (length l)) l) <->
                        k <= j /\ nth_error l (j - k) = Some x).
  { induction l as [| a l IH]; intros k; simpl.
    - split; [contradiction |]. intros [_ H]. destruct (j - k); discriminate.
    - rewrite IH. split.
      + intros [H | [H1 H2]].
        * inversion H; subst. rewrite Nat.sub_diag. auto.
        * split; [lia |]. replace (j - k) with (S (j - S k)) by lia. exact H2.
      + intros [H1 H2]. destruct (j - k) as [| m] eqn:E.
        * left. simpl in H2. inversion H2. f_equal. lia.
        * right. split; [lia |]. simpl in H2.
          replace (j - S k) with m by lia. exact H2. }
  rewrite G, Nat.sub_0_r. split; [tauto | split; [lia | assumption]].
Qed.

Lemma dict_get_Ok (d : dict) (k v : nat) : dict_get d k = Ok v -> In (k, v) d.
Proof.
  induction d as [| [k' v'] d IH]; simpl; [discriminate |].
  destruct (Nat.eqb_spec k k') as [-> | Hne].
  - intros H. inversion H. now left.
  - auto.
Qed.

Lemma dict_get_Raise (d : dict) (k : nat) (e : exn) :
  dict_get d k = Raise e <-> e = KeyError /\ ~ In k (map fst d).
Proof.
  induction d as [| [k' v'] d IH]; simpl.
  - split; [intros H; inversion H; auto | intros [-> _]; reflexivity].
  - destruct (Nat.eqb_spec k k') as [-> | Hne].
    + split; [discriminate | tauto].
    + rewrite IH. split; intros [H1 H2]; (split; [exact H1 |]); intuition congruence.
Qed.

Section EmitFacts.
Context {I : Type}.
Variable vert_of : I -> result point.
Variable index_of : I -> nat.

Lemma build_v_index_eq (s_v : list I) :
  build_v_index index_of s_v =
  rev (map (fun ji : nat * I => (index_of (snd ji), fst ji)) (enumerate s_v)).
Proof.
  unfold build_v_index. rewrite <- (app_nil_r (rev _)).
  generalize (@nil (nat * nat)). generalize (enumerate s_v).
  induction l as [| ji l IH]; intros d; simpl; [reflexivity |].
  rewrite IH. unfold dict_set. now rewrite <- app_assoc.
Qed.

Lemma build_v_index_keys (s_v : list I) (n : nat) :
  In n (map fst (build_v_index index_of s_v)) <-> In n (map index_of s_v).
Proof.
  rewrite build_v_index_eq, map_rev, <- in_rev, map_map. simpl.
  rewrite <- (map_snd_enumerate s_v) at 2. now rewrite map_map.
Qed.

(** A looked-up position holds an item with the index looked up. *)
Lemma build_v_index_get (s_v : list I) (n j : nat) :
  dict_get (build_v_index index_of s_v) n = Ok j ->
  nth_error (map index_of s_v) j = Some n.
Proof.
  intros H. apply dict_get_Ok in H.
  rewrite build_v_index_eq, <- in_rev, in_map_iff in H.
  destruct H as ([j' it] & E & Hin). simpl in E. inversion E; subst.
  apply In_enumerate in Hin. now rewrite nth_error_map, Hin.
Qed.

(** The remapping raises, and then [KeyError], exactly when an entry of
    [p] is the index of no item. *)
Lemma remap_Raise (s_v : list I) (p : list (list nat)) :
  (exists e, remap (build_v_index index_of s_v) p = Raise e) <->
  (exists pe n, In pe p /\ In n pe /\ ~ In n (map index_of s_v)).
Proof.
  unfold remap. split.
  - intros [e H]. apply mapM_Raise in H. destruct H as (pe & Hpe & H).
    apply mapM_Raise in H. destruct H as (n & Hn & H).
    apply dict_get_Raise in H. destruct H as [_ H].
    rewrite build_v_index_keys in H. eauto.
  - intros (pe & n & Hpe & Hn & Hnot).
    assert (E : dict_get (build_v_index index_of s_v) n = Raise KeyError).
    { apply dict_get_Raise. now rewrite build_v_index_keys. }
    destruct (mapM_In_Raise _ _ _ Hn E) as [e' E'].
    eapply mapM_In_Raise; eassumption.
Qed.

Lemma remap_KeyError (s_v : list I) (p : list (list nat)) (e : exn) :
  remap (build_v_index index_of s_v) p = Raise e -> e = KeyError.
Proof.
  unfold remap. intros H. apply mapM_Raise in H. destruct H as (pe & _ & H).
  apply mapM_Raise in H. destruct H as (n & _ & H).
  now apply dict_get_Raise in H.
Qed.

(** A successful remapping replaces every entry by a position of the item
    that carries it. *)
Lemma remap_Ok (s_v : list I) (p r : list (list nat)) :
  remap (build_v_index index_of s_v) p = Ok r ->
  Forall2 (Forall2 (fun n j => nth_error (map index_of s_v) j = Some n)) p r.
Proof.
  unfold remap. intros H. apply mapM_Forall2 in H.
  eapply Forall2_impl; [| exact H]. simpl. intros pe re Hpe.
  apply mapM_Forall2 in Hpe.
  eapply Forall2_impl; [| exact Hpe]. simpl. apply build_v_index_get.
Qed.

(** What [emit_sorted] returns for a list. *)
Lemma emit_sorted_list (poly_output order_output : bool) (s_v : list I)
    (p : list (list nat)) (out : object_out) :
  emit_sorted vert_of index_of poly_output order_output (PyList s_v) p = Ok out ->
  mapM vert_of s_v = Ok (out_verts out) /\
  out_order out = (if order_output then Some (map index_of s_v) else None) /\
  (if poly_output
   then exists r, remap (build_v_index index_of s_v) p = Ok r /\ out_poly out = Some r
   else out_poly out = None).
Proof.
  unfold emit_sorted. simpl.
  destruct (mapM vert_of s_v) as [verts | e]; simpl; [| discriminate].
  destruct poly_output; simpl.
  - destruct (remap (build_v_index index_of s_v) p) as [r | e]; simpl;
      [| discriminate].
    intros H. inversion H; subst. simpl. eauto.
  - intros H. inversion H; subst. simpl. auto.
Qed.

(** [emit_sorted] on a list raises only through the vertex lookup or the
    remapping. *)
Lemma emit_sorted_list_total (poly_output order_output : bool) (s_v : list I)
    (p : list (list nat)) :
  (exists verts, mapM vert_of s_v = Ok verts) ->
  (poly_output = true ->
   forall pe n, In pe p -> In n pe -> In n (map index_of s_v)) ->
  exists out,
    emit_sorted vert_of index_of poly_output order_output (PyList s_v) p = Ok out.
Proof.
  intros [verts Hv] Hp. unfold emit_sorted. simpl. rewrite Hv. simpl.
  destruct poly_output; simpl; [| eauto].
  destruct (remap (build_v_index index_of s_v) p) as [r | e] eqn:E; simpl;
    [eauto |].
  exfalso.
  assert (Hex : exists e, remap (build_v_index index_of s_v) p = Raise e) by eauto.
  apply remap_Raise in Hex. destruct Hex as (pe & n & Hpe & Hn & Hnot).
  apply Hnot. now apply (Hp eq_refl pe n).
Qed.
End EmitFacts.

(* ================================================================== *)
(** ** Distinct keys *)

Lemma all_distinct_NoDup {A : Type} (eqb : A -> A -> bool) (l : list A) :
  (forall a b, eqb a b = true <-> a = b) ->
  all_distinct eqb l = true <-> NoDup l.
Proof.
  intros Heq. induction l as [| x l IH]; simpl.
  - split; [constructor | reflexivity].
  - rewrite andb_true_iff, negb_true_iff, IH.
    change (existsb (eqb x) l) with (contains eqb x l).
    rewrite (contains_not_In eqb Heq). split.
    + intros [H1 H2]. now constructor.
    + intros H. inversion H. auto.
Qed.

Lemma NoDup_points (l : list point) : all_distinct point_eqb l = true -> NoDup l.
Proof. apply all_distinct_NoDup, point_eqb_eq. Qed.

Lemma NoDup_nums (l : list num) : all_distinct num_eqb l = true -> NoDup l.
Proof. apply all_distinct_NoDup, num_eqb_eq. Qed.

Lemma num_ltb_antisym (a b : num) :
  num_ltb a b = false -> num_ltb b a = false -> a = b.
Proof.
  unfold num_ltb. intros H1 H2.
  apply negb_false_iff in H1, H2. apply Qle_bool_iff in H1, H2.
  apply Qc_is_canon. now apply Qle_antisym.
Qed.

Lemma NoDup_map_sorted {A B : Type} (f : A -> B) (l : list A) :
  NoDup (map f l) -> StronglySorted (fun a b => f a <> f b) l.
Proof.
  induction l as [| x l IH]; simpl; intros H; constructor.
  - apply IH. now inversion H.
  - inversion H as [| ? ? Hx Hl]; subst.
    apply Forall_forall. intros y Hy E. apply Hx. rewrite E. now apply in_map.
Qed.

Lemma NoDup_map_inj {A B : Type} (f : A -> B) (l : list A) :
  (forall x y, f x = f y -> x = y) -> NoDup l -> NoDup (map f l).
Proof.
  intros Hf. induction 1 as [| x l Hx Hl IH]; simpl; constructor; [| exact IH].
  rewrite in_map_iff. intros (y & E & Hy). apply Hf in E. now subst.
Qed.

(** With pairwise distinct keys the sorted list is strictly ascending. *)
Lemma stable_sort_by_strict {A : Type} (key : A -> num) (l : list A) :
  NoDup (map key l) ->
  StronglySorted (fun a b => key_lt key a b = true) (stable_sort_by key l).
Proof.
  intros H. apply NoDup_map_sorted in H.
  apply (stable_sort_by_stable key) in H.
  eapply StronglySorted_impl; [| exact H].
  intros a b [H1 H2]. destruct (key_lt key a b) eqn:E; [reflexivity |].
  exfalso. apply (H2 eq_refl). now apply num_ltb_antisym.
Qed.

(** With pairwise distinct keys, reversing the sorted list is sorting on
    the negated key. *)
Lemma rev_stable_sort_by {A : Type} (key : A -> num) (l : list A) :
  NoDup (map key l) ->
  rev (stable_sort_by key l) = stable_sort_by (fun a => (- key a)%Qc) l.
Proof.
  intros H.
  apply (sorted_unique (R := fun a b => key_lt key b a = true)).
  - intros a b H1 H2. apply key_lt_asym in H1. congruence.
  - rewrite <- Permutation_rev, !stable_sort_by_perm. reflexivity.
  - apply (StronglySorted_rev (R := fun a b => key_lt key a b = true)).
    now apply stable_sort_by_strict.
  - eapply StronglySorted_impl;
      [| apply (stable_sort_by_strict (fun a => (- key a)%Qc))].
    + intros a b. unfold key_lt. now rewrite num_ltb_opp.
    + rewrite <- (map_map key Qcopp). apply NoDup_map_inj; [| exact H].
      intros x y E. now rewrite <- (Qcopp_involutive x), E, Qcopp_involutive.
Qed.

(* ================================================================== *)
(** ** Auto Direction mode *)

Lemma emit_items_list (po oo : bool) (s_v : list item) (p : list (list nat))
    (out : object_out) :
  emit_items po oo (PyList s_v) p = Ok out ->
  out_verts out = map item_coords s_v /\
  out_order out = (if oo then Some (map item_index s_v) else None) /\
  (if po
   then exists r, out_poly out = Some r /\
        Forall2 (Forall2 (fun n j => nth_error (map item_index s_v) j = Some n)) p r
   else out_poly out = None).
Proof.
  intros H. apply emit_sorted_list in H. destruct H as (Hv & Ho & Hp).
  rewrite mapM_Ok in Hv. inversion Hv as [Hv'].
  split; [reflexivity |]. split; [exact Ho |].
  destruct po; [| exact Hp].
  destruct Hp as (r & Hr & E). exists r. split; [exact E |].
  now apply remap_Ok in Hr.
Qed.

Lemma adir_sort_off (line_direction : list point -> point)
    (dot : point -> point -> num) (v : list point) :
  adir_sort line_direction dot false v =
  PyList (adir_spec dot (line_direction v) false v).
Proof. reflexivity. Qed.

Lemma adir_sort_on (line_direction : list point -> point)
    (dot : point -> point -> num) (v : list point) :
  adir_sort line_direction dot true v =
  PyIter (rev (adir_spec dot (line_direction v) false v)).
Proof. reflexivity. Qed.

(* ================================================================== *)
(** ** Connectivity mode: what an iteration changes *)

Lemma getitem_Ok {A : Type} (l : list A) (i : nat) (a : A) :
  getitem l i = Ok a <-> nth_error l i = Some a.
Proof.
  unfold getitem. destruct (nth_error l i); split; congruence.
Qed.

Lemma list_index_Ok {A : Type} (eqb : A -> A -> bool) (x : A) (l : list A) (k : nat) :
  list_index eqb x l = Ok k <-> find_index eqb x l = Some k.
Proof.
  unfold list_index. destruct (find_index eqb x l); split; congruence.
Qed.

Lemma find_index_fresh {A : Type} (eqb : A -> A -> bool) (x : A) (l : list A) (k : nat) :
  (forall a b, eqb a b = true <-> a = b) ->
  ~ In x l -> find_index eqb x (l ++ [x]) = Some k -> k = length l.
Proof.
  intros Heq Hnot H. apply (find_index_Some eqb Heq) in H. destruct H as [H1 H2].
  destruct (Nat.lt_trichotomy k (length l)) as [Hlt | [-> | Hgt]]; [| reflexivity |].
  - rewrite nth_error_app1 in H1 by exact Hlt.
    apply nth_error_In in H1. contradiction.
  - exfalso. apply H2. rewrite firstn_app.
    apply in_or_app. right.
    replace (k - length l) with (S (k - length l - 1)) by lia. now left.
Qed.

Section WalkFacts.
Variable verts_in : list point.
Variable edges_in : list edge.
Variable limiting : bool.
Variable limits : list limit.

(** A visit either finds the vertex, or appends it and its index. *)
Lemma visit_spec (vo : list point) (idx : list nat) (side : nat)
    (vo' : list point) (idx' : list nat) (k : nat) :
  visit verts_in vo idx side = Ok (vo', idx', k) ->
  exists p,
    nth_error verts_in side = Some p /\ nth_error vo' k = Some p /\
    ((In p vo /\ vo' = vo /\ idx' = idx) \/
     (~ In p vo /\ vo' = vo ++ [p] /\ idx' = idx ++ [side] /\ k = length vo)).
Proof.
  unfold visit.
  destruct (getitem verts_in side) as [p | e] eqn:Ep; simpl; [| discriminate].
  apply getitem_Ok in Ep. exists p. split; [exact Ep |].
  destruct (contains point_eqb p vo) eqn:Ec.
  - apply (contains_In point_eqb point_eqb_eq) in Ec.
    destruct (list_index point_eqb p vo) as [k' | e] eqn:Ek; simpl in H;
      [| discriminate].
    inversion H; subst. apply list_index_Ok in Ek.
    apply (find_index_Some point_eqb point_eqb_eq) in Ek. tauto.
  - apply (contains_not_In point_eqb point_eqb_eq) in Ec.
    destruct (list_index point_eqb p (vo ++ [p])) as [k' | e] eqn:Ek; simpl in H;
      [| discriminate].
    inversion H; subst. apply list_index_Ok in Ek.
    pose proof (find_index_fresh point_eqb p vo point_eqb_eq Ec Ek) as ->.
    split.
    + rewrite nth_error_app2, Nat.sub_diag by lia. reflexivity.
    + right. auto.
Qed.

Lemma take_edge_spec (st st' : walk_state) (ed side k : nat) :
  take_edge st ed side k = Ok st' ->
  outputs st' = outputs st /\ ed_index st' = ed /\ or_side st' = side /\
  pop_lower_level (edges_copy st) k = Ok (edges_copy st').
Proof.
  unfold take_edge.
  destruct (pop_lower_level (edges_copy st) k) as [ec | e]; simpl; [| discriminate].
  intros H. inversion H; subst. auto.
Qed.

Lemma find_next_outputs (st st' : walk_state) (v_index : nat) :
  find_next st v_index = Ok st' -> outputs st' = outputs st.
Proof.
  unfold find_next.
  destruct (contains Nat.eqb v_index (ec0 (edges_copy st))).
  - destruct (list_index _ _ _) as [k | e]; simpl; [| discriminate].
    destruct (getitem _ _) as [ed | e]; simpl; [| discriminate].
    intros H. now apply take_edge_spec in H.
  - destruct (contains Nat.eqb v_index (ec1 (edges_copy st))).
    + destruct (list_index _ _ _) as [k | e]; simpl; [| discriminate].
      destruct (getitem _ _) as [ed | e]; simpl; [| discriminate].
      intros H. now apply take_edge_spec in H.
    + intros H. now inversion H.
Qed.

Lemma restart_outputs (st st' : walk_state) :
  restart limiting limits st = Ok st' -> outputs st' = outputs st.
Proof.
  unfold restart. destruct (negb limiting).
  - destruct (getitem _ _) as [ed | e]; simpl; [| discriminate].
    intros H. now apply take_edge_spec in H.
  - destruct (next_limit limits (index st)) as [lim |].
    + match goal with |- context [bind ?m _] => destruct m as [k | e] end;
        simpl; [| discriminate].
      intros H. now apply take_edge_spec in H.
    + intros H. now inversion H.
Qed.

(** An iteration emits the current edge and leaves the outputs alone
    afterwards. *)
Lemma walk_step_outputs (st st' : walk_state) :
  walk_step verts_in edges_in limiting limits st = Ok st' ->
  exists st1 e,
    emit_edge verts_in edges_in st = Ok (st1, e) /\ outputs st' = outputs st1.
Proof.
  unfold walk_step.
  destruct (emit_edge verts_in edges_in st) as [[st1 e] | err]; simpl;
    [| discriminate].
  destruct (find_next st1 (snd e)) as [st2 | err] eqn:E2; simpl; [| discriminate].
  apply find_next_outputs in E2.
  intros H. exists st1, e. split; [reflexivity |].
  destruct (_ && _).
  - apply restart_outputs in H. congruence.
  - inversion H; subst. exact E2.
Qed.

Lemma current_edge_spec (st : walk_state) (e : edge) :
  current_edge edges_in st = Ok e ->
  exists e0, nth_error edges_in (ed_index st) = Some e0 /\
             (e = e0 \/ e = (snd e0, fst e0)).
Proof.
  unfold current_edge.
  destruct (getitem edges_in (ed_index st)) as [e0 | err] eqn:E; simpl;
    [| discriminate].
  apply getitem_Ok in E. intros H. inversion H; subst.
  exists e0. split; [exact E |]. destruct (or_side st =? 1); auto.
Qed.

Lemma emit_edge_spec (st st1 : walk_state) (e : edge) :
  emit_edge verts_in edges_in st = Ok (st1, e) ->
  exists vo idx a b,
    current_edge edges_in st = Ok e /\
    visit verts_in (verts_out st) (index st) (fst e) = Ok (vo, idx, a) /\
    visit verts_in vo idx (snd e) = Ok (verts_out st1, index st1, b) /\
    edges_out st1 = edges_out st ++ [(a, b)] /\
    edges_copy st1 = edges_copy st /\ ed_index st1 = ed_index st /\
    or_side st1 = or_side st.
Proof.
  unfold emit_edge.
  destruct (current_edge edges_in st) as [e' | err]; simpl; [| discriminate].
  destruct (visit verts_in (verts_out st) (index st) (fst e'))
    as [[[vo idx] a] | err] eqn:E1; simpl; [| discriminate].
  destruct (visit verts_in vo idx (snd e')) as [[[vo' idx'] b] | err] eqn:E2;
    simpl; [| discriminate].
  intros H. inversion H; subst. simpl.
  exists vo, idx, a, b. rewrite E1. auto 10.
Qed.
End WalkFacts.

(* ================================================================== *)
(** ** Connectivity mode: the invariant of the outputs *)

Lemma NoDup_snoc {A : Type} (l : list A) (x : A) :
  NoDup l -> ~ In x l -> NoDup (l ++ [x]).
Proof.
  intros Hl Hx. induction Hl as [| y l Hy Hl IH]; simpl.
  - repeat constructor. exact Hx.
  - constructor.
    + intros Hin. apply in_app_or in Hin. destruct Hin as [Hin | [<- | []]].
      * contradiction.
      * apply Hx. now left.
    + apply IH. intros Hin. apply Hx. now right.
Qed.

Section VisitInvariant.
Variable verts_in : list point.

Lemma at_vertex_app (vo t : list point) (k side : nat) :
  at_vertex verts_in vo k side -> at_vertex verts_in (vo ++ t) k side.
Proof.
  intros (p & H1 & H2). exists p. split; [exact H1 |].
  rewrite nth_error_app1; [exact H2 |].
  apply nth_error_Some. congruence.
Qed.

Lemma at_vertex_lt (vo : list point) (k side : nat) :
  at_vertex verts_in vo k side -> k < length vo.
Proof.
  intros (p & _ & H). apply nth_error_Some. congruence.
Qed.

Lemma covered_app (vo t : list point) (visits : list nat) :
  covered verts_in vo visits -> covered verts_in (vo ++ t) visits.
Proof.
  intros H k Hk. destruct (H k Hk) as (q & H1 & H2).
  exists q. split; [exact H1 |]. apply in_or_app. now left.
Qed.

Lemma first_seen_snoc (idx visits : list nat) (side : nat) :
  first_seen verts_in idx visits -> first_seen verts_in idx (visits ++ [side]).
Proof.
  intros H r Hr. destruct (H r Hr) as (pre & post & -> & Hpre).
  exists pre, (post ++ [side]). split; [| exact Hpre].
  now rewrite <- app_assoc.
Qed.

Lemma first_seen_app (idx visits more : list nat) :
  first_seen verts_in idx visits -> first_seen verts_in idx (visits ++ more).
Proof.
  intros H r Hr. destruct (H r Hr) as (pre & post & -> & Hpre).
  exists pre, (post ++ more). split; [| exact Hpre].
  now rewrite <- app_assoc.
Qed.

(** Looking at vertex [side], whether its coordinates are new or not. *)
Lemma look_inv (vo : list point) (idx visits : list nat) (side : nat) (p : point) :
  nth_error verts_in side = Some p ->
  names verts_in idx vo -> NoDup vo ->
  covered verts_in vo visits -> first_seen verts_in idx visits ->
  let vo' := if contains point_eqb p vo then vo else vo ++ [p] in
  let idx' := if contains point_eqb p vo then idx else idx ++ [side] in
  names verts_in idx' vo' /\ NoDup vo' /\
  covered verts_in vo' (visits ++ [side]) /\
  first_seen verts_in idx' (visits ++ [side]) /\
  In p vo'.
Proof.
  intros Hp Hn Hd Hc Hf.
  destruct (contains point_eqb p vo) eqn:Ec; simpl.
  - apply (contains_In point_eqb point_eqb_eq) in Ec.
    split; [exact Hn |]. split; [exact Hd |]. split; [| split].
    + intros k Hk. apply in_app_or in Hk. destruct Hk as [Hk | [<- | []]]; eauto.
    + exact (first_seen_snoc side Hf).
    + exact Ec.
  - apply (contains_not_In point_eqb point_eqb_eq) in Ec.
    split; [| split; [| split; [| split]]].
    + apply Forall2_app; [exact Hn |]. repeat constructor. exact Hp.
    + now apply NoDup_snoc.
    + intros k Hk. apply in_app_or in Hk. destruct Hk as [Hk | [<- | []]].
      * now apply (covered_app [p] Hc).
      * exists p. split; [exact Hp |]. apply in_or_app. right. now left.
    + intros r Hr. apply in_app_or in Hr. destruct Hr as [Hr | [<- | []]].
      * exact (first_seen_snoc side Hf r Hr).
      * exists visits, []. split; [reflexivity |].
        intros k Hk E. destruct (Hc k Hk) as (q & H1 & H2).
        rewrite Hp in E. congruence.
    + apply in_or_app. right. now left.
Qed.
End VisitInvariant.

Section WalkInvariant.
Variable verts_in : list point.
Variable edges_in : list edge.
Variable limiting : bool.
Variable limits : list limit.

Lemma visit_look (vo : list point) (idx : list nat) (side : nat)
    (vo' : list point) (idx' : list nat) (k : nat) :
  visit verts_in vo idx side = Ok (vo', idx', k) ->
  exists p,
    nth_error verts_in side = Some p /\ nth_error vo' k = Some p /\
    vo' = (if contains point_eqb p vo then vo else vo ++ [p]) /\
    idx' = (if contains point_eqb p vo then idx else idx ++ [side]).
Proof.
  intros H. destruct (visit_spec _ _ _ _ H) as (p & Hp & Hk & Hcase).
  exists p. split; [exact Hp |]. split; [exact Hk |].
  destruct Hcase as [(Hin & -> & ->) | (Hnot & -> & -> & _)].
  - apply (contains_In point_eqb point_eqb_eq) in Hin. now rewrite Hin.
  - apply (contains_not_In point_eqb point_eqb_eq) in Hnot. now rewrite Hnot.
Qed.

Lemma look_grows (p : point) (vo : list point) :
  exists t, (if contains point_eqb p vo then vo else vo ++ [p]) = vo ++ t.
Proof.
  destruct (contains point_eqb p vo).
  - exists []. now rewrite app_nil_r.
  - now exists [p].
Qed.

Lemma reindexed_app (vo t : list point) (tr : list (nat * edge)) (eo : list edge) :
  Forall2 (reindexed verts_in vo) tr eo ->
  Forall2 (reindexed verts_in (vo ++ t)) tr eo.
Proof.
  intros H. eapply Forall2_impl; [| exact H].
  intros ie ab [H1 H2]. split; now apply at_vertex_app.
Qed.

Lemma visits_of_snoc (tr : list (nat * edge)) (i : nat) (e : edge) :
  visits_of (tr ++ [(i, e)]) = (visits_of tr ++ [fst e]) ++ [snd e].
Proof.
  unfold visits_of. rewrite flat_map_app. simpl. now rewrite <- app_assoc.
Qed.

(** Emitting an edge keeps the invariant, for the walk one edge longer. *)
Lemma emit_edge_inv (st st1 : walk_state) (e : edge) (tr : list (nat * edge)) :
  out_inv verts_in edges_in (outputs st) tr ->
  emit_edge verts_in edges_in st = Ok (st1, e) ->
  out_inv verts_in edges_in (outputs st1) (tr ++ [(ed_index st, e)]).
Proof.
  intros (Hn & Hd & Hr & Hi & Hc & Hf) H.
  apply emit_edge_spec in H.
  destruct H as (vo & idx & a & b & He & Hv1 & Hv2 & Heo & _).
  apply visit_look in Hv1. destruct Hv1 as (p & Hp & Ha & -> & ->).
  apply visit_look in Hv2. destruct Hv2 as (q & Hq & Hb & Evo & Eidx).
  destruct (look_inv (fst e) Hp Hn Hd Hc Hf) as (Hn1 & Hd1 & Hc1 & Hf1 & Hin1).
  destruct (look_inv (snd e) Hq Hn1 Hd1 Hc1 Hf1) as (Hn2 & Hd2 & Hc2 & Hf2 & Hin2).
  simpl in Hn2, Hd2, Hc2, Hf2, Hin2. rewrite <- Evo in *. rewrite <- Eidx in *.
  unfold out_inv, outputs. rewrite Heo, visits_of_snoc.
  destruct (look_grows p (verts_out st)) as [t1 E1].
  destruct (look_grows q (if contains point_eqb p (verts_out st)
                          then verts_out st else verts_out st ++ [p])) as [t2 E2].
  rewrite <- Evo, E1 in E2.
  split; [exact Hn2 |]. split; [exact Hd2 |]. split; [| split; [| split]].
  - apply Forall2_app.
    + rewrite E2, <- app_assoc. now apply reindexed_app.
    + repeat constructor; simpl.
      * exists p. split; [exact Hp |].
        rewrite E2, nth_error_app1; [now rewrite <- E1 |].
        rewrite <- E1. apply nth_error_Some. congruence.
      * exists q. auto.
  - apply Forall_app. split; [exact Hi |]. repeat constructor.
    now apply current_edge_spec.
  - exact Hc2.
  - exact Hf2.
Qed.

Lemma walk_step_inv (st st' : walk_state) (e : edge) (tr : list (nat * edge)) :
  out_inv verts_in edges_in (outputs st) tr ->
  current_edge edges_in st = Ok e ->
  walk_step verts_in edges_in limiting limits st = Ok st' ->
  out_inv verts_in edges_in (outputs st') (tr ++ [(ed_index st, e)]).
Proof.
  intros Hinv He H. apply walk_step_outputs in H.
  destruct H as (st1 & e' & Hemit & ->).
  assert (e' = e) as ->.
  { apply emit_edge_spec in Hemit.
    destruct Hemit as (? & ? & ? & ? & He' & _). congruence. }
  now apply emit_edge_inv.
Qed.

(** A property of the state and of the edges walked so far that every
    iteration keeps holds when the loop is over. *)
Lemma walk_trace_ind (P : walk_state -> list (nat * edge) -> Prop) :
  (forall st st' e acc,
      P st acc -> current_edge edges_in st = Ok e ->
      walk_step verts_in edges_in limiting limits st = Ok st' ->
      P st' (acc ++ [(ed_index st, e)])) ->
  forall n st acc st' t,
    P st acc ->
    walk verts_in edges_in limiting limits n st = Ok st' ->
    walk_trace verts_in edges_in limiting limits n st = Ok t ->
    P st' (acc ++ t).
Proof.
  intros Hstep. induction n as [| n IH]; simpl; intros st acc st' t HP Hw Ht.
  - inversion Hw; inversion Ht; subst. now rewrite app_nil_r.
  - destruct (current_edge edges_in st) as [e | err] eqn:He; simpl in Ht;
      [| discriminate].
    destruct (walk_step verts_in edges_in limiting limits st) as [st1 | err] eqn:Hs;
      simpl in Hw, Ht; [| discriminate].
    destruct (walk_trace verts_in edges_in limiting limits n st1) as [t1 | err] eqn:Ht1;
      simpl in Ht; [| discriminate].
    inversion Ht; subst.
    replace (acc ++ (ed_index st, e) :: t1) with ((acc ++ [(ed_index st, e)]) ++ t1)
      by now rewrite <- app_assoc.
    eapply IH; eauto.
Qed.

(** The trace exists whenever the walk returns. *)
Lemma walk_trace_total (n : nat) (st st' : walk_state) :
  walk verts_in edges_in limiting limits n st = Ok st' ->
  exists t, walk_trace verts_in edges_in limiting limits n st = Ok t /\ length t = n.
Proof.
  revert st. induction n as [| n IH]; simpl; intros st Hw; [eauto |].
  destruct (walk_step verts_in edges_in limiting limits st) as [st1 | err] eqn:Hs;
    simpl in Hw; [| discriminate].
  destruct (IH _ Hw) as (t & Ht & Hlen).
  pose proof Hs as Hs'. apply walk_step_outputs in Hs'.
  destruct Hs' as (st2 & e & Hemit & _). apply emit_edge_spec in Hemit.
  destruct Hemit as (? & ? & ? & ? & He & _).
  rewrite He. simpl. rewrite Ht. simpl.
  eexists. split; [reflexivity |]. simpl. now rewrite Hlen.
Qed.

Lemma walk_inv (n : nat) (st st' : walk_state) (t : list (nat * edge)) :
  outputs st = ([], [], []) ->
  walk verts_in edges_in limiting limits n st = Ok st' ->
  walk_trace verts_in edges_in limiting limits n st = Ok t ->
  out_inv verts_in edges_in (outputs st') t.
Proof.
  intros H0 Hw Ht.
  apply (@walk_trace_ind (fun st tr => out_inv verts_in edges_in (outputs st) tr)
           walk_step_inv n st [] st' t); [| exact Hw | exact Ht].
  rewrite H0. unfold out_inv, names, covered, first_seen. simpl.
  repeat split; try constructor; contradiction.
Qed.
End WalkInvariant.

(* ================================================================== *)
(** ** Connectivity mode: the vertices appended after the walk *)

Lemma seq_sorted (k n : nat) : StronglySorted lt (seq k n).
Proof.
  revert k. induction n as [| n IH]; intros k; simpl; constructor; [apply IH |].
  apply Forall_forall. intros x Hx. apply in_seq in Hx. lia.
Qed.

Section Unconnected.
Variable verts_in : list point.

Lemma add_unconnected_eq (vo : list point) (idx : list nat) :
  add_unconnected verts_in vo idx =
  if length vo =? length verts_in then (vo, idx)
  else fold_left look_at (enumerate verts_in) (vo, idx).
Proof. reflexivity. Qed.

Lemma fold_look_at (l : list (nat * point)) :
  (forall i p, In (i, p) l -> nth_error verts_in i = Some p) ->
  StronglySorted lt (map fst l) ->
  forall vo idx visits,
    names verts_in idx vo -> NoDup vo ->
    covered verts_in vo visits -> first_seen verts_in idx visits ->
    exists vt tail,
      fold_left look_at l (vo, idx) = (vo ++ vt, idx ++ tail) /\
      names verts_in (idx ++ tail) (vo ++ vt) /\ NoDup (vo ++ vt) /\
      covered verts_in (vo ++ vt) (visits ++ map fst l) /\
      first_seen verts_in (idx ++ tail) (visits ++ map fst l) /\
      StronglySorted lt tail /\ incl tail (map fst l).
Proof.
  induction l as [| [i p] l IH]; simpl; intros Hl Hs vo idx visits Hn Hd Hc Hf.
  - exists [], []. rewrite !app_nil_r. repeat split; auto; try constructor.
    intros x [].
  - apply StronglySorted_inv in Hs. destruct Hs as [Hs Hi].
    assert (Hp : nth_error verts_in i = Some p) by (apply Hl; now left).
    destruct (look_inv i Hp Hn Hd Hc Hf) as (Hn1 & Hd1 & Hc1 & Hf1 & _).
    simpl in Hn1, Hd1, Hc1, Hf1.
    assert (Hl' : forall j q, In (j, q) l -> nth_error verts_in j = Some q)
      by (intros; apply Hl; now right).
    destruct (contains point_eqb p vo).
    + destruct (IH Hl' Hs _ _ _ Hn1 Hd1 Hc1 Hf1)
        as (vt & tail & E & Hn2 & Hd2 & Hc2 & Hf2 & Hs2 & Hi2).
      exists vt, tail. rewrite <- app_assoc in Hc2, Hf2.
      repeat split; auto. now apply incl_tl.
    + destruct (IH Hl' Hs _ _ _ Hn1 Hd1 Hc1 Hf1)
        as (vt & tail & E & Hn2 & Hd2 & Hc2 & Hf2 & Hs2 & Hi2).
      exists (p :: vt), (i :: tail).
      rewrite <- !app_assoc in *. simpl in *.
      repeat split; auto.
      * constructor; [exact Hs2 |].
        rewrite Forall_forall in *. intros x Hx. apply Hi. now apply Hi2.
      * intros x [<- | Hx]; [now left | right; now apply Hi2].
Qed.

Lemma names_In (idx : list nat) (vo : list point) (p : point) :
  names verts_in idx vo -> In p vo ->
  exists i, In i idx /\ nth_error verts_in i = Some p.
Proof.
  induction 1 as [| i q idx vo Hq Hn IH]; simpl; [contradiction |].
  intros [-> | Hin]; [eauto |].
  destruct (IH Hin) as (j & Hj & E). eauto.
Qed.

Lemma names_incl (idx : list nat) (vo : list point) :
  names verts_in idx vo -> incl vo verts_in.
Proof.
  induction 1 as [| i q idx vo Hq Hn IH]; intros x; simpl; [contradiction |].
  intros [<- | Hin]; [| auto]. eapply nth_error_In; eassumption.
Qed.

Lemma names_lt (idx : list nat) (vo : list point) :
  names verts_in idx vo -> Forall (fun i => i < length verts_in) idx.
Proof.
  induction 1 as [| i q idx vo Hq Hn IH]; constructor; [| exact IH].
  apply nth_error_Some. congruence.
Qed.

Lemma names_NoDup (idx : list nat) (vo : list point) :
  names verts_in idx vo -> NoDup vo -> NoDup idx.
Proof.
  induction 1 as [| i q idx vo Hq Hn IH]; intros Hd; constructor.
  - inversion Hd as [| ? ? Hq' Hd']; subst. intros Hin. apply Hq'.
    clear - Hn Hin Hq. induction Hn as [| j r idx vo Hr Hn IH]; simpl in *;
      [contradiction |].
    destruct Hin as [-> | Hin]; [left; congruence | right; auto].
  - apply IH. now inversion Hd.
Qed.

Lemma names_length (idx : list nat) (vo : list point) :
  names verts_in idx vo -> length idx = length vo.
Proof. apply Forall2_length. Qed.

Lemma enumerate_nth (i : nat) (p : point) :
  In (i, p) (enumerate verts_in) -> nth_error verts_in i = Some p.
Proof. apply In_enumerate. Qed.

(** After the pass over [verts_in], every coordinate of the input is in
    the vertex output, and the indices appended are ascending. *)
Lemma add_unconnected_spec (vo : list point) (idx visits : list nat)
    (vo' : list point) (idx' : list nat) :
  names verts_in idx vo -> NoDup vo ->
  covered verts_in vo visits -> first_seen verts_in idx visits ->
  add_unconnected verts_in vo idx = (vo', idx') ->
  exists vt tail,
    vo' = vo ++ vt /\ idx' = idx ++ tail /\
    names verts_in idx' vo' /\ NoDup vo' /\ incl verts_in vo' /\
    first_seen verts_in idx' (visits ++ seq 0 (length verts_in)) /\
    StronglySorted lt tail.
Proof.
  intros Hn Hd Hc Hf. rewrite add_unconnected_eq.
  destruct (Nat.eqb_spec (length vo) (length verts_in)) as [E | E]; intros H.
  - inversion H; subst. exists [], []. rewrite !app_nil_r.
    repeat split; auto; try constructor.
    + apply NoDup_length_incl; [exact Hd | lia | now apply names_incl with idx'].
    + now apply first_seen_app.
  - destruct (@fold_look_at (enumerate verts_in) enumerate_nth) with
      (vo := vo) (idx := idx) (visits := visits)
      as (vt & tail & E' & Hn2 & Hd2 & Hc2 & Hf2 & Hs2 & Hi2); auto.
    + rewrite map_fst_enumerate. apply seq_sorted.
    + rewrite E' in H. inversion H; subst.
      rewrite map_fst_enumerate in *.
      exists vt, tail. repeat split; auto.
      intros p Hp. apply In_nth_error in Hp. destruct Hp as [i Hi].
      destruct (Hc2 i) as (q & Hq & Hin).
      * apply in_or_app. right. apply in_seq.
        assert (i < length verts_in) by (apply nth_error_Some; congruence). lia.
      * congruence.
Qed.
End Unconnected.

(* ================================================================== *)
(** ** Connectivity mode: the result *)

Lemma walk_init_outputs (verts_in : list point) (edges_in : list edge)
    (limit_mode limiting : bool) (limits : list limit) (st : walk_state) :
  walk_init verts_in edges_in limit_mode = Ok (limiting, limits, st) ->
  outputs st = ([], [], []).
Proof.
  unfold walk_init.
  destruct (if limit_mode then _ else _) as [lims | e]; simpl; [| discriminate].
  destruct (if limit_mode && _ then _ else _) as [[[ed side] lims'] | e]; simpl;
    [| discriminate].
  destruct (pop_lower_level _ _) as [ec | e]; simpl; [| discriminate].
  intros H. inversion H; subst. reflexivity.
Qed.

(** What the function returns, in terms of the walk and of the pass over
    the vertices that follows it. *)
Lemma connex_spec (verts_in : list point) (edges_in : list edge) (limit_mode : bool)
    (vo : list point) (eo : list edge) (idx : list nat) :
  sort_vertices_by_connexions verts_in edges_in limit_mode = Ok (vo, eo, idx) ->
  exists st t vt tail,
    walk_result verts_in edges_in limit_mode = Ok st /\
    connex_trace verts_in edges_in limit_mode = Ok t /\
    length t = length edges_in /\
    out_inv verts_in edges_in (outputs st) t /\
    eo = edges_out st /\ vo = verts_out st ++ vt /\ idx = index st ++ tail /\
    names verts_in idx vo /\ NoDup vo /\ incl verts_in vo /\
    first_seen verts_in idx (visits_of t ++ seq 0 (length verts_in)) /\
    StronglySorted lt tail.
Proof.
  unfold sort_vertices_by_connexions, walk_result, connex_trace.
  destruct (walk_init verts_in edges_in limit_mode) as [[[limiting limits] st0] | e]
    eqn:Hinit; simpl; [| discriminate].
  apply walk_init_outputs in Hinit.
  destruct (walk verts_in edges_in limiting limits (length edges_in) st0)
    as [st | e] eqn:Hw; simpl; [| discriminate].
  destruct (walk_trace_total _ _ _ _ _ _ Hw) as (t & Ht & Hlen).
  pose proof (walk_inv _ _ _ _ _ Hinit Hw Ht) as Hinv.
  destruct (add_unconnected verts_in (verts_out st) (index st)) as [vo' idx'] eqn:Ha.
  intros H. inversion H; subst.
  pose proof Hinv as (Hn & Hd & _ & _ & Hc & Hf).
  destruct (add_unconnected_spec Hn Hd Hc Hf Ha)
    as (vt & tail & -> & -> & Hn' & Hd' & Hi' & Hf' & Hs').
  exists st, t, vt, tail. rewrite Ht. auto 15.
Qed.

Lemma out_inv_touched (verts_in : list point) (edges_in : list edge)
    (st : walk_state) (t : list (nat * edge)) :
  out_inv verts_in edges_in (outputs st) t ->
  Forall (touched edges_in) (index st).
Proof.
  intros (_ & _ & _ & Hi & _ & Hf). apply Forall_forall. intros r Hr.
  destruct (Hf r Hr) as (pre & post & E & _).
  assert (Hin : In r (visits_of t)) by (rewrite E; apply in_elt).
  unfold visits_of in Hin. apply in_flat_map in Hin.
  destruct Hin as ([i e] & Hie & Hr').
  rewrite Forall_forall in Hi. destruct (Hi _ Hie) as (e0 & He0 & Hor).
  apply nth_error_In in He0. exists e0. split; [exact He0 |].
  simpl in *. destruct Hor as [-> | ->]; simpl in Hr'; intuition.
Qed.

(** The item order of the connectivity mode has no repeated entry and
    stays below the number of vertices; it lists every index when the
    coordinates are pairwise distinct. *)
Lemma connex_order (verts_in : list point) (edges_in : list edge) (limit_mode : bool)
    (vo : list point) (eo : list edge) (idx : list nat) :
  sort_vertices_by_connexions verts_in edges_in limit_mode = Ok (vo, eo, idx) ->
  NoDup idx /\ Forall (fun i => i < length verts_in) idx /\
  (NoDup verts_in -> Permutation idx (seq 0 (length verts_in))).
Proof.
  intros H. apply connex_spec in H.
  destruct H as (st & t & vt & tail & _ & _ & _ & _ & _ & _ & _ & Hn & Hd & Hi & _).
  pose proof (names_NoDup Hn Hd) as Hd'. pose proof (names_lt Hn) as Hlt.
  split; [exact Hd' |]. split; [exact Hlt |]. intros Hv.
  apply NoDup_Permutation_bis; [exact Hd' | |].
  - rewrite length_seq, (names_length Hn). now apply NoDup_incl_length.
  - intros i Hin. rewrite Forall_forall in Hlt. apply in_seq.
    specialize (Hlt i Hin). lia.
Qed.

(* ================================================================== *)
(** ** The item order of the sorting modes *)



Lemma dist_items_index (v : list point) :
  map (fun it : point * nat => snd it)
      (map (fun iv : nat * point => (snd iv, fst iv)) (enumerate v)) =
  seq 0 (length v).
Proof. rewrite map_map. simpl. apply map_fst_enumerate. Qed.

Lemma user_items_index (index : list num) (v : list point) :
  map (fun it : num * point * nat => snd it)
      (map (fun id : nat * (num * point) => (fst (snd id), snd (snd id), fst id))
           (enumerate (combine index v))) =
  seq 0 (Nat.min (length index) (length v)).
Proof.
  rewrite map_map. simpl. now rewrite map_fst_enumerate, length_combine.
Qed.

Lemma axis_items_index {matrix : Type} (mat_apply : matrix -> point -> point)
    (intersect_point_line : point -> point -> point -> point * num)
    (rotation_difference : point -> point -> quaternion)
    (dot : point -> point -> num) (vec_add : point -> point -> point)
    (m : matrix) (v : list point) :
  map (fun it : num * num * nat => snd it)
      (axis_items mat_apply intersect_point_line rotation_difference dot vec_add m v) =
  seq 0 (length v).
Proof.
  unfold axis_items. rewrite map_map. simpl. rewrite map_fst_enumerate.
  now rewrite !length_combine, !length_map, !length_combine, !length_map, !Nat.min_id.
Qed.

(** Without the remapping, a list is always emitted. *)
Lemma emit_sorted_returns {I : Type} (vert_of : I -> point) (index_of : I -> nat)
    (oo : bool) (s_v : list I) (p : list (list nat)) :
  returns (emit_sorted (fun it => Ok (vert_of it)) index_of false oo (PyList s_v) p).
Proof.
  unfold returns, emit_sorted. simpl. rewrite mapM_Ok. simpl. eauto.
Qed.

(** Pairwise distinct vertices, four by four. *)
Lemma NoDup_four (p0 p1 p2 p3 : point) :
  NoDup [p0; p1; p2; p3] ->
  p0 <> p1 /\ p0 <> p2 /\ p0 <> p3 /\ p1 <> p2 /\ p1 <> p3 /\ p2 <> p3.
Proof.
  intros H.
  repeat match goal with
         | H : NoDup (_ :: _) |- _ => inversion_clear H
         end.
  simpl in *. intuition.
Qed.

Lemma point_eqb_neq (p q : point) : p <> q -> point_eqb p q = false.
Proof.
  intros H. destruct (point_eqb p q) eqn:E; [| reflexivity].
  now apply point_eqb_eq in E.
Qed.

(** Evaluation of the walk on vertices that are only known to be equal or
    different: the comparisons are rewritten with the equations at hand. *)
Ltac unfold_walk :=
  unfold sort_vertices_by_connexions, connex_trace, walk_result, walk_step,
    emit_edge, visit, current_edge, find_next, restart, take_edge,
    pop_lower_level, pop, list_index, contains, getitem, next_limit,
    add_unconnected, look_at, bind.

Opaque point_eqb.

Lemma chain_of_four_eval (p0 p1 p2 p3 : point) :
  NoDup [p0; p1; p2; p3] ->
  sort_vertices_by_connexions [p0; p1; p2; p3] [(0, 1); (1, 2); (2, 3)] true =
    Ok ([p0; p1; p2; p3], [(0, 1); (1, 2); (2, 3)], [0; 1; 2; 3]) /\
  connex_trace [p0; p1; p2; p3] [(0, 1); (1, 2); (2, 3)] true =
    Ok [(0, (0, 1)); (1, (1, 2)); (2, (2, 3))].
Proof.
  intros H. apply NoDup_four in H.
  destruct H as (H01 & H02 & H03 & H12 & H13 & H23).
  assert (E : forall p q : point,
             p <> q -> point_eqb p q = false /\ point_eqb q p = false).
  { intros p q Hn. split; apply point_eqb_neq; congruence. }
  destruct (E _ _ H01) as [E01 E10]. destruct (E _ _ H02) as [E02 E20].
  destruct (E _ _ H03) as [E03 E30]. destruct (E _ _ H12) as [E12 E21].
  destruct (E _ _ H13) as [E13 E31]. destruct (E _ _ H23) as [E23 E32].
  pose proof (point_eqb_refl p0) as R0. pose proof (point_eqb_refl p1) as R1.
  pose proof (point_eqb_refl p2) as R2. pose proof (point_eqb_refl p3) as R3.
  split;
    repeat (progress (unfold_walk; simpl;
                      rewrite ?R0, ?R1, ?R2, ?R3, ?E01, ?E10, ?E02, ?E20, ?E03,
                        ?E30, ?E12, ?E21, ?E13, ?E31, ?E23, ?E32));
    reflexivity.
Qed.

Transparent point_eqb.

(** C2, as amended.  In connectivity mode with limit detection, for four
    vertices with pairwise distinct coordinates joined by the edges (0,1),
    (1,2), (2,3), the walk starts at the endpoint 0 with edge 0 and follows
    the chain: the item order is [0,1,2,3], the vertices come out in this
    order, and the reindexed edges are (0,1), (1,2), (2,3). *)
Theorem chain_of_four :
  forall p0 p1 p2 p3 : point,
    NoDup [p0; p1; p2; p3] ->
    sort_vertices_by_connexions [p0; p1; p2; p3] [(0, 1); (1, 2); (2, 3)] true =
      Ok ([p0; p1; p2; p3], [(0, 1); (1, 2); (2, 3)], [0; 1; 2; 3]) /\
    connex_trace [p0; p1; p2; p3] [(0, 1); (1, 2); (2, 3)] true =
      Ok [(0, (0, 1)); (1, (1, 2)); (2, (2, 3))].
Proof. exact chain_of_four_eval. Qed.

Lemma chain_of_four_witness :
  let v := [pt 0 0 0; pt 1 0 0; pt 2 0 0; pt 3 0 0] in
  NoDup v /\
  sort_vertices_by_connexions v [(0, 1); (1, 2); (2, 3)] true =
    Ok (v, [(0, 1); (1, 2); (2, 3)], [0; 1; 2; 3]).
Proof.
  intros v.
  assert (H : NoDup v) by (apply NoDup_points; vm_compute; reflexivity).
  split; [exact H |].
  exact (proj1 (@chain_of_four (pt 0 0 0) (pt 1 0 0) (pt 2 0 0) (pt 3 0 0) H)).
Defined.

(** C2 as stated fails when two of the four vertices have the same
    coordinates: here vertices 0 and 2 coincide, the item order has three
    entries and the reindexed edges are not the chain. *)
Lemma chain_of_four_counterexample :
  sort_vertices_by_connexions [pt 0 0 0; pt 1 0 0; pt 0 0 0; pt 2 0 0]
                              [(0, 1); (1, 2); (2, 3)] true =
    Ok ([pt 0 0 0; pt 1 0 0; pt 2 0 0], [(0, 1); (1, 0); (0, 2)], [0; 1; 3]).
Proof. vm_compute. reflexivity. Qed.


(* ================================================================== *)
(** ** Connectivity mode: isolated vertices and equal coordinates *)

Lemma names_inj (verts_in : list point) (idx : list nat) (vo : list point)
    (r r' : nat) (p : point) :
  names verts_in idx vo -> NoDup vo ->
  In r idx -> In r' idx ->
  nth_error verts_in r = Some p -> nth_error verts_in r' = Some p -> r = r'.
Proof.
  intros Hn. induction Hn as [| i q idx vo Hq Hn IH]; simpl; [contradiction |].
  intros Hd Hr Hr' Er Er'. inversion Hd as [| ? ? Hq' Hd']; subst.
  destruct Hr as [-> | Hr], Hr' as [-> | Hr']; auto.
  - exfalso. apply Hq'.
    clear - Hn Hr' Er Er' Hq. assert (q = p) as -> by congruence.
    induction Hn as [| j s idx vo Hs Hn IH]; simpl in *; [contradiction |].
    destruct Hr' as [-> | Hr']; [left; congruence | right; auto].
  - exfalso. apply Hq'.
    clear - Hn Hr Er Er' Hq. assert (q = p) as -> by congruence.
    induction Hn as [| j s idx vo Hs Hn IH]; simpl in *; [contradiction |].
    destruct Hr as [-> | Hr]; [left; congruence | right; auto].
Qed.

(** C8, as amended.  In connectivity mode the item order is the list of
    the vertices that the walk emitted, all of them ends of edges,
    followed by the vertices appended afterwards in ascending original
    order; the reindexed edges only hold positions of the first part.  A
    vertex touched by zero edges, whose coordinates no other vertex has, is
    in the second part; the item order has no repeated entry. *)
Theorem isolated_vertices_appended :
  forall verts_in edges_in limit_mode vo eo idx,
    sort_vertices_by_connexions verts_in edges_in limit_mode = Ok (vo, eo, idx) ->
    exists walked tail,
      idx = walked ++ tail /\ NoDup idx /\
      Forall (touched edges_in) walked /\
      StronglySorted lt tail /\
      Forall (fun e : edge => fst e < length walked /\ snd e < length walked) eo /\
      (forall i p,
          nth_error verts_in i = Some p ->
          ~ touched edges_in i ->
          (forall j, j <> i -> nth_error verts_in j <> Some p) ->
          In i tail).
Proof.
  intros verts_in edges_in limit_mode vo eo idx H. apply connex_spec in H.
  destruct H as (st & t & vt & tail & _ & _ & _ & Hinv & -> & -> & -> &
                 Hn & Hd & Hi & _ & Hs).
  pose proof (out_inv_touched Hinv) as Ht.
  destruct Hinv as (Hn0 & _ & Hr & _).
  exists (index st), tail.
  split; [reflexivity |]. split; [now apply (names_NoDup Hn) |].
  split; [exact Ht |]. split; [exact Hs |]. split.
  - rewrite (names_length Hn0).
    clear - Hr. induction Hr as [| ie ab tr eo [Ha Hb] Hr IH]; constructor;
      [| exact IH].
    split; eapply at_vertex_lt; eassumption.
  - intros i p Hp Hnt Hu.
    assert (Hin : In p (verts_out st ++ vt)).
    { apply Hi. eapply nth_error_In; eassumption. }
    destruct (@names_In _ _ _ _ Hn Hin) as (r & Hr' & Er).
    assert (r = i) as ->.
    { destruct (Nat.eq_dec r i) as [E | E]; [exact E |].
      exfalso. now apply (Hu r). }
    apply in_app_or in Hr'. destruct Hr' as [Hw | Htl]; [| exact Htl].
    exfalso. apply Hnt. rewrite Forall_forall in Ht. now apply Ht.
Qed.

Lemma isolated_vertices_appended_witness :
  exists walked tail,
    [0; 1; 2] = walked ++ tail /\ NoDup [0; 1; 2] /\
    Forall (touched [(0, 1)]) walked /\
    StronglySorted lt tail /\
    Forall (fun e : edge => fst e < length walked /\ snd e < length walked) [(0, 1)] /\
    (forall i p,
        nth_error [pt 0 0 0; pt 1 0 0; pt 5 5 5] i = Some p ->
        ~ touched [(0, 1)] i ->
        (forall j, j <> i -> nth_error [pt 0 0 0; pt 1 0 0; pt 5 5 5] j <> Some p) ->
        In i tail).
Proof.
  apply (@isolated_vertices_appended
           [pt 0 0 0; pt 1 0 0; pt 5 5 5] [(0, 1)] false
           [pt 0 0 0; pt 1 0 0; pt 5 5 5] [(0, 1)] [0; 1; 2]).
  vm_compute. reflexivity.
Defined.

(** C8 as stated fails for an isolated vertex whose coordinates another
    vertex has: vertex 2 is touched by no edge and has the coordinates of
    vertex 0; it is not in the item order. *)
Lemma isolated_vertices_counterexample :
  sort_vertices_by_connexions [pt 0 0 0; pt 1 0 0; pt 0 0 0] [(0, 1)] false =
    Ok ([pt 0 0 0; pt 1 0 0], [(0, 1)], [0; 1]) /\
  ~ touched [(0, 1)] 2 /\ ~ In 2 [0; 1].
Proof.
  split; [vm_compute; reflexivity |]. split.
  - intros (e & [<- | []] & [H | H]); discriminate.
  - simpl. intuition discriminate.
Qed.

(** C10.  In connectivity mode vertices are told apart by their
    coordinates: when two vertices at different original indices have the
    same coordinates, the vertex output holds these coordinates once, the
    item order holds exactly one index with these coordinates, which is
    the first one the function looks at (in the walk, then in the pass
    over the vertices), and the item order is shorter than the vertex
    input. *)
Theorem connex_dedup_by_coordinates :
  forall verts_in edges_in limit_mode vo eo idx i j p,
    sort_vertices_by_connexions verts_in edges_in limit_mode = Ok (vo, eo, idx) ->
    i <> j ->
    nth_error verts_in i = Some p ->
    nth_error verts_in j = Some p ->
    NoDup vo /\ In p vo /\
    (exists r,
        In r idx /\ nth_error verts_in r = Some p /\
        (forall r', In r' idx -> nth_error verts_in r' = Some p -> r' = r) /\
        exists visits pre post,
          connex_visits verts_in edges_in limit_mode = Ok visits /\
          visits = pre ++ r :: post /\
          forall k, In k pre -> nth_error verts_in k <> Some p) /\
    length idx < length verts_in.
Proof.
  intros verts_in edges_in limit_mode vo eo idx i j p H Hij Hi Hj.
  apply connex_spec in H.
  destruct H as (st & t & vt & tail & _ & Ht & _ & _ & _ & -> & -> &
                 Hn & Hd & Hin & Hf & _).
  assert (Hp : In p (verts_out st ++ vt)).
  { apply Hin. eapply nth_error_In; eassumption. }
  split; [exact Hd |]. split; [exact Hp |]. split.
  - destruct (@names_In _ _ _ _ Hn Hp) as (r & Hr & Er).
    exists r. split; [exact Hr |]. split; [exact Er |]. split.
    + intros r' Hr' Er'. eapply names_inj; eassumption.
    + destruct (Hf r Hr) as (pre & post & E & Hpre).
      exists (visits_of t ++ seq 0 (length verts_in)), pre, post.
      unfold connex_visits. rewrite Ht. simpl.
      split; [reflexivity |]. split; [exact E |].
      intros k Hk. rewrite <- Er. now apply Hpre.
  - rewrite (names_length Hn).
    destruct (Nat.lt_ge_cases (length (verts_out st ++ vt)) (length verts_in))
      as [Hlt | Hge]; [exact Hlt |].
    exfalso. apply Hij.
    assert (Hv : NoDup verts_in).
    { eapply NoDup_incl_NoDup; [exact Hd | exact Hge |].
      eapply names_incl; eassumption. }
    rewrite NoDup_nth_error in Hv. apply Hv.
    + apply nth_error_Some. congruence.
    + congruence.
Qed.

Lemma connex_dedup_by_coordinates_witness :
  NoDup [pt 0 0 0; pt 1 0 0] /\ In (pt 0 0 0) [pt 0 0 0; pt 1 0 0] /\
  (exists r,
      In r [2; 1] /\
      nth_error [pt 0 0 0; pt 1 0 0; pt 0 0 0] r = Some (pt 0 0 0) /\
      (forall r', In r' [2; 1] ->
                  nth_error [pt 0 0 0; pt 1 0 0; pt 0 0 0] r' = Some (pt 0 0 0) ->
                  r' = r) /\
      exists visits pre post,
        connex_visits [pt 0 0 0; pt 1 0 0; pt 0 0 0] [(2, 1)] false = Ok visits /\
        visits = pre ++ r :: post /\
        forall k, In k pre ->
                  nth_error [pt 0 0 0; pt 1 0 0; pt 0 0 0] k <> Some (pt 0 0 0)) /\
  length [2; 1] < length [pt 0 0 0; pt 1 0 0; pt 0 0 0].
Proof.
  apply (@connex_dedup_by_coordinates
           [pt 0 0 0; pt 1 0 0; pt 0 0 0] [(2, 1)] false
           [pt 0 0 0; pt 1 0 0] [(0, 1)] [2; 1] 0 2 (pt 0 0 0)).
  - vm_compute. reflexivity.
  - discriminate.
  - reflexivity.
  - reflexivity.
Defined.

(* ================================================================== *)
(** ** Connectivity mode: restarting from a limit *)

Lemma Nat_eqb_eq (a b : nat) : (a =? b) = true <-> a = b.
Proof. apply Nat.eqb_eq. Qed.

Lemma collect_from_sorted (v_count : list v_count_entry) (k : nat) :
  StronglySorted by_vertex
    (flat_map (fun iv : nat * v_count_entry =>
                 let '(i, (c, side, e)) := iv in
                 if c =? 1 then [(i, side, e)] else [])
              (combine (seq k (length v_count)) v_count)).
Proof.
  revert k. induction v_count as [| [[c side] e] vc IH]; intros k; simpl;
    [constructor |].
  destruct (c =? 1); simpl; [| apply IH].
  constructor; [apply IH |].
  apply Forall_forall. intros lim Hin. apply in_flat_map in Hin.
  destruct Hin as ([i [[c' s'] e']] & Hi & Hl).
  apply in_combine_l in Hi. apply in_seq in Hi.
  destruct (c' =? 1); [| contradiction].
  destruct Hl as [<- | []]. unfold by_vertex, lim_vertex. simpl. lia.
Qed.

Lemma collect_limits_sorted (v_count : list v_count_entry) :
  StronglySorted by_vertex (collect_limits v_count).
Proof. apply collect_from_sorted. Qed.

Lemma find_limits_sorted (verts_in : list point) (edges_in : list edge)
    (lims : list limit) :
  find_limits verts_in edges_in = Ok lims -> StronglySorted by_vertex lims.
Proof.
  unfold find_limits.
  destruct (count_edges (length verts_in) edges_in) as [vc | e]; simpl;
    [| discriminate].
  intros H. inversion H. apply collect_limits_sorted.
Qed.

(** The limits that the loop consults are in ascending order of vertex. *)
Lemma walk_init_limits (verts_in : list point) (edges_in : list edge)
    (limit_mode limiting : bool) (limits : list limit) (st : walk_state) :
  walk_init verts_in edges_in limit_mode = Ok (limiting, limits, st) ->
  StronglySorted by_vertex limits.
Proof.
  unfold walk_init.
  destruct limit_mode; simpl.
  - destruct (find_limits verts_in edges_in) as [lims | e] eqn:E; simpl;
      [| discriminate].
    apply find_limits_sorted in E.
    destruct lims as [| l0 lims]; simpl.
    + destruct (pop_lower_level _ _); simpl; [| discriminate].
      intros H. inversion H. constructor.
    + destruct (pop_lower_level _ _); simpl; [| discriminate].
      intros H. inversion H; subst. now apply StronglySorted_inv in E.
  - destruct (pop_lower_level _ _); simpl; [| discriminate].
    intros H. inversion H. constructor.
Qed.

(** [next_limit] is the unvisited limit of lowest vertex. *)
Lemma next_limit_spec (limits : list limit) (idx : list nat) :
  StronglySorted by_vertex limits ->
  match next_limit limits idx with
  | Some lim0 =>
      In lim0 limits /\ unvisited idx lim0 /\
      forall lim, In lim limits -> unvisited idx lim ->
                  lim_vertex lim0 <= lim_vertex lim
  | None => forall lim, In lim limits -> ~ unvisited idx lim
  end.
Proof.
  unfold next_limit, unvisited.
  induction 1 as [| l limits Hs IH Hl]; simpl; [auto |].
  destruct (contains Nat.eqb (lim_vertex l) idx) eqn:E; simpl.
  - apply (contains_In Nat.eqb Nat_eqb_eq) in E.
    destruct (find _ limits) as [lim0 |].
    + destruct IH as (H1 & H2 & H3). split; [now right |]. split; [exact H2 |].
      intros lim [<- | Hin] Hu; [contradiction | auto].
    + intros lim [<- | Hin]; auto.
  - apply (contains_not_In Nat.eqb Nat_eqb_eq) in E.
    split; [now left |]. split; [exact E |].
    intros lim [<- | Hin] _; [lia |].
    rewrite Forall_forall in Hl. specialize (Hl lim Hin).
    unfold by_vertex in Hl. lia.
Qed.

Lemma find_next_dead_end (st : walk_state) (v : nat) :
  contains Nat.eqb v (ec0 (edges_copy st)) = false ->
  contains Nat.eqb v (ec1 (edges_copy st)) = false ->
  find_next st v = Ok st.
Proof.
  intros H0 H1. unfold find_next. now rewrite H0, H1.
Qed.

(** C5, as amended.  In connectivity mode with limit detection, when the
    walk is at a dead end with edges still unconsumed and some limit is
    not visited yet, it resumes on the edge and from the side of the first
    unvisited limit in the order of [find_limits], which is the one of
    lowest original vertex index. *)
Theorem restart_from_lowest_vertex_limit :
  forall verts_in edges_in limits st0 st st1 e st',
    walk_init verts_in edges_in true = Ok (true, limits, st0) ->
    emit_edge verts_in edges_in st = Ok (st1, e) ->
    dead_end st1 (snd e) ->
    walk_step verts_in edges_in true limits st = Ok st' ->
    forall lim,
      In lim limits -> unvisited (index st1) lim ->
      exists lim0,
        In lim0 limits /\ unvisited (index st1) lim0 /\
        next_limit limits (index st1) = Some lim0 /\
        (forall lim', In lim' limits -> unvisited (index st1) lim' ->
                      lim_vertex lim0 <= lim_vertex lim') /\
        ed_index st' = lim_edge lim0 /\ or_side st' = lim_side lim0.
Proof.
  intros verts_in edges_in limits st0 st st1 e st' Hinit Hemit (H0 & H1 & Hne)
         Hstep lim Hlim Hun.
  apply walk_init_limits in Hinit.
  pose proof (next_limit_spec (index st1) Hinit) as Hnext.
  unfold walk_step in Hstep. rewrite Hemit in Hstep. simpl in Hstep.
  rewrite (find_next_dead_end _ _ H0 H1) in Hstep. simpl in Hstep.
  rewrite Nat.eqb_refl in Hstep.
  destruct (ec0 (edges_copy st1)) as [| x l] eqn:E0; [congruence |].
  simpl in Hstep. unfold restart in Hstep. simpl in Hstep.
  destruct (next_limit limits (index st1)) as [lim0 |].
  - destruct Hnext as (Hin0 & Hun0 & Hmin).
    exists lim0. split; [exact Hin0 |]. split; [exact Hun0 |].
    split; [reflexivity |]. split; [exact Hmin |].
    match type of Hstep with
    | bind ?m _ = _ => destruct m as [k | err]; simpl in Hstep; [| discriminate]
    end.
    apply take_edge_spec in Hstep. tauto.
  - exfalso. exact (Hnext lim Hlim Hun).
Qed.

(** Three disjoint edges given in the order (0,1), (4,5), (2,3): after the
    first edge the walk is at a dead end in vertex 1 and resumes from the
    limit of vertex 2. *)
Lemma restart_from_lowest_vertex_limit_witness :
  let v := [pt 0 0 0; pt 1 0 0; pt 2 0 0; pt 3 0 0; pt 4 0 0; pt 5 0 0] in
  let limits := [(1, 1, 0); (2, 0, 2); (3, 1, 2); (4, 0, 1); (5, 1, 1)] in
  let st1 := mk_state [pt 0 0 0; pt 1 0 0] [(0, 1)] [0; 1]
                      (mk_copy [4; 2] [5; 3] [1; 2]) 0 0 in
  let st' := mk_state [pt 0 0 0; pt 1 0 0] [(0, 1)] [0; 1]
                      (mk_copy [4] [5] [1]) 2 0 in
  exists lim0,
    In lim0 limits /\ unvisited (index st1) lim0 /\
    next_limit limits (index st1) = Some lim0 /\
    (forall lim', In lim' limits -> unvisited (index st1) lim' ->
                  lim_vertex lim0 <= lim_vertex lim') /\
    ed_index st' = lim_edge lim0 /\ or_side st' = lim_side lim0.
Proof.
  intros v limits st1 st'.
  apply (@restart_from_lowest_vertex_limit
           v [(0, 1); (4, 5); (2, 3)] limits
           (mk_state [] [] [] (mk_copy [4; 2] [5; 3] [1; 2]) 0 0)
           (mk_state [] [] [] (mk_copy [4; 2] [5; 3] [1; 2]) 0 0)
           st1 (0, 1) st') with (lim := (4, 0, 1)).
  - vm_compute. reflexivity.
  - vm_compute. reflexivity.
  - repeat split; try (vm_compute; reflexivity). discriminate.
  - vm_compute. reflexivity.
  - simpl. auto.
  - unfold unvisited. simpl. intuition discriminate.
Defined.

(** C5 as stated fails: on the three disjoint edges (0,1), (4,5), (2,3)
    the limits are listed by vertex; at the dead end after edge 0 the
    unvisited limits are the vertices 2 and 3 of edge 2 and the vertices 4
    and 5 of edge 1, and the walk resumes with edge 2, not with edge 1. *)
Lemma restart_lowest_edge_counterexample :
  let v := [pt 0 0 0; pt 1 0 0; pt 2 0 0; pt 3 0 0; pt 4 0 0; pt 5 0 0] in
  let edges := [(0, 1); (4, 5); (2, 3)] in
  find_limits v edges =
    Ok [(0, 0, 0); (1, 1, 0); (2, 0, 2); (3, 1, 2); (4, 0, 1); (5, 1, 1)] /\
  connex_trace v edges true = Ok [(0, (0, 1)); (2, (2, 3)); (1, (4, 5))] /\
  sort_vertices_by_connexions v edges true =
    Ok (v, [(0, 1); (2, 3); (4, 5)], [0; 1; 2; 3; 4; 5]).
Proof.
  repeat split; vm_compute; reflexivity.
Qed.

(* ================================================================== *)
(** ** Connectivity mode: a walk that stays on its edge *)

(** C3, which the code breaks.  A path 0-1 and a triangle 2-3-4, every
    vertex of degree 1 or 2.  With
    limit detection the walk starts at the limit 0, reaches the limit 1,
    finds no unvisited limit, and walks edge 0 in each of the four
    iterations: edge 0 is emitted four times, the edges of the triangle
    never. *)
Lemma limit_walk_repeats_edge :
  let v := [pt 0 0 0; pt 1 0 0; pt 2 0 0; pt 3 0 0; pt 4 0 0] in
  let edges := [(0, 1); (2, 3); (3, 4); (4, 2)] in
  sort_vertices_by_connexions v edges true =
    Ok (v, [(0, 1); (0, 1); (0, 1); (0, 1)], [0; 1; 2; 3; 4]) /\
  connex_trace v edges true =
    Ok [(0, (0, 1)); (0, (0, 1)); (0, (0, 1)); (0, (0, 1))] /\
  sort_vertices_by_connexions v edges false =
    Ok (v, [(0, 1); (2, 3); (3, 4); (4, 2)], [0; 1; 2; 3; 4]).
Proof.
  repeat split; vm_compute; reflexivity.
Qed.

(* ================================================================== *)
(** ** Remapping and unknown indices *)

Lemma emit_items_poly (oo : bool) (s_v : list item) (p : list (list nat)) :
  emit_items true oo (PyList s_v) p =
  (r <- remap (build_v_index item_index s_v) p ;;
   Ok (mk_out (map item_coords s_v) (Some r)
              (if oo then Some (map item_index s_v) else None))).
Proof.
  unfold emit_items, emit_sorted. simpl. rewrite mapM_Ok. simpl.
  destruct (remap _ p); reflexivity.
Qed.

Lemma list_index_Raise (i : nat) (l : list nat) (e : exn) :
  list_index Nat.eqb i l = Raise e <-> e = ValueError /\ ~ In i l.
Proof.
  unfold list_index. rewrite <- (find_index_None Nat.eqb Nat_eqb_eq).
  destruct (find_index Nat.eqb i l); split.
  - discriminate.
  - intros [_ H]. discriminate.
  - intros H. inversion H. auto.
  - intros [-> _]. reflexivity.
Qed.

Lemma remap_pols_Raise (index_new : list nat) (pols : list (list nat)) :
  (exists e, remap_pols index_new pols = Raise e) <->
  (exists pol i, In pol pols /\ In i pol /\ ~ In i index_new).
Proof.
  unfold remap_pols. split.
  - intros [e H]. apply mapM_Raise in H. destruct H as (pol & Hpol & H).
    apply mapM_Raise in H. destruct H as (i & Hi & H).
    apply list_index_Raise in H. destruct H as [_ H]. eauto.
  - intros (pol & i & Hpol & Hi & Hnot).
    assert (E : list_index Nat.eqb i index_new = Raise ValueError)
      by now apply list_index_Raise.
    destruct (@mapM_In_Raise _ _ (fun i => list_index Nat.eqb i index_new)
                pol i ValueError Hi E) as [e' E'].
    eapply mapM_In_Raise; eassumption.
Qed.

Lemma remap_pols_ValueError (index_new : list nat) (pols : list (list nat)) (e : exn) :
  remap_pols index_new pols = Raise e -> e = ValueError.
Proof.
  unfold remap_pols. intros H. apply mapM_Raise in H. destruct H as (pol & _ & H).
  apply mapM_Raise in H. destruct H as (i & _ & H).
  now apply list_index_Raise in H.
Qed.

Lemma result_cases {A : Type} (r : result A) : returns r \/ exists e, r = Raise e.
Proof. destruct r; [left | right]; eexists; reflexivity. Qed.

(** C7, as amended.  The remapping of a sorting mode raises, and then
    [KeyError], exactly when an edge or face holds an index that no sorted
    item carries; in XYZ mode this is an index that is not in the computed
    order, and the remapping never raises when every index is below the
    number of vertices.  The remapping of polygons in connectivity mode
    raises, and then [ValueError], exactly when a polygon holds an index
    that is not in the item order; it does not raise when every index is
    below the number of vertices and the coordinates of the vertices are
    pairwise distinct.  An exception in the body for one object leaves
    [process] without any output. *)
Theorem unknown_index_raises :
  forall (polygons_to_edges : list (list nat) -> list edge)
         (v : list point) (p : list (list nat)),
    (forall (I : Type) (index_of : I -> nat) (s_v : list I),
        ((exists e, remap (build_v_index index_of s_v) p = Raise e) <->
         (exists pe n, In pe p /\ In n pe /\ ~ In n (map index_of s_v))) /\
        (forall e, remap (build_v_index index_of s_v) p = Raise e -> e = KeyError)) /\
    (forall rx ry rz oo,
        ((exists e, process_XYZ rx ry rz true oo v p = Raise e) <->
         (exists pe n, In pe p /\ In n pe /\
                       ~ In n (map item_index (xyz_sort rx ry rz v)))) /\
        (forall e, process_XYZ rx ry rz true oo v p = Raise e -> e = KeyError) /\
        ((forall pe n, In pe p -> In n pe -> n < length v) ->
         returns (process_XYZ rx ry rz true oo v p))) /\
    (forall index_new,
        ((exists e, remap_pols index_new p = Raise e) <->
         (exists pol i, In pol p /\ In i pol /\ ~ In i index_new)) /\
        (forall e, remap_pols index_new p = Raise e -> e = ValueError)) /\
    (forall limit_mode p0 vect eo index_new,
        nth_error p 0 = Some p0 -> 2 < length p0 ->
        sort_vertices_by_connexions v (polygons_to_edges p) limit_mode =
          Ok (vect, eo, index_new) ->
        process_CONNEX polygons_to_edges limit_mode v p =
          (new_pols <- remap_pols index_new p ;;
           Ok (vect, New_pols [new_pols], index_new)) /\
        (NoDup v ->
         (forall pol i, In pol p -> In i pol -> i < length v) ->
         returns (process_CONNEX polygons_to_edges limit_mode v p))) /\
    (forall (A : Type) (body : list point -> list (list nat) -> result A)
            objects vp e,
        In vp objects -> body (fst vp) (snd vp) = Raise e ->
        exists e', process_objects body objects = Raise e').
Proof.
  intros polygons_to_edges v p. split; [| split; [| split; [| split]]].
  - intros I index_of s_v. split; [apply remap_Raise |].
    intros e. apply remap_KeyError.
  - intros rx ry rz oo. unfold process_XYZ. rewrite emit_items_poly.
    split; [| split].
    + rewrite <- (remap_Raise item_index (xyz_sort rx ry rz v) p).
      destruct (remap _ p) as [r | e']; simpl; split; intros [e H]; eauto;
        discriminate.
    + intros e. destruct (remap _ p) as [r | e'] eqn:E; simpl; [discriminate |].
      intros H. inversion H; subst. eapply remap_KeyError; eassumption.
    + intros Hp.
      destruct (remap _ p) as [r | e'] eqn:E; simpl; [eexists; reflexivity |].
      exfalso.
      assert (Hex : exists e, remap (build_v_index item_index (xyz_sort rx ry rz v)) p
                              = Raise e) by eauto.
      apply remap_Raise in Hex. destruct Hex as (pe & n & Hpe & Hn & Hnot).
      apply Hnot. rewrite xyz_sort_spec.
      apply (Permutation_in n (Permutation_sym
               (Permutation_map item_index (xyz_spec_perm rx ry rz v)))).
      rewrite tag_items_index. apply in_seq. specialize (Hp pe n Hpe Hn). lia.
  - intros index_new. split; [apply remap_pols_Raise |].
    intros e. apply remap_pols_ValueError.
  - intros limit_mode p0 vect eo index_new Hp0 Hlen Hs.
    assert (E : process_CONNEX polygons_to_edges limit_mode v p =
                (new_pols <- remap_pols index_new p ;;
                 Ok (vect, New_pols [new_pols], index_new))).
    { unfold process_CONNEX, getitem. rewrite Hp0. simpl.
      apply Nat.ltb_lt in Hlen. rewrite Hlen, Hs. reflexivity. }
    split; [exact E |]. intros Hv Hp. rewrite E.
    destruct (result_cases (remap_pols index_new p)) as [[r ->] | Hex];
      [eexists; reflexivity |].
    exfalso. apply remap_pols_Raise in Hex.
    destruct Hex as (pol & i & Hpol & Hi & Hnot). apply Hnot.
    destruct (connex_order _ _ _ Hs) as (_ & _ & Hperm).
    apply (Permutation_in i (Permutation_sym (Hperm Hv))).
    apply in_seq. specialize (Hp pol i Hpol Hi). lia.
  - intros A body objects vp e Hin He. unfold process_objects.
    eapply mapM_In_Raise; [exact Hin | exact He].
Qed.

(** A triangle over three vertices with distinct coordinates: the
    remapping of its polygon returns. *)
Lemma unknown_index_raises_witness :
  let v := [pt 0 0 0; pt 1 0 0; pt 0 1 0] in
  let p := [[0; 1; 2]] in
  let polygons_to_edges := fun _ : list (list nat) => [(0, 1); (1, 2); (2, 0)] in
  NoDup v /\ returns (process_CONNEX polygons_to_edges false v p).
Proof.
  intros v p polygons_to_edges.
  assert (H : NoDup v) by (apply NoDup_points; vm_compute; reflexivity).
  split; [exact H |].
  destruct (unknown_index_raises polygons_to_edges v p) as (_ & _ & _ & T & _).
  refine (proj2 (T false [0; 1; 2] v [(0, 1); (1, 2); (2, 0)] [0; 1; 2]
                   eq_refl _ _) H _).
  - simpl. lia.
  - vm_compute. reflexivity.
  - intros pol i [<- | []] Hi. simpl in Hi. simpl. intuition lia.
Defined.

(** C7 as stated fails in connectivity mode: the polygon (0,1,2) only
    holds indices of the three vertices, of which 0 and 1 have the same
    coordinates; the item order is [0,2] and the remapping of the polygon
    raises. *)
Lemma unknown_index_counterexample :
  let v := [pt 0 0 0; pt 0 0 0; pt 1 0 0] in
  let p := [[0; 1; 2]] in
  let polygons_to_edges := fun _ : list (list nat) => [(0, 1); (1, 2); (2, 0)] in
  (forall pol i, In pol p -> In i pol -> i < length v) /\
  sort_vertices_by_connexions v (polygons_to_edges p) false =
    Ok ([pt 0 0 0; pt 1 0 0], [(0, 0); (0, 1); (1, 0)], [0; 2]) /\
  remap_pols [0; 2] p = Raise ValueError /\
  process_CONNEX polygons_to_edges false v p = Raise ValueError.
Proof.
  split; [| repeat split; vm_compute; reflexivity].
  intros pol i [<- | []] Hi. simpl in *. intuition lia.
Qed.

(* ================================================================== *)
(** ** Connectivity mode without limit detection: every edge once *)

Lemma remove_middle {A : Type} (l1 l2 : list A) (x : A) :
  firstn (length l1) (l1 ++ x :: l2) ++ skipn (S (length l1)) (l1 ++ x :: l2) =
  l1 ++ l2.
Proof.
  induction l1 as [| y l1 IH]; simpl; [reflexivity |]. f_equal. exact IH.
Qed.

Lemma pop_Ok {A : Type} (l l' : list A) (k : nat) :
  pop l k = Ok l' ->
  exists x, nth_error l k = Some x /\ l' = firstn k l ++ skipn (S k) l /\
            Permutation l (x :: l') /\ length l = S (length l').
Proof.
  unfold pop. destruct (Nat.ltb_spec k (length l)) as [Hlt | Hge]; [| discriminate].
  intros H. injection H as <-.
  destruct (nth_error l k) as [x |] eqn:E;
    [| apply nth_error_None in E; lia].
  exists x. split; [reflexivity |]. split; [reflexivity |].
  apply nth_error_split in E. destruct E as (l1 & l2 & -> & <-).
  change (match l1 ++ x :: l2 with
          | [] => []
          | _ :: l => skipn (length l1) l
          end) with (skipn (S (length l1)) (l1 ++ x :: l2)).
  rewrite remove_middle. split.
  - symmetry. apply Permutation_middle.
  - rewrite !length_app. simpl. lia.
Qed.

Lemma pop_total {A : Type} (l : list A) (k : nat) :
  k < length l -> exists l', pop l k = Ok l'.
Proof.
  intros H. unfold pop. apply Nat.ltb_lt in H. rewrite H. eauto.
Qed.

Lemma pop_map {A B : Type} (f : A -> B) (l : list A) (k : nat) (l' : list A) :
  pop l k = Ok l' -> pop (map f l) k = Ok (map f l').
Proof.
  unfold pop. rewrite length_map. destruct (k <? length l); [| discriminate].
  intros H. inversion H. now rewrite map_app, firstn_map, skipn_map.
Qed.

Section EveryEdgeOnce.
Variable verts_in : list point.
Variable edges_in : list edge.
Variable limits : list limit.

(** Popping a position of a well-formed [edges_copy]. *)
Lemma pop_lower_level_ok (ec ec' : edges_copy_t) (k : nat) :
  copy_ok edges_in ec ->
  pop_lower_level ec k = Ok ec' ->
  copy_ok edges_in ec' /\
  exists ed, nth_error (ec2 ec) k = Some ed /\
             Permutation (ec2 ec) (ed :: ec2 ec').
Proof.
  intros [H0 H1]. unfold pop_lower_level.
  destruct (pop (ec0 ec) k) as [c0 | e] eqn:E0; simpl; [| discriminate].
  destruct (pop (ec1 ec) k) as [c1 | e] eqn:E1; simpl; [| discriminate].
  destruct (pop (ec2 ec) k) as [c2 | e] eqn:E2; simpl; [| discriminate].
  intros H. inversion H; subst. simpl.
  rewrite H0, (pop_map _ _ _ E2) in E0. rewrite H1, (pop_map _ _ _ E2) in E1.
  inversion E0. inversion E1.
  split; [split; reflexivity |].
  apply pop_Ok in E2. destruct E2 as (ed & Hed & _ & Hp & _). eauto.
Qed.

Lemma pop_lower_level_total (ec : edges_copy_t) (k : nat) :
  copy_ok edges_in ec -> k < length (ec2 ec) ->
  exists ec', pop_lower_level ec k = Ok ec'.
Proof.
  intros [H0 H1] Hk. unfold pop_lower_level.
  destruct (pop_total (ec2 ec) Hk) as [c2 E2].
  rewrite H0, (pop_map _ _ _ E2), H1, (pop_map _ _ _ E2), E2. simpl. eauto.
Qed.

(** Taking a remaining edge as the next one keeps the account. *)
Lemma take_edge_accounted (st st' : walk_state) (consumed : list nat) (ed side k : nat) :
  edges_accounted edges_in st consumed ->
  nth_error (ec2 (edges_copy st)) k = Some ed ->
  take_edge st ed side k = Ok st' ->
  edges_accounted edges_in st' (consumed ++ [ed_index st]) /\
  ed_index st' <> ed_index st /\
  length (ec2 (edges_copy st)) = S (length (ec2 (edges_copy st'))).
Proof.
  intros [Hc Hp] Hk H. apply take_edge_spec in H.
  destruct H as (_ & Hed & _ & Hpop).
  destruct (pop_lower_level_ok _ Hc Hpop) as (Hc' & ed' & Hed' & Hperm).
  assert (ed' = ed) as -> by congruence.
  split; [split; [exact Hc' |] | split].
  - rewrite Hed, <- app_assoc. simpl. now rewrite <- Hperm.
  - rewrite Hed. intros ->.
    assert (Hnd : NoDup (consumed ++ ed_index st :: ec2 (edges_copy st))).
    { eapply Permutation_NoDup; [symmetry; exact Hp | apply seq_NoDup]. }
    apply NoDup_remove_2 in Hnd. apply Hnd. apply in_or_app. right.
    eapply nth_error_In; eassumption.
  - apply Permutation_length in Hperm. exact Hperm.
Qed.

Lemma copy_ok_lengths (ec : edges_copy_t) :
  copy_ok edges_in ec ->
  length (ec0 ec) = length (ec2 ec) /\ length (ec1 ec) = length (ec2 ec).
Proof.
  intros [H0 H1]. now rewrite H0, H1, !length_map.
Qed.

Lemma list_index_nth (v : nat) (l : list nat) (k : nat) :
  list_index Nat.eqb v l = Ok k -> nth_error l k = Some v.
Proof.
  intros H. apply list_index_Ok in H.
  now apply (find_index_Some Nat.eqb Nat_eqb_eq) in H.
Qed.

Lemma nth_error_same_length {A B : Type} (l : list A) (l' : list B) (k : nat) (x : A) :
  length l = length l' -> nth_error l k = Some x -> exists y, nth_error l' k = Some y.
Proof.
  intros Hlen H.
  destruct (nth_error l' k) as [y |] eqn:E; [eauto |].
  apply nth_error_None in E.
  assert (k < length l) by (apply nth_error_Some; congruence). lia.
Qed.

(** The search for the next edge: either it takes a remaining edge, or
    it leaves the state as it is. *)
Lemma find_next_accounted (st st' : walk_state) (consumed : list nat) (v : nat) :
  edges_accounted edges_in st consumed ->
  find_next st v = Ok st' ->
  (edges_accounted edges_in st' (consumed ++ [ed_index st]) /\
   ed_index st' <> ed_index st /\
   length (ec2 (edges_copy st)) = S (length (ec2 (edges_copy st')))) \/
  st' = st.
Proof.
  intros Hacc. unfold find_next.
  destruct (contains Nat.eqb v (ec0 (edges_copy st))).
  - destruct (list_index _ _ _) as [k | e]; simpl; [| discriminate].
    destruct (getitem _ _) as [ed | e] eqn:Eg; simpl; [| discriminate].
    apply getitem_Ok in Eg. intros H. left.
    eapply take_edge_accounted; eassumption.
  - destruct (contains Nat.eqb v (ec1 (edges_copy st))).
    + destruct (list_index _ _ _) as [k | e]; simpl; [| discriminate].
      destruct (getitem _ _) as [ed | e] eqn:Eg; simpl; [| discriminate].
      apply getitem_Ok in Eg. intros H. left.
      eapply take_edge_accounted; eassumption.
    + intros H. inversion H. now right.
Qed.

(** An iteration without limit detection walks the current edge and takes
    a remaining edge as the next one, as long as one remains. *)
Lemma walk_step_accounted (st st' : walk_state) (consumed : list nat) :
  edges_accounted edges_in st consumed ->
  walk_step verts_in edges_in false limits st = Ok st' ->
  match ec2 (edges_copy st) with
  | [] => ed_index st' = ed_index st /\ edges_copy st' = edges_copy st
  | _ :: _ =>
      edges_accounted edges_in st' (consumed ++ [ed_index st]) /\
      length (ec2 (edges_copy st)) = S (length (ec2 (edges_copy st')))
  end.
Proof.
  intros Hacc. unfold walk_step.
  destruct (emit_edge verts_in edges_in st) as [[st1 e] | err] eqn:Hemit; simpl;
    [| discriminate].
  apply emit_edge_spec in Hemit.
  destruct Hemit as (_ & _ & _ & _ & _ & _ & _ & _ & Hec & Hed & _).
  assert (Hacc1 : edges_accounted edges_in st1 consumed).
  { unfold edges_accounted. now rewrite Hec, Hed. }
  destruct (find_next st1 (snd e)) as [st2 | err] eqn:Hfind; simpl; [| discriminate].
  destruct (find_next_accounted _ Hacc1 Hfind) as [(Hacc2 & Hne & Hlen) | ->].
  - apply Nat.eqb_neq in Hne. rewrite Hne. simpl.
    intros H. inversion H; subst. rewrite <- Hec, <- Hed.
    destruct (ec2 (edges_copy st1)); [discriminate |]. auto.
  - rewrite Nat.eqb_refl. simpl.
    destruct Hacc1 as [Hc1 Hp1]. destruct (copy_ok_lengths Hc1) as [Hl0 _].
    rewrite <- Hec, <- Hed.
    destruct (ec2 (edges_copy st1)) as [| ed rest] eqn:E2.
    + destruct (ec0 (edges_copy st1)); [| discriminate]. simpl.
      intros H. inversion H; subst. auto.
    + destruct (ec0 (edges_copy st1)); [discriminate |]. simpl.
      unfold restart. simpl. unfold getitem. rewrite E2. simpl.
      intros H.
      assert (Hk : nth_error (ec2 (edges_copy st1)) 0 = Some ed)
        by now rewrite E2.
      assert (Hacc1 : edges_accounted edges_in st1 consumed).
      { split; [exact Hc1 |]. now rewrite E2. }
      destruct (@take_edge_accounted st1 st' consumed ed 0 0 Hacc1 Hk H)
        as (Hacc2 & _ & Hlen).
      rewrite E2 in Hlen. auto.
Qed.

(** After as many iterations as edges remain, plus one, every edge has
    been walked once. *)
Lemma walk_accounted (n : nat) (st st' : walk_state) (consumed : list nat)
    (t : list (nat * edge)) :
  edges_accounted edges_in st consumed ->
  n = S (length (ec2 (edges_copy st))) ->
  walk verts_in edges_in false limits n st = Ok st' ->
  walk_trace verts_in edges_in false limits n st = Ok t ->
  Permutation (consumed ++ map fst t) (seq 0 (length edges_in)).
Proof.
  revert st consumed t. induction n as [| n IH]; intros st consumed t Hacc Hn Hw Ht;
    [discriminate |].
  simpl in Hw, Ht.
  destruct (current_edge edges_in st) as [e | err]; simpl in Ht; [| discriminate].
  destruct (walk_step verts_in edges_in false limits st) as [st1 | err] eqn:Hs;
    simpl in Hw, Ht; [| discriminate].
  destruct (walk_trace verts_in edges_in false limits n st1) as [t1 | err] eqn:Ht1;
    simpl in Ht; [| discriminate].
  inversion Ht; subst t. simpl.
  pose proof (walk_step_accounted Hacc Hs) as Hstep.
  destruct (ec2 (edges_copy st)) as [| ed rest] eqn:E2.
  - simpl in Hn. inversion Hn; subst n. simpl in Ht1. inversion Ht1; subst t1.
    destruct Hacc as [_ Hp]. now rewrite E2 in Hp.
  - destruct Hstep as [Hacc1 Hlen].
    replace (consumed ++ ed_index st :: map fst t1)
      with ((consumed ++ [ed_index st]) ++ map fst t1)
      by now rewrite <- app_assoc.
    apply (IH st1); auto. simpl in Hn, Hlen. lia.
Qed.
End EveryEdgeOnce.

Lemma map_nth_seq_from {A B : Type} (f : A -> B) (l : list A) (d : A) (k : nat) :
  map f l = map (fun i => f (nth (i - k) l d)) (seq k (length l)).
Proof.
  revert k. induction l as [| a l IH]; intros k; simpl; [reflexivity |].
  rewrite Nat.sub_diag. f_equal. rewrite (IH (S k)).
  apply map_ext_in. intros i Hi. apply in_seq in Hi.
  replace (i - k) with (S (i - S k)) by lia. reflexivity.
Qed.

Lemma map_nth_seq {A B : Type} (f : A -> B) (l : list A) (d : A) :
  map f l = map (fun i => f (nth i l d)) (seq 0 (length l)).
Proof.
  rewrite (map_nth_seq_from f l d 0). apply map_ext. intros i.
  now rewrite Nat.sub_0_r.
Qed.

(** Without limit detection the walk starts on edge 0 with every other
    edge remaining. *)
Lemma walk_init_accounted (verts_in : list point) (edges_in : list edge)
    (limiting : bool) (limits : list limit) (st : walk_state) :
  walk_init verts_in edges_in false = Ok (limiting, limits, st) ->
  limiting = false /\ edges_accounted edges_in st [] /\
  length edges_in = S (length (ec2 (edges_copy st))).
Proof.
  unfold walk_init. simpl.
  destruct (pop_lower_level _ 0) as [ec | e] eqn:Hpop; simpl; [| discriminate].
  intros H. inversion H; subst. clear H. split; [reflexivity |].
  assert (Hc : copy_ok edges_in
                 (mk_copy (map fst edges_in) (map snd edges_in)
                          (seq 0 (length edges_in)))).
  { split; simpl; apply map_nth_seq. }
  destruct (@pop_lower_level_ok edges_in _ _ _ Hc Hpop) as (Hc' & ed & Hed & Hperm).
  simpl in Hed, Hperm.
  assert (ed = 0) as ->.
  { destruct (length edges_in); simpl in Hed; [discriminate | congruence]. }
  split; [split; [exact Hc' |] |]; simpl.
  - now symmetry.
  - apply Permutation_length in Hperm. now rewrite length_seq in Hperm.
Qed.

Lemma connex_walk (verts_in : list point) (edges_in : list edge) (limit_mode : bool)
    (r : list point * list edge * list nat) :
  sort_vertices_by_connexions verts_in edges_in limit_mode = Ok r ->
  exists limiting limits st0 st t,
    walk_init verts_in edges_in limit_mode = Ok (limiting, limits, st0) /\
    walk verts_in edges_in limiting limits (length edges_in) st0 = Ok st /\
    walk_trace verts_in edges_in limiting limits (length edges_in) st0 = Ok t /\
    connex_trace verts_in edges_in limit_mode = Ok t.
Proof.
  unfold sort_vertices_by_connexions, walk_result, connex_trace.
  destruct (walk_init verts_in edges_in limit_mode) as [[[limiting limits] st0] | e];
    simpl; [| discriminate].
  destruct (walk verts_in edges_in limiting limits (length edges_in) st0)
    as [st | e] eqn:Hw; simpl; [| discriminate].
  destruct (walk_trace_total _ _ _ _ _ _ Hw) as (t & Ht & _).
  intros _. exists limiting, limits, st0, st, t. auto.
Qed.

(** Without limit detection every input edge is walked exactly once:
    the indices of the walked edges are a permutation of the edge indices, the
    walked edges are the input edges in one of their directions, and the
    edge output is the list of walked edges with each end replaced by the
    position of its coordinates in the vertex output. *)
Theorem every_edge_once_without_limits :
  forall verts_in edges_in vo eo idx,
    sort_vertices_by_connexions verts_in edges_in false = Ok (vo, eo, idx) ->
    exists t,
      connex_trace verts_in edges_in false = Ok t /\
      Permutation (map fst t) (seq 0 (length edges_in)) /\
      Forall (input_edge edges_in) t /\
      Forall2 (reindexed verts_in vo) t eo.
Proof.
  intros verts_in edges_in vo eo idx H.
  destruct (connex_walk _ _ _ H) as (limiting & limits & st0 & st & t &
                                     Hinit & Hw & Ht & Hct).
  apply connex_spec in H.
  destruct H as (st' & t' & vt & tail & _ & Hct' & _ & Hinv & -> & -> & _).
  assert (t' = t) as -> by congruence.
  exists t. split; [exact Hct |].
  destruct (walk_init_accounted _ _ Hinit) as (-> & Hacc & Hlen).
  split; [| split].
  - apply (@walk_accounted verts_in edges_in limits _ st0 st [] t Hacc Hlen Hw Ht).
  - now destruct Hinv as (_ & _ & _ & Hi & _).
  - destruct Hinv as (_ & _ & Hr & _). now apply reindexed_app.
Qed.

Lemma every_edge_once_without_limits_witness :
  exists t,
    connex_trace [pt 0 0 0; pt 1 0 0; pt 2 0 0; pt 3 0 0]
                 [(1, 2); (0, 1); (2, 3)] false = Ok t /\
    Permutation (map fst t) (seq 0 3) /\
    Forall (input_edge [(1, 2); (0, 1); (2, 3)]) t /\
    Forall2 (reindexed [pt 0 0 0; pt 1 0 0; pt 2 0 0; pt 3 0 0]
                       [pt 1 0 0; pt 2 0 0; pt 3 0 0; pt 0 0 0])
            t [(0, 1); (1, 2); (3, 0)].
Proof.
  apply (@every_edge_once_without_limits
           [pt 0 0 0; pt 1 0 0; pt 2 0 0; pt 3 0 0] [(1, 2); (0, 1); (2, 3)]
           [pt 1 0 0; pt 2 0 0; pt 3 0 0; pt 0 0 0] [(0, 1); (1, 2); (3, 0)]
           [1; 2; 3; 0]).
  vm_compute. reflexivity.
Defined.

(* ================================================================== *)
(** ** Connectivity mode without limit detection: no exception *)

Lemma list_index_total {A : Type} (eqb : A -> A -> bool) (x : A) (l : list A) :
  (forall a b, eqb a b = true <-> a = b) ->
  In x l -> exists k, list_index eqb x l = Ok k.
Proof.
  intros Heq Hin. unfold list_index.
  destruct (find_index eqb x l) as [k |] eqn:E; [eauto |].
  apply (find_index_None eqb Heq) in E. contradiction.
Qed.

Section NoException.
Variable verts_in : list point.
Variable edges_in : list edge.
Variable limits : list limit.
Hypothesis in_range : edges_in_range (length verts_in) edges_in.

Lemma visit_total (vo : list point) (idx : list nat) (side : nat) :
  side < length verts_in -> returns (visit verts_in vo idx side).
Proof.
  intros Hs. unfold returns, visit, getitem.
  destruct (nth_error verts_in side) as [p |] eqn:E;
    [| apply nth_error_None in E; lia].
  simpl. destruct (contains point_eqb p vo) eqn:Ec.
  - apply (contains_In point_eqb point_eqb_eq) in Ec.
    destruct (list_index_total point_eqb p vo point_eqb_eq Ec) as [k ->].
    simpl. eauto.
  - assert (Hin : In p (vo ++ [p])) by (apply in_or_app; right; now left).
    destruct (list_index_total point_eqb p (vo ++ [p]) point_eqb_eq Hin) as [k ->].
    simpl. eauto.
Qed.

Lemma emit_edge_total (st : walk_state) :
  ed_index st < length edges_in -> returns (emit_edge verts_in edges_in st).
Proof.
  intros Hed. unfold returns, emit_edge, current_edge, getitem.
  destruct (nth_error edges_in (ed_index st)) as [e0 |] eqn:E;
    [| apply nth_error_None in E; lia].
  simpl. apply nth_error_In in E.
  unfold edges_in_range in in_range. rewrite Forall_forall in in_range.
  destruct (in_range _ E) as [H0 H1].
  set (e := if or_side st =? 1 then (snd e0, fst e0) else e0).
  assert (He : fst e < length verts_in /\ snd e < length verts_in).
  { subst e. destruct (or_side st =? 1); simpl; auto. }
  destruct He as [Hf Hs].
  destruct (visit_total (verts_out st) (index st) Hf) as [[[vo idx] a] ->]. simpl.
  destruct (visit_total vo idx Hs) as [[[vo' idx'] b] ->]. simpl. eauto.
Qed.

Lemma take_edge_total (st : walk_state) (ed side k : nat) :
  copy_ok edges_in (edges_copy st) -> k < length (ec2 (edges_copy st)) ->
  returns (take_edge st ed side k).
Proof.
  intros Hc Hk. unfold returns, take_edge.
  destruct (pop_lower_level_total Hc Hk) as [ec ->]. simpl. eauto.
Qed.

Lemma find_next_total (st : walk_state) (v : nat) :
  copy_ok edges_in (edges_copy st) -> returns (find_next st v).
Proof.
  intros Hc. destruct (copy_ok_lengths Hc) as [Hl0 Hl1]. unfold find_next.
  destruct (contains Nat.eqb v (ec0 (edges_copy st))) eqn:E0.
  - apply (contains_In Nat.eqb Nat_eqb_eq) in E0.
    destruct (list_index_total Nat.eqb v _ Nat_eqb_eq E0) as [k Hk]. rewrite Hk.
    simpl. apply list_index_nth in Hk.
    destruct (nth_error_same_length _ (ec2 (edges_copy st)) _ Hl0 Hk) as [ed Hed].
    unfold getitem. rewrite Hed. simpl.
    apply take_edge_total; [exact Hc |]. apply nth_error_Some. congruence.
  - destruct (contains Nat.eqb v (ec1 (edges_copy st))) eqn:E1.
    + apply (contains_In Nat.eqb Nat_eqb_eq) in E1.
      destruct (list_index_total Nat.eqb v _ Nat_eqb_eq E1) as [k Hk]. rewrite Hk.
      simpl. apply list_index_nth in Hk.
      destruct (nth_error_same_length _ (ec2 (edges_copy st)) _ Hl1 Hk) as [ed Hed].
      unfold getitem. rewrite Hed. simpl.
      apply take_edge_total; [exact Hc |]. apply nth_error_Some. congruence.
    + unfold returns. eauto.
Qed.

Lemma restart_total (st : walk_state) :
  copy_ok edges_in (edges_copy st) -> 0 < length (ec0 (edges_copy st)) ->
  returns (restart false limits st).
Proof.
  intros Hc Hlen. destruct (copy_ok_lengths Hc) as [Hl0 _].
  unfold restart. simpl. unfold getitem.
  destruct (ec2 (edges_copy st)) as [| ed rest] eqn:E2;
    [rewrite Hl0 in Hlen; simpl in Hlen; lia |].
  simpl. apply take_edge_total; [exact Hc |]. rewrite E2. simpl. lia.
Qed.

Lemma find_next_copy_ok (st st' : walk_state) (v : nat) :
  copy_ok edges_in (edges_copy st) -> find_next st v = Ok st' ->
  copy_ok edges_in (edges_copy st').
Proof.
  intros Hc. unfold find_next.
  assert (T : forall ed side k, take_edge st ed side k = Ok st' ->
                                copy_ok edges_in (edges_copy st')).
  { intros ed side k H. apply take_edge_spec in H.
    destruct H as (_ & _ & _ & Hpop).
    now destruct (@pop_lower_level_ok edges_in _ _ _ Hc Hpop). }
  destruct (contains Nat.eqb v (ec0 (edges_copy st))).
  - destruct (list_index _ _ _) as [k | e]; simpl; [| discriminate].
    destruct (getitem _ _) as [ed | e]; simpl; [| discriminate]. apply T.
  - destruct (contains Nat.eqb v (ec1 (edges_copy st))).
    + destruct (list_index _ _ _) as [k | e]; simpl; [| discriminate].
      destruct (getitem _ _) as [ed | e]; simpl; [| discriminate]. apply T.
    + intros H. inversion H; subst. exact Hc.
Qed.

Lemma walk_step_total (st : walk_state) (consumed : list nat) :
  edges_accounted edges_in st consumed ->
  returns (walk_step verts_in edges_in false limits st).
Proof.
  intros [Hc Hp]. unfold walk_step.
  assert (Hed : ed_index st < length edges_in).
  { assert (Hin : In (ed_index st) (seq 0 (length edges_in))).
    { eapply Permutation_in; [exact Hp |]. apply in_elt. }
    apply in_seq in Hin. lia. }
  destruct (emit_edge_total st Hed) as [[st1 e] Hemit]. rewrite Hemit. simpl.
  apply emit_edge_spec in Hemit.
  destruct Hemit as (_ & _ & _ & _ & _ & _ & _ & _ & Hec & _).
  assert (Hc1 : copy_ok edges_in (edges_copy st1)) by now rewrite Hec.
  destruct (find_next_total st1 (snd e) Hc1) as [st2 Hfind]. rewrite Hfind. simpl.
  pose proof (@find_next_copy_ok st1 st2 (snd e) Hc1 Hfind) as Hc2.
  destruct (ed_index st2 =? ed_index st1); simpl; [| unfold returns; eauto].
  destruct (Nat.ltb_spec 0 (length (ec0 (edges_copy st2)))) as [Hlt | Hge].
  - now apply restart_total.
  - unfold returns. eauto.
Qed.

Lemma walk_total (n : nat) (st : walk_state) (consumed : list nat) :
  edges_accounted edges_in st consumed ->
  n = S (length (ec2 (edges_copy st))) ->
  returns (walk verts_in edges_in false limits n st).
Proof.
  revert st consumed. induction n as [| n IH]; intros st consumed Hacc Hn;
    [discriminate |].
  simpl. destruct (walk_step_total Hacc) as [st1 Hs]. rewrite Hs. simpl.
  pose proof (@walk_step_accounted verts_in edges_in limits st st1 consumed Hacc Hs)
    as Hstep.
  destruct (ec2 (edges_copy st)) as [| ed rest] eqn:E2.
  - simpl in Hn. inversion Hn; subst n. simpl. unfold returns. eauto.
  - destruct Hstep as [Hacc1 Hlen]. apply (IH st1 _ Hacc1).
    simpl in Hn, Hlen. lia.
Qed.
End NoException.

(** Without limit detection the function returns on every edge list
    that is not empty and whose ends are indices of vertices. *)
Theorem connex_returns_without_limits :
  forall verts_in edges_in,
    edges_in <> [] ->
    edges_in_range (length verts_in) edges_in ->
    returns (sort_vertices_by_connexions verts_in edges_in false).
Proof.
  intros verts_in edges_in Hne Hr.
  unfold sort_vertices_by_connexions, walk_result.
  destruct (walk_init verts_in edges_in false) as [[[limiting limits] st0] | e]
    eqn:Hinit.
  - simpl. destruct (walk_init_accounted _ _ Hinit) as (-> & Hacc & Hlen).
    destruct (walk_total verts_in limits Hr Hacc Hlen) as [st ->]. simpl.
    destruct (add_unconnected verts_in (verts_out st) (index st)).
    unfold returns. eauto.
  - exfalso. unfold walk_init in Hinit. simpl in Hinit.
    assert (Hc : copy_ok edges_in
                   (mk_copy (map fst edges_in) (map snd edges_in)
                            (seq 0 (length edges_in)))).
    { split; simpl; apply map_nth_seq. }
    destruct (@pop_lower_level_total edges_in _ 0 Hc) as [ec Hpop].
    + simpl. rewrite length_seq. destruct edges_in; [congruence | simpl; lia].
    + rewrite Hpop in Hinit. discriminate.
Qed.

Lemma connex_returns_without_limits_witness :
  returns (sort_vertices_by_connexions [pt 0 0 0; pt 1 0 0; pt 0 0 0]
                                       [(0, 1); (1, 2)] false).
Proof.
  apply connex_returns_without_limits.
  - discriminate.
  - repeat constructor.
Defined.

(* ================================================================== *)
(** ** Further properties and the examples of the specification *)

(** The XYZ order is stable: ascending in the signed z, then y, then x,
    and by original index between items that agree on all three. *)
Theorem xyz_sort_stable :
  forall rx ry rz v, StronglySorted (xyz_order rx ry rz) (xyz_sort rx ry rz v).
Proof.
  intros rx ry rz v. rewrite xyz_sort_spec. apply xyz_spec_sorted.
Qed.

(** Connectivity mode on the two disjoint segments (0,1) and (2,3): both
    segments come out one after the other, with and without limit
    detection. *)
Theorem two_segments_example :
  let v := [pt 0 0 0; pt 1 0 0; pt 2 0 0; pt 3 0 0] in
  sort_vertices_by_connexions v [(0, 1); (2, 3)] true =
    Ok (v, [(0, 1); (2, 3)], [0; 1; 2; 3]) /\
  sort_vertices_by_connexions v [(0, 1); (2, 3)] false =
    Ok (v, [(0, 1); (2, 3)], [0; 1; 2; 3]).
Proof. split; vm_compute; reflexivity. Qed.

(** With the reverse option of Auto Direction, [s_v] is the iterator
    [reversed(s_v)]: the vertex output consumes it, the item order output
    is empty, and the remapping of a non-empty edge raises [KeyError]. *)
Theorem adir_reverse_iterator :
  forall (line_direction : list point -> point) (dot : point -> point -> num)
         (v : list point)
         (p : list (list nat)) (n : nat) (pe : list nat) (oo : bool),
    process_ADIR line_direction dot true false true v p =
      Ok (mk_out (rev (map item_coords (adir_spec dot (line_direction v) false v)))
                 None (Some [])) /\
    process_ADIR line_direction dot true true oo v ((n :: pe) :: p) = Raise KeyError.
Proof.
  intros line_direction dot v p n pe oo. unfold process_ADIR.
  rewrite adir_sort_on. unfold emit_items, emit_sorted. simpl.
  rewrite !mapM_Ok, map_rev. simpl. split; reflexivity.
Qed.

(* ================================================================== *)
(** ** [find_limits]: the vertices of degree one *)

Lemma degree_app (v : nat) (l1 l2 : list edge) :
  degree v (l1 ++ l2) = degree v l1 + degree v l2.
Proof.
  induction l1 as [| e l1 IH]; simpl; [reflexivity |]. rewrite IH. lia.
Qed.

Lemma list_set_middle {A : Type} (l1 l2 : list A) (x y : A) :
  list_set (l1 ++ y :: l2) (length l1) x = l1 ++ x :: l2.
Proof.
  unfold list_set. induction l1 as [| z l1 IH]; simpl; [reflexivity |].
  f_equal. exact IH.
Qed.

Lemma nth_error_list_set {A : Type} (l : list A) (v w : nat) (x : A) :
  v < length l ->
  nth_error (list_set l v x) w = if w =? v then Some x else nth_error l w.
Proof.
  intros Hv.
  destruct (nth_error l v) as [y |] eqn:E; [| apply nth_error_None in E; lia].
  apply nth_error_split in E. destruct E as (l1 & l2 & -> & <-).
  rewrite list_set_middle.
  destruct (Nat.eqb_spec w (length l1)) as [-> | Hne].
  - now rewrite nth_error_app2, Nat.sub_diag by lia.
  - destruct (Nat.lt_ge_cases w (length l1)) as [Hlt | Hge].
    + now rewrite !nth_error_app1 by lia.
    + rewrite !nth_error_app2 by lia.
      replace (w - length l1) with (S (w - length l1 - 1)) by lia. reflexivity.
Qed.

Lemma length_list_set {A : Type} (l : list A) (v : nat) (x : A) :
  v < length l -> length (list_set l v x) = length l.
Proof.
  intros Hv.
  destruct (nth_error l v) as [y |] eqn:E; [| apply nth_error_None in E; lia].
  apply nth_error_split in E. destruct E as (l1 & l2 & -> & <-).
  rewrite list_set_middle, !length_app. reflexivity.
Qed.

Lemma end_of_app (done more : list edge) (v side i : nat) :
  end_of done v side i -> end_of (done ++ more) v side i.
Proof.
  intros (e & He & H). exists e. split; [| exact H].
  rewrite nth_error_app1; [exact He |]. apply nth_error_Some. congruence.
Qed.

(** Counting one end, [side] of the edge [e] that comes after [done]. *)
Lemma touch_counted (n : nat) (done : list edge) (e : edge)
    (vc vc' : list v_count_entry) (v side : nat) (extra : nat -> nat) :
  length vc = n ->
  (side = 0 /\ fst e = v) \/ (side = 1 /\ snd e = v) ->
  (forall w c s i, nth_error vc w = Some (c, s, i) ->
                   c = degree w done + extra w /\
                   (0 < c -> end_of (done ++ [e]) w s i)) ->
  touch vc v side (length done) = Ok vc' ->
  length vc' = n /\
  forall w c s i, nth_error vc' w = Some (c, s, i) ->
                  c = degree w done + extra w + (if w =? v then 1 else 0) /\
                  (0 < c -> end_of (done ++ [e]) w s i).
Proof.
  intros Hlen Hside Hvc. unfold touch, getitem.
  destruct (nth_error vc v) as [[[c0 s0] i0] |] eqn:E; simpl; [| discriminate].
  assert (Hv : v < length vc) by (apply nth_error_Some; congruence).
  intros H. injection H as <-.
  split; [rewrite length_list_set; auto |].
  intros w c s i. rewrite nth_error_list_set by exact Hv.
  destruct (Nat.eqb_spec w v) as [-> | Hne].
  - intros H. inversion H; subst. destruct (Hvc _ _ _ _ E) as [Hc _].
    split; [lia |]. intros _. exists e. split; [| exact Hside].
    now rewrite nth_error_app2, Nat.sub_diag by lia.
  - intros H. destruct (Hvc _ _ _ _ H) as [Hc He]. split; [lia | exact He].
Qed.

Lemma count_from (n : nat) (es done : list edge) (vc vc' : list v_count_entry) :
  counted n done vc ->
  foldM (fun vc (ie : nat * edge) =>
           let '(i, e) := ie in
           vc1 <- touch vc (fst e) 0 i ;;
           touch vc1 (snd e) 1 i)
        (combine (seq (length done) (length es)) es) vc = Ok vc' ->
  counted n (done ++ es) vc'.
Proof.
  revert done vc. induction es as [| e es IH]; intros done vc Hc; simpl.
  - intros H. inversion H; subst. now rewrite app_nil_r.
  - destruct (touch vc (fst e) 0 (length done)) as [vc1 | err] eqn:E1; simpl;
      [| discriminate].
    destruct (touch vc1 (snd e) 1 (length done)) as [vc2 | err] eqn:E2; simpl;
      [| discriminate].
    intros H. destruct Hc as [Hlen Hvc].
    assert (H1 := @touch_counted n done e vc vc1 (fst e) 0 (fun _ => 0) Hlen).
    destruct H1 as [Hlen1 Hvc1]; auto.
    { intros w c s i Hw. destruct (Hvc _ _ _ _ Hw) as [Hc He].
      split; [lia |]. intros Hpos. now apply end_of_app, He. }
    assert (H2 := @touch_counted n done e vc1 vc2 (snd e) 1
                    (fun w => 0 + (if w =? fst e then 1 else 0)) Hlen1).
    destruct H2 as [Hlen2 Hvc2]; auto.
    { intros w c s i Hw. destruct (Hvc1 _ _ _ _ Hw) as [Hc He]. split; [lia | exact He]. }
    replace (done ++ e :: es) with ((done ++ [e]) ++ es) by now rewrite <- app_assoc.
    apply (IH (done ++ [e]) vc2).
    + split; [exact Hlen2 |]. intros w c s i Hw.
      destruct (Hvc2 _ _ _ _ Hw) as [Hc He]. split; [| exact He].
      rewrite degree_app. simpl.
      rewrite (Nat.eqb_sym (fst e) w), (Nat.eqb_sym (snd e) w). lia.
    + rewrite length_app. simpl. now rewrite Nat.add_1_r.
Qed.

Lemma count_edges_counted (n : nat) (edges_in : list edge) (vc : list v_count_entry) :
  count_edges n edges_in = Ok vc -> counted n edges_in vc.
Proof.
  unfold count_edges, enumerate. intros H.
  apply (@count_from n edges_in [] (repeat (0, 0, 0) n) vc); [| exact H].
  split; [apply repeat_length |].
  intros v c side i Hv. apply nth_error_In, repeat_spec in Hv.
  inversion Hv; subst. simpl. split; [reflexivity | lia].
Qed.

Lemma In_collect_limits (vc : list v_count_entry) (v side i : nat) :
  In (v, side, i) (collect_limits vc) <-> nth_error vc v = Some (1, side, i).
Proof.
  unfold collect_limits. rewrite in_flat_map. split.
  - intros ([w [[c s] j]] & Hin & H). apply In_enumerate in Hin.
    destruct (Nat.eqb_spec c 1) as [-> | Hne]; [| contradiction].
    destruct H as [H | []]. now inversion H; subst.
  - intros H. exists (v, (1, side, i)). split; [now apply In_enumerate |].
    simpl. now left.
Qed.

(** The limits are the vertices that exactly one edge end touches, in
    ascending order, each with the edge that touches it and the side of
    that edge. *)
Lemma find_limits_spec :
  forall verts_in edges_in lims,
    find_limits verts_in edges_in = Ok lims ->
    StronglySorted by_vertex lims /\
    (forall v side i,
        In (v, side, i) lims ->
        v < length verts_in /\ degree v edges_in = 1 /\ end_of edges_in v side i) /\
    (forall v,
        v < length verts_in -> degree v edges_in = 1 ->
        exists side i, In (v, side, i) lims).
Proof.
  intros verts_in edges_in lims H.
  split; [now apply find_limits_sorted in H |].
  unfold find_limits in H.
  destruct (count_edges (length verts_in) edges_in) as [vc | e] eqn:E; simpl in H;
    [| discriminate].
  injection H as <-. apply count_edges_counted in E. destruct E as [Hlen Hvc].
  split.
  - intros v side i Hin. apply In_collect_limits in Hin.
    destruct (Hvc _ _ _ _ Hin) as [Hc He].
    split; [| split; [now symmetry | apply He; lia]].
    rewrite <- Hlen. apply nth_error_Some. congruence.
  - intros v Hv Hd.
    destruct (nth_error vc v) as [[[c s] i] |] eqn:Ev;
      [| apply nth_error_None in Ev; lia].
    destruct (Hvc _ _ _ _ Ev) as [Hc _].
    exists s, i. apply In_collect_limits. rewrite Ev, Hc, Hd. reflexivity.
Qed.

(** [find_limits] returns the vertices that exactly one edge end
    touches, in ascending order, each with an edge that touches it and
    the side of that edge. *)
Theorem find_limits_degree_one :
  forall verts_in edges_in lims,
    find_limits verts_in edges_in = Ok lims ->
    StronglySorted by_vertex lims /\
    (forall v side i,
        In (v, side, i) lims ->
        v < length verts_in /\ degree v edges_in = 1 /\ end_of edges_in v side i) /\
    (forall v,
        v < length verts_in -> degree v edges_in = 1 ->
        exists side i, In (v, side, i) lims).
Proof. exact find_limits_spec. Qed.

Lemma find_limits_degree_one_witness :
  StronglySorted by_vertex [(0, 0, 0); (3, 1, 2)] /\
  (forall v side i,
      In (v, side, i) [(0, 0, 0); (3, 1, 2)] ->
      v < 4 /\ degree v [(0, 1); (1, 2); (2, 3)] = 1 /\
      end_of [(0, 1); (1, 2); (2, 3)] v side i) /\
  (forall v,
      v < 4 -> degree v [(0, 1); (1, 2); (2, 3)] = 1 ->
      exists side i, In (v, side, i) [(0, 0, 0); (3, 1, 2)]).
Proof.
  apply (@find_limits_degree_one [pt 0 0 0; pt 1 0 0; pt 2 0 0; pt 3 0 0]
                                 [(0, 1); (1, 2); (2, 3)]).
  vm_compute. reflexivity.
Defined.

(* ================================================================== *)
(** ** Connectivity mode on distinct coordinates: no exception *)

Lemma degree_end (v : nat) (edges : list edge) (e : edge) :
  In e edges -> fst e = v \/ snd e = v -> 1 <= degree v edges.
Proof.
  induction edges as [| e' edges IH]; simpl; [contradiction |].
  intros [-> | Hin] Hv.
  - destruct Hv as [-> | ->]; rewrite Nat.eqb_refl; lia.
  - specialize (IH Hin Hv). lia.
Qed.

(** A vertex of degree one is an end of one edge only. *)
Lemma degree_one_unique (v : nat) (edges : list edge) (s s' i i' : nat) :
  degree v edges = 1 ->
  end_of edges v s i -> end_of edges v s' i' -> i = i'.
Proof.
  intros Hd (e & He & Hs) (e' & He' & Hs').
  apply nth_error_split in He. destruct He as (l1 & l2 & -> & <-).
  rewrite degree_app in Hd. simpl in Hd.
  assert (Hv : fst e = v \/ snd e = v) by tauto.
  assert (Hv' : fst e' = v \/ snd e' = v) by tauto.
  assert (H1 : 1 <= (if fst e =? v then 1 else 0) + (if snd e =? v then 1 else 0)).
  { destruct Hv as [-> | ->]; rewrite Nat.eqb_refl; lia. }
  destruct (Nat.lt_trichotomy i' (length l1)) as [Hlt | [-> | Hgt]];
    [| reflexivity |]; exfalso.
  - rewrite nth_error_app1 in He' by exact Hlt.
    apply nth_error_In in He'. pose proof (@degree_end v l1 e' He' Hv'). lia.
  - rewrite nth_error_app2 in He' by lia.
    replace (i' - length l1) with (S (i' - length l1 - 1)) in He' by lia.
    simpl in He'. apply nth_error_In in He'.
    pose proof (@degree_end v l2 e' He' Hv'). lia.
Qed.

Lemma look_names (verts_in vo : list point) (idx : list nat) (side : nat) (p : point) :
  nth_error verts_in side = Some p ->
  names verts_in idx vo -> NoDup vo ->
  names verts_in (if contains point_eqb p vo then idx else idx ++ [side])
        (if contains point_eqb p vo then vo else vo ++ [p]) /\
  NoDup (if contains point_eqb p vo then vo else vo ++ [p]).
Proof.
  intros Hp Hn Hd. destruct (contains point_eqb p vo) eqn:Ec; [auto |].
  apply (contains_not_In point_eqb point_eqb_eq) in Ec. split.
  - apply Forall2_app; [exact Hn |]. repeat constructor. exact Hp.
  - now apply NoDup_snoc.
Qed.

Section DistinctCoordinates.
Variable verts_in : list point.
Variable edges_in : list edge.
Variable limiting : bool.
Variable limits : list limit.
Hypothesis in_range : edges_in_range (length verts_in) edges_in.
Hypothesis distinct : NoDup verts_in.
Hypothesis limits_good : limits_ok edges_in limits.

Lemma walked_edge_incl (idx idx' : list nat) (i : nat) :
  incl idx idx' -> walked_edge edges_in idx i -> walked_edge edges_in idx' i.
Proof.
  intros Hi (e & He & H0 & H1). exists e. auto.
Qed.

(** After a look at [side], [side] is in the item order. *)
Lemma look_records (vo : list point) (idx : list nat) (side : nat) (p : point) :
  nth_error verts_in side = Some p ->
  names verts_in idx vo ->
  In side (if contains point_eqb p vo then idx else idx ++ [side]) /\
  incl idx (if contains point_eqb p vo then idx else idx ++ [side]).
Proof.
  intros Hp Hn. destruct (contains point_eqb p vo) eqn:Ec.
  - apply (contains_In point_eqb point_eqb_eq) in Ec.
    destruct (@names_In _ _ _ _ Hn Ec) as (r & Hr & Er).
    assert (r = side) as ->.
    { rewrite NoDup_nth_error in distinct. apply distinct; [| congruence].
      apply nth_error_Some. congruence. }
    split; [exact Hr | apply incl_refl].
  - split; [apply in_or_app; right; now left | apply incl_appl, incl_refl].
Qed.

(** Emitting the current edge records both its ends. *)
Lemma emit_edge_walked (st st1 : walk_state) (e : edge) :
  walk_ok verts_in edges_in st ->
  emit_edge verts_in edges_in st = Ok (st1, e) ->
  walk_ok verts_in edges_in st1 /\
  walked_edge edges_in (index st1) (ed_index st1) /\
  edges_copy st1 = edges_copy st /\ ed_index st1 = ed_index st.
Proof.
  intros (Hc & Hr & Hed & Hn & Hd & Hl) H.
  apply emit_edge_spec in H.
  destruct H as (vo & idx & a & b & He & Hv1 & Hv2 & _ & Hec & Hed1 & _).
  apply visit_look in Hv1. destruct Hv1 as (p & Hp & _ & -> & ->).
  apply visit_look in Hv2. destruct Hv2 as (q & Hq & _ & Evo & Eidx).
  destruct (look_names (fst e) Hp Hn Hd) as [Hn1 Hd1].
  destruct (look_records (fst e) Hp Hn) as [Hin1 Hinc1].
  destruct (look_names (snd e) Hq Hn1 Hd1) as [Hn2 Hd2].
  destruct (look_records (snd e) Hq Hn1) as [Hin2 Hinc2].
  rewrite <- Evo in Hn2, Hd2. rewrite <- Eidx in Hn2, Hin2, Hinc2.
  assert (Hinc : incl (index st) (index st1))
    by (eapply incl_tran; eassumption).
  assert (Hw : walked_edge edges_in (index st1) (ed_index st1)).
  { apply current_edge_spec in He. destruct He as (e0 & He0 & Hor).
    exists e0. rewrite Hed1. split; [exact He0 |].
    destruct Hor as [-> | ->]; simpl in *; auto. }
  split; [| auto].
  unfold walk_ok. rewrite Hec, Hed1.
  split; [exact Hc |]. split; [exact Hr |]. split; [exact Hed |].
  split; [exact Hn2 |]. split; [exact Hd2 |].
  intros i Hi. rewrite Hec, Hed1. destruct (Hl i Hi) as [H | [H | H]]; auto.
  right. right. eapply walked_edge_incl; eassumption.
Qed.

(** Taking a remaining edge loses none. *)
Lemma take_edge_ok (st st' : walk_state) (ed side k : nat) :
  walk_ok verts_in edges_in st ->
  walked_edge edges_in (index st) (ed_index st) ->
  nth_error (ec2 (edges_copy st)) k = Some ed ->
  take_edge st ed side k = Ok st' ->
  walk_ok verts_in edges_in st'.
Proof.
  intros (Hc & Hr & Hed & Hn & Hd & Hl) Hw Hk H.
  apply take_edge_spec in H. destruct H as (Ho & Hed' & _ & Hpop).
  destruct (@pop_lower_level_ok edges_in _ _ _ Hc Hpop) as (Hc' & ed' & Hed'' & Hperm).
  assert (ed' = ed) as -> by congruence.
  unfold outputs in Ho. inversion Ho as [[Hvo Heo Hidx]].
  unfold walk_ok, no_edge_lost. rewrite Hvo, Hidx, Hed'.
  rewrite Forall_forall in Hr.
  split; [exact Hc' |]. split; [| split; [| split; [| split]]].
  - apply Forall_forall. intros i Hi. apply Hr.
    apply (Permutation_in i (Permutation_sym Hperm)). now right.
  - apply Hr. eapply nth_error_In; eassumption.
  - exact Hn.
  - exact Hd.
  - intros i Hi. destruct (Hl i Hi) as [H | [-> | H]].
    + apply (Permutation_in i Hperm) in H. destruct H as [<- | H]; auto.
    + right. right. exact Hw.
    + right. right. exact H.
Qed.

Lemma find_next_ok (st st' : walk_state) (v : nat) :
  walk_ok verts_in edges_in st ->
  walked_edge edges_in (index st) (ed_index st) ->
  find_next st v = Ok st' ->
  walk_ok verts_in edges_in st' /\ index st' = index st /\
  (walked_edge edges_in (index st) (ed_index st') -> 
   forall i, i < length edges_in ->
             In i (ec2 (edges_copy st')) \/ walked_edge edges_in (index st') i).
Proof.
  intros Hok Hw H.
  assert (G : walk_ok verts_in edges_in st' -> index st' = index st ->
              walk_ok verts_in edges_in st' /\ index st' = index st /\
              (walked_edge edges_in (index st) (ed_index st') ->
               forall i, i < length edges_in ->
                         In i (ec2 (edges_copy st')) \/
                         walked_edge edges_in (index st') i)).
  { intros Hok' Hidx. split; [exact Hok' |]. split; [exact Hidx |].
    intros Hw' i Hi. destruct Hok' as (_ & _ & _ & _ & _ & Hl).
    rewrite Hidx. destruct (Hl i Hi) as [H1 | [-> | H1]]; auto.
    right. now rewrite <- Hidx. }
  assert (T : forall ed side k,
             nth_error (ec2 (edges_copy st)) k = Some ed ->
             take_edge st ed side k = Ok st' ->
             walk_ok verts_in edges_in st' /\ index st' = index st).
  { intros ed side k Hk Ht. split; [eapply take_edge_ok; eassumption |].
    apply take_edge_spec in Ht. destruct Ht as (Ho & _). now inversion Ho. }
  unfold find_next in H.
  destruct (contains Nat.eqb v (ec0 (edges_copy st))).
  - destruct (list_index _ _ _) as [k | e]; simpl in H; [| discriminate].
    destruct (getitem _ _) as [ed | e] eqn:Eg; simpl in H; [| discriminate].
    apply getitem_Ok in Eg. destruct (T _ _ _ Eg H). now apply G.
  - destruct (contains Nat.eqb v (ec1 (edges_copy st))).
    + destruct (list_index _ _ _) as [k | e]; simpl in H; [| discriminate].
      destruct (getitem _ _) as [ed | e] eqn:Eg; simpl in H; [| discriminate].
      apply getitem_Ok in Eg. destruct (T _ _ _ Eg H). now apply G.
    + inversion H; subst. now apply G.
Qed.

(** The end of an edge that remains is in the copies of the ends. *)
Lemma remaining_end (ec : edges_copy_t) (v side i : nat) :
  copy_ok edges_in ec -> In i (ec2 ec) -> end_of edges_in v side i ->
  In v (ec0 ec) \/ In v (ec1 ec).
Proof.
  intros [H0 H1] Hi (e & He & Hs). rewrite H0, H1.
  assert (Hn : nth i edges_in (0, 0) = e) by now apply nth_error_nth.
  destruct Hs as [[_ <-] | [_ <-]]; [left | right];
    apply in_map_iff; exists i; rewrite Hn; auto.
Qed.

(** A position of the copies that holds the vertex of a limit holds the
    edge of that limit. *)
Lemma limit_position (ec : edges_copy_t) (lim : limit) (k : nat) :
  copy_ok edges_in ec -> Forall (fun i => i < length edges_in) (ec2 ec) ->
  In lim limits ->
  nth_error (ec0 ec) k = Some (lim_vertex lim) \/
  nth_error (ec1 ec) k = Some (lim_vertex lim) ->
  nth_error (ec2 ec) k = Some (lim_edge lim).
Proof.
  intros [H0 H1] Hr Hlim Hk. destruct (limits_good _ Hlim) as [Hd He].
  assert (Hex : exists i side, nth_error (ec2 ec) k = Some i /\
                               end_of edges_in (lim_vertex lim) side i).
  { rewrite H0, H1, !nth_error_map in Hk.
    destruct (nth_error (ec2 ec) k) as [i |] eqn:Ei; simpl in Hk;
      [| destruct Hk; discriminate].
    rewrite Forall_forall in Hr.
    assert (Hi : i < length edges_in) by (apply Hr; eapply nth_error_In; eassumption).
    destruct (nth_error edges_in i) as [e |] eqn:Ee;
      [| apply nth_error_None in Ee; lia].
    assert (Hn : nth i edges_in (0, 0) = e) by now apply nth_error_nth.
    rewrite Hn in Hk. exists i.
    destruct Hk as [Hk | Hk]; inversion Hk;
      [exists 0 | exists 1]; (split; [reflexivity |]); exists e; auto. }
  destruct Hex as (i & side & Hi & He').
  rewrite Hi. f_equal. eapply degree_one_unique; eassumption.
Qed.

Lemma restart_ok (st st' : walk_state) :
  walk_ok verts_in edges_in st ->
  (forall i, i < length edges_in ->
             In i (ec2 (edges_copy st)) \/ walked_edge edges_in (index st) i) ->
  restart limiting limits st = Ok st' ->
  walk_ok verts_in edges_in st'.
Proof.
  intros Hok Hall H.
  assert (Hw : walked_edge edges_in (index st) (ed_index st) \/
               In (ed_index st) (ec2 (edges_copy st))).
  { destruct Hok as (_ & _ & Hed & _). destruct (Hall _ Hed); auto. }
  assert (T : forall ed side k,
             nth_error (ec2 (edges_copy st)) k = Some ed ->
             take_edge st ed side k = Ok st' ->
             walk_ok verts_in edges_in st').
  { intros ed side k Hk Ht.
    pose proof Hok as (Hc & Hr & Hed & Hn & Hd & Hl).
    apply take_edge_spec in Ht. destruct Ht as (Ho & Hed' & _ & Hpop).
    destruct (@pop_lower_level_ok edges_in _ _ _ Hc Hpop)
      as (Hc' & ed' & Hed'' & Hperm).
    assert (ed' = ed) as -> by congruence.
    unfold outputs in Ho. inversion Ho as [[Hvo Heo Hidx]].
    unfold walk_ok, no_edge_lost. rewrite Hvo, Hidx, Hed'.
    rewrite Forall_forall in Hr.
    split; [exact Hc' |]. split; [| split; [| split; [| split]]].
    - apply Forall_forall. intros i Hi. apply Hr.
      apply (Permutation_in i (Permutation_sym Hperm)). now right.
    - apply Hr. eapply nth_error_In; eassumption.
    - exact Hn.
    - exact Hd.
    - intros i Hi. destruct (Hall i Hi) as [H1 | H1]; [| auto].
      apply (Permutation_in i Hperm) in H1. destruct H1 as [<- | H1]; auto. }
  unfold restart in H. destruct (negb limiting).
  - destruct (getitem _ _) as [ed | e] eqn:Eg; simpl in H; [| discriminate].
    apply getitem_Ok in Eg. eapply T; eassumption.
  - destruct (next_limit limits (index st)) as [lim |] eqn:En.
    + match type of H with
      | bind ?m _ = _ => destruct m as [k | err] eqn:Ek; simpl in H;
                           [| discriminate]
      end.
      apply (T (lim_edge lim) (lim_side lim) k); [| exact H].
      destruct Hok as (Hc & Hr & _).
      apply (@limit_position (edges_copy st) lim k Hc Hr).
      * unfold next_limit in En. now apply find_some in En.
      * destruct (contains Nat.eqb (lim_vertex lim) (ec0 (edges_copy st)));
          apply list_index_nth in Ek; auto.
    + inversion H; subst. exact Hok.
Qed.

Lemma restart_limit_total (st : walk_state) :
  walk_ok verts_in edges_in st ->
  (forall i, i < length edges_in ->
             In i (ec2 (edges_copy st)) \/ walked_edge edges_in (index st) i) ->
  0 < length (ec0 (edges_copy st)) ->
  returns (restart limiting limits st).
Proof.
  intros Hok Hall Hpos. pose proof Hok as (Hc & Hr & _).
  destruct (copy_ok_lengths Hc) as [Hl0 Hl1].
  unfold restart. destruct (negb limiting) eqn:El.
  - apply negb_true_iff in El. subst limiting.
    now apply (@restart_total edges_in limits st Hc).
  - destruct (next_limit limits (index st)) as [lim |] eqn:En;
      [| unfold returns; eauto].
    unfold next_limit in En. apply find_some in En. destruct En as [Hlim Hun].
    apply negb_true_iff in Hun.
    apply (contains_not_In Nat.eqb Nat_eqb_eq) in Hun.
    destruct (limits_good _ Hlim) as [Hd He].
    assert (Hi : lim_edge lim < length edges_in).
    { destruct He as (e & He & _). apply nth_error_Some. congruence. }
    assert (Hrem : In (lim_edge lim) (ec2 (edges_copy st))).
    { destruct (Hall _ Hi) as [H | (e & He' & H0 & H1)]; [exact H |].
      exfalso. apply Hun. destruct He as (e' & He & Hs).
      assert (e' = e) as -> by congruence.
      destruct Hs as [[_ <-] | [_ <-]]; assumption. }
    destruct (@remaining_end (edges_copy st) (lim_vertex lim) (lim_side lim)
                (lim_edge lim) Hc Hrem He) as [Hin | Hin].
    + apply (contains_In Nat.eqb Nat_eqb_eq) in Hin. rewrite Hin.
      apply (contains_In Nat.eqb Nat_eqb_eq) in Hin.
      destruct (list_index_total Nat.eqb _ _ Nat_eqb_eq Hin) as [k Hk].
      rewrite Hk. simpl. apply (@take_edge_total edges_in); [exact Hc |].
      apply list_index_nth in Hk. rewrite <- Hl0. apply nth_error_Some. congruence.
    + destruct (contains Nat.eqb (lim_vertex lim) (ec0 (edges_copy st))) eqn:E0.
      * apply (contains_In Nat.eqb Nat_eqb_eq) in E0.
        destruct (list_index_total Nat.eqb _ _ Nat_eqb_eq E0) as [k Hk].
        rewrite Hk. simpl. apply (@take_edge_total edges_in); [exact Hc |].
        apply list_index_nth in Hk. rewrite <- Hl0. apply nth_error_Some. congruence.
      * destruct (list_index_total Nat.eqb _ _ Nat_eqb_eq Hin) as [k Hk].
        rewrite Hk. simpl. apply (@take_edge_total edges_in); [exact Hc |].
        apply list_index_nth in Hk. rewrite <- Hl1. apply nth_error_Some. congruence.
Qed.

(** An iteration returns and keeps the invariant. *)
Lemma walk_step_ok (st : walk_state) :
  walk_ok verts_in edges_in st ->
  exists st', walk_step verts_in edges_in limiting limits st = Ok st' /\
              walk_ok verts_in edges_in st'.
Proof.
  intros Hok. pose proof Hok as (_ & _ & Hed & _).
  unfold walk_step.
  destruct (@emit_edge_total verts_in edges_in in_range st Hed) as [[st1 e] Hemit].
  rewrite Hemit. simpl.
  destruct (emit_edge_walked Hok Hemit) as (Hok1 & Hw1 & _ & _).
  pose proof Hok1 as (Hc1 & _).
  destruct (@find_next_total edges_in st1 (snd e) Hc1) as [st2 Hfind].
  rewrite Hfind. simpl.
  destruct (find_next_ok (snd e) Hok1 Hw1 Hfind) as (Hok2 & Hidx & Hall).
  destruct (Nat.eqb_spec (ed_index st2) (ed_index st1)) as [E | E]; simpl;
    [| eauto].
  destruct (Nat.ltb_spec 0 (length (ec0 (edges_copy st2)))) as [Hlt | Hge];
    [| eauto].
  assert (Hall2 : forall i, i < length edges_in ->
                            In i (ec2 (edges_copy st2)) \/
                            walked_edge edges_in (index st2) i).
  { apply Hall. now rewrite E. }
  destruct (restart_limit_total Hok2 Hall2 Hlt) as [st' Hr].
  exists st'. split; [exact Hr |]. eapply restart_ok; eassumption.
Qed.

Lemma walk_returns (n : nat) (st : walk_state) :
  walk_ok verts_in edges_in st ->
  returns (walk verts_in edges_in limiting limits n st).
Proof.
  revert st. induction n as [| n IH]; intros st Hok; simpl;
    [unfold returns; eauto |].
  destruct (walk_step_ok Hok) as (st' & -> & Hok'). simpl. now apply IH.
Qed.
End DistinctCoordinates.

Lemma touch_total (vc : list v_count_entry) (v side i : nat) :
  v < length vc ->
  exists vc', touch vc v side i = Ok vc' /\ length vc' = length vc.
Proof.
  intros Hv. unfold touch, getitem.
  destruct (nth_error vc v) as [c |] eqn:E; [| apply nth_error_None in E; lia].
  simpl. eexists. split; [reflexivity |]. now apply length_list_set.
Qed.

Lemma count_edges_total (n : nat) (edges_in : list edge) :
  edges_in_range n edges_in -> returns (count_edges n edges_in).
Proof.
  unfold count_edges, enumerate, returns. intros Hr.
  assert (G : forall k vc, length vc = n ->
              exists vc',
                foldM (fun vc (ie : nat * edge) =>
                         let '(i, e) := ie in
                         vc1 <- touch vc (fst e) 0 i ;;
                         touch vc1 (snd e) 1 i)
                      (combine (seq k (length edges_in)) edges_in) vc = Ok vc').
  { induction Hr as [| e es [H0 H1] Hr IH]; intros k vc Hlen; simpl; [eauto |].
    destruct (@touch_total vc (fst e) 0 k) as (vc1 & -> & Hlen1); [lia |]. simpl.
    destruct (@touch_total vc1 (snd e) 1 k) as (vc2 & -> & Hlen2); [lia |]. simpl.
    apply IH. lia. }
  apply G, repeat_length.
Qed.

Lemma find_limits_ok (verts_in : list point) (edges_in : list edge) :
  edges_in_range (length verts_in) edges_in ->
  exists lims, find_limits verts_in edges_in = Ok lims /\ limits_ok edges_in lims.
Proof.
  intros Hr. destruct (count_edges_total Hr) as [vc Hvc].
  assert (H : find_limits verts_in edges_in = Ok (collect_limits vc)).
  { unfold find_limits. now rewrite Hvc. }
  exists (collect_limits vc). split; [exact H |].
  apply find_limits_spec in H. destruct H as (_ & H & _).
  intros [[v side] i] Hin. destruct (H v side i Hin) as (_ & Hd & He).
  now split.
Qed.

(** The state before the first iteration. *)
Lemma walk_init_ok (verts_in : list point) (edges_in : list edge) (limit_mode : bool) :
  edges_in <> [] ->
  edges_in_range (length verts_in) edges_in ->
  exists limiting limits st,
    walk_init verts_in edges_in limit_mode = Ok (limiting, limits, st) /\
    limits_ok edges_in limits /\ walk_ok verts_in edges_in st.
Proof.
  intros Hne Hr.
  assert (Hpos : 0 < length edges_in) by (destruct edges_in; [congruence | simpl; lia]).
  assert (Hc : copy_ok edges_in
                 (mk_copy (map fst edges_in) (map snd edges_in)
                          (seq 0 (length edges_in)))).
  { split; simpl; apply map_nth_seq. }
  assert (G : forall (ed side : nat) (limiting : bool) (limits : list limit),
             ed < length edges_in -> limits_ok edges_in limits ->
             exists st,
               (ec <- pop_lower_level
                        (mk_copy (map fst edges_in) (map snd edges_in)
                                 (seq 0 (length edges_in))) ed ;;
                Ok (limiting, limits, mk_state [] [] [] ec ed side)) =
               Ok (limiting, limits, st) /\
               limits_ok edges_in limits /\ walk_ok verts_in edges_in st).
  { intros ed side limiting limits Hed Hl.
    destruct (@pop_lower_level_total edges_in _ ed Hc) as [ec Hpop];
      [simpl; now rewrite length_seq |].
    rewrite Hpop. simpl. eexists. split; [reflexivity |]. split; [exact Hl |].
    destruct (@pop_lower_level_ok edges_in _ _ _ Hc Hpop) as (Hc' & ed' & Hed' & Hperm).
    simpl in Hed', Hperm.
    assert (ed' = ed) as ->.
    { rewrite nth_error_nth' with (d := 0) in Hed' by now rewrite length_seq.
      rewrite seq_nth in Hed' by exact Hed. now inversion Hed'. }
    unfold walk_ok, no_edge_lost. simpl.
    split; [exact Hc' |]. split; [| split; [exact Hed |]].
    - apply Forall_forall. intros i Hi.
      assert (Hin : In i (seq 0 (length edges_in)))
        by (apply (Permutation_in i (Permutation_sym Hperm)); now right).
      apply in_seq in Hin. lia.
    - split; [constructor |]. split; [constructor |].
      intros i Hi.
      assert (Hin : In i (seq 0 (length edges_in))) by (apply in_seq; lia).
      apply (Permutation_in i Hperm) in Hin. destruct Hin as [<- | Hin]; auto. }
  unfold walk_init. destruct limit_mode; simpl.
  - destruct (find_limits_ok _ Hr) as (lims & -> & Hl). simpl.
    destruct lims as [| l0 lims]; simpl.
    + exists false, []. apply G; [exact Hpos | exact Hl].
    + exists true, lims. apply G.
      * destruct (Hl l0 (or_introl eq_refl)) as [_ (e & He & _)].
        apply nth_error_Some. congruence.
      * intros lim Hin. apply Hl. now right.
  - exists false, []. apply G; [exact Hpos |]. intros lim [].
Qed.

(** On vertices with pairwise distinct coordinates the function returns,
    with or without limit detection, on every edge list that is not
    empty and whose ends are indices of vertices. *)
Lemma connex_total_on_distinct :
  forall verts_in edges_in limit_mode,
    edges_in <> [] ->
    edges_in_range (length verts_in) edges_in ->
    NoDup verts_in ->
    returns (sort_vertices_by_connexions verts_in edges_in limit_mode).
Proof.
  intros verts_in edges_in limit_mode Hne Hr Hd.
  destruct (@walk_init_ok verts_in edges_in limit_mode Hne Hr)
    as (limiting & limits & st0 & Hinit & Hl & Hok).
  unfold sort_vertices_by_connexions, walk_result. rewrite Hinit. simpl.
  destruct (@walk_returns verts_in edges_in limiting limits Hr Hd Hl
              (length edges_in) st0 Hok) as [st ->].
  simpl. destruct (add_unconnected verts_in (verts_out st) (index st)).
  unfold returns. eauto.
Qed.

(** On vertices with pairwise distinct coordinates
    [sort_vertices_by_connexions] raises no exception, with or without
    limit detection, on every edge list that is not empty and whose ends
    are indices of vertices. *)
Theorem connex_returns_on_distinct :
  forall verts_in edges_in limit_mode,
    edges_in <> [] ->
    edges_in_range (length verts_in) edges_in ->
    NoDup verts_in ->
    returns (sort_vertices_by_connexions verts_in edges_in limit_mode).
Proof. exact connex_total_on_distinct. Qed.

Lemma connex_returns_on_distinct_witness :
  returns (sort_vertices_by_connexions
             [pt 0 0 0; pt 1 0 0; pt 2 0 0; pt 3 0 0; pt 4 0 0]
             [(0, 1); (2, 3); (3, 4); (4, 2)] true).
Proof.
  apply connex_returns_on_distinct.
  - discriminate.
  - repeat constructor.
  - apply NoDup_points. vm_compute. reflexivity.
Defined.

(** With limit detection and two vertices of equal coordinates the
    walk can raise on a path: here vertex 2 has the coordinates of vertex 0,
    so it never enters the item order, and the restart looks for it among
    the remaining edges. *)
Theorem limit_walk_raises_on_equal_coordinates :
  sort_vertices_by_connexions
    [pt 0 0 0; pt 1 0 0; pt 0 0 0; pt 3 0 0; pt 4 0 0]
    [(0, 1); (1, 2); (3, 4)] true = Raise ValueError.
Proof. vm_compute. reflexivity. Qed.

(* ================================================================== *)
(** ** Connectivity mode on entries of any length: the item order *)

Section EntriesInvariant.
Variable verts_in : list point.

Lemma visit_names (vo : list point) (idx : list nat) (side : nat)
    (vo' : list point) (idx' : list nat) (k : nat) :
  names verts_in idx vo -> NoDup vo ->
  visit verts_in vo idx side = Ok (vo', idx', k) ->
  names verts_in idx' vo' /\ NoDup vo'.
Proof.
  intros Hn Hd H. apply visit_look in H. destruct H as (p & Hp & _ & -> & ->).
  exact (@look_names verts_in vo idx side p Hp Hn Hd).
Qed.

(** [for side in e] keeps the item order in step with the vertex output,
    and gives [ed] one position for each index of the entry. *)
Lemma visit_all_names (e : list nat) :
  forall vo idx vo' idx' ed,
    names verts_in idx vo -> NoDup vo ->
    visit_all verts_in vo idx e = Ok (vo', idx', ed) ->
    names verts_in idx' vo' /\ NoDup vo' /\ length ed = length e.
Proof.
  induction e as [| side e IH]; intros vo idx vo' idx' ed Hn Hd H; cbn [visit_all] in H.
  - inversion H; subst. auto.
  - destruct (visit verts_in vo idx side) as [[[vo1 idx1] k] | ex] eqn:E1;
      cbn [bind] in H; [| discriminate].
    destruct (@visit_names vo idx side vo1 idx1 k Hn Hd E1) as [Hn1 Hd1].
    destruct (visit_all verts_in vo1 idx1 e) as [[[vo2 idx2] ed2] | ex] eqn:E2;
      cbn [bind] in H; [| discriminate].
    inversion H; subst.
    destruct (IH _ _ _ _ _ Hn1 Hd1 E2) as (Hn2 & Hd2 & Hlen).
    cbn [length]. auto.
Qed.

Variable entries : list (list nat).
Variable limiting : bool.
Variable limits : list limit.

Lemma entries_step_names (st st' : walk_state) (eo eo' : list (list nat)) :
  names verts_in (index st) (verts_out st) -> NoDup (verts_out st) ->
  entries_step verts_in entries limiting limits (st, eo) = Ok (st', eo') ->
  names verts_in (index st') (verts_out st') /\ NoDup (verts_out st') /\
  length eo' = S (length eo).
Proof.
  intros Hn Hd. unfold entries_step.
  destruct (current_entry entries st) as [e | ex]; cbn [bind]; [| discriminate].
  destruct (visit_all verts_in (verts_out st) (index st) e)
    as [[[vo idx] ed] | ex] eqn:Ev; cbn [bind]; [| discriminate].
  destruct (@visit_all_names e _ _ _ _ _ Hn Hd Ev) as (Hn1 & Hd1 & _).
  destruct (getitem e 1) as [v_index | ex]; cbn [bind]; [| discriminate].
  destruct (find_next _ v_index) as [st2 | ex] eqn:Ef; cbn [bind]; [| discriminate].
  apply find_next_outputs in Ef. unfold outputs in Ef. cbn in Ef.
  inversion Ef as [[E1 E2 E3]].
  assert (G : forall st3, outputs st3 = outputs st2 ->
            names verts_in (index st3) (verts_out st3) /\ NoDup (verts_out st3)).
  { intros st3 E. unfold outputs in E. inversion E as [[F1 F2 F3]].
    rewrite F1, F3, E1, E3. auto. }
  destruct (_ && _).
  - destruct (restart limiting limits st2) as [st3 | ex] eqn:Er; cbn [bind];
      [| discriminate].
    intros H. inversion H; subst. apply restart_outputs in Er.
    destruct (G _ Er). rewrite length_app. cbn [length]. split; [| split]; auto. lia.
  - cbn [bind]. intros H. inversion H; subst.
    destruct (G _ eq_refl). rewrite length_app. cbn [length].
    split; [| split]; auto. lia.
Qed.

Lemma walk_entries_names (n : nat) :
  forall st st' eo eo',
    names verts_in (index st) (verts_out st) -> NoDup (verts_out st) ->
    walk_entries verts_in entries limiting limits n (st, eo) = Ok (st', eo') ->
    names verts_in (index st') (verts_out st') /\ NoDup (verts_out st') /\
    length eo' = n + length eo.
Proof.
  induction n as [| n IH]; intros st st' eo eo' Hn Hd H; cbn [walk_entries] in H.
  - inversion H; subst. auto.
  - destruct (entries_step verts_in entries limiting limits (st, eo))
      as [[st1 eo1] | ex] eqn:E; cbn [bind] in H; [| discriminate].
    destruct (@entries_step_names st st1 eo eo1 Hn Hd E) as (Hn1 & Hd1 & Hl1).
    destruct (IH _ _ _ _ Hn1 Hd1 H) as (Hn2 & Hd2 & Hl2).
    split; [exact Hn2 |]. split; [exact Hd2 |]. lia.
Qed.

Lemma names_covered (idx : list nat) (vo : list point) :
  names verts_in idx vo -> covered verts_in vo idx.
Proof.
  induction 1 as [| i q idx vo Hq Hn IH]; intros k Hk; [contradiction |].
  destruct Hk as [<- | Hk].
  - exists q. split; [exact Hq | now left].
  - destruct (IH k Hk) as (q' & H1 & H2). exists q'. split; [exact H1 | now right].
Qed.

Lemma names_first_seen (idx : list nat) (vo : list point) :
  names verts_in idx vo -> NoDup vo -> first_seen verts_in idx idx.
Proof.
  intros Hn Hd r Hr. apply in_split in Hr. destruct Hr as (pre & post & ->).
  exists pre, post. split; [reflexivity |]. intros k Hk E.
  unfold names in Hn. apply Forall2_app_inv_l in Hn.
  destruct Hn as (vo1 & vo2 & Hn1 & Hn2 & ->).
  inversion Hn2 as [| ? q ? vo3 Hq Hn3]; subst.
  destruct (@names_covered pre vo1 Hn1 k Hk) as (q' & Hq' & Hin).
  assert (q' = q) by congruence. subst q'.
  apply NoDup_remove_2 in Hd. apply Hd. apply in_or_app. now left.
Qed.
End EntriesInvariant.

(** The item order of the function on any entries names the vertex
    output position by position; the vertex output has no repeated
    coordinates and holds those of every vertex; the edge output has one
    entry for each entry of the input. *)
Lemma connex_any_names (verts_in : list point) (entries : list (list nat))
    (limit_mode : bool) (vo : list point) (eo : list (list nat)) (idx : list nat) :
  sort_vertices_by_connexions_any verts_in entries limit_mode = Ok (vo, eo, idx) ->
  names verts_in idx vo /\ NoDup vo /\ incl verts_in vo /\
  length eo = length entries.
Proof.
  unfold sort_vertices_by_connexions_any.
  destruct (mapM entry_ends entries) as [edges_in | ex]; cbn [bind]; [| discriminate].
  destruct (walk_init verts_in edges_in limit_mode) as [[[limiting limits] st0] | ex]
    eqn:Hinit; cbn [bind]; [| discriminate].
  apply walk_init_outputs in Hinit. unfold outputs in Hinit.
  inversion Hinit as [[E1 E2 E3]].
  destruct (walk_entries verts_in entries limiting limits (length entries) (st0, []))
    as [[st eo'] | ex] eqn:Hw; cbn [bind]; [| discriminate].
  apply walk_entries_names in Hw;
    [| rewrite E1, E3; constructor | rewrite E1; constructor].
  destruct Hw as (Hn & Hd & Hlen). cbn [length] in Hlen. rewrite Nat.add_0_r in Hlen.
  destruct (add_unconnected verts_in (verts_out st) (index st)) as [vo' idx'] eqn:Ha.
  intros H. inversion H; subst.
  destruct (@add_unconnected_spec verts_in _ _ (index st) _ _ Hn Hd
              (@names_covered verts_in _ _ Hn) (@names_first_seen verts_in _ _ Hn Hd) Ha)
    as (vt & tail & _ & _ & Hn' & Hd' & Hi' & _).
  auto.
Qed.



(* ================================================================== *)
(** ** The item order of every mode *)




(* ================================================================== *)
(** * Further properties of the code *)

(* ================================================================== *)
(** ** Numbers as rationals *)

Lemma this_Q2Qc (q : Q) : (this (Q2Qc q) == q)%Q.
Proof. simpl. apply Qred_correct. Qed.

Lemma this_plus (a b : Qc) : (this (a + b)%Qc == this a + this b)%Q.
Proof. apply this_Q2Qc. Qed.

Lemma this_mult (a b : Qc) : (this (a * b)%Qc == this a * this b)%Q.
Proof. apply this_Q2Qc. Qed.

Lemma this_opp (a : Qc) : (this (- a)%Qc == - this a)%Q.
Proof. apply this_Q2Qc. Qed.

Lemma this_minus (a b : Qc) : (this (a - b)%Qc == this a - this b)%Q.
Proof. unfold Qcminus. rewrite this_plus, this_opp. reflexivity. Qed.

Lemma num_ltb_false (a b : num) : num_ltb a b = false <-> (this b <= this a)%Q.
Proof.
  unfold num_ltb. rewrite negb_false_iff. apply Qle_bool_iff.
Qed.

Lemma num_ltb_true (a b : num) : num_ltb a b = true <-> (this a < this b)%Q.
Proof.
  unfold num_ltb. rewrite negb_true_iff. split.
  - intros H. apply Qnot_le_lt. intros Hle. apply Qle_bool_iff in Hle. congruence.
  - intros H. destruct (Qle_bool b a) eqn:E; [| reflexivity].
    apply Qle_bool_iff in E. exfalso. eapply Qlt_not_le; eassumption.
Qed.

(* ================================================================== *)
(** ** [pop_lower_level] *)

Lemma nth_error_pop {A : Type} (l : list A) (k i : nat) :
  k < length l ->
  nth_error (firstn k l ++ skipn (S k) l) i =
  nth_error l (if i <? k then i else S i).
Proof.
  intros Hk.
  destruct (nth_error l k) as [x |] eqn:E; [| apply nth_error_None in E; lia].
  apply nth_error_split in E. destruct E as (l1 & l2 & -> & <-).
  change (match l1 ++ x :: l2 with
          | [] => []
          | _ :: l => skipn (length l1) l
          end) with (skipn (S (length l1)) (l1 ++ x :: l2)).
  rewrite remove_middle.
  destruct (Nat.ltb_spec i (length l1)) as [Hlt | Hge].
  - now rewrite !nth_error_app1 by lia.
  - rewrite !nth_error_app2 by lia.
    replace (S i - length l1) with (S (i - length l1)) by lia. reflexivity.
Qed.

(** [pop_lower_level] removes one position from each of the three
    lists: on lists of one length it raises [IndexError] when the
    position is out of range, and otherwise every list loses its entry at
    this position and keeps the other entries in place. *)
Theorem pop_lower_level_removes_position :
  forall (a : edges_copy_t) (index : nat),
    length (ec0 a) = length (ec2 a) ->
    length (ec1 a) = length (ec2 a) ->
    if index <? length (ec2 a) then
      exists a',
        pop_lower_level a index = Ok a' /\
        forall i,
          let j := if i <? index then i else S i in
          nth_error (ec0 a') i = nth_error (ec0 a) j /\
          nth_error (ec1 a') i = nth_error (ec1 a) j /\
          nth_error (ec2 a') i = nth_error (ec2 a) j
    else pop_lower_level a index = Raise IndexError.
Proof.
  intros a k H0 H1. unfold pop_lower_level, pop. rewrite H0, H1.
  destruct (Nat.ltb_spec k (length (ec2 a))) as [Hlt | Hge]; cbn [bind];
    [| reflexivity].
  eexists. split; [reflexivity |]. intros i. cbn [ec0 ec1 ec2].
  rewrite !nth_error_pop by lia. auto.
Qed.

Lemma pop_lower_level_removes_position_witness :
  exists a',
    pop_lower_level (mk_copy [0; 1; 2] [1; 2; 3] [0; 1; 2]) 1 = Ok a' /\
    forall i,
      let j := if i <? 1 then i else S i in
      nth_error (ec0 a') i = nth_error [0; 1; 2] j /\
      nth_error (ec1 a') i = nth_error [1; 2; 3] j /\
      nth_error (ec2 a') i = nth_error [0; 1; 2] j.
Proof.
  apply (@pop_lower_level_removes_position (mk_copy [0; 1; 2] [1; 2; 3] [0; 1; 2]) 1);
    reflexivity.
Defined.

(* ================================================================== *)
(** ** [find_limits]: the exception *)

Lemma touch_Ok (vc vc' : list v_count_entry) (v side i : nat) :
  touch vc v side i = Ok vc' -> v < length vc /\ length vc' = length vc.
Proof.
  unfold touch, getitem.
  destruct (nth_error vc v) as [c |] eqn:E; simpl; [| discriminate].
  assert (Hv : v < length vc) by (apply nth_error_Some; congruence).
  intros H. inversion H; subst. split; [exact Hv |]. now apply length_list_set.
Qed.

Lemma touch_Raise (vc : list v_count_entry) (v side i : nat) (e : exn) :
  touch vc v side i = Raise e -> e = IndexError.
Proof.
  unfold touch, getitem. destruct (nth_error vc v); simpl; congruence.
Qed.

Lemma count_edges_inv (n : nat) (edges_in : list edge) :
  (returns (count_edges n edges_in) -> edges_in_range n edges_in) /\
  (forall e, count_edges n edges_in = Raise e -> e = IndexError).
Proof.
  unfold count_edges, enumerate, returns.
  assert (G : forall k vc, length vc = n ->
              ((exists vc',
                  foldM (fun vc (ie : nat * edge) =>
                           let '(i, e) := ie in
                           vc1 <- touch vc (fst e) 0 i ;;
                           touch vc1 (snd e) 1 i)
                        (combine (seq k (length edges_in)) edges_in) vc = Ok vc') ->
               edges_in_range n edges_in) /\
              (forall e,
                  foldM (fun vc (ie : nat * edge) =>
                           let '(i, e) := ie in
                           vc1 <- touch vc (fst e) 0 i ;;
                           touch vc1 (snd e) 1 i)
                        (combine (seq k (length edges_in)) edges_in) vc = Raise e ->
                  e = IndexError)).
  { induction edges_in as [| e es IH]; intros k vc Hlen; simpl.
    - split; [constructor | discriminate].
    - destruct (touch vc (fst e) 0 k) as [vc1 | err] eqn:E1; simpl.
      + apply touch_Ok in E1. destruct E1 as [H0 Hlen1].
        destruct (touch vc1 (snd e) 1 k) as [vc2 | err] eqn:E2; simpl.
        * apply touch_Ok in E2. destruct E2 as [H1 Hlen2].
          destruct (IH (S k) vc2) as [IH1 IH2]; [lia |].
          split; [| exact IH2].
          intros H. constructor; [lia | now apply IH1].
        * apply touch_Raise in E2. subst.
          split; [intros [vc' H]; discriminate | congruence].
      + apply touch_Raise in E1. subst.
        split; [intros [vc' H]; discriminate | congruence]. }
  apply G, repeat_length.
Qed.

Lemma find_limits_inv :
  forall verts_in edges_in,
    (returns (find_limits verts_in edges_in) <->
     edges_in_range (length verts_in) edges_in) /\
    (forall e, find_limits verts_in edges_in = Raise e -> e = IndexError).
Proof.
  intros verts_in edges_in.
  destruct (count_edges_inv (length verts_in) edges_in) as [H1 H2].
  unfold find_limits. split; [split |].
  - intros [lims H]. apply H1.
    destruct (count_edges (length verts_in) edges_in) as [vc | e]; simpl in H;
      [eexists; reflexivity | discriminate].
  - intros Hr. destruct (count_edges_total Hr) as [vc ->]. simpl.
    eexists. reflexivity.
  - intros e. destruct (count_edges (length verts_in) edges_in) as [vc | e'];
      simpl; [discriminate |].
    intros H. inversion H; subst. now apply H2.
Qed.

(** [find_limits] returns exactly when both ends of every edge are
    indices of vertices; otherwise it raises [IndexError]. *)
Theorem find_limits_returns_iff_in_range :
  forall verts_in edges_in,
    (returns (find_limits verts_in edges_in) <->
     edges_in_range (length verts_in) edges_in) /\
    (forall e, find_limits verts_in edges_in = Raise e -> e = IndexError).
Proof. exact find_limits_inv. Qed.

(* ================================================================== *)
(** ** Connectivity mode: edge lists that make the walk raise *)

Lemma pop_Raise {A : Type} (l : list A) (k : nat) (e : exn) :
  pop l k = Raise e -> e = IndexError.
Proof. unfold pop. destruct (k <? length l); congruence. Qed.

Lemma pop_lower_level_Raise (ec : edges_copy_t) (k : nat) (e : exn) :
  pop_lower_level ec k = Raise e -> e = IndexError.
Proof.
  unfold pop_lower_level.
  destruct (pop (ec0 ec) k) as [c0 | e0] eqn:E0; cbn [bind];
    [| intros H; inversion H; subst; eapply pop_Raise; eassumption].
  destruct (pop (ec1 ec) k) as [c1 | e1] eqn:E1; cbn [bind];
    [| intros H; inversion H; subst; eapply pop_Raise; eassumption].
  destruct (pop (ec2 ec) k) as [c2 | e2] eqn:E2; cbn [bind];
    [discriminate | intros H; inversion H; subst; eapply pop_Raise; eassumption].
Qed.

Lemma getitem_Raise {A : Type} (l : list A) (i : nat) (e : exn) :
  getitem l i = Raise e -> e = IndexError.
Proof. unfold getitem. destruct (nth_error l i); congruence. Qed.

Lemma take_edge_Raise (st : walk_state) (ed side k : nat) (e : exn) :
  take_edge st ed side k = Raise e -> e = IndexError.
Proof.
  unfold take_edge.
  destruct (pop_lower_level (edges_copy st) k) as [ec | e'] eqn:E; cbn [bind];
    [discriminate |].
  intros H. inversion H; subst. eapply pop_lower_level_Raise; eassumption.
Qed.

Lemma visit_Raise (verts_in vo : list point) (idx : list nat) (side : nat) (e : exn) :
  visit verts_in vo idx side = Raise e -> e = IndexError.
Proof.
  unfold visit.
  destruct (getitem verts_in side) as [p | e'] eqn:Ep; cbn [bind];
    [| intros H; inversion H; subst; eapply getitem_Raise; eassumption].
  destruct (contains point_eqb p vo) eqn:Ec.
  - apply (contains_In point_eqb point_eqb_eq) in Ec.
    destruct (list_index_total point_eqb p vo point_eqb_eq Ec) as [k ->].
    discriminate.
  - assert (Hin : In p (vo ++ [p])) by (apply in_or_app; right; now left).
    destruct (list_index_total point_eqb p (vo ++ [p]) point_eqb_eq Hin) as [k ->].
    discriminate.
Qed.

Lemma emit_edge_Raise (verts_in : list point) (edges_in : list edge)
    (st : walk_state) (e : exn) :
  emit_edge verts_in edges_in st = Raise e -> e = IndexError.
Proof.
  unfold emit_edge, current_edge.
  destruct (getitem edges_in (ed_index st)) as [e0 | e'] eqn:E0; cbn [bind];
    [| intros H; inversion H; subst; eapply getitem_Raise; eassumption].
  destruct (visit verts_in (verts_out st) (index st) _) as [[[vo idx] a] | e'] eqn:E1;
    cbn [bind];
    [| intros H; inversion H; subst; eapply visit_Raise; eassumption].
  destruct (visit verts_in vo idx _) as [[[vo' idx'] b] | e'] eqn:E2; cbn [bind];
    [discriminate | intros H; inversion H; subst; eapply visit_Raise; eassumption].
Qed.

Lemma find_next_Raise (st : walk_state) (v : nat) (e : exn) :
  find_next st v = Raise e -> e = IndexError.
Proof.
  unfold find_next.
  assert (G : forall l side,
             contains Nat.eqb v l = true ->
             (k <- list_index Nat.eqb v l ;;
              ed <- getitem (ec2 (edges_copy st)) k ;;
              take_edge st ed side k) = Raise e -> e = IndexError).
  { intros l side Hc. apply (contains_In Nat.eqb Nat_eqb_eq) in Hc.
    destruct (list_index_total Nat.eqb v l Nat_eqb_eq Hc) as [k ->]. cbn [bind].
    destruct (getitem (ec2 (edges_copy st)) k) as [ed | e'] eqn:Eg; cbn [bind];
      [apply take_edge_Raise |].
    intros H. inversion H; subst. eapply getitem_Raise; eassumption. }
  destruct (contains Nat.eqb v (ec0 (edges_copy st))) eqn:E0; [now apply G |].
  destruct (contains Nat.eqb v (ec1 (edges_copy st))) eqn:E1; [now apply G |].
  discriminate.
Qed.

Lemma restart_Raise (limits : list limit) (st : walk_state) (e : exn) :
  restart false limits st = Raise e -> e = IndexError.
Proof.
  unfold restart. cbn [negb].
  destruct (getitem (ec2 (edges_copy st)) 0) as [ed | e'] eqn:Eg; cbn [bind];
    [apply take_edge_Raise |].
  intros H. inversion H; subst. eapply getitem_Raise; eassumption.
Qed.

Lemma walk_step_Raise (verts_in : list point) (edges_in : list edge)
    (limits : list limit) (st : walk_state) (e : exn) :
  walk_step verts_in edges_in false limits st = Raise e -> e = IndexError.
Proof.
  unfold walk_step.
  destruct (emit_edge verts_in edges_in st) as [[st1 e1] | e'] eqn:E1; cbn [bind];
    [| intros H; inversion H; subst; eapply emit_edge_Raise; eassumption].
  destruct (find_next st1 (snd e1)) as [st2 | e'] eqn:E2; cbn [bind];
    [| intros H; inversion H; subst; eapply find_next_Raise; eassumption].
  destruct (_ && _); [apply restart_Raise | discriminate].
Qed.

Lemma walk_Raise (verts_in : list point) (edges_in : list edge)
    (limits : list limit) (n : nat) (st : walk_state) (e : exn) :
  walk verts_in edges_in false limits n st = Raise e -> e = IndexError.
Proof.
  revert st. induction n as [| n IH]; intros st; cbn [walk]; [discriminate |].
  destruct (walk_step verts_in edges_in false limits st) as [st1 | e'] eqn:E1;
    cbn [bind]; [apply IH |].
  intros H. inversion H; subst. eapply walk_step_Raise; eassumption.
Qed.

(** Without limit detection the function raises nothing but
    [IndexError]. *)
Lemma connex_Raise (verts_in : list point) (edges_in : list edge) (e : exn) :
  sort_vertices_by_connexions verts_in edges_in false = Raise e -> e = IndexError.
Proof.
  unfold sort_vertices_by_connexions, walk_result, walk_init. cbn [bind andb].
  destruct (pop_lower_level _ 0) as [ec | e'] eqn:E0; cbn [bind].
  - destruct (walk _ _ _ _ _ _) as [st | e'] eqn:Ew; cbn [bind].
    + destruct (add_unconnected _ _ _). discriminate.
    + intros H. inversion H; subst. eapply walk_Raise; eassumption.
  - intros H. inversion H; subst. eapply pop_lower_level_Raise; eassumption.
Qed.

Lemma at_vertex_range (verts_in vo : list point) (k side : nat) :
  at_vertex verts_in vo k side -> side < length verts_in.
Proof. intros (p & H & _). apply nth_error_Some. congruence. Qed.

(** A walked edge has both ends among the vertices. *)
Lemma walked_in_range (verts_in vo : list point) (edges_in : list edge)
    (t : list (nat * edge)) (eo : list edge) (i : nat) (e0 : edge) :
  Forall2 (reindexed verts_in vo) t eo ->
  Forall (input_edge edges_in) t ->
  In i (map fst t) -> nth_error edges_in i = Some e0 ->
  fst e0 < length verts_in /\ snd e0 < length verts_in.
Proof.
  intros Hr Hi Hin He0. apply in_map_iff in Hin. destruct Hin as ([i' e] & <- & Hin).
  rewrite Forall_forall in Hi. destruct (Hi _ Hin) as (e1 & He1 & Hor).
  simpl in *. assert (e1 = e0) as -> by congruence.
  assert (Hab : exists ab, reindexed verts_in vo (i', e) ab).
  { clear - Hr Hin. induction Hr as [| x y t eo Hxy Hr IH]; [contradiction |].
    destruct Hin as [-> | Hin]; eauto. }
  destruct Hab as (ab & Ha & Hb). simpl in Ha, Hb.
  apply at_vertex_range in Ha, Hb.
  destruct Hor as [-> | ->]; simpl in *; auto.
Qed.

(** The function only returns on an edge list that is not empty and whose
    ends are indices of vertices. *)
Lemma connex_Ok_valid (verts_in : list point) (edges_in : list edge)
    (limit_mode : bool) (r : list point * list edge * list nat) :
  sort_vertices_by_connexions verts_in edges_in limit_mode = Ok r ->
  edges_in <> [] /\ edges_in_range (length verts_in) edges_in.
Proof.
  intros H. destruct limit_mode.
  - unfold sort_vertices_by_connexions, walk_result, walk_init in H.
    destruct (find_limits verts_in edges_in) as [lims | e] eqn:El;
      cbn [bind] in H; [| discriminate].
    split.
    + intros ->. cbn [length map seq] in H.
      destruct (if true && _ then _ else _) as [[[ed side] l] | e]; cbn [bind] in H;
        [| discriminate].
      unfold pop_lower_level, pop in H. simpl in H. discriminate.
    + apply find_limits_inv. exists lims. exact El.
  - destruct r as [[vo eo] idx].
    destruct (connex_walk _ _ _ H) as (limiting & limits & st0 & st & t &
                                       Hinit & Hw & Ht & Hct).
    destruct (walk_init_accounted _ _ Hinit) as (-> & Hacc & Hlen).
    split; [intros ->; discriminate |].
    pose proof (@walk_accounted verts_in edges_in limits _ st0 st [] t Hacc Hlen Hw Ht)
      as Hperm.
    apply connex_spec in H.
    destruct H as (st' & t' & vt & tail & _ & Hct' & _ & Hinv & _).
    assert (t' = t) as -> by congruence.
    destruct Hinv as (_ & _ & Hr & Hi & _).
    apply Forall_forall. intros e0 He0. apply In_nth_error in He0.
    destruct He0 as [i He0].
    eapply walked_in_range; try eassumption.
    apply (Permutation_in i (Permutation_sym Hperm)). apply in_seq.
    assert (i < length edges_in) by (apply nth_error_Some; congruence). lia.
Qed.

Lemma connex_invalid_edges :
  forall verts_in edges_in limit_mode,
    edges_in = [] \/ ~ edges_in_range (length verts_in) edges_in ->
    sort_vertices_by_connexions verts_in edges_in limit_mode = Raise IndexError.
Proof.
  intros verts_in edges_in limit_mode Hbad.
  destruct (sort_vertices_by_connexions verts_in edges_in limit_mode)
    as [r | e] eqn:E.
  - exfalso. apply connex_Ok_valid in E. tauto.
  - f_equal. destruct limit_mode; [| eapply connex_Raise; eassumption].
    unfold sort_vertices_by_connexions, walk_result, walk_init in E.
    destruct (find_limits verts_in edges_in) as [lims | e'] eqn:El; cbn [bind] in E.
    + assert (Hr : edges_in_range (length verts_in) edges_in).
      { apply find_limits_inv. exists lims. exact El. }
      destruct Hbad as [-> | Hbad]; [| contradiction].
      cbn [length map seq] in E.
      destruct (if true && _ then _ else _) as [[[ed side] l] | e'] eqn:E1;
        cbn [bind] in E.
      * unfold pop_lower_level, pop in E. simpl in E. congruence.
      * destruct (true && _); [| discriminate].
        destruct (getitem lims 0) as [l0 | e''] eqn:Eg; cbn [bind] in E1;
          [discriminate |].
        apply getitem_Raise in Eg. congruence.
    + inversion E; subst.
      eapply find_limits_inv; eassumption.
Qed.

(** On an empty edge list, and on an edge list with an end that is the
    index of no vertex, the function raises [IndexError], with and
    without limit detection. *)
Theorem invalid_edges_raise_IndexError :
  forall verts_in edges_in limit_mode,
    edges_in = [] \/ ~ edges_in_range (length verts_in) edges_in ->
    sort_vertices_by_connexions verts_in edges_in limit_mode = Raise IndexError.
Proof. exact connex_invalid_edges. Qed.

Lemma invalid_edges_raise_IndexError_witness :
  sort_vertices_by_connexions [pt 0 0 0; pt 1 0 0] [(0, 1); (1, 2)] true =
    Raise IndexError.
Proof.
  apply invalid_edges_raise_IndexError. right.
  intros H. inversion H as [| ? ? _ H']. inversion H' as [| ? ? [_ H2] _].
  simpl in H2. lia.
Defined.

(* ================================================================== *)
(** ** Connectivity mode: the three outputs fit together *)

Lemma connex_consistent :
  forall verts_in edges_in limit_mode vo eo idx,
    sort_vertices_by_connexions verts_in edges_in limit_mode = Ok (vo, eo, idx) ->
    names verts_in idx vo /\ NoDup vo /\
    (forall p, In p vo <-> In p verts_in) /\
    length eo = length edges_in /\
    Forall (same_segment verts_in vo edges_in) eo.
Proof.
  intros verts_in edges_in limit_mode vo eo idx H. apply connex_spec in H.
  destruct H as (st & t & vt & tail & _ & _ & Hlen & Hinv & -> & -> & -> &
                 Hn & Hd & Hi & _).
  destruct Hinv as (_ & _ & Hr & Hie & _).
  split; [exact Hn |]. split; [exact Hd |]. split; [| split].
  - intros p. split; [| apply Hi]. apply (names_incl Hn).
  - rewrite <- Hlen. symmetry. eapply Forall2_length; eassumption.
  - apply (reindexed_app vt) in Hr.
    clear - Hr Hie. induction Hr as [| ie ab t eo [Ha Hb] Hr IH]; constructor.
    + apply Forall_inv in Hie. destruct Hie as (e0 & He0 & Hor).
      exists e0. split; [eapply nth_error_In; eassumption |].
      destruct Hor as [E | E]; rewrite E in Ha, Hb; simpl in Ha, Hb; auto.
    + apply IH. now apply Forall_inv_tail in Hie.
Qed.

(** The vertex output is the input read through the item order, without
    repeated coordinates and with every coordinate of the input; the edge
    output has one edge for each edge of the input, and each of them joins,
    in the vertex output, the coordinates that an edge of the input
    joins. *)
Theorem connex_outputs_consistent :
  forall verts_in edges_in limit_mode vo eo idx,
    sort_vertices_by_connexions verts_in edges_in limit_mode = Ok (vo, eo, idx) ->
    names verts_in idx vo /\ NoDup vo /\
    (forall p, In p vo <-> In p verts_in) /\
    length eo = length edges_in /\
    Forall (same_segment verts_in vo edges_in) eo.
Proof. exact connex_consistent. Qed.

Lemma connex_outputs_consistent_witness :
  let verts_in := [pt 0 0 0; pt 1 0 0; pt 0 0 0; pt 3 0 0] in
  let edges_in := [(1, 2); (3, 1)] in
  let vo := [pt 1 0 0; pt 0 0 0; pt 3 0 0] in
  let eo := [(0, 1); (2, 0)] in
  names verts_in [1; 2; 3] vo /\ NoDup vo /\
  (forall p, In p vo <-> In p verts_in) /\
  length eo = length edges_in /\
  Forall (same_segment verts_in vo edges_in) eo.
Proof.
  intros verts_in edges_in vo eo.
  apply (@connex_outputs_consistent verts_in edges_in false vo eo [1; 2; 3]).
  vm_compute. reflexivity.
Defined.

(* ================================================================== *)
(** ** Connectivity mode: the item order is the order of first visits *)

Section FirstVisits.
Variable verts_in : list point.

Lemma look_seen (idx : list nat) (vo : list point) (i : nat) (p : point) :
  names verts_in idx vo -> nth_error verts_in i = Some p ->
  contains point_eqb p vo = seen verts_in idx i.
Proof.
  intros Hn Hp. unfold seen, contains. rewrite Hp.
  induction Hn as [| j q idx vo Hq Hn IH]; simpl; [reflexivity |].
  now rewrite Hq, IH.
Qed.

Lemma first_visits_snoc (visits : list nat) (i : nat) :
  first_visits verts_in (visits ++ [i]) = note_visit verts_in (first_visits verts_in visits) i.
Proof. unfold first_visits. now rewrite fold_left_app. Qed.

(** A visit appends the index exactly when its coordinates are new. *)
Lemma visit_step (vo : list point) (idx : list nat) (side : nat)
    (vo' : list point) (idx' : list nat) (k : nat) :
  names verts_in idx vo -> NoDup vo ->
  visit verts_in vo idx side = Ok (vo', idx', k) ->
  names verts_in idx' vo' /\ NoDup vo' /\ idx' = note_visit verts_in idx side.
Proof.
  intros Hn Hd H. apply visit_look in H. destruct H as (p & Hp & _ & -> & ->).
  destruct (look_names side Hp Hn Hd) as [Hn' Hd'].
  split; [exact Hn' |]. split; [exact Hd' |].
  unfold note_visit. now rewrite (look_seen side Hn Hp).
Qed.

Lemma fold_look_step (l : list (nat * point)) :
  (forall i p, In (i, p) l -> nth_error verts_in i = Some p) ->
  forall vo idx,
    names verts_in idx vo -> NoDup vo ->
    snd (fold_left look_at l (vo, idx)) = fold_left (note_visit verts_in) (map fst l) idx.
Proof.
  induction l as [| [i p] l IH]; intros Hl vo idx Hn Hd; [reflexivity |].
  assert (Hp : nth_error verts_in i = Some p) by (apply Hl; now left).
  destruct (look_names i Hp Hn Hd) as [Hn' Hd'].
  cbn [fold_left map fst look_at]. unfold note_visit at 2.
  rewrite <- (look_seen i Hn Hp).
  destruct (contains point_eqb p vo); apply IH; auto;
    intros; apply Hl; now right.
Qed.

Lemma fold_step_seen (l idx : list nat) :
  (forall i, In i l -> seen verts_in idx i = true) -> fold_left (note_visit verts_in) l idx = idx.
Proof.
  induction l as [| i l IH]; intros H; [reflexivity |].
  cbn [fold_left]. unfold note_visit at 2. rewrite (H i) by now left.
  apply IH. intros j Hj. apply H. now right.
Qed.

Lemma add_unconnected_step (vo : list point) (idx : list nat) :
  names verts_in idx vo -> NoDup vo ->
  snd (add_unconnected verts_in vo idx) =
  fold_left (note_visit verts_in) (seq 0 (length verts_in)) idx.
Proof.
  intros Hn Hd. rewrite add_unconnected_eq.
  destruct (Nat.eqb_spec (length vo) (length verts_in)) as [E | E].
  - cbn [snd]. symmetry. apply fold_step_seen. intros i Hi. apply in_seq in Hi.
    destruct (nth_error verts_in i) as [p |] eqn:Hp;
      [| apply nth_error_None in Hp; lia].
    rewrite <- (look_seen i Hn Hp).
    apply (contains_In point_eqb point_eqb_eq).
    assert (Hincl : incl verts_in vo).
    { apply NoDup_length_incl; [exact Hd | lia | eapply names_incl; eassumption]. }
    apply Hincl. eapply nth_error_In; eassumption.
  - rewrite <- (map_fst_enumerate verts_in).
    apply fold_look_step; auto. apply enumerate_nth.
Qed.
End FirstVisits.

Lemma connex_first_visits :
  forall verts_in edges_in limit_mode vo eo idx,
    sort_vertices_by_connexions verts_in edges_in limit_mode = Ok (vo, eo, idx) ->
    exists visits,
      connex_visits verts_in edges_in limit_mode = Ok visits /\
      idx = first_visits verts_in visits.
Proof.
  intros verts_in edges_in limit_mode vo eo idx H.
  destruct (connex_walk _ _ _ H) as (limiting & limits & st0 & st & t &
                                     Hinit & Hw & Ht & Hct).
  exists (visits_of t ++ seq 0 (length verts_in)).
  unfold connex_visits. rewrite Hct. split; [reflexivity |].
  assert (P : names verts_in (index st) (verts_out st) /\ NoDup (verts_out st) /\
              index st = first_visits verts_in (visits_of t)).
  { apply (@walk_trace_ind verts_in edges_in limiting limits
             (fun st tr => names verts_in (index st) (verts_out st) /\
                           NoDup (verts_out st) /\
                           index st = first_visits verts_in (visits_of tr))
             ) with (n := length edges_in) (st := st0) (acc := []);
      [| | exact Hw | exact Ht].
    - intros s s' e acc (Hn & Hd & Hi) He Hs.
      apply walk_step_outputs in Hs. destruct Hs as (s1 & e' & Hemit & Hout).
      apply emit_edge_spec in Hemit.
      destruct Hemit as (vo1 & idx1 & a & b & He' & Hv1 & Hv2 & _).
      assert (e' = e) as -> by congruence.
      unfold outputs in Hout. inversion Hout as [[Hvo Heo Hidx]].
      rewrite Hvo, Hidx.
      destruct (@visit_step verts_in _ _ _ _ _ _ Hn Hd Hv1) as (Hn1 & Hd1 & E1).
      destruct (@visit_step verts_in _ _ _ _ _ _ Hn1 Hd1 Hv2) as (Hn2 & Hd2 & E2).
      split; [exact Hn2 |]. split; [exact Hd2 |].
      rewrite visits_of_snoc, !first_visits_snoc, <- Hi, <- E1. exact E2.
    - apply walk_init_outputs in Hinit. unfold outputs in Hinit.
      inversion Hinit as [[Hvo Heo Hidx]]. rewrite Hvo, Hidx.
      split; [constructor |]. split; [constructor | reflexivity]. }
  destruct P as (Hn & Hd & Hi).
  unfold sort_vertices_by_connexions, walk_result in H.
  rewrite Hinit in H. cbn [bind] in H. rewrite Hw in H. cbn [bind] in H.
  pose proof (@add_unconnected_step verts_in _ _ Hn Hd) as Ha.
  destruct (add_unconnected verts_in (verts_out st) (index st)) as [vo' idx'].
  inversion H; subst. cbn [snd] in Ha. rewrite Ha, Hi.
  unfold first_visits. now rewrite fold_left_app.
Qed.

(** The item order is the list of the indices that come first with their
    coordinates among the indices that the function looks at: the ends of
    the walked edges, then every index in ascending order. *)
Theorem item_order_is_first_visits :
  forall verts_in edges_in limit_mode vo eo idx,
    sort_vertices_by_connexions verts_in edges_in limit_mode = Ok (vo, eo, idx) ->
    exists visits,
      connex_visits verts_in edges_in limit_mode = Ok visits /\
      idx = first_visits verts_in visits.
Proof. exact connex_first_visits. Qed.

Lemma item_order_is_first_visits_witness :
  let verts_in := [pt 0 0 0; pt 1 0 0; pt 0 0 0; pt 3 0 0] in
  exists visits,
    connex_visits verts_in [(1, 2); (3, 1)] false = Ok visits /\
    [1; 2; 3] = first_visits verts_in visits.
Proof.
  intros verts_in.
  apply (@item_order_is_first_visits verts_in [(1, 2); (3, 1)] false
           [pt 1 0 0; pt 0 0 0; pt 3 0 0] [(0, 1); (2, 0)] [1; 2; 3]).
  vm_compute. reflexivity.
Defined.

(* ================================================================== *)
(** ** Connectivity mode: the walk along a polyline *)

Lemma chain_length (path : list nat) : length (chain path) = pred (length path).
Proof.
  induction path as [| a path IH]; [reflexivity |].
  destruct path as [| b rest]; [reflexivity |].
  cbn [chain length] in *. now rewrite IH.
Qed.

Lemma chain_In (path : list nat) (ab : edge) :
  In ab (chain path) -> In (fst ab) path /\ In (snd ab) (tl path).
Proof.
  induction path as [| a path IH]; [contradiction |].
  destruct path as [| b rest]; [contradiction |].
  cbn [chain]. intros [<- | Hin].
  - simpl. auto.
  - destruct (IH Hin) as [H1 H2]. split; right; [exact H1 | exact H2].
Qed.

Lemma Forall2_In_l {A B : Type} (R : A -> B -> Prop) (l : list A) (l' : list B) (x : A) :
  Forall2 R l l' -> In x l -> exists y, In y l' /\ R x y.
Proof.
  induction 1 as [| a b l l' Hab H IH]; [contradiction |].
  intros [-> | Hin]; [exists b; split; [now left | exact Hab] |].
  destruct (IH Hin) as (y & Hy & Hxy). exists y. split; [now right | exact Hxy].
Qed.

Section TrailWalk.
Variable verts_in : list point.
Variable edges_in : list edge.
Variable limiting : bool.
Variable limits : list limit.

(** The current edge is walked, whatever is in the outputs. *)
Lemma emit_edge_at (st : walk_state) (a b : nat) :
  current_edge edges_in st = Ok (a, b) ->
  a < length verts_in -> b < length verts_in ->
  exists st1,
    emit_edge verts_in edges_in st = Ok (st1, (a, b)) /\
    edges_copy st1 = edges_copy st /\ ed_index st1 = ed_index st /\
    or_side st1 = or_side st.
Proof.
  intros Hc Ha Hb. unfold emit_edge. rewrite Hc. cbn [bind fst snd].
  destruct (@visit_total verts_in (verts_out st) (index st) a Ha)
    as [[[vo idx] k] ->]. cbn [bind].
  destruct (@visit_total verts_in vo idx b Hb) as [[[vo' idx'] k'] ->]. cbn [bind].
  eexists. split; [reflexivity |]. auto.
Qed.


Lemma standing_same (st st1 : walk_state) (o a b : nat) (remaining : list nat) :
  edges_copy st1 = edges_copy st -> ed_index st1 = ed_index st ->
  or_side st1 = or_side st ->
  standing edges_in st o a b remaining -> standing edges_in st1 o a b remaining.
Proof.
  intros Hec Hed Hs. unfold standing, current_edge. now rewrite Hec, Hed, Hs.
Qed.

(** Taking the remaining edge [o'] at position [k]. *)
Lemma take_along (st : walk_state) (o a b o' side k : nat) (rest : list nat) :
  standing edges_in st o a b (o' :: rest) -> ~ In o' rest ->
  nth_error (ec2 (edges_copy st)) k = Some o' ->
  exists st2,
    take_edge st o' side k = Ok st2 /\ outputs st2 = outputs st /\
    ed_index st2 = o' /\ or_side st2 = side /\
    copy_ok edges_in (edges_copy st2) /\ NoDup (ec2 (edges_copy st2)) /\
    (forall i, In i (ec2 (edges_copy st2)) <-> In i rest).
Proof.
  intros (_ & _ & Hc & Hnd & Hin) Hnot Hk.
  assert (Hlt : k < length (ec2 (edges_copy st)))
    by (apply nth_error_Some; congruence).
  destruct (@pop_lower_level_total edges_in _ k Hc Hlt) as [ec Hpop].
  destruct (@pop_lower_level_ok edges_in _ _ _ Hc Hpop) as (Hc' & ed & Hed & Hperm).
  assert (ed = o') as -> by congruence.
  unfold take_edge. rewrite Hpop. cbn [bind]. eexists.
  split; [reflexivity |].
  cbn [outputs verts_out edges_out index ed_index or_side edges_copy].
  split; [reflexivity |]. split; [reflexivity |]. split; [reflexivity |].
  split; [exact Hc' |].
  assert (Hnd' : NoDup (o' :: ec2 ec)).
  { eapply Permutation_NoDup; eassumption. }
  apply NoDup_cons_iff in Hnd'. destruct Hnd' as [Hno Hnd'].
  split; [exact Hnd' |]. intros i. split.
  - intros Hi.
    assert (H : In i (o' :: rest)).
    { apply Hin. apply (Permutation_in i (Permutation_sym Hperm)). now right. }
    destruct H as [<- | H]; [contradiction | exact H].
  - intros Hi.
    assert (H : In i (o' :: ec2 ec)).
    { apply (Permutation_in i Hperm). apply Hin. now right. }
    destruct H as [<- | H]; [contradiction | exact H].
Qed.

(** From the edge that arrives at [b], the search takes the one edge that
    leaves [b], in the direction that leaves [b]. *)
Lemma find_next_along (st : walk_state) (o a b o' c : nat) (rest : list nat) :
  standing edges_in st o a b (o' :: rest) ->
  input_edge edges_in (o', (b, c)) -> b <> c -> ~ In o' rest ->
  (forall i, In i rest ->
             fst (nth i edges_in (0, 0)) <> b /\ snd (nth i edges_in (0, 0)) <> b) ->
  exists st2,
    find_next st b = Ok st2 /\ outputs st2 = outputs st /\
    standing edges_in st2 o' b c rest.
Proof.
  intros Hst (e0 & He0 & Hor) Hbc Hnot Hrest. cbn [fst snd] in He0, Hor.
  pose proof Hst as (_ & _ & Hc & Hnd & Hin).
  pose proof Hc as [H0 H1].
  assert (Hnth : nth o' edges_in (0, 0) = e0) by now apply nth_error_nth.
  assert (Ho' : In o' (ec2 (edges_copy st))) by (apply Hin; now left).
  assert (U : forall k i,
             nth_error (ec2 (edges_copy st)) k = Some i ->
             fst (nth i edges_in (0, 0)) = b \/ snd (nth i edges_in (0, 0)) = b ->
             i = o').
  { intros k i Hk Hb.
    assert (Hi : In i (o' :: rest)) by (apply Hin; eapply nth_error_In; eassumption).
    destruct Hi as [<- | Hi]; [reflexivity |].
    destruct (Hrest i Hi). tauto. }
  assert (G : forall st2 side,
             ed_index st2 = o' -> or_side st2 = side ->
             (side = 0 /\ fst e0 = b) \/ (side = 1 /\ snd e0 = b) ->
             current_edge edges_in st2 = Ok (b, c)).
  { intros st2 side Hed Hs Hside. unfold current_edge, getitem.
    rewrite Hed, He0, Hs. cbn [bind].
    destruct Hside as [[-> Hb] | [-> Hb]]; cbn [Nat.eqb]; f_equal.
    - destruct Hor as [<- | E]; [reflexivity |].
      inversion E; subst. congruence.
    - destruct Hor as [<- | E]; [| now rewrite <- E].
      simpl in Hb. congruence. }
  assert (T : forall l side k,
             nth_error l k = Some b ->
             (side = 0 /\ l = ec0 (edges_copy st)) \/
             (side = 1 /\ l = ec1 (edges_copy st)) ->
             exists st2,
               (ed <- getitem (ec2 (edges_copy st)) k ;; take_edge st ed side k) =
                 Ok st2 /\
               outputs st2 = outputs st /\ standing edges_in st2 o' b c rest).
  { intros l side k Hk Hside.
    assert (Hi : exists i, nth_error (ec2 (edges_copy st)) k = Some i /\
                           ((side = 0 /\ fst (nth i edges_in (0, 0)) = b) \/
                            (side = 1 /\ snd (nth i edges_in (0, 0)) = b))).
    { destruct Hside as [[-> ->] | [-> ->]].
      - rewrite H0, nth_error_map in Hk.
        destruct (nth_error (ec2 (edges_copy st)) k) as [i |]; [| discriminate].
        inversion Hk. eauto.
      - rewrite H1, nth_error_map in Hk.
        destruct (nth_error (ec2 (edges_copy st)) k) as [i |]; [| discriminate].
        inversion Hk. eauto. }
    destruct Hi as (i & Ei & Hb).
    assert (i = o') as -> by (eapply U; [exact Ei | tauto]).
    unfold getitem. rewrite Ei. cbn [bind].
    destruct (@take_along st o a b o' side k rest Hst Hnot Ei)
      as (st2 & -> & Hout & Hed & Hs & Hc2 & Hnd2 & Hin2).
    exists st2. split; [reflexivity |]. split; [exact Hout |].
    split; [exact Hed |]. split; [| auto].
    apply (G st2 side Hed Hs). rewrite Hnth in Hb. exact Hb. }
  unfold find_next.
  destruct (contains Nat.eqb b (ec0 (edges_copy st))) eqn:E0.
  - apply (contains_In Nat.eqb Nat_eqb_eq) in E0.
    destruct (list_index_total Nat.eqb b _ Nat_eqb_eq E0) as [k Hk]. rewrite Hk.
    cbn [bind]. apply list_index_nth in Hk. eapply T; [exact Hk | auto].
  - apply (contains_not_In Nat.eqb Nat_eqb_eq) in E0.
    assert (Hb : In b (ec1 (edges_copy st))).
    { rewrite H1. apply in_map_iff. exists o'. split; [| exact Ho'].
      rewrite Hnth. destruct Hor as [<- | E]; [| now inversion E].
      exfalso. apply E0. rewrite H0. apply in_map_iff. exists o'.
      split; [| exact Ho']. now rewrite Hnth. }
    apply (contains_In Nat.eqb Nat_eqb_eq) in Hb as Hb'. rewrite Hb'.
    destruct (list_index_total Nat.eqb b _ Nat_eqb_eq Hb) as [k Hk]. rewrite Hk.
    cbn [bind]. apply list_index_nth in Hk. eapply T; [exact Hk | auto].
Qed.

Lemma input_edge_ends (i : nat) (ab : edge) :
  input_edge edges_in (i, ab) ->
  (fst (nth i edges_in (0, 0)) = fst ab /\ snd (nth i edges_in (0, 0)) = snd ab) \/
  (fst (nth i edges_in (0, 0)) = snd ab /\ snd (nth i edges_in (0, 0)) = fst ab).
Proof.
  intros (e0 & He0 & Hor). cbn [fst snd] in He0, Hor.
  assert (Hn : nth i edges_in (0, 0) = e0) by now apply nth_error_nth.
  rewrite Hn. destruct Hor as [-> | ->]; cbn [fst snd]; auto.
Qed.

(** The walk follows the edges [order] along [path], one edge for each
    iteration, when no vertex of [path] after the first comes twice. *)
Lemma walk_along (order path : list nat) :
  Forall2 (fun i ab => input_edge edges_in (i, ab)) order (chain path) ->
  NoDup order -> NoDup (tl path) ->
  Forall (fun i => i < length verts_in) path ->
  forall st,
    match order, path with
    | o :: rest, a :: b :: _ => standing edges_in st o a b rest
    | _, _ => False
    end ->
    exists st',
      walk verts_in edges_in limiting limits (length order) st = Ok st' /\
      walk_trace verts_in edges_in limiting limits (length order) st =
        Ok (combine order (chain path)).
Proof.
  revert path. induction order as [| o rest IH]; intros path Hf Hno Hnp Hr st Hst;
    [contradiction |].
  destruct path as [| a [| b path']]; try contradiction.
  change (chain (a :: b :: path')) with ((a, b) :: chain (b :: path')) in Hf.
  apply Forall2_cons_iff in Hf. destruct Hf as [Hab Hf'].
  cbn [tl] in Hnp.
  apply Forall_cons_iff in Hr. destruct Hr as [Ha Hr'].
  pose proof Hr' as Hr''. apply Forall_cons_iff in Hr''. destruct Hr'' as [Hb _].
  pose proof Hst as (Hed & Hcur & Hc & Hnd & Hin).
  destruct (@emit_edge_at st a b Hcur Ha Hb) as (st1 & Hemit & Hec1 & Hed1 & Hs1).
  pose proof (@standing_same st st1 o a b rest Hec1 Hed1 Hs1 Hst) as Hst1.
  apply NoDup_cons_iff in Hno. destruct Hno as [Ho Hno].
  cbn [length walk walk_trace]. unfold walk_step. rewrite Hcur, Hemit.
  cbn [bind fst snd].
  destruct rest as [| o' rest'].
  - assert (E : chain (b :: path') = [])
      by (destruct path'; [reflexivity | inversion Hf']).
    change (chain (a :: b :: path')) with ((a, b) :: chain (b :: path')).
    rewrite E. cbn [combine length walk walk_trace].
    pose proof Hst1 as (_ & _ & [H0 H1] & _ & Hin1).
    assert (E2 : ec2 (edges_copy st1) = []).
    { destruct (ec2 (edges_copy st1)) as [| i l]; [reflexivity |].
      exfalso. apply (Hin1 i). now left. }
    rewrite E2 in H0, H1. cbn [map] in H0, H1.
    unfold find_next. rewrite H0, H1. cbn [contains existsb bind].
    rewrite Nat.eqb_refl, H0. cbn [length Nat.ltb Nat.leb andb bind].
    exists st1. rewrite Hed. split; reflexivity.
  - destruct path' as [| c path'']; [inversion Hf' |].
    pose proof Hf' as Hf2.
    change (chain (b :: c :: path'')) with ((b, c) :: chain (c :: path'')) in Hf2.
    apply Forall2_cons_iff in Hf2. destruct Hf2 as [Hbc Hf''].
    apply NoDup_cons_iff in Hnp as Hnp'. destruct Hnp' as [Hb' Hnp'].
    assert (Hne : b <> c) by (intros ->; apply Hb'; now left).
    apply NoDup_cons_iff in Hno as Hno'. destruct Hno' as [Ho' _].
    assert (Hrest : forall i, In i rest' ->
               fst (nth i edges_in (0, 0)) <> b /\ snd (nth i edges_in (0, 0)) <> b).
    { intros i Hi. destruct (@Forall2_In_l nat edge _ rest' _ i Hf'' Hi) as (ab & Hab' & Hie).
      apply chain_In in Hab'. destruct Hab' as [H1 H2].
      assert (H2' : In (snd ab) (c :: path'')).
      { destruct path''; [contradiction | now right]. }
      apply input_edge_ends in Hie.
      split; intros E; apply Hb'; destruct Hie as [[E1 E2] | [E1 E2]]; congruence. }
    destruct (@find_next_along st1 o a b o' c rest' Hst1 Hbc Hne Ho' Hrest)
      as (st2 & Hfind & _ & Hst2).
    rewrite Hfind. cbn [bind].
    pose proof Hst2 as (Hed2 & _).
    assert (Hneq : (ed_index st2 =? ed_index st1) = false).
    { apply Nat.eqb_neq. rewrite Hed2, Hed1, Hed. intros ->. apply Ho. now left. }
    rewrite Hneq. cbn [andb bind].
    destruct (IH (b :: c :: path'') Hf' Hno Hnp' Hr' st2 Hst2) as (st' & Hw & Ht).
    exists st'. split; [exact Hw |]. rewrite Ht. cbn [bind combine chain].
    now rewrite Hed.
Qed.
End TrailWalk.

(* ================================================================== *)
(** ** Connectivity mode on distinct coordinates: the outputs from the walk *)

Lemma names_coords (verts_in : list point) (idx : list nat) (vo : list point) :
  names verts_in idx vo -> vo = coords verts_in idx.
Proof.
  induction 1 as [| i p idx vo Hp Hn IH]; [reflexivity |].
  cbn [coords map]. f_equal; [| exact IH].
  symmetry. now apply nth_error_nth.
Qed.

Lemma names_nth (verts_in : list point) (idx : list nat) (vo : list point)
    (k : nat) (p : point) :
  names verts_in idx vo -> nth_error vo k = Some p ->
  exists i, nth_error idx k = Some i /\ nth_error verts_in i = Some p.
Proof.
  intros Hn. revert k. induction Hn as [| i q idx vo Hq Hn IH]; intros k Hk.
  - destruct k; discriminate.
  - destruct k as [| k]; cbn [nth_error] in *.
    + inversion Hk; subst. eauto.
    + now apply IH.
Qed.

Lemma find_index_NoDup (l : list nat) (k i : nat) :
  NoDup l -> nth_error l k = Some i -> find_index Nat.eqb i l = Some k.
Proof.
  intros Hd. revert k. induction Hd as [| x l Hx Hd IH]; intros k Hk.
  - destruct k; discriminate.
  - cbn [find_index]. destruct k as [| k]; cbn [nth_error] in Hk.
    + inversion Hk; subst. now rewrite Nat.eqb_refl.
    + destruct (Nat.eqb_spec i x) as [-> | Hne].
      * exfalso. apply Hx. eapply nth_error_In; eassumption.
      * now rewrite (IH k Hk).
Qed.

Lemma position_NoDup (l : list nat) (k i : nat) :
  NoDup l -> nth_error l k = Some i -> position l i = k.
Proof.
  intros Hd Hk. unfold position. now rewrite (@find_index_NoDup l k i Hd Hk).
Qed.

Section DistinctOutputs.
Variable verts_in : list point.
Hypothesis distinct : NoDup verts_in.

Lemma seen_contains (idx : list nat) (i : nat) :
  i < length verts_in -> Forall (fun j => j < length verts_in) idx ->
  seen verts_in idx i = contains Nat.eqb i idx.
Proof.
  intros Hi Hidx. unfold seen, contains.
  destruct (nth_error verts_in i) as [p |] eqn:Hp;
    [| apply nth_error_None in Hp; lia].
  induction Hidx as [| j idx Hj Hidx IH]; [reflexivity |].
  cbn [existsb]. rewrite IH. f_equal.
  destruct (nth_error verts_in j) as [q |] eqn:Hq;
    [| apply nth_error_None in Hq; lia].
  destruct (Nat.eqb_spec i j) as [-> | Hne].
  - assert (q = p) as -> by congruence. apply point_eqb_refl.
  - destruct (point_eqb p q) eqn:E; [| reflexivity].
    apply point_eqb_eq in E. subst q. exfalso. apply Hne.
    rewrite NoDup_nth_error in distinct. apply distinct; [exact Hi | congruence].
Qed.

Lemma note_visit_index (idx : list nat) (i : nat) :
  i < length verts_in -> Forall (fun j => j < length verts_in) idx ->
  note_visit verts_in idx i = note_index idx i /\
  Forall (fun j => j < length verts_in) (note_index idx i).
Proof.
  intros Hi Hidx. unfold note_visit, note_index.
  rewrite (@seen_contains idx i Hi Hidx). split; [reflexivity |].
  destruct (contains Nat.eqb i idx); [exact Hidx |].
  apply Forall_app. split; [exact Hidx | now repeat constructor].
Qed.

Lemma fold_note_visit (l idx : list nat) :
  Forall (fun j => j < length verts_in) l ->
  Forall (fun j => j < length verts_in) idx ->
  fold_left (note_visit verts_in) l idx = fold_left note_index l idx.
Proof.
  intros Hl. revert idx. induction Hl as [| i l Hi Hl IH]; intros idx Hidx;
    [reflexivity |].
  cbn [fold_left]. destruct (@note_visit_index idx i Hi Hidx) as [-> Hidx'].
  now apply IH.
Qed.

(** On distinct coordinates the first visits are the first
    occurrences. *)
Lemma first_visits_occurrences (l : list nat) :
  Forall (fun j => j < length verts_in) l ->
  first_visits verts_in l = first_occurrences l.
Proof.
  intros Hl. unfold first_visits, first_occurrences.
  apply fold_note_visit; [exact Hl | constructor].
Qed.

Lemma reindexed_reindex (idx : list nat) (vo : list point)
    (ie : nat * edge) (ab : edge) :
  names verts_in idx vo -> NoDup vo ->
  reindexed verts_in vo ie ab -> ab = reindex idx (snd ie).
Proof.
  intros Hn Hd [Ha Hb].
  assert (Hd' : NoDup idx) by (eapply names_NoDup; eassumption).
  assert (G : forall k side, at_vertex verts_in vo k side -> position idx side = k).
  { intros k side (p & Hp & Hk).
    destruct (@names_nth verts_in idx vo k p Hn Hk) as (i & Hi & Hp').
    assert (i = side) as ->.
    { rewrite NoDup_nth_error in distinct. apply distinct; [| congruence].
      apply nth_error_Some. congruence. }
    now apply position_NoDup. }
  destruct ab as [x y]. unfold reindex. cbn [fst snd] in *.
  now rewrite (G _ _ Ha), (G _ _ Hb).
Qed.
End DistinctOutputs.

Lemma visits_in_range (verts_in vo : list point) (t : list (nat * edge))
    (eo : list edge) :
  Forall2 (reindexed verts_in vo) t eo ->
  Forall (fun j => j < length verts_in) (visits_of t).
Proof.
  induction 1 as [| ie ab t eo [Ha Hb] H IH]; [constructor |].
  unfold visits_of. cbn [flat_map app]. apply at_vertex_range in Ha, Hb.
  constructor; [exact Ha |]. constructor; [exact Hb | exact IH].
Qed.

(** On vertices with pairwise distinct coordinates the three outputs follow
    from the edges walked: the item order lists the ends of the walked
    edges and then every index, each at its first occurrence; the vertex
    output holds the coordinates of the item order; the edge output holds
    the walked edges with each end replaced by its position in the item
    order. *)
Lemma connex_outputs_of_trace (verts_in : list point) (edges_in : list edge)
    (limit_mode : bool) (vo : list point) (eo : list edge) (idx : list nat)
    (t : list (nat * edge)) :
  NoDup verts_in ->
  sort_vertices_by_connexions verts_in edges_in limit_mode = Ok (vo, eo, idx) ->
  connex_trace verts_in edges_in limit_mode = Ok t ->
  idx = first_occurrences (visits_of t ++ seq 0 (length verts_in)) /\
  vo = coords verts_in idx /\
  eo = map (reindex idx) (map snd t).
Proof.
  intros Hv H Ht.
  destruct (connex_first_visits _ _ _ H) as (visits & Hvis & Hidx).
  unfold connex_visits in Hvis. rewrite Ht in Hvis. cbn [bind] in Hvis.
  inversion Hvis; subst visits. clear Hvis.
  apply connex_spec in H.
  destruct H as (st & t' & vt & tail & _ & Ht' & _ & Hinv & Heo & Hvo & _ &
                 Hn & Hd & _).
  assert (t' = t) as -> by congruence.
  destruct Hinv as (_ & _ & Hr & _).
  apply (reindexed_app vt) in Hr. rewrite <- Hvo, <- Heo in Hr.
  split; [| split].
  - rewrite Hidx. apply first_visits_occurrences; [exact Hv |].
    apply Forall_app. split; [eapply visits_in_range; eassumption |].
    apply Forall_forall. intros j Hj. apply in_seq in Hj. lia.
  - now apply names_coords.
  - clear - Hv Hn Hd Hr. induction Hr as [| ie ab t eo Hab Hr' IH]; [reflexivity |].
    cbn [map]. rewrite <- IH. f_equal.
    apply (@reindexed_reindex verts_in Hv idx vo ie ab Hn Hd Hab).
Qed.

(* ================================================================== *)
(** ** First occurrences along a polyline *)

Lemma contains_snoc (i j : nat) (acc : list nat) :
  contains Nat.eqb i (acc ++ [j]) = contains Nat.eqb i acc || (i =? j).
Proof.
  unfold contains. rewrite existsb_app. cbn [existsb]. now rewrite orb_false_r.
Qed.

Lemma note_index_In (acc : list nat) (i : nat) :
  In i acc -> note_index acc i = acc.
Proof.
  intros H. unfold note_index.
  apply (contains_In Nat.eqb Nat_eqb_eq) in H. now rewrite H.
Qed.

Lemma In_note_index (acc : list nat) (i : nat) : In i (note_index acc i).
Proof.
  unfold note_index. destruct (contains Nat.eqb i acc) eqn:E.
  - now apply (contains_In Nat.eqb Nat_eqb_eq).
  - apply in_or_app. right. now left.
Qed.

Lemma fold_note_filter (l acc : list nat) :
  NoDup l ->
  fold_left note_index l acc =
  acc ++ filter (fun i => negb (contains Nat.eqb i acc)) l.
Proof.
  intros Hl. revert acc. induction Hl as [| i l Hi Hl IH]; intros acc.
  - cbn. now rewrite app_nil_r.
  - cbn [fold_left filter]. unfold note_index at 2.
    destruct (contains Nat.eqb i acc) eqn:E; cbn [negb]; [apply IH |].
    rewrite IH, <- app_assoc. cbn [app]. do 2 f_equal.
    apply filter_ext_in. intros j Hj. rewrite contains_snoc.
    destruct (Nat.eqb_spec j i) as [-> | Hne]; [contradiction |].
    now rewrite orb_false_r.
Qed.

Lemma first_occurrences_NoDup (l : list nat) :
  NoDup l -> first_occurrences l = l.
Proof.
  intros Hl. unfold first_occurrences. rewrite (fold_note_filter [] Hl).
  cbn [app contains existsb negb]. apply forallb_filter_id.
  now apply forallb_forall.
Qed.

(** Walking along a path from a vertex already seen records each further
    vertex once. *)
Lemma fold_ends_chain (r : list nat) :
  forall a acc,
    In a acc ->
    fold_left note_index (ends (chain (a :: r))) acc = fold_left note_index r acc.
Proof.
  induction r as [| b r IH]; intros a acc Ha; [reflexivity |].
  change (chain (a :: b :: r)) with ((a, b) :: chain (b :: r)).
  unfold ends. cbn [flat_map app fst snd fold_left]. fold (ends (chain (b :: r))).
  rewrite (note_index_In _ _ Ha). apply IH. apply In_note_index.
Qed.

Lemma first_occurrences_chain (a b : nat) (r l : list nat) :
  first_occurrences (ends (chain (a :: b :: r)) ++ l) =
  fold_left note_index l (first_occurrences (a :: b :: r)).
Proof.
  unfold first_occurrences. rewrite fold_left_app. f_equal.
  change (chain (a :: b :: r)) with ((a, b) :: chain (b :: r)).
  unfold ends. cbn [flat_map app fst snd fold_left]. fold (ends (chain (b :: r))).
  apply fold_ends_chain. apply In_note_index.
Qed.

Lemma visits_of_combine (order : list nat) (es : list edge) :
  length order = length es -> visits_of (combine order es) = ends es.
Proof.
  revert es. induction order as [| o order IH]; intros [| e es] H; try discriminate;
    [reflexivity |].
  unfold visits_of, ends. cbn [combine flat_map fst snd]. f_equal.
  apply IH. now inversion H.
Qed.

Lemma map_snd_combine {A B : Type} (l : list A) (l' : list B) :
  length l = length l' -> map snd (combine l l') = l'.
Proof.
  revert l'. induction l as [| a l IH]; intros [| b l'] H; try discriminate;
    [reflexivity |].
  cbn [combine map snd]. f_equal. apply IH. now inversion H.
Qed.

(** The chain of a path whose vertices are, in this order, in the item
    order: edge [k] runs from position [k] to the next. *)
Lemma reindex_chain (path : list nat) :
  forall pre post,
    NoDup (pre ++ path ++ post) ->
    map (reindex (pre ++ path ++ post)) (chain path) =
    map (fun k => (k, S k)) (seq (length pre) (pred (length path))).
Proof.
  induction path as [| a path IH]; intros pre post Hd; [reflexivity |].
  destruct path as [| b r]; [reflexivity |].
  change (chain (a :: b :: r)) with ((a, b) :: chain (b :: r)).
  change (pred (length (a :: b :: r))) with (S (pred (length (b :: r)))).
  rewrite <- cons_seq, !map_cons. f_equal.
  - unfold reindex. cbn [fst snd]. f_equal.
    + apply position_NoDup; [exact Hd |].
      now rewrite nth_error_app2, Nat.sub_diag by lia.
    + apply position_NoDup; [exact Hd |].
      rewrite nth_error_app2 by lia.
      replace (S (length pre) - length pre) with 1 by lia. reflexivity.
  - specialize (IH (pre ++ [a]) post).
    rewrite <- app_assoc in IH. change ([a] ++ (b :: r) ++ post)
      with ((a :: b :: r) ++ post) in IH.
    etransitivity; [exact (IH Hd) |].
    rewrite length_app. cbn [length]. now rewrite Nat.add_1_r.
Qed.

Lemma chain_snoc (c : list nat) (x : nat) :
  c <> [] -> chain (c ++ [x]) = chain c ++ [(last c 0, x)].
Proof.
  induction c as [| a c IH]; intros Hne; [congruence |].
  destruct c as [| b r]; [reflexivity |].
  change ((a :: b :: r) ++ [x]) with (a :: b :: (r ++ [x])).
  change (chain (a :: b :: r ++ [x])) with ((a, b) :: chain ((b :: r) ++ [x])).
  rewrite IH by discriminate. reflexivity.
Qed.

(* ================================================================== *)
(** ** The degrees of the vertices of a polyline *)

Lemma degree_perm (v : nat) (l l' : list edge) :
  Permutation l l' -> degree v l = degree v l'.
Proof.
  induction 1; cbn [degree]; lia.
Qed.

Lemma degree_flip (v : nat) (es abs : list edge) :
  Forall2 (fun e ab : edge => e = ab \/ e = (snd ab, fst ab)) es abs ->
  degree v es = degree v abs.
Proof.
  induction 1 as [| e ab es abs Hor H IH]; [reflexivity |].
  cbn [degree]. rewrite IH. destruct Hor as [-> | ->]; cbn [fst snd]; lia.
Qed.

Lemma degree_chain (v : nat) (path : list nat) :
  path <> [] ->
  degree v (chain path) + (if hd 0 path =? v then 1 else 0) +
  (if last path 0 =? v then 1 else 0) =
  2 * count_occ Nat.eq_dec path v.
Proof.
  induction path as [| a path IH]; intros Hne; [congruence |].
  destruct path as [| b r].
  - cbn. destruct (Nat.eqb_spec a v), (Nat.eq_dec a v); try contradiction; lia.
  - specialize (IH ltac:(discriminate)).
    change (chain (a :: b :: r)) with ((a, b) :: chain (b :: r)).
    change (last (a :: b :: r) 0) with (last (b :: r) 0).
    cbn [degree fst snd hd count_occ] in *.
    destruct (Nat.eqb_spec a v), (Nat.eq_dec a v); try contradiction; lia.
Qed.

Section TrailFacts.
Variable edges_in : list edge.
Variables order path : list nat.
Hypothesis on_trail : trail edges_in order path.

Lemma trail_length : length order = length (chain path).
Proof. destruct on_trail as [_ H]. eapply Forall2_length; eassumption. Qed.

Lemma trail_edges :
  Permutation (map (fun i => nth i edges_in (0, 0)) order) edges_in.
Proof.
  destruct on_trail as [Hp _].
  rewrite (Permutation_map _ Hp), <- (map_nth_seq (fun e => e)). now rewrite map_id.
Qed.

Lemma trail_degree (v : nat) : degree v edges_in = degree v (chain path).
Proof.
  rewrite <- (degree_perm v trail_edges). apply degree_flip.
  destruct on_trail as [_ Hf]. clear - Hf.
  induction Hf as [| i ab order es (e0 & He0 & Hor) H IH]; cbn [map]; constructor;
    [| exact IH].
  cbn [fst snd] in He0, Hor.
  assert (Hn : nth i edges_in (0, 0) = e0) by now apply nth_error_nth.
  rewrite Hn. destruct Hor as [-> | ->]; cbn [fst snd]; auto.
  right. now destruct e0.
Qed.

Lemma trail_in_range (n : nat) :
  Forall (fun i => i < n) path -> edges_in_range n edges_in.
Proof.
  intros Hr. destruct on_trail as [Hp Hf].
  apply Forall_forall. intros e He. apply In_nth_error in He. destruct He as [i Hi].
  assert (Ho : In i order).
  { apply (Permutation_in i (Permutation_sym Hp)). apply in_seq.
    assert (i < length edges_in) by (apply nth_error_Some; congruence). lia. }
  destruct (@Forall2_In_l nat edge _ order _ i Hf Ho) as (ab & Hab & (e0 & He0 & Hor)).
  cbn [fst snd] in He0, Hor. assert (e0 = e) as -> by congruence.
  apply chain_In in Hab. destruct Hab as [H1 H2].
  assert (H2' : In (snd ab) path) by (destruct path; [contradiction | now right]).
  rewrite Forall_forall in Hr.
  destruct Hor as [-> | ->]; cbn [fst snd]; auto.
Qed.
End TrailFacts.

(* ================================================================== *)
(** ** Connectivity mode: open and closed polylines *)

(** The state before the first iteration, when the walk starts on the
    edge [o] at its end [side]. *)
Lemma init_standing (edges_in : list edge) (o side a b : nat) (rest : list nat)
    (e : edge) :
  Permutation (o :: rest) (seq 0 (length edges_in)) ->
  nth_error edges_in o = Some e ->
  (if side =? 1 then (snd e, fst e) else e) = (a, b) ->
  exists ec,
    pop_lower_level (mk_copy (map fst edges_in) (map snd edges_in)
                             (seq 0 (length edges_in))) o = Ok ec /\
    standing edges_in (mk_state [] [] [] ec o side) o a b rest.
Proof.
  intros Hp He Hab.
  assert (Hc : copy_ok edges_in
                 (mk_copy (map fst edges_in) (map snd edges_in)
                          (seq 0 (length edges_in)))).
  { split; cbn [ec0 ec1 ec2]; apply map_nth_seq. }
  assert (Ho : o < length edges_in) by (apply nth_error_Some; congruence).
  destruct (@pop_lower_level_total edges_in _ o Hc) as [ec Hpop];
    [cbn [ec2]; now rewrite length_seq |].
  exists ec. split; [exact Hpop |].
  destruct (@pop_lower_level_ok edges_in _ _ _ Hc Hpop) as (Hc' & ed & Hed & Hperm).
  cbn [ec2] in Hed, Hperm.
  assert (ed = o) as ->.
  { rewrite nth_error_nth' with (d := 0) in Hed by now rewrite length_seq.
    rewrite seq_nth in Hed by exact Ho. now inversion Hed. }
  assert (Hnd : NoDup (o :: ec2 ec)).
  { eapply Permutation_NoDup; [exact Hperm | apply seq_NoDup]. }
  assert (Hnd' : NoDup (o :: rest)).
  { eapply Permutation_NoDup; [symmetry; exact Hp | apply seq_NoDup]. }
  apply NoDup_cons_iff in Hnd, Hnd'. destruct Hnd as [Hn1 Hnd], Hnd' as [Hn2 _].
  unfold standing, current_edge, getitem.
  cbn [ed_index or_side edges_copy]. rewrite He. cbn [bind]. rewrite Hab.
  split; [reflexivity |]. split; [reflexivity |]. split; [exact Hc' |].
  split; [exact Hnd |]. intros i. split; intros Hi.
  - assert (H : In i (o :: rest)).
    { apply (Permutation_in i (Permutation_sym Hp)).
      apply (Permutation_in i (Permutation_sym Hperm)). now right. }
    destruct H as [<- | H]; [contradiction | exact H].
  - assert (H : In i (o :: ec2 ec)).
    { apply (Permutation_in i Hperm). apply (Permutation_in i Hp). now right. }
    destruct H as [<- | H]; [contradiction | exact H].
Qed.

(** A walk that starts on the first edge of a trail, at its first vertex,
    goes along the trail. *)
Lemma connex_along (verts_in : list point) (edges_in : list edge) (limit_mode : bool)
    (order path : list nat) (limiting : bool) (limits : list limit)
    (st0 : walk_state) :
  NoDup verts_in ->
  trail edges_in order path -> NoDup (tl path) ->
  Forall (fun i => i < length verts_in) path ->
  walk_init verts_in edges_in limit_mode = Ok (limiting, limits, st0) ->
  match order, path with
  | o :: rest, a :: b :: _ => standing edges_in st0 o a b rest
  | _, _ => False
  end ->
  let idx := first_occurrences (ends (chain path) ++ seq 0 (length verts_in)) in
  sort_vertices_by_connexions verts_in edges_in limit_mode =
    Ok (coords verts_in idx, map (reindex idx) (chain path), idx).
Proof.
  intros Hv Ht Hnp Hr Hinit Hst idx.
  pose proof (@trail_length edges_in order path Ht) as Hlen.
  destruct Ht as [Hp Hf].
  assert (Hno : NoDup order).
  { eapply Permutation_NoDup; [symmetry; exact Hp | apply seq_NoDup]. }
  assert (Hlen' : length order = length edges_in).
  { apply Permutation_length in Hp. now rewrite length_seq in Hp. }
  destruct (@walk_along verts_in edges_in limiting limits order path
              Hf Hno Hnp Hr st0 Hst) as (st' & Hw & Htr).
  rewrite Hlen' in Hw, Htr.
  assert (Hct : connex_trace verts_in edges_in limit_mode =
                Ok (combine order (chain path))).
  { unfold connex_trace. rewrite Hinit. exact Htr. }
  destruct (sort_vertices_by_connexions verts_in edges_in limit_mode)
    as [[[vo eo] idx'] | e] eqn:E.
  - destruct (@connex_outputs_of_trace verts_in edges_in limit_mode vo eo idx' _
                Hv E Hct) as (Hi & Hvo & Heo).
    rewrite (visits_of_combine _ _ Hlen) in Hi.
    rewrite (map_snd_combine _ _ Hlen) in Heo.
    fold idx in Hi. subst idx'. now rewrite Hvo, Heo.
  - exfalso. unfold sort_vertices_by_connexions, walk_result in E.
    rewrite Hinit in E. cbn [bind] in E. rewrite Hw in E. cbn [bind] in E.
    destruct (add_unconnected verts_in (verts_out st') (index st')). discriminate.
Qed.

Lemma off_path_NoDup (n : nat) (path : list nat) :
  NoDup path -> NoDup (path ++ off_path n path).
Proof.
  intros Hd. apply NoDup_app; [exact Hd | apply NoDup_filter, seq_NoDup |].
  intros i Hi Ho. unfold off_path in Ho. apply filter_In in Ho.
  destruct Ho as [_ Ho]. apply negb_true_iff in Ho.
  apply (contains_not_In Nat.eqb Nat_eqb_eq) in Ho. contradiction.
Qed.

Lemma fold_note_off_path (n : nat) (path : list nat) :
  fold_left note_index (seq 0 n) path = path ++ off_path n path.
Proof. apply fold_note_filter, seq_NoDup. Qed.

Lemma count_occ_NoDup (l : list nat) (v : nat) :
  NoDup l -> In v l -> count_occ Nat.eq_dec l v = 1.
Proof.
  intros Hd Hin. rewrite (NoDup_count_occ Nat.eq_dec) in Hd. specialize (Hd v).
  apply (count_occ_In Nat.eq_dec) in Hin. lia.
Qed.

Lemma input_edge_end_of (edges_in : list edge) (o a b : nat) :
  input_edge edges_in (o, (a, b)) -> exists s, end_of edges_in a s o.
Proof.
  intros (e0 & He0 & Hor). cbn [fst snd] in He0, Hor.
  destruct Hor as [<- | E].
  - exists 0, (a, b). split; [exact He0 |]. left. split; reflexivity.
  - exists 1, e0. split; [exact He0 |]. right. split; [reflexivity |].
    now inversion E.
Qed.

(** The first limit of an open polyline whose first vertex has a lower
    index than its last: the first vertex, on its edge. *)
Lemma polyline_first_limit (verts_in : list point) (edges_in : list edge)
    (o a b : nat) (rest r : list nat) :
  trail edges_in (o :: rest) (a :: b :: r) ->
  NoDup (a :: b :: r) ->
  Forall (fun i => i < length verts_in) (a :: b :: r) ->
  a < last (a :: b :: r) 0 ->
  exists s i lims e,
    find_limits verts_in edges_in = Ok ((a, s, i) :: lims) /\
    i = o /\ nth_error edges_in o = Some e /\
    (if s =? 1 then (snd e, fst e) else e) = (a, b).
Proof.
  intros Ht Hd Hr Hlt.
  pose proof (@trail_in_range edges_in (o :: rest) (a :: b :: r) Ht
                (length verts_in) Hr) as Hrange.
  destruct (find_limits_ok _ Hrange) as (lims & Hl & _).
  destruct (@find_limits_spec verts_in edges_in lims Hl) as (Hs & Hsound & Hcomplete).
  assert (Hdeg : forall v,
             degree v edges_in + (if a =? v then 1 else 0) +
             (if last (a :: b :: r) 0 =? v then 1 else 0) =
             2 * count_occ Nat.eq_dec (a :: b :: r) v).
  { intros v. rewrite (@trail_degree edges_in (o :: rest) (a :: b :: r) Ht v).
    apply (@degree_chain v (a :: b :: r)). discriminate. }
  assert (Ha : degree a edges_in = 1).
  { specialize (Hdeg a). rewrite Nat.eqb_refl in Hdeg.
    rewrite (@count_occ_NoDup (a :: b :: r) a Hd (or_introl eq_refl)) in Hdeg.
    destruct (Nat.eqb_spec (last (a :: b :: r) 0) a); lia. }
  assert (Hin : exists s i, In (a, s, i) lims).
  { apply Hcomplete; [| exact Ha]. now apply Forall_inv in Hr. }
  destruct Hin as (s & i & Hin).
  destruct lims as [| [[v0 s0] i0] lims]; [contradiction |].
  assert (v0 = a) as ->.
  { destruct Hin as [E | Hin]; [now inversion E |].
    apply StronglySorted_inv in Hs. destruct Hs as [_ Hs].
    rewrite Forall_forall in Hs. specialize (Hs _ Hin).
    unfold by_vertex, lim_vertex in Hs. cbn [fst] in Hs.
    destruct (Hsound v0 s0 i0 (or_introl eq_refl)) as (_ & Hd0 & _).
    specialize (Hdeg v0). rewrite Hd0 in Hdeg.
    destruct (Nat.eqb_spec a v0); [lia |].
    destruct (Nat.eqb_spec (last (a :: b :: r) 0) v0); lia. }
  destruct (Hsound a s0 i0 (or_introl eq_refl)) as (_ & _ & Hend).
  destruct Ht as [_ Hf].
  change (chain (a :: b :: r)) with ((a, b) :: chain (b :: r)) in Hf.
  apply Forall2_cons_iff in Hf. destruct Hf as [Hab _].
  destruct (@input_edge_end_of edges_in o a b Hab) as [s' Hend'].
  assert (i0 = o) as ->
    by apply (@degree_one_unique a edges_in s0 s' i0 o Ha Hend Hend').
  destruct Hend as (e & He & Hside).
  exists s0, o, lims, e. split; [exact Hl |]. split; [reflexivity |].
  split; [exact He |].
  destruct Hab as (e0 & He0 & Hor). cbn [fst snd] in He0, Hor.
  assert (e0 = e) as -> by congruence.
  assert (Hne : a <> b).
  { apply NoDup_cons_iff in Hd. destruct Hd as [Hd _]. intros ->. apply Hd. now left. }
  destruct Hside as [[-> Hfst] | [-> Hsnd]]; cbn [Nat.eqb].
  - destruct Hor as [<- | E]; [reflexivity |].
    inversion E; subst. congruence.
  - destruct Hor as [<- | E]; [| now rewrite <- E].
    cbn [snd] in Hsnd. congruence.
Qed.

(** With limit detection, an open polyline comes out in the order of its
    vertices, from the end with the lower index: the item order is the
    path, followed by the other vertices in ascending order, and edge [k]
    of the output joins the positions [k] and [k + 1]. *)
Theorem open_polyline_in_path_order :
  forall verts_in edges_in order path,
    NoDup verts_in ->
    Forall (fun i => i < length verts_in) path ->
    NoDup path ->
    trail edges_in order path ->
    edges_in <> [] ->
    hd 0 path < last path 0 ->
    sort_vertices_by_connexions verts_in edges_in true =
      Ok (coords verts_in (path ++ off_path (length verts_in) path),
          map (fun k => (k, S k)) (seq 0 (length edges_in)),
          path ++ off_path (length verts_in) path).
Proof.
  intros verts_in edges_in order path Hv Hr Hd Ht Hne Hlt.
  pose proof (@trail_length edges_in order path Ht) as Hlen.
  rewrite chain_length in Hlen.
  assert (Hlen' : length order = length edges_in).
  { destruct Ht as [Hp _]. apply Permutation_length in Hp.
    now rewrite length_seq in Hp. }
  destruct order as [| o rest];
    [destruct edges_in; [congruence | discriminate] |].
  destruct path as [| a [| b r]]; try discriminate.
  cbn [hd] in Hlt.
  destruct (@polyline_first_limit verts_in edges_in o a b rest r Ht Hd Hr Hlt)
    as (s & i & lims & e & Hl & -> & He & Hab).
  destruct (@init_standing edges_in o s a b rest e (proj1 Ht) He Hab)
    as (ec & Hpop & Hst).
  assert (Hinit : walk_init verts_in edges_in true =
                  Ok (true, lims, mk_state [] [] [] ec o s)).
  { unfold walk_init. rewrite Hl. cbn [bind andb length Nat.ltb Nat.leb getitem
                                       nth_error tl lim_edge lim_side fst snd].
    rewrite Hpop. reflexivity. }
  assert (Hnp : NoDup (tl (a :: b :: r))).
  { apply NoDup_cons_iff in Hd. tauto. }
  rewrite (@connex_along verts_in edges_in true (o :: rest) (a :: b :: r)
             true lims _ Hv Ht Hnp Hr Hinit Hst).
  rewrite first_occurrences_chain, (@first_occurrences_NoDup _ Hd), fold_note_off_path.
  do 3 f_equal.
  etransitivity;
    [exact (@reindex_chain (a :: b :: r) []
              (off_path (length verts_in) (a :: b :: r))
              (@off_path_NoDup (length verts_in) _ Hd)) |].
  cbn [length]. now rewrite <- Hlen', Hlen.
Qed.

Lemma open_polyline_in_path_order_witness :
  let verts_in := [pt 0 0 0; pt 1 0 0; pt 2 0 0; pt 3 0 0; pt 9 9 9] in
  sort_vertices_by_connexions verts_in [(0, 3); (2, 0); (3, 1)] true =
    Ok (coords verts_in ([1; 3; 0; 2] ++ off_path 5 [1; 3; 0; 2]),
        map (fun k => (k, S k)) (seq 0 3),
        [1; 3; 0; 2] ++ off_path 5 [1; 3; 0; 2]).
Proof.
  intros verts_in.
  apply (@open_polyline_in_path_order verts_in [(0, 3); (2, 0); (3, 1)]
           [2; 0; 1] [1; 3; 0; 2]).
  - apply NoDup_points. vm_compute. reflexivity.
  - repeat constructor.
  - repeat constructor; simpl; lia.
  - split.
    + apply perm_trans with [0; 2; 1]; [apply perm_swap | apply perm_skip, perm_swap].
    + repeat (constructor;
              [eexists; split; [reflexivity | (left; reflexivity) || (right; reflexivity)]
              |]).
      constructor.
  - discriminate.
  - simpl. lia.
Defined.

Lemma nth_error_last (l : list nat) :
  l <> [] -> nth_error l (length l - 1) = Some (last l 0).
Proof.
  induction l as [| x l IH]; intros Hne; [congruence |].
  destruct l as [| y l]; [reflexivity |].
  change (last (x :: y :: l) 0) with (last (y :: l) 0).
  rewrite <- IH by discriminate.
  replace (length (x :: y :: l) - 1) with (S (length (y :: l) - 1))
    by (cbn [length]; lia).
  reflexivity.
Qed.

(** A closed polyline has no limit. *)
Lemma loop_no_limit (verts_in : list point) (edges_in : list edge)
    (order c : list nat) (a : nat) :
  trail edges_in order ((a :: c) ++ [a]) ->
  Forall (fun i => i < length verts_in) ((a :: c) ++ [a]) ->
  find_limits verts_in edges_in = Ok [].
Proof.
  intros Ht Hr.
  pose proof (@trail_in_range edges_in order _ Ht (length verts_in) Hr) as Hrange.
  destruct (find_limits_ok _ Hrange) as (lims & Hl & _).
  destruct (@find_limits_spec verts_in edges_in lims Hl) as (_ & Hsound & _).
  destruct lims as [| [[v s] i] lims]; [exact Hl |]. exfalso.
  destruct (Hsound v s i (or_introl eq_refl)) as (_ & Hd & _).
  rewrite (@trail_degree edges_in order _ Ht v) in Hd.
  pose proof (@degree_chain v ((a :: c) ++ [a])) as Hdeg.
  rewrite last_last in Hdeg. cbn [app hd] in Hdeg.
  specialize (Hdeg ltac:(discriminate)). cbn [app] in Hd. rewrite Hd in Hdeg.
  destruct (a =? v); lia.
Qed.

(** A closed polyline comes out in the order of its vertices, from the
    first end of edge 0 and in the direction of edge 0, with and without
    limit detection: the item order is the loop, followed by the other
    vertices in ascending order; edge [k] of the output joins the
    positions [k] and [k + 1], and the last one closes the loop. *)
Theorem closed_polyline_in_loop_order :
  forall verts_in edges_in limit_mode order a b r,
    let c := a :: b :: r in
    NoDup verts_in ->
    Forall (fun i => i < length verts_in) c ->
    NoDup c ->
    trail edges_in order (c ++ [a]) ->
    hd 0 order = 0 ->
    nth_error edges_in 0 = Some (a, b) ->
    sort_vertices_by_connexions verts_in edges_in limit_mode =
      Ok (coords verts_in (c ++ off_path (length verts_in) c),
          map (fun k => (k, S k)) (seq 0 (S (length r))) ++ [(S (length r), 0)],
          c ++ off_path (length verts_in) c).
Proof.
  intros verts_in edges_in limit_mode order a b r c Hv Hr Hd Ht Ho He.
  assert (Hr' : Forall (fun i => i < length verts_in) (c ++ [a])).
  { apply Forall_app. split; [exact Hr |]. constructor; [| constructor].
    now apply Forall_inv in Hr. }
  pose proof (@trail_length edges_in order _ Ht) as Hlen.
  destruct order as [| o rest]; [discriminate |]. cbn [hd] in Ho. subst o.
  destruct (@init_standing edges_in 0 0 a b rest (a, b) (proj1 Ht) He eq_refl)
    as (ec & Hpop & Hst).
  assert (Hinit : walk_init verts_in edges_in limit_mode =
                  Ok (false, [], mk_state [] [] [] ec 0 0)).
  { unfold walk_init. destruct limit_mode.
    - rewrite (@loop_no_limit verts_in edges_in (0 :: rest) (b :: r) a Ht Hr').
      cbn [bind andb length Nat.ltb Nat.leb]. rewrite Hpop. reflexivity.
    - cbn [bind andb]. rewrite Hpop. reflexivity. }
  assert (Hnp : NoDup (tl (c ++ [a]))).
  { cbn [c app tl]. change (b :: r ++ [a]) with ((b :: r) ++ [a]).
    eapply Permutation_NoDup; [apply Permutation_cons_append | exact Hd]. }
  rewrite (@connex_along verts_in edges_in limit_mode (0 :: rest) (c ++ [a])
             false [] _ Hv Ht Hnp Hr' Hinit Hst).
  change (c ++ [a]) with (a :: b :: (r ++ [a])).
  rewrite first_occurrences_chain.
  change (a :: b :: (r ++ [a])) with (c ++ [a]).
  assert (Hc : first_occurrences (c ++ [a]) = c).
  { unfold first_occurrences. rewrite fold_left_app. cbn [fold_left].
    fold (first_occurrences c). rewrite (@first_occurrences_NoDup _ Hd).
    apply note_index_In. now left. }
  rewrite Hc, fold_note_off_path. do 3 f_equal.
  rewrite chain_snoc by discriminate. rewrite map_app. f_equal.
  - exact (@reindex_chain c [] (off_path (length verts_in) c)
             (@off_path_NoDup (length verts_in) _ Hd)).
  - cbn [map]. unfold reindex. cbn [fst snd]. do 2 f_equal.
    + apply position_NoDup; [apply off_path_NoDup; exact Hd |].
      rewrite nth_error_app1 by (cbn [c length]; lia).
      rewrite <- (@nth_error_last c) by discriminate.
      reflexivity.
    + apply position_NoDup; [apply off_path_NoDup; exact Hd | reflexivity].
Qed.

Lemma closed_polyline_in_loop_order_witness :
  let verts_in := [pt 0 0 0; pt 1 0 0; pt 1 1 0; pt 0 1 0; pt 5 5 5] in
  sort_vertices_by_connexions verts_in [(2, 1); (3, 0); (0, 1); (3, 2)] false =
    Ok (coords verts_in ([2; 1; 0; 3] ++ off_path 5 [2; 1; 0; 3]),
        map (fun k => (k, S k)) (seq 0 3) ++ [(3, 0)],
        [2; 1; 0; 3] ++ off_path 5 [2; 1; 0; 3]).
Proof.
  intros verts_in.
  apply (@closed_polyline_in_loop_order verts_in
           [(2, 1); (3, 0); (0, 1); (3, 2)] false [0; 2; 1; 3] 2 1 [0; 3]).
  - apply NoDup_points. vm_compute. reflexivity.
  - repeat constructor.
  - repeat constructor; simpl; lia.
  - split.
    + apply perm_skip, perm_swap.
    + repeat (constructor;
              [eexists; split; [reflexivity | (left; reflexivity) || (right; reflexivity)]
              |]).
      constructor.
  - reflexivity.
  - reflexivity.
Defined.

(* ================================================================== *)
(** ** Connectivity mode: where the walk starts *)

Lemma fold_note_visit_prefix (verts_in : list point) (l acc : list nat) :
  exists more, fold_left (note_visit verts_in) l acc = acc ++ more.
Proof.
  revert acc. induction l as [| i l IH]; intros acc.
  - exists []. cbn. now rewrite app_nil_r.
  - cbn [fold_left]. destruct (IH (note_visit verts_in acc i)) as [more ->].
    unfold note_visit. destruct (seen verts_in acc i); [eauto |].
    exists (i :: more). now rewrite <- app_assoc.
Qed.

Lemma first_visits_head (verts_in : list point) (i : nat) (l : list nat) :
  exists rest, first_visits verts_in (i :: l) = i :: rest.
Proof.
  unfold first_visits. cbn [fold_left].
  destruct (fold_note_visit_prefix verts_in l (note_visit verts_in [] i)) as [more ->].
  unfold note_visit, seen. cbn [existsb app]. eauto.
Qed.

(** The first walked edge is the current edge of the first state. *)
Lemma walk_trace_head (verts_in : list point) (edges_in : list edge)
    (limiting : bool) (limits : list limit) (n : nat) (st : walk_state)
    (t : list (nat * edge)) :
  walk_trace verts_in edges_in limiting limits (S n) st = Ok t ->
  exists e t', current_edge edges_in st = Ok e /\ t = (ed_index st, e) :: t'.
Proof.
  cbn [walk_trace].
  destruct (current_edge edges_in st) as [e | err]; cbn [bind]; [| discriminate].
  destruct (walk_step _ _ _ _ st) as [st1 | err]; cbn [bind]; [| discriminate].
  destruct (walk_trace _ _ _ _ n st1) as [t1 | err]; cbn [bind]; [| discriminate].
  intros H. inversion H. eauto.
Qed.

(** The item order starts with the first end of the first walked edge:
    with limit detection this is the vertex of degree one with the lowest
    index, when there is one; otherwise it is the first end of edge 0. *)
Theorem walk_starts_at_lowest_limit :
  forall verts_in edges_in limit_mode vo eo idx,
    sort_vertices_by_connexions verts_in edges_in limit_mode = Ok (vo, eo, idx) ->
    exists start rest,
      idx = start :: rest /\
      nth_error vo 0 = nth_error verts_in start /\
      (limit_mode = true ->
       forall v, lowest_limit (length verts_in) edges_in v -> start = v) /\
      (limit_mode = false \/
       (forall w, w < length verts_in -> degree w edges_in <> 1) ->
       exists e, nth_error edges_in 0 = Some e /\ start = fst e).
Proof.
  intros verts_in edges_in limit_mode vo eo idx H.
  destruct (connex_Ok_valid _ _ _ H) as [Hne _].
  destruct (connex_walk _ _ _ H) as (limiting & limits & st0 & st & t &
                                     Hinit & Hw & Ht & Hct).
  destruct (connex_first_visits _ _ _ H) as (visits & Hvis & Hidx).
  unfold connex_visits in Hvis. rewrite Hct in Hvis. cbn [bind] in Hvis.
  inversion Hvis; subst visits. clear Hvis.
  destruct edges_in as [| e_0 edges']; [congruence |]. set (edges_in := e_0 :: edges') in *.
  destruct (walk_trace_head _ _ _ _ _ _ Ht) as (e & t' & He & ->).
  unfold visits_of in Hidx. cbn [flat_map app fst snd] in Hidx.
  destruct (first_visits_head verts_in (fst e) (snd e :: flat_map
              (fun ie : nat * edge => [fst (snd ie); snd (snd ie)]) t' ++
              seq 0 (length verts_in))) as [rest Hrest].
  rewrite Hrest in Hidx. exists (fst e), rest. split; [exact Hidx |].
  apply connex_spec in H.
  destruct H as (st' & t'' & vt & tail & _ & _ & _ & _ & _ & _ & _ & Hn & _).
  split.
  { rewrite Hidx in Hn. destruct vo as [| p vo']; [inversion Hn |].
    apply Forall2_cons_iff in Hn. destruct Hn as [Hp _].
    cbn [nth_error]. now rewrite Hp. }
  unfold walk_init in Hinit.
  assert (G : forall lims,
             (if limit_mode then find_limits verts_in edges_in else Ok []) = Ok lims ->
             match lims with
             | [] => exists e0, nth_error edges_in 0 = Some e0 /\ fst e = fst e0
             | l0 :: _ =>
                 limit_mode = true /\
                 exists e0, nth_error edges_in (lim_edge l0) = Some e0 /\
                            e = (if lim_side l0 =? 1 then (snd e0, fst e0) else e0)
             end).
  { intros lims Hl. rewrite Hl in Hinit. cbn [bind] in Hinit.
    destruct lims as [| l0 lims].
    - rewrite andb_false_r in Hinit. cbn [bind] in Hinit.
      destruct (pop_lower_level _ 0) as [ec | err]; cbn [bind] in Hinit;
        [| discriminate].
      inversion Hinit; subst. unfold current_edge, getitem in He.
      cbn [ed_index or_side Nat.eqb] in He.
      destruct (nth_error edges_in 0) as [e0 |]; cbn [bind] in He; [| discriminate].
      inversion He. eauto.
    - destruct limit_mode; [| discriminate]. split; [reflexivity |].
      cbn [andb length Nat.ltb Nat.leb getitem nth_error bind tl] in Hinit.
      destruct (pop_lower_level _ (lim_edge l0)) as [ec | err]; cbn [bind] in Hinit;
        [| discriminate].
      inversion Hinit; subst. unfold current_edge, getitem in He.
      cbn [ed_index or_side] in He.
      destruct (nth_error edges_in (lim_edge l0)) as [e0 |]; cbn [bind] in He;
        [| discriminate].
      inversion He. eauto. }
  destruct (if limit_mode then find_limits verts_in edges_in else Ok [])
    as [lims | err] eqn:Hl; [| cbn [bind] in Hinit; discriminate].
  specialize (G lims eq_refl).
  split.
  - intros -> v (Hv & Hd & Hmin).
    destruct (@find_limits_spec verts_in edges_in lims Hl) as (Hs & Hsound & Hcomplete).
    destruct (Hcomplete v Hv Hd) as (s & i & Hin).
    destruct lims as [| [[v0 s0] i0] lims]; [contradiction |].
    destruct G as (_ & e0 & He0 & ->).
    destruct (Hsound v0 s0 i0 (or_introl eq_refl)) as (_ & Hd0 & e1 & He1 & Hside).
    unfold lim_edge, lim_side in *. cbn [fst snd] in *.
    assert (e1 = e0) as -> by congruence.
    assert (v0 = v) as ->.
    { destruct Hin as [E | Hin]; [now inversion E |].
      apply StronglySorted_inv in Hs. destruct Hs as [_ Hs].
      rewrite Forall_forall in Hs. specialize (Hs _ Hin).
      unfold by_vertex, lim_vertex in Hs. cbn [fst] in Hs.
      exfalso. now apply (Hmin v0). }
    destruct Hside as [[-> Hf] | [-> Hf]]; cbn [Nat.eqb fst]; exact Hf.
  - intros Hor. destruct lims as [| [[v0 s0] i0] lims]; [exact G |]. exfalso.
    destruct G as [-> _]. destruct Hor as [Hor | Hor]; [discriminate |].
    destruct (@find_limits_spec verts_in edges_in _ Hl) as (_ & Hsound & _).
    destruct (Hsound v0 s0 i0 (or_introl eq_refl)) as (Hv0 & Hd0 & _).
    now apply (Hor v0).
Qed.

Lemma walk_starts_at_lowest_limit_witness :
  let verts_in := [pt 0 0 0; pt 1 0 0; pt 2 0 0; pt 3 0 0] in
  let edges_in := [(1, 2); (3, 1); (2, 0)] in
  exists start rest,
    [0; 2; 1; 3] = start :: rest /\
    nth_error [pt 0 0 0; pt 2 0 0; pt 1 0 0; pt 3 0 0] 0 = nth_error verts_in start /\
    (true = true ->
     forall v, lowest_limit (length verts_in) edges_in v -> start = v) /\
    (true = false \/
     (forall w, w < length verts_in -> degree w edges_in <> 1) ->
     exists e, nth_error edges_in 0 = Some e /\ start = fst e).
Proof.
  intros verts_in edges_in.
  apply (@walk_starts_at_lowest_limit verts_in edges_in true
           [pt 0 0 0; pt 2 0 0; pt 1 0 0; pt 3 0 0]
           [(0, 1); (1, 2); (2, 3)] [0; 2; 1; 3]).
  vm_compute. reflexivity.
Defined.

(* ================================================================== *)
(** ** The sorting modes: the mesh is rearranged, not changed *)

Lemma names_at_vertex (v : list point) (order : list nat) (verts : list point)
    (j n : nat) :
  names v order verts -> nth_error order j = Some n -> at_vertex v verts j n.
Proof.
  intros Hn. revert j. induction Hn as [| i q order verts Hq Hn IH]; intros j Hj.
  - destruct j; discriminate.
  - destruct j as [| j]; cbn [nth_error] in *.
    + inversion Hj; subst. exists q. auto.
    + destruct (IH j Hj) as (q' & H1 & H2). exists q'. auto.
Qed.

Section EmitMesh.
Context {I : Type}.
Variable vert_of : I -> result point.
Variable index_of : I -> nat.
Variable v : list point.
Variable s_v : list I.

(** Every item stands for the vertex of [v] at its index. *)
Hypothesis item_vertex :
  forall it, In it s_v ->
    exists q, vert_of it = Ok q /\ nth_error v (index_of it) = Some q.

Lemma mapM_vert_of (verts : list point) :
  mapM vert_of s_v = Ok verts -> names v (map index_of s_v) verts.
Proof.
  intros H. apply mapM_Forall2 in H. unfold names.
  clear - H item_vertex. induction H as [| it q l verts Hq H IH]; cbn [map];
    constructor.
  - destruct (item_vertex it (or_introl eq_refl)) as (q' & E & Hn). congruence.
  - apply IH. intros it' Hin. apply item_vertex. now right.
Qed.

Lemma mapM_vert_of_total : exists verts, mapM vert_of s_v = Ok verts.
Proof.
  apply mapM_total. intros it Hin.
  destruct (item_vertex it Hin) as (q & E & _). eauto.
Qed.

Lemma emit_sorted_mesh (po oo : bool) (p : list (list nat)) (out : object_out) :
  emit_sorted vert_of index_of po oo (PyList s_v) p = Ok out ->
  mesh_preserved v p po oo (map index_of s_v) out.
Proof.
  intros H. apply emit_sorted_list in H. destruct H as (Hv & Ho & Hp).
  apply mapM_vert_of in Hv.
  split; [exact Hv |]. split; [exact Ho |].
  destruct po; [| exact Hp].
  destruct Hp as (r & Hr & E). exists r. split; [exact E |].
  apply remap_Ok in Hr. unfold remapped.
  eapply Forall2_impl; [| exact Hr]. intros pe re Hpe.
  eapply Forall2_impl; [| exact Hpe]. intros n j Hj. cbn beta in Hj.
  split; [exact Hj |]. eapply names_at_vertex; eassumption.
Qed.

Lemma emit_sorted_rearranges (n : nat) (po oo : bool) (p : list (list nat)) :
  Permutation (map index_of s_v) (seq 0 n) ->
  rearranges n v p po oo (emit_sorted vert_of index_of po oo (PyList s_v) p).
Proof.
  intros Hperm out H. exists (map index_of s_v).
  split; [exact Hperm | now apply emit_sorted_mesh].
Qed.

Lemma emit_sorted_raises (bound : nat) (po oo : bool) (p : list (list nat)) :
  Permutation (map index_of s_v) (seq 0 bound) ->
  raises_on_unknown_index bound po p
    (emit_sorted vert_of index_of po oo (PyList s_v) p).
Proof.
  intros Hperm.
  assert (Hin : forall n, In n (map index_of s_v) <-> n < bound).
  { intros n. split; intros H.
    - apply (Permutation_in n Hperm) in H. apply in_seq in H. lia.
    - apply (Permutation_in n (Permutation_sym Hperm)). apply in_seq. lia. }
  split; [split |].
  - intros [out H] -> pe n Hpe Hn. apply Hin.
    apply emit_sorted_list in H. destruct H as (_ & _ & r & Hr & _).
    destruct (in_dec Nat.eq_dec n (map index_of s_v)) as [Hy | Hno]; [exact Hy |].
    exfalso.
    assert (Hex : exists e, remap (build_v_index index_of s_v) p = Raise e).
    { apply remap_Raise. eauto. }
    destruct Hex as [e He]. congruence.
  - intros Hp. apply emit_sorted_list_total; [apply mapM_vert_of_total |].
    intros Hpo pe n Hpe Hn. apply Hin. eapply Hp; eassumption.
  - intros e. unfold emit_sorted. cbn [traverse fst snd].
    destruct mapM_vert_of_total as [verts ->]. cbn [bind].
    destruct po; [| discriminate].
    destruct (remap (build_v_index index_of s_v) p) as [r | e'] eqn:E; cbn [bind];
      [discriminate |].
    intros H. inversion H; subst. eapply remap_KeyError; eassumption.
Qed.
End EmitMesh.

(* ------------------------------------------------------------------ *)
(** *** The items of each mode *)

Lemma In_tag_items (v : list point) (it : item) :
  In it (tag_items v) -> nth_error v (item_index it) = Some (item_coords it).
Proof.
  unfold tag_items. rewrite in_map_iff. intros ([i [[x y] z]] & <- & Hin).
  now apply In_enumerate in Hin.
Qed.

Lemma nth_error_combine {A B : Type} (l : list A) (l' : list B) (i : nat)
    (a : A) (b : B) :
  nth_error (combine l l') i = Some (a, b) ->
  nth_error l i = Some a /\ nth_error l' i = Some b.
Proof.
  revert l' i. induction l as [| x l IH]; intros [| y l'] [| i]; cbn; try discriminate.
  - intros H. inversion H. auto.
  - apply IH.
Qed.

(** What the two theorems below need of the sorted items of a mode. *)
Lemma sorted_items {I K : Type} (vert_of : I -> result point) (index_of : I -> nat)
    (kltb : K -> K -> bool) (key : I -> K) (items : list I) (v : list point)
    (n : nat) :
  (forall it, In it items ->
     exists q, vert_of it = Ok q /\ nth_error v (index_of it) = Some q) ->
  map index_of items = seq 0 n ->
  (forall it, In it (sorted kltb key false items) ->
     exists q, vert_of it = Ok q /\ nth_error v (index_of it) = Some q) /\
  Permutation (map index_of (sorted kltb key false items)) (seq 0 n).
Proof.
  intros Hit Hidx. split.
  - intros it Hin. apply Hit.
    eapply Permutation_in; [| exact Hin]. apply sorted_perm.
  - rewrite <- Hidx. apply Permutation_map, sorted_perm.
Qed.

Lemma tag_items_vertex (v : list point) (it : item) :
  In it (tag_items v) ->
  exists q, Ok (item_coords it) = Ok q /\ nth_error v (item_index it) = Some q.
Proof. intros H. exists (item_coords it). split; [reflexivity | now apply In_tag_items]. Qed.

Lemma xyz_items (rx ry rz : bool) (v : list point) :
  (forall it, In it (xyz_sort rx ry rz v) ->
     exists q, Ok (item_coords it) = Ok q /\ nth_error v (item_index it) = Some q) /\
  Permutation (map item_index (xyz_sort rx ry rz v)) (seq 0 (length v)).
Proof.
  assert (Hp : Permutation (xyz_sort rx ry rz v) (tag_items v)).
  { rewrite xyz_sort_unfold. now rewrite !sorted_perm. }
  split.
  - intros it Hin. apply tag_items_vertex. eapply Permutation_in; eassumption.
  - rewrite <- tag_items_index. now apply Permutation_map.
Qed.

Lemma dist_items_vertex (v : list point) (it : point * nat) :
  In it (map (fun iv : nat * point => (snd iv, fst iv)) (enumerate v)) ->
  exists q, Ok (fst it) = Ok q /\ nth_error v (snd it) = Some q.
Proof.
  rewrite in_map_iff. intros ([i q] & <- & Hin). apply In_enumerate in Hin.
  exists q. auto.
Qed.

Lemma user_items_vertex (index : list num) (v : list point) (it : num * point * nat) :
  In it (map (fun id : nat * (num * point) => (fst (snd id), snd (snd id), fst id))
             (enumerate (combine index v))) ->
  exists q, Ok (snd (fst it)) = Ok q /\ nth_error v (snd it) = Some q.
Proof.
  rewrite in_map_iff. intros ([i [k q]] & <- & Hin). apply In_enumerate in Hin.
  apply nth_error_combine in Hin. exists q. cbn [fst snd]. tauto.
Qed.

Lemma axis_items_vertex {matrix : Type} (mat_apply : matrix -> point -> point)
    (intersect_point_line : point -> point -> point -> point * num)
    (rotation_difference : point -> point -> quaternion)
    (dot : point -> point -> num) (vec_add : point -> point -> point)
    (m : matrix) (v : list point) (it : num * num * nat) :
  In it (axis_items mat_apply intersect_point_line rotation_difference dot vec_add m v) ->
  exists q, getitem v (snd it) = Ok q /\ nth_error v (snd it) = Some q.
Proof.
  intros Hin.
  assert (Hi : In (snd it) (seq 0 (length v))).
  { rewrite <- (axis_items_index mat_apply intersect_point_line
                  rotation_difference dot vec_add m v).
    now apply in_map. }
  apply in_seq in Hi. unfold getitem.
  destruct (nth_error v (snd it)) as [q |] eqn:E; [eauto |].
  apply nth_error_None in E. lia.
Qed.

(** The modes that sort once, with the remapping of [emit_sorted]. *)
Lemma sorted_mode_rearranges {I K : Type} (vert_of : I -> result point)
    (index_of : I -> nat) (kltb : K -> K -> bool) (key : I -> K)
    (items : list I) (v : list point) (n : nat) (po oo : bool)
    (p : list (list nat)) :
  (forall it, In it items ->
     exists q, vert_of it = Ok q /\ nth_error v (index_of it) = Some q) ->
  map index_of items = seq 0 n ->
  rearranges n v p po oo
    (emit_sorted vert_of index_of po oo (PyList (sorted kltb key false items)) p) /\
  raises_on_unknown_index n po p
    (emit_sorted vert_of index_of po oo (PyList (sorted kltb key false items)) p).
Proof.
  intros Hit Hidx.
  destruct (@sorted_items I K vert_of index_of kltb key items v n Hit Hidx)
    as [H1 H2].
  split.
  - now apply emit_sorted_rearranges.
  - now apply emit_sorted_raises with (v := v).
Qed.

Section SortingModes.
Variable matrix : Type.
Variable line_direction : list point -> point.
Variable plane_matrix : list point -> matrix.
Variable center : list point -> point.
Variable to_cylindrical : point -> num * num * num.
Variable mat_apply : matrix -> point -> point.
Variable intersect_point_line : point -> point -> point -> point * num.
Variable rotation_difference : point -> point -> quaternion.
Variable dot : point -> point -> num.
Variables vec_add vec_sub : point -> point -> point.
Variable float_sub : num -> num -> num.
Variable float_sq : num -> num.
Variable float_sum : list num -> num.
Variable v : list point.
Variable p : list (list nat).
Variables po oo : bool.

Lemma process_XYZ_mesh (rx ry rz : bool) :
  rearranges (length v) v p po oo (process_XYZ rx ry rz po oo v p) /\
  raises_on_unknown_index (length v) po p (process_XYZ rx ry rz po oo v p).
Proof.
  destruct (xyz_items rx ry rz v) as [H1 H2]. unfold process_XYZ, emit_items.
  split.
  - now apply emit_sorted_rearranges.
  - now apply emit_sorted_raises with (v := v).
Qed.

Lemma process_DIST_mesh (v_base : point) :
  rearranges (length v) v p po oo
    (process_DIST float_sub float_sq float_sum v_base po oo v p) /\
  raises_on_unknown_index (length v) po p
    (process_DIST float_sub float_sq float_sum v_base po oo v p).
Proof.
  unfold process_DIST. apply sorted_mode_rearranges.
  - apply dist_items_vertex.
  - apply dist_items_index.
Qed.

Lemma process_USER_mesh (index : list num) :
  rearranges (Nat.min (length index) (length v)) v p po oo
    (process_USER index po oo v p) /\
  raises_on_unknown_index (Nat.min (length index) (length v)) po p
    (process_USER index po oo v p).
Proof.
  unfold process_USER. apply sorted_mode_rearranges.
  - apply user_items_vertex.
  - apply user_items_index.
Qed.

Lemma process_AXIS_mesh (m : matrix) :
  rearranges (length v) v p po oo
    (process_AXIS mat_apply intersect_point_line rotation_difference
        dot vec_add m po oo v p) /\
  raises_on_unknown_index (length v) po p
    (process_AXIS mat_apply intersect_point_line rotation_difference
        dot vec_add m po oo v p).
Proof.
  unfold process_AXIS. apply sorted_mode_rearranges.
  - apply axis_items_vertex.
  - apply axis_items_index.
Qed.

Lemma process_AXYZ_mesh (rx ry rz : bool) :
  rearranges (length v) v p po oo
    (process_AXYZ plane_matrix mat_apply rx ry rz po oo v p) /\
  raises_on_unknown_index (length v) po p
    (process_AXYZ plane_matrix mat_apply rx ry rz po oo v p).
Proof.
  unfold process_AXYZ, emit_items. apply sorted_mode_rearranges.
  - apply tag_items_vertex.
  - apply tag_items_index.
Qed.

Lemma process_ADIR_mesh :
  rearranges (length v) v p po oo (process_ADIR line_direction dot false po oo v p) /\
  raises_on_unknown_index (length v) po p
    (process_ADIR line_direction dot false po oo v p).
Proof.
  unfold process_ADIR, adir_sort, emit_items. apply sorted_mode_rearranges.
  - apply tag_items_vertex.
  - apply tag_items_index.
Qed.

Lemma process_ACYL_mesh :
  rearranges (length v) v p po oo
    (process_ACYL plane_matrix center to_cylindrical mat_apply vec_sub false po oo v p) /\
  raises_on_unknown_index (length v) po p
    (process_ACYL plane_matrix center to_cylindrical mat_apply vec_sub false po oo v p).
Proof.
  unfold process_ACYL, acyl_sort, emit_items. apply sorted_mode_rearranges.
  - apply tag_items_vertex.
  - apply tag_items_index.
Qed.
End SortingModes.

(** Every sorting mode (Auto Direction and Auto Phi / Z without the
    reverse option) returns the mesh it was given, rearranged: the vertex
    output is the vertex input read through the item order, the item
    order is a permutation of the vertex indices (in User mode, of the
    indices that have a key), and every index of the edge or polygon
    output is the position, in the outputs, of the vertex that the input
    index names. *)
Theorem sorting_modes_rearrange_mesh :
  forall (matrix : Type)
         (line_direction : list point -> point)
         (plane_matrix : list point -> matrix)
         (center : list point -> point)
         (to_cylindrical : point -> num * num * num)
         (mat_apply : matrix -> point -> point)
         (intersect_point_line : point -> point -> point -> point * num)
         (rotation_difference : point -> point -> quaternion)
         (dot : point -> point -> num)
         (vec_add vec_sub : point -> point -> point)
         (float_sub : num -> num -> num) (float_sq : num -> num)
         (float_sum : list num -> num)
         (v : list point) (p : list (list nat)) (po oo : bool),
    (forall rx ry rz,
        rearranges (length v) v p po oo (process_XYZ rx ry rz po oo v p)) /\
    (forall v_base,
        rearranges (length v) v p po oo
          (process_DIST float_sub float_sq float_sum v_base po oo v p)) /\
    (forall m,
        rearranges (length v) v p po oo
          (process_AXIS mat_apply intersect_point_line rotation_difference dot vec_add
                        m po oo v p)) /\
    (forall rx ry rz,
        rearranges (length v) v p po oo
          (process_AXYZ plane_matrix mat_apply rx ry rz po oo v p)) /\
    rearranges (length v) v p po oo (process_ADIR line_direction dot false po oo v p) /\
    rearranges (length v) v p po oo
      (process_ACYL plane_matrix center to_cylindrical mat_apply vec_sub false po oo v p) /\
    (forall index,
        rearranges (Nat.min (length index) (length v)) v p po oo
          (process_USER index po oo v p)).
Proof.
  intros. split; [| split; [| split; [| split; [| split; [| split]]]]].
  - intros rx ry rz. apply process_XYZ_mesh.
  - intros v_base. apply process_DIST_mesh.
  - intros m. apply process_AXIS_mesh.
  - intros rx ry rz. apply process_AXYZ_mesh.
  - apply process_ADIR_mesh.
  - apply process_ACYL_mesh.
  - intros index. apply process_USER_mesh.
Qed.


(* ================================================================== *)
(** ** The sorting modes: the order is the one of a stable sort *)

Lemma num_eqb_true (a b : num) : num_eqb a b = true <-> (this a == this b)%Q.
Proof. unfold num_eqb. apply Qeq_bool_iff. Qed.

Lemma num_eqb_false (a b : num) : num_eqb a b = false <-> ~ (this a == this b)%Q.
Proof.
  rewrite <- num_eqb_true. destruct (num_eqb a b); split; congruence.
Qed.

Ltac num_props :=
  repeat match goal with
         | H : num_eqb _ _ = true |- _ => apply num_eqb_true in H
         | H : num_eqb _ _ = false |- _ => apply num_eqb_false in H
         | H : num_ltb _ _ = true |- _ => apply num_ltb_true in H
         | H : num_ltb _ _ = false |- _ => apply num_ltb_false in H
         | |- num_ltb _ _ = false => apply num_ltb_false
         | |- num_ltb _ _ = true => apply num_ltb_true
         end.

(** Comparing a first component, and the rest when it ties, is
    asymmetric when the comparison of the rest is. *)
Lemma lexb_asym (a0 b0 : num) (r_ab r_ba : bool) :
  (r_ab = true -> r_ba = false) ->
  (if num_eqb a0 b0 then r_ab else num_ltb a0 b0) = true ->
  (if num_eqb b0 a0 then r_ba else num_ltb b0 a0) = false.
Proof.
  intros Hr.
  destruct (num_eqb a0 b0) eqn:E1, (num_eqb b0 a0) eqn:E2; intros H;
    auto; num_props; lra.
Qed.

Lemma lexb_negtrans (a0 b0 c0 : num) (r_ba r_cb r_ca : bool) :
  (r_ba = false -> r_cb = false -> r_ca = false) ->
  (if num_eqb b0 a0 then r_ba else num_ltb b0 a0) = false ->
  (if num_eqb c0 b0 then r_cb else num_ltb c0 b0) = false ->
  (if num_eqb c0 a0 then r_ca else num_ltb c0 a0) = false.
Proof.
  intros Hr.
  destruct (num_eqb b0 a0) eqn:E1, (num_eqb c0 b0) eqn:E2, (num_eqb c0 a0) eqn:E3;
    intros H1 H2; auto; num_props; lra.
Qed.

Lemma pair_ltb_asym (a b : num * num) :
  pair_ltb a b = true -> pair_ltb b a = false.
Proof.
  destruct a as [a0 a1], b as [b0 b1]. unfold pair_ltb.
  apply lexb_asym, num_ltb_asym.
Qed.

Lemma pair_ltb_negtrans (a b c : num * num) :
  pair_ltb b a = false -> pair_ltb c b = false -> pair_ltb c a = false.
Proof.
  destruct a as [a0 a1], b as [b0 b1], c as [c0 c1]. unfold pair_ltb.
  apply lexb_negtrans, num_ltb_negtrans.
Qed.

Lemma triple_ltb_asym (a b : num * num * num) :
  triple_ltb a b = true -> triple_ltb b a = false.
Proof.
  destruct a as [[a0 a1] a2], b as [[b0 b1] b2]. unfold triple_ltb.
  apply lexb_asym, lexb_asym, num_ltb_asym.
Qed.

Lemma triple_ltb_negtrans (a b c : num * num * num) :
  triple_ltb b a = false -> triple_ltb c b = false -> triple_ltb c a = false.
Proof.
  destruct a as [[a0 a1] a2], b as [[b0 b1] b2], c as [[c0 c1] c2].
  unfold triple_ltb.
  apply lexb_negtrans, lexb_negtrans, num_ltb_negtrans.
Qed.

Lemma StronglySorted_map_in {A B : Type} (f : A -> B) (R : A -> A -> Prop)
    (R' : B -> B -> Prop) (l : list A) :
  (forall a b, In a l -> In b l -> R a b -> R' (f a) (f b)) ->
  StronglySorted R l -> StronglySorted R' (map f l).
Proof.
  intros HR Hs. induction Hs as [| x l Hl IH Hx]; cbn [map]; constructor.
  - apply IH. intros a b Ha Hb. apply HR; now right.
  - apply Forall_map. rewrite Forall_forall in *. intros b Hb.
    apply HR; [now left | now right | now apply Hx].
Qed.

(** A mode that sorts its items once: the item order is the one of a
    stable sort of the indices on the key of their items. *)
Lemma sorted_mode_ordered {I K : Type} (vert_of : I -> result point)
    (index_of : I -> nat) (kltb : K -> K -> bool) (key : I -> K)
    (key' : nat -> K) (items : list I) (po : bool) (p : list (list nat)) :
  (forall a b, kltb a b = true -> kltb b a = false) ->
  (forall a b c, kltb b a = false -> kltb c b = false -> kltb c a = false) ->
  StronglySorted (fun a b => index_of a < index_of b) items ->
  (forall it, In it items -> key it = key' (index_of it)) ->
  ordered_by kltb key'
    (emit_sorted vert_of index_of po true (PyList (sorted kltb key false items)) p).
Proof.
  intros Hasym Hnt Hs Hkey out H.
  apply emit_sorted_list in H. destruct H as (_ & Ho & _).
  eexists. split; [exact Ho |]. unfold sorted_by, sorted.
  apply (isort_stable (fun a b => kltb (key a) (key b))) in Hs; eauto.
  eapply StronglySorted_map_in; [| exact Hs].
  intros a b Ha Hb [H1 H2].
  assert (Ha' : In a items) by (eapply Permutation_in; [apply isort_perm | exact Ha]).
  assert (Hb' : In b items) by (eapply Permutation_in; [apply isort_perm | exact Hb]).
  unfold lex. now rewrite <- (Hkey a Ha'), <- (Hkey b Hb').
Qed.

Lemma enumerate_sorted {A : Type} (l : list A) :
  StronglySorted (fun a b : nat * A => fst a < fst b) (enumerate l).
Proof. apply combine_seq_sorted. Qed.

Lemma tag_items_at (v : list point) (it : item) :
  In it (tag_items v) -> it = item_at v (item_index it).
Proof.
  intros H. apply In_tag_items in H. unfold item_at, vertex.
  rewrite (nth_error_nth _ _ _ H). now destruct it as [[[x y] z] i].
Qed.

Lemma tag_items_by_index (v : list point) :
  StronglySorted (fun a b => item_index a < item_index b) (tag_items v).
Proof. apply tag_items_sorted. Qed.

Section StableOrder.
Variable matrix : Type.
Variable plane_matrix : list point -> matrix.
Variable center : list point -> point.
Variable to_cylindrical : point -> num * num * num.
Variable mat_apply : matrix -> point -> point.
Variable intersect_point_line : point -> point -> point -> point * num.
Variable rotation_difference : point -> point -> quaternion.
Variable dot : point -> point -> num.
Variables vec_add vec_sub : point -> point -> point.
Variable float_sub : num -> num -> num.
Variable float_sq : num -> num.
Variable float_sum : list num -> num.
Variable v : list point.
Variable p : list (list nat).
Variable po : bool.

Lemma process_DIST_ordered (v_base : point) :
  ordered_by num_ltb (fun i => distK float_sub float_sq float_sum (vertex v i) v_base)
             (process_DIST float_sub float_sq float_sum v_base po true v p).
Proof.
  unfold process_DIST.
  apply sorted_mode_ordered
    with (key' := fun i => distK float_sub float_sq float_sum (vertex v i) v_base).
  - apply num_ltb_asym.
  - apply num_ltb_negtrans.
  - apply StronglySorted_map. cbn [snd fst]. apply enumerate_sorted.
  - intros it Hin. apply in_map_iff in Hin. destruct Hin as ([i q] & <- & Hin).
    apply In_enumerate in Hin. cbn [fst snd]. unfold vertex.
    now rewrite (nth_error_nth _ _ _ Hin).
Qed.

Lemma process_USER_ordered (index : list num) :
  ordered_by num_ltb (fun i => nth i index (Q2Qc 0)) (process_USER index po true v p).
Proof.
  unfold process_USER.
  apply sorted_mode_ordered with (key' := fun i => nth i index (Q2Qc 0)).
  - apply num_ltb_asym.
  - apply num_ltb_negtrans.
  - apply StronglySorted_map. cbn [snd fst]. apply enumerate_sorted.
  - intros it Hin. apply in_map_iff in Hin. destruct Hin as ([i [k q]] & <- & Hin).
    apply In_enumerate in Hin. apply nth_error_combine in Hin.
    destruct Hin as [Hk _]. cbn [fst snd]. now rewrite (nth_error_nth _ _ _ Hk).
Qed.

Lemma process_AXYZ_ordered (rx ry rz : bool) :
  ordered_by triple_ltb
    (fun i => axyz_key mat_apply rx ry rz (plane_matrix v) (item_at v i))
    (process_AXYZ plane_matrix mat_apply rx ry rz po true v p).
Proof.
  unfold process_AXYZ, emit_items.
  apply sorted_mode_ordered
    with (key' := fun i => axyz_key mat_apply rx ry rz (plane_matrix v) (item_at v i)).
  - apply triple_ltb_asym.
  - apply triple_ltb_negtrans.
  - apply tag_items_by_index.
  - intros it Hin. now rewrite <- (tag_items_at v it Hin).
Qed.

Lemma process_ACYL_ordered :
  ordered_by triple_ltb
    (fun i => acyl_key to_cylindrical mat_apply vec_sub (plane_matrix v) (center v)
                       (item_at v i))
    (process_ACYL plane_matrix center to_cylindrical mat_apply vec_sub false po true v p).
Proof.
  unfold process_ACYL, acyl_sort, emit_items.
  apply sorted_mode_ordered
    with (key' := fun i => acyl_key to_cylindrical mat_apply vec_sub (plane_matrix v)
                                    (center v) (item_at v i)).
  - apply triple_ltb_asym.
  - apply triple_ltb_negtrans.
  - apply tag_items_by_index.
  - intros it Hin. now rewrite <- (tag_items_at v it Hin).
Qed.

Lemma process_AXIS_ordered (m : matrix) :
  ordered_by pair_ltb
    (axis_key mat_apply intersect_point_line rotation_difference dot vec_add m v)
    (process_AXIS mat_apply intersect_point_line rotation_difference
        dot vec_add m po true v p).
Proof.
  unfold process_AXIS.
  apply sorted_mode_ordered
    with (key' := axis_key mat_apply intersect_point_line rotation_difference
                           dot vec_add m v).
  - apply pair_ltb_asym.
  - apply pair_ltb_negtrans.
  - unfold axis_items. apply StronglySorted_map. cbn [snd fst].
    apply enumerate_sorted.
  - intros it Hin. unfold axis_items in Hin. apply in_map_iff in Hin.
    destruct Hin as ([i [[q pc] r]] & <- & Hin). apply In_enumerate in Hin.
    apply nth_error_combine in Hin. destruct Hin as [Hi Hr].
    rewrite nth_error_map in Hi, Hr.
    destruct (nth_error v i) as [v_c |] eqn:Hv; [| discriminate].
    destruct (nth_error (combine v _) i) as [[v_c' v_l] |] eqn:Hc; [| discriminate].
    apply nth_error_combine in Hc. destruct Hc as [Hv' Hl].
    rewrite nth_error_map, Hv in Hl. cbn [option_map] in Hi, Hr, Hl.
    assert (v_c' = v_c) as -> by congruence.
    inversion Hi as [Ei]. inversion Hl as [El]. inversion Hr as [Er].
    unfold axis_key, vertex. cbn [fst snd].
    rewrite (nth_error_nth _ _ _ Hv), Ei.
    assert (v_l = (q, pc)) as -> by congruence. reflexivity.
Qed.
End StableOrder.

(** In the modes Dist, User, Auto XYZ, Auto Phi / Z (without the reverse
    option) and Axis the item order is the one of a stable sort: the keys
    of the vertices never descend along it, and vertices with equal keys
    keep their input order.  The key is [distK] to the base point, as
    the code computes it in floats, in Dist mode, the supplied number in
    User mode, the coordinates
    in the fitted frame, negated under the reverse flags, in Auto XYZ
    mode, the triple (phi, z, rho) in Auto Phi / Z mode, and the pair of
    the position along the axis and the signed angle in Axis mode; pairs
    and triples compare lexicographically. *)
Theorem sorting_modes_stable_order :
  forall (matrix : Type)
         (plane_matrix : list point -> matrix)
         (center : list point -> point)
         (to_cylindrical : point -> num * num * num)
         (mat_apply : matrix -> point -> point)
         (intersect_point_line : point -> point -> point -> point * num)
         (rotation_difference : point -> point -> quaternion)
         (dot : point -> point -> num)
         (vec_add vec_sub : point -> point -> point)
         (float_sub : num -> num -> num) (float_sq : num -> num)
         (float_sum : list num -> num)
         (v : list point) (p : list (list nat)) (po : bool),
    (forall v_base,
        ordered_by num_ltb (fun i => distK float_sub float_sq float_sum (vertex v i) v_base)
                   (process_DIST float_sub float_sq float_sum v_base po true v p)) /\
    (forall index,
        ordered_by num_ltb (fun i => nth i index (Q2Qc 0))
                   (process_USER index po true v p)) /\
    (forall rx ry rz,
        ordered_by triple_ltb
          (fun i => axyz_key mat_apply rx ry rz (plane_matrix v) (item_at v i))
          (process_AXYZ plane_matrix mat_apply rx ry rz po true v p)) /\
    ordered_by triple_ltb
      (fun i => acyl_key to_cylindrical mat_apply vec_sub (plane_matrix v) (center v)
                         (item_at v i))
      (process_ACYL plane_matrix center to_cylindrical mat_apply
          vec_sub false po true v p) /\
    (forall m,
        ordered_by pair_ltb
          (axis_key mat_apply intersect_point_line rotation_difference dot vec_add m v)
          (process_AXIS mat_apply intersect_point_line rotation_difference dot vec_add
                        m po true v p)).
Proof.
  intros. split; [| split; [| split; [| split]]].
  - intros v_base. apply process_DIST_ordered.
  - intros index. apply process_USER_ordered.
  - intros rx ry rz. apply process_AXYZ_ordered.
  - apply process_ACYL_ordered.
  - intros m. apply process_AXIS_ordered.
Qed.

(* ================================================================== *)
(** ** Auto Direction mode: the order of the projections *)

Lemma StronglySorted_and {A : Type} (R R' : A -> A -> Prop) (l : list A) :
  StronglySorted R l -> StronglySorted R' l ->
  StronglySorted (fun a b => R a b /\ R' a b) l.
Proof.
  induction 1 as [| x l Hl IH Hx]; intros H'; constructor.
  - apply IH. now apply StronglySorted_inv in H'.
  - apply StronglySorted_inv in H'. destruct H' as [_ Hx'].
    rewrite Forall_forall in *. auto.
Qed.

(** The indices of items sorted once on their key: ascending keys, and
    ascending indices between equal keys. *)
Lemma sorted_indices_ordered {I K : Type} (index_of : I -> nat)
    (kltb : K -> K -> bool) (key : I -> K) (key' : nat -> K) (items : list I) :
  (forall a b, kltb a b = true -> kltb b a = false) ->
  (forall a b c, kltb b a = false -> kltb c b = false -> kltb c a = false) ->
  StronglySorted (fun a b => index_of a < index_of b) items ->
  (forall it, In it items -> key it = key' (index_of it)) ->
  sorted_by kltb key' (map index_of (sorted kltb key false items)).
Proof.
  intros Hasym Hnt Hs Hkey. unfold sorted_by, sorted.
  apply (isort_stable (fun a b => kltb (key a) (key b))) in Hs; eauto.
  eapply StronglySorted_map_in; [| exact Hs].
  intros a b Ha Hb [H1 H2].
  assert (Ha' : In a items) by (eapply Permutation_in; [apply isort_perm | exact Ha]).
  assert (Hb' : In b items) by (eapply Permutation_in; [apply isort_perm | exact Hb]).
  unfold lex. now rewrite <- (Hkey a Ha'), <- (Hkey b Hb').
Qed.

(** With pairwise distinct keys, the reversal of the ascending order is
    the order of the stable sort on the negated keys. *)
Lemma sorted_by_rev_opp (key : nat -> num) (order : list nat) :
  NoDup (map key order) ->
  sorted_by num_ltb key order ->
  sorted_by num_ltb (fun i => (- key i)%Qc) (rev order).
Proof.
  intros Hd Hs. unfold sorted_by in *.
  apply NoDup_map_sorted in Hd.
  pose proof (StronglySorted_and Hs Hd) as H.
  apply StronglySorted_rev in H.
  eapply StronglySorted_impl; [| exact H].
  intros a b [[H1 H2] Hne]. cbn beta in *.
  assert (Hlt : num_ltb (key b) (key a) = true).
  { destruct (num_ltb (key b) (key a)) eqn:E; [reflexivity |].
    exfalso. apply Hne. now apply num_ltb_antisym. }
  unfold lex. rewrite !num_ltb_opp. split; [exact H1 |]. congruence.
Qed.

Section AutoDirection.
Variable line_direction : list point -> point.
Variable dot : point -> point -> num.
Variable v : list point.
Variable p : list (list nat).

Lemma adir_items_vertex (it : item) :
  In it (sorted num_ltb (adir_key dot (line_direction v)) false (tag_items v)) ->
  vertex v (item_index it) = item_coords it.
Proof.
  intros Hin.
  apply (Permutation_in it (sorted_perm num_ltb _ false (tag_items v))) in Hin.
  apply In_tag_items in Hin. unfold vertex. now apply nth_error_nth.
Qed.

Lemma adir_order_perm :
  Permutation
    (map item_index
         (sorted num_ltb (adir_key dot (line_direction v)) false (tag_items v)))
    (seq 0 (length v)).
Proof.
  rewrite <- tag_items_index. apply Permutation_map, sorted_perm.
Qed.

Lemma adir_order_sorted :
  sorted_by num_ltb (fun i => dot (vertex v i) (line_direction v))
    (map item_index
         (sorted num_ltb (adir_key dot (line_direction v)) false (tag_items v))).
Proof.
  apply sorted_indices_ordered.
  - apply num_ltb_asym.
  - apply num_ltb_negtrans.
  - apply tag_items_by_index.
  - intros it Hin. unfold adir_key.
    apply In_tag_items in Hin. unfold vertex.
    now rewrite (nth_error_nth _ _ _ Hin).
Qed.

Lemma adir_reverse_on (oo : bool) :
  process_ADIR line_direction dot true false oo v p =
  Ok (mk_out
        (rev (map item_coords
                  (sorted num_ltb (adir_key dot (line_direction v)) false
                          (tag_items v))))
        None (if oo then Some [] else None)).
Proof.
  unfold process_ADIR, adir_sort, emit_items, emit_sorted.
  cbn [traverse fst snd]. rewrite mapM_Ok, map_rev. cbn [bind].
  destruct oo; reflexivity.
Qed.
End AutoDirection.

(** C6, as amended.  In Auto Direction mode the sort key of a vertex is
    its projection on the fitted direction, [Vector(v[i]).dot(direction)].
    With reverse off, the outputs are those of a stable sort on that key:
    some permutation of the indices along which the keys never descend,
    vertices with equal keys in their input order, is the item order
    output, names the vertex output position by position, and replaces
    every reference of the edge output by its position.  With reverse on,
    the vertex output is the reversal of the vertex output with reverse
    off; when the projections are pairwise distinct, this is the order of
    the stable sort on the negated projection. *)
Theorem adir_sorted_by_projection :
  forall (line_direction : list point -> point) (dot : point -> point -> num)
         (v : list point) (p : list (list nat)),
    (forall po oo out,
        process_ADIR line_direction dot false po oo v p = Ok out ->
        exists order,
          Permutation order (seq 0 (length v)) /\
          sorted_by num_ltb (fun i => dot (vertex v i) (line_direction v)) order /\
          mesh_preserved v p po oo order out) /\
    (forall oo, returns (process_ADIR line_direction dot false false oo v p)) /\
    (forall oo oo' out_off,
        process_ADIR line_direction dot false false oo' v p = Ok out_off ->
        exists out_on,
          process_ADIR line_direction dot true false oo v p = Ok out_on /\
          out_verts out_on = rev (out_verts out_off)) /\
    (forall oo out_on,
        process_ADIR line_direction dot true false oo v p = Ok out_on ->
        NoDup (map (fun i => dot (vertex v i) (line_direction v))
                   (seq 0 (length v))) ->
        exists order,
          Permutation order (seq 0 (length v)) /\
          sorted_by num_ltb (fun i => (- dot (vertex v i) (line_direction v))%Qc)
                    order /\
          out_verts out_on = coords v order).
Proof.
  intros line_direction dot v p.
  pose proof (adir_order_perm line_direction dot v) as Hperm.
  pose proof (adir_order_sorted line_direction dot v) as Hsorted.
  split; [| split; [| split]].
  - intros po oo out H. eexists. split; [exact Hperm |]. split; [exact Hsorted |].
    unfold process_ADIR, adir_sort, emit_items in H.
    eapply emit_sorted_mesh; [| exact H].
    intros it Hin. apply tag_items_vertex.
    exact (Permutation_in it (sorted_perm num_ltb _ false (tag_items v)) Hin).
  - intros oo. apply emit_sorted_returns.
  - intros oo oo' out_off H. rewrite adir_reverse_on.
    eexists. split; [reflexivity |]. cbn [out_verts]. f_equal.
    unfold process_ADIR, adir_sort, emit_items in H.
    apply emit_sorted_list in H. destruct H as (Hv & _).
    rewrite mapM_Ok in Hv. now inversion Hv.
  - intros oo out_on H Hd. rewrite adir_reverse_on in H. inversion H; subst out_on.
    cbn [out_verts]. eexists. split; [| split].
    + rewrite <- Hperm. symmetry. apply Permutation_rev.
    + apply sorted_by_rev_opp; [| exact Hsorted].
      eapply Permutation_NoDup; [| exact Hd].
      apply Permutation_map. symmetry. exact Hperm.
    + unfold coords. rewrite map_rev, map_map. f_equal.
      symmetry. apply map_ext_in. intros it Hin.
      apply (adir_items_vertex line_direction dot v it Hin).
Qed.

(** Four vertices with pairwise distinct projections on (1,0,0). *)
Lemma adir_sorted_by_projection_witness :
  let v := [pt 0 0 0; pt 3 1 0; pt 1 0 0; pt 2 1 0] in
  let d := pt 1 0 0 in
  NoDup (map (fun i => dot_exact (vertex v i) d) (seq 0 (length v))) /\
  exists order,
    Permutation order (seq 0 (length v)) /\
    sorted_by num_ltb (fun i => (- dot_exact (vertex v i) d)%Qc) order /\
    [pt 3 1 0; pt 2 1 0; pt 1 0 0; pt 0 0 0] = coords v order.
Proof.
  intros v d.
  assert (H : NoDup (map (fun i => dot_exact (vertex v i) d) (seq 0 (length v)))).
  { apply NoDup_nums. vm_compute. reflexivity. }
  split; [exact H |].
  exact (proj2 (proj2 (proj2 (adir_sorted_by_projection (fun _ => d) dot_exact v [])))
           true
           (mk_out [pt 3 1 0; pt 2 1 0; pt 1 0 0; pt 0 0 0] None (Some []))
           eq_refl H).
Defined.

(** C6 as stated fails: with the reverse option the vertices come out in
    the reversal of the ascending order, which differs from the stable
    sort on the negated projection where projections are equal, and the
    item order output is empty.  The projections on (1,0,0) of the four
    vertices are 0, 0, 10 and 10, which [Vector.dot] computes without
    rounding. *)
Lemma adir_reverse_counterexample :
  let v := [pt 0 0 0; pt 0 1 0; pt 10 0 0; pt 10 1 0] in
  let d := pt 1 0 0 in
  process_ADIR (fun _ => d) dot_exact true false true v [] =
    Ok (mk_out [pt 10 1 0; pt 10 0 0; pt 0 1 0; pt 0 0 0] None (Some [])) /\
  emit_items false true (PyList (adir_spec dot_exact d true v)) [] =
    Ok (mk_out [pt 10 0 0; pt 10 1 0; pt 0 0 0; pt 0 1 0] None (Some [2; 3; 0; 1])).
Proof.
  split; vm_compute; reflexivity.
Qed.

(* ================================================================== *)
(** ** Auto Phi / Z mode with the reverse option *)

(** With the reverse option of Auto Phi / Z, [s_v] is the iterator
    [reversed(s_v)], as in Auto Direction: the vertex output consumes it,
    the item order output is empty, and the remapping of a non-empty edge
    or polygon raises [KeyError]. *)
Theorem acyl_reverse_iterator :
  forall (matrix : Type)
         (plane_matrix : list point -> matrix)
         (center : list point -> point)
         (to_cylindrical : point -> num * num * num)
         (mat_apply : matrix -> point -> point)
         (vec_sub : point -> point -> point)
         (v : list point) (p : list (list nat)) (n : nat) (pe : list nat) (oo : bool),
    process_ACYL plane_matrix center to_cylindrical mat_apply vec_sub true false true
                 v p =
      Ok (mk_out
            (rev (map item_coords
                      (sorted triple_ltb
                              (acyl_key to_cylindrical mat_apply vec_sub (plane_matrix v)
                                        (center v))
                              false (tag_items v))))
            None (Some [])) /\
    process_ACYL plane_matrix center to_cylindrical mat_apply vec_sub true true oo v
                 ((n :: pe) :: p) = Raise KeyError.
Proof.
  intros. unfold process_ACYL, acyl_sort, emit_items, emit_sorted.
  cbn [traverse fst snd]. rewrite !mapM_Ok, map_rev. cbn. split; reflexivity.
Qed.

(* ================================================================== *)
(** ** Connectivity mode in [process]: edges and polygons *)

Lemma mapM_entry_ends (edges_in : list edge) :
  mapM entry_ends (map edge_entry edges_in) = Ok edges_in.
Proof.
  induction edges_in as [| [a b] l IH]; [reflexivity |].
  cbn [map mapM edge_entry fst snd]. unfold entry_ends at 1.
  cbn [getitem nth_error bind]. now rewrite IH.
Qed.

Lemma find_next_without (st : walk_state) (v : nat) :
  find_next (without_edges st) v =
  match find_next st v with
  | Ok st' => Ok (without_edges st')
  | Raise ex => Raise ex
  end.
Proof.
  unfold find_next, take_edge. cbn [without_edges edges_copy verts_out edges_out index].
  destruct (contains Nat.eqb v (ec0 (edges_copy st))).
  - destruct (list_index Nat.eqb v (ec0 (edges_copy st))) as [k | ex]; cbn [bind];
      [| reflexivity].
    destruct (getitem (ec2 (edges_copy st)) k) as [ed | ex]; cbn [bind];
      [| reflexivity].
    destruct (pop_lower_level (edges_copy st) k) as [ec | ex]; reflexivity.
  - destruct (contains Nat.eqb v (ec1 (edges_copy st))); [| reflexivity].
    destruct (list_index Nat.eqb v (ec1 (edges_copy st))) as [k | ex]; cbn [bind];
      [| reflexivity].
    destruct (getitem (ec2 (edges_copy st)) k) as [ed | ex]; cbn [bind];
      [| reflexivity].
    destruct (pop_lower_level (edges_copy st) k) as [ec | ex]; reflexivity.
Qed.

Lemma restart_without (limiting : bool) (limits : list limit) (st : walk_state) :
  restart limiting limits (without_edges st) =
  match restart limiting limits st with
  | Ok st' => Ok (without_edges st')
  | Raise ex => Raise ex
  end.
Proof.
  unfold restart, take_edge. cbn [without_edges edges_copy verts_out edges_out index].
  destruct (negb limiting).
  - destruct (getitem (ec2 (edges_copy st)) 0) as [ed | ex]; cbn [bind];
      [| reflexivity].
    destruct (pop_lower_level (edges_copy st) 0) as [ec | ex]; reflexivity.
  - destruct (next_limit limits (index st)) as [lim |]; [| reflexivity].
    match goal with |- context [bind ?m _] => destruct m as [k | ex] end;
      cbn [bind]; [| reflexivity].
    destruct (pop_lower_level (edges_copy st) k) as [ec | ex]; reflexivity.
Qed.

Section EntriesOfEdges.
Variable verts_in : list point.
Variable edges_in : list edge.
Variable limiting : bool.
Variable limits : list limit.

Lemma current_entry_pairs (st : walk_state) :
  current_entry (map edge_entry edges_in) (without_edges st) =
  match current_edge edges_in st with
  | Ok e => Ok (edge_entry e)
  | Raise ex => Raise ex
  end.
Proof.
  unfold current_entry, current_edge, getitem. cbn [without_edges ed_index or_side].
  rewrite nth_error_map.
  destruct (nth_error edges_in (ed_index st)) as [[a b] |]; cbn [option_map bind];
    [| reflexivity].
  destruct (or_side st =? 1); reflexivity.
Qed.

(** On entries of two indices an iteration is the one of the function on
    pairs. *)
Lemma entries_step_pairs (st : walk_state) :
  entries_step verts_in (map edge_entry edges_in) limiting limits
               (without_edges st, map edge_entry (edges_out st)) =
  match walk_step verts_in edges_in limiting limits st with
  | Ok st' => Ok (without_edges st', map edge_entry (edges_out st'))
  | Raise ex => Raise ex
  end.
Proof.
  unfold entries_step, walk_step, emit_edge. rewrite current_entry_pairs.
  destruct (current_edge edges_in st) as [[a b] | ex]; cbn [bind]; [| reflexivity].
  cbn [edge_entry fst snd visit_all without_edges verts_out index].
  destruct (visit verts_in (verts_out st) (index st) a) as [[[vo1 idx1] ka] | ex];
    cbn [bind]; [| reflexivity].
  destruct (visit verts_in vo1 idx1 b) as [[[vo2 idx2] kb] | ex];
    cbn [bind getitem nth_error fst snd]; [| reflexivity].
  cbn [without_edges edges_out edges_copy ed_index or_side edge_entry fst snd
       getitem nth_error bind].
  change (mk_state vo2 [] idx2 (edges_copy st) (ed_index st) (or_side st))
    with (without_edges (mk_state vo2 (edges_out st ++ [(ka, kb)]) idx2
                                  (edges_copy st) (ed_index st) (or_side st))).
  rewrite find_next_without.
  destruct (find_next _ b) as [st2 | ex] eqn:Ef; cbn [bind]; [| reflexivity].
  apply find_next_outputs in Ef. unfold outputs in Ef. cbn in Ef.
  inversion Ef as [[E1 E2 E3]].
  cbn [without_edges ed_index edges_copy].
  destruct (_ && _).
  - rewrite restart_without.
    destruct (restart limiting limits st2) as [st3 | ex] eqn:Er; cbn [bind];
      [| reflexivity].
    apply restart_outputs in Er. unfold outputs in Er. inversion Er as [[F1 F2 F3]].
    rewrite F2, E2, map_app. reflexivity.
  - cbn [bind]. rewrite E2, map_app. reflexivity.
Qed.

Lemma walk_entries_pairs (n : nat) :
  forall st,
    walk_entries verts_in (map edge_entry edges_in) limiting limits n
                 (without_edges st, map edge_entry (edges_out st)) =
    match walk verts_in edges_in limiting limits n st with
    | Ok st' => Ok (without_edges st', map edge_entry (edges_out st'))
    | Raise ex => Raise ex
    end.
Proof.
  induction n as [| n IH]; intros st; [reflexivity |].
  cbn [walk_entries walk]. rewrite entries_step_pairs.
  destruct (walk_step verts_in edges_in limiting limits st) as [st1 | ex];
    cbn [bind]; [apply IH | reflexivity].
Qed.
End EntriesOfEdges.

(** On entries of two indices the function on any entries is the
    function on pairs. *)
Lemma connex_any_pairs (verts_in : list point) (edges_in : list edge)
    (limit_mode : bool) :
  sort_vertices_by_connexions_any verts_in (map edge_entry edges_in) limit_mode =
  match sort_vertices_by_connexions verts_in edges_in limit_mode with
  | Ok (vo, eo, idx) => Ok (vo, map edge_entry eo, idx)
  | Raise ex => Raise ex
  end.
Proof.
  unfold sort_vertices_by_connexions_any, sort_vertices_by_connexions, walk_result.
  rewrite mapM_entry_ends. cbn [bind].
  destruct (walk_init verts_in edges_in limit_mode) as [[[limiting limits] st0] | ex]
    eqn:Hinit; cbn [bind]; [| reflexivity].
  apply walk_init_outputs in Hinit. unfold outputs in Hinit.
  inversion Hinit as [[E1 E2 E3]].
  assert (E0 : (st0, @nil (list nat)) =
               (without_edges st0, map edge_entry (edges_out st0))).
  { rewrite E2. destruct st0 as [vo eo idx ec ed side]. cbn in *. now subst. }
  rewrite E0, length_map, walk_entries_pairs.
  destruct (walk verts_in edges_in limiting limits (length edges_in) st0)
    as [st | ex]; cbn [bind]; [| reflexivity].
  cbn [without_edges verts_out index].
  destruct (add_unconnected verts_in (verts_out st) (index st)). reflexivity.
Qed.

Lemma remap_pols_Ok (index_new : list nat) (pols r : list (list nat)) :
  remap_pols index_new pols = Ok r ->
  Forall2 (Forall2 (fun i j => nth_error index_new j = Some i)) pols r.
Proof.
  unfold remap_pols. intros H. apply mapM_Forall2 in H.
  eapply Forall2_impl; [| exact H]. cbn beta. intros pol new_pol Hpol.
  apply mapM_Forall2 in Hpol.
  eapply Forall2_impl; [| exact Hpol]. cbn beta. intros i j Hj.
  now apply list_index_nth.
Qed.

(** What connectivity mode appends to the three outputs for one object.
    The item order names the vertices appended, position by position.  On
    polygons (a first entry of more than two indices) the polygon output
    is the list of the polygons wrapped in a list, with every index
    replaced by the position of its vertex.  Otherwise the edge output
    has one entry for each entry of the input; when every entry has
    exactly two indices, the outputs are those of the walk on these
    pairs, and every output edge joins the coordinates that an input edge
    joins. *)
Theorem connex_object_outputs :
  forall (polygons_to_edges : list (list nat) -> list edge)
         (limit_mode : bool) (v : list point) (p : list (list nat))
         (vect : list point) (poly : connex_poly) (order : list nat),
    process_CONNEX polygons_to_edges limit_mode v p = Ok (vect, poly, order) ->
    names v order vect /\
    match poly with
    | New_pols wrapped =>
        (exists p0, nth_error p 0 = Some p0 /\ 2 < length p0) /\
        exists new_pols, wrapped = [new_pols] /\ remapped v order vect p new_pols
    | New_edges pol_edge_new =>
        (exists p0, nth_error p 0 = Some p0 /\ length p0 <= 2) /\
        length pol_edge_new = length p /\
        forall edges_in,
          p = map edge_entry edges_in ->
          exists eo,
            sort_vertices_by_connexions v edges_in limit_mode = Ok (vect, eo, order) /\
            pol_edge_new = map edge_entry eo /\
            Forall (same_segment v vect edges_in) eo
    end.
Proof.
  intros polygons_to_edges limit_mode v p vect poly order.
  unfold process_CONNEX, getitem.
  destruct (nth_error p 0) as [p0 |] eqn:Hp0; cbn [bind]; [| discriminate].
  destruct (Nat.ltb_spec 2 (length p0)) as [Hlt | Hge].
  - destruct (sort_vertices_by_connexions v (polygons_to_edges p) limit_mode)
      as [[[vect' eo] idx] | e] eqn:E; cbn [bind]; [| discriminate].
    destruct (remap_pols idx p) as [new_pols | e] eqn:Er; cbn [bind];
      [| discriminate].
    intros H. inversion H; subst. clear H.
    destruct (connex_consistent _ _ _ E) as (Hn & _).
    split; [exact Hn |]. split; [eauto |].
    exists new_pols. split; [reflexivity |].
    apply remap_pols_Ok in Er. unfold remapped.
    eapply Forall2_impl; [| exact Er]. cbn beta. intros pol np Hpol.
    eapply Forall2_impl; [| exact Hpol]. cbn beta. intros i j Hj.
    split; [exact Hj |]. eapply names_at_vertex; eassumption.
  - destruct (sort_vertices_by_connexions_any v p limit_mode)
      as [[[vect' eo] idx] | e] eqn:E; cbn [bind]; [| discriminate].
    intros H. inversion H; subst. clear H.
    destruct (connex_any_names _ _ _ E) as (Hn & _ & _ & Hlen).
    split; [exact Hn |]. split; [eauto |]. split; [exact Hlen |].
    intros edges_in ->. rewrite connex_any_pairs in E.
    destruct (sort_vertices_by_connexions v edges_in limit_mode)
      as [[[vo2 eo2] idx2] | ex] eqn:E2; [| discriminate].
    inversion E; subst. exists eo2. split; [reflexivity |].
    split; [reflexivity |].
    now destruct (connex_consistent _ _ _ E2) as (_ & _ & _ & _ & Hseg).
Qed.

Lemma connex_object_outputs_witness :
  let v := [pt 0 0 0; pt 1 0 0; pt 0 1 0] in
  let p := [[1; 2]; [0; 1]] in
  let vect := [pt 1 0 0; pt 0 1 0; pt 0 0 0] in
  names v [1; 2; 0] vect /\
  (exists p0, nth_error p 0 = Some p0 /\ length p0 <= 2) /\
  length [[0; 1]; [2; 0]] = length p /\
  forall edges_in,
    p = map edge_entry edges_in ->
    exists eo,
      sort_vertices_by_connexions v edges_in false = Ok (vect, eo, [1; 2; 0]) /\
      [[0; 1]; [2; 0]] = map edge_entry eo /\
      Forall (same_segment v vect edges_in) eo.
Proof.
  intros v p vect.
  apply (@connex_object_outputs (fun _ => []) false v p
           vect (New_edges [[0; 1]; [2; 0]]) [1; 2; 0]).
  vm_compute. reflexivity.
Defined.

(** An entry of three indices walked forwards: [for side in e] visits its
    three indices, the last before the vertex 3 that no entry holds, and
    the edge output gets an entry of three positions. *)
Example connex_entry_of_three :
  process_CONNEX (fun _ => []) false
    [pt 0 0 0; pt 1 0 0; pt 2 0 0; pt 3 0 0; pt 4 0 0] [[0; 1]; [1; 2; 4]] =
  Ok ([pt 0 0 0; pt 1 0 0; pt 2 0 0; pt 4 0 0; pt 3 0 0],
      New_edges [[0; 1]; [1; 2; 3]], [0; 1; 2; 4; 3]).
Proof. vm_compute. reflexivity. Qed.

(* ================================================================== *)
(** ** Connectivity mode: the exceptions *)

Lemma list_index_Raise_any {A : Type} (eqb : A -> A -> bool) (x : A) (l : list A)
    (e : exn) :
  list_index eqb x l = Raise e -> e = ValueError.
Proof. unfold list_index. destruct (find_index eqb x l); congruence. Qed.

Lemma restart_Raise_any (limiting : bool) (limits : list limit) (st : walk_state)
    (e : exn) :
  restart limiting limits st = Raise e -> e = IndexError \/ e = ValueError.
Proof.
  destruct limiting; [| intros H; left; eapply restart_Raise; eassumption].
  unfold restart. cbn [negb].
  destruct (next_limit limits (index st)) as [lim |]; [| discriminate].
  match goal with |- context [bind ?m _] => destruct m as [k | e'] eqn:Ek end;
    cbn [bind].
  - intros H. left. eapply take_edge_Raise; eassumption.
  - intros H. inversion H; subst. right.
    destruct (contains Nat.eqb (lim_vertex lim) (ec0 (edges_copy st)));
      eapply list_index_Raise_any; eassumption.
Qed.

Lemma walk_step_Raise_any (verts_in : list point) (edges_in : list edge)
    (limiting : bool) (limits : list limit) (st : walk_state) (e : exn) :
  walk_step verts_in edges_in limiting limits st = Raise e ->
  e = IndexError \/ e = ValueError.
Proof.
  unfold walk_step.
  destruct (emit_edge verts_in edges_in st) as [[st1 e1] | e'] eqn:E1; cbn [bind];
    [| intros H; inversion H; subst; left; eapply emit_edge_Raise; eassumption].
  destruct (find_next st1 (snd e1)) as [st2 | e'] eqn:E2; cbn [bind];
    [| intros H; inversion H; subst; left; eapply find_next_Raise; eassumption].
  destruct (_ && _); [apply restart_Raise_any | discriminate].
Qed.

Lemma walk_Raise_any (verts_in : list point) (edges_in : list edge)
    (limiting : bool) (limits : list limit) (n : nat) (st : walk_state) (e : exn) :
  walk verts_in edges_in limiting limits n st = Raise e ->
  e = IndexError \/ e = ValueError.
Proof.
  revert st. induction n as [| n IH]; intros st; cbn [walk]; [discriminate |].
  destruct (walk_step verts_in edges_in limiting limits st) as [st1 | e'] eqn:E1;
    cbn [bind]; [apply IH |].
  intros H. inversion H; subst. eapply walk_step_Raise_any; eassumption.
Qed.

Lemma connex_Raise_any (verts_in : list point) (edges_in : list edge)
    (limit_mode : bool) (e : exn) :
  sort_vertices_by_connexions verts_in edges_in limit_mode = Raise e ->
  e = IndexError \/ e = ValueError.
Proof.
  unfold sort_vertices_by_connexions, walk_result.
  destruct (walk_init verts_in edges_in limit_mode) as [[[limiting limits] st0] | e']
    eqn:Hinit; cbn [bind].
  - destruct (walk _ _ _ _ _ st0) as [st | e'] eqn:Ew; cbn [bind].
    + destruct (add_unconnected _ _ _). discriminate.
    + intros H. inversion H; subst. eapply walk_Raise_any; eassumption.
  - intros H. inversion H; subst. left. unfold walk_init in Hinit.
    destruct (if limit_mode then _ else _) as [lims | e'] eqn:El; cbn [bind] in Hinit.
    + destruct (if limit_mode && _ then _ else _) as [[[ed side] l] | e'] eqn:E1;
        cbn [bind] in Hinit.
      * destruct (pop_lower_level _ ed) as [ec | e'] eqn:Ep; cbn [bind] in Hinit;
          [discriminate |].
        inversion Hinit; subst. eapply pop_lower_level_Raise; eassumption.
      * inversion Hinit; subst.
        destruct (limit_mode && _); [| discriminate].
        destruct (getitem lims 0) as [l0 | e'] eqn:Eg; cbn [bind] in E1;
          [discriminate |].
        inversion E1; subst. eapply getitem_Raise; eassumption.
    + inversion Hinit; subst. destruct limit_mode; [| discriminate].
      eapply find_limits_inv; eassumption.
Qed.

(** The function raises nothing but [IndexError] and [ValueError], and
    [ValueError] only with limit detection on vertices two of which have
    the same coordinates. *)
Theorem connex_exceptions :
  forall verts_in edges_in limit_mode e,
    sort_vertices_by_connexions verts_in edges_in limit_mode = Raise e ->
    e = IndexError \/
    (e = ValueError /\ limit_mode = true /\ ~ NoDup verts_in).
Proof.
  intros verts_in edges_in limit_mode e H.
  destruct (connex_Raise_any _ _ _ H) as [-> | ->]; [now left |].
  destruct limit_mode; [| apply connex_Raise in H; discriminate].
  right. split; [reflexivity |]. split; [reflexivity |]. intros Hd.
  assert (Hdec : edges_in = [] \/ ~ edges_in_range (length verts_in) edges_in \/
                 (edges_in <> [] /\ edges_in_range (length verts_in) edges_in)).
  { destruct edges_in as [| e0 es]; [now left |]. right.
    destruct (Forall_dec (fun e : edge => fst e < length verts_in /\
                                          snd e < length verts_in)) with (l := e0 :: es)
      as [Hr | Hr].
    - intros [a b]. cbn [fst snd].
      destruct (lt_dec a (length verts_in)), (lt_dec b (length verts_in)); tauto.
    - right. split; [discriminate | exact Hr].
    - now left. }
  destruct Hdec as [He | [Hr | [Hne Hr]]].
  - rewrite (@connex_invalid_edges verts_in edges_in true (or_introl He)) in H.
    discriminate.
  - rewrite (@connex_invalid_edges verts_in edges_in true (or_intror Hr)) in H.
    discriminate.
  - destruct (@connex_total_on_distinct verts_in edges_in true Hne Hr Hd) as [r Hr'].
    congruence.
Qed.

(** Vertex 2 has the coordinates of vertex 0: it never enters the item
    order, and the restart looks for it among the remaining edges. *)
Lemma connex_exceptions_witness :
  ValueError = IndexError \/
  (ValueError = ValueError /\ true = true /\
   ~ NoDup [pt 0 0 0; pt 1 0 0; pt 0 0 0; pt 3 0 0; pt 4 0 0]).
Proof.
  apply (@connex_exceptions [pt 0 0 0; pt 1 0 0; pt 0 0 0; pt 3 0 0; pt 4 0 0]
           [(0, 1); (1, 2); (3, 4)] true ValueError).
  vm_compute. reflexivity.
Defined.

(* ================================================================== *)
(** ** Connectivity mode with limit detection: several polylines *)

Lemma In_note_index_iff (acc : list nat) (i v : nat) :
  In v (note_index acc i) <-> In v acc \/ v = i.
Proof.
  unfold note_index. destruct (contains Nat.eqb i acc) eqn:E.
  - apply (contains_In Nat.eqb Nat_eqb_eq) in E. split; [auto |].
    intros [H | ->]; assumption.
  - rewrite in_app_iff. cbn [In]. intuition congruence.
Qed.

(** The ends of the edges of a polyline are vertices of the polyline. *)
Lemma path_ends (edges_in : list edge) (order path : list nat) (i : nat) :
  Forall2 (fun i ab => input_edge edges_in (i, ab)) order (chain path) ->
  In i order ->
  In (fst (nth i edges_in (0, 0))) path /\ In (snd (nth i edges_in (0, 0))) path.
Proof.
  intros Hf Hi.
  destruct (@Forall2_In_l nat edge _ order _ i Hf Hi) as (ab & Hab & Hie).
  apply chain_In in Hab. destruct Hab as [H1 H2].
  assert (H2' : In (snd ab) path) by (destruct path; [contradiction | now right]).
  apply input_edge_ends in Hie.
  destruct Hie as [[E1 E2] | [E1 E2]]; rewrite E1, E2; auto.
Qed.

Lemma paths_ends (edges_in : list edge) (orders paths : list (list nat)) (i : nat) :
  Forall2 (fun order path =>
             order <> [] /\
             Forall2 (fun i ab => input_edge edges_in (i, ab)) order (chain path))
          orders paths ->
  In i (concat orders) ->
  In (fst (nth i edges_in (0, 0))) (concat paths) /\
  In (snd (nth i edges_in (0, 0))) (concat paths).
Proof.
  induction 1 as [| order path orders paths [_ Hf] H IH]; [contradiction |].
  cbn [concat]. rewrite !in_app_iff. intros [Hi | Hi].
  - destruct (@path_ends edges_in order path i Hf Hi). auto.
  - destruct (IH Hi). auto.
Qed.

Section Polylines.
Variable verts_in : list point.
Variable edges_in : list edge.
Variable limits : list limit.
Hypothesis distinct : NoDup verts_in.
Hypothesis limits_sorted : StronglySorted by_vertex limits.
Hypothesis limits_ends : limits_ok edges_in limits.

(** Walking an edge records its two ends. *)
Lemma emit_edge_visited (st : walk_state) (a b : nat) (vs : list nat) :
  current_edge edges_in st = Ok (a, b) ->
  a < length verts_in -> b < length verts_in ->
  visited verts_in st vs ->
  exists st1,
    emit_edge verts_in edges_in st = Ok (st1, (a, b)) /\
    edges_copy st1 = edges_copy st /\ ed_index st1 = ed_index st /\
    or_side st1 = or_side st /\ visited verts_in st1 (b :: a :: vs).
Proof.
  intros Hc Ha Hb (Hn & Hd & Hin). unfold emit_edge. rewrite Hc. cbn [bind fst snd].
  destruct (@visit_total verts_in (verts_out st) (index st) a Ha)
    as [[[vo idx] k] E1].
  rewrite E1. cbn [bind].
  destruct (@visit_step verts_in _ _ _ _ _ _ Hn Hd E1) as (Hn1 & Hd1 & Hi1).
  destruct (@visit_total verts_in vo idx b Hb) as [[[vo' idx'] k'] E2].
  rewrite E2. cbn [bind].
  destruct (@visit_step verts_in _ _ _ _ _ _ Hn1 Hd1 E2) as (Hn2 & Hd2 & Hi2).
  eexists. split; [reflexivity |]. cbn [edges_copy ed_index or_side].
  do 3 (split; [reflexivity |]).
  unfold visited. cbn [index verts_out]. split; [exact Hn2 |]. split; [exact Hd2 |].
  intros v.
  destruct (@note_visit_index verts_in distinct (index st) a Ha (@names_lt verts_in _ _ Hn))
    as [Ea Hr1].
  rewrite Ea in Hi1. rewrite <- Hi1 in Hr1.
  destruct (@note_visit_index verts_in distinct idx b Hb Hr1) as [Eb _].
  rewrite Hi2, Eb, In_note_index_iff, Hi1, In_note_index_iff, Hin. cbn [In].
  intuition congruence.
Qed.

Lemma visited_same (st st1 : walk_state) (vs : list nat) :
  outputs st1 = outputs st -> visited verts_in st vs -> visited verts_in st1 vs.
Proof.
  unfold outputs, visited. intros E. inversion E as [[E1 E2 E3]].
  now rewrite E1, E3.
Qed.

(** Nothing continues the walk from [b] when no remaining edge touches
    it. *)
Lemma find_next_nothing (st : walk_state) (o a b : nat) (remaining : list nat) :
  standing edges_in st o a b remaining ->
  (forall i, In i remaining ->
             fst (nth i edges_in (0, 0)) <> b /\ snd (nth i edges_in (0, 0)) <> b) ->
  find_next st b = Ok st.
Proof.
  intros (_ & _ & [H0 H1] & _ & Hin) Hr. apply find_next_dead_end.
  - apply (contains_not_In Nat.eqb Nat_eqb_eq). rewrite H0. intros H.
    apply in_map_iff in H. destruct H as (i & E & Hi). apply Hin in Hi.
    destruct (Hr i Hi). congruence.
  - apply (contains_not_In Nat.eqb Nat_eqb_eq). rewrite H1. intros H.
    apply in_map_iff in H. destruct H as (i & E & Hi). apply Hin in Hi.
    destruct (Hr i Hi). congruence.
Qed.

(** At a dead end the walk resumes on the edge of the next limit, which
    it walks away from the limit. *)
Lemma restart_along (st : walk_state) (o a b o' v c : nat) (rest : list nat)
    (lim : limit) :
  standing edges_in st o a b (o' :: rest) ->
  next_limit limits (index st) = Some lim ->
  lim_vertex lim = v -> lim_edge lim = o' ->
  end_of edges_in v (lim_side lim) o' ->
  input_edge edges_in (o', (v, c)) -> v <> c -> ~ In o' rest ->
  (forall i, In i rest ->
             fst (nth i edges_in (0, 0)) <> v /\ snd (nth i edges_in (0, 0)) <> v) ->
  exists st2,
    restart true limits st = Ok st2 /\ outputs st2 = outputs st /\
    standing edges_in st2 o' v c rest.
Proof.
  intros Hst Hnl Hv Ho (e & He & Hside) (e0 & He0 & Hor) Hvc Hnot Hrest.
  cbn [fst snd] in He0, Hor. assert (e0 = e) as -> by congruence.
  pose proof Hst as (_ & _ & Hc & Hnd & Hin). pose proof Hc as [H0 H1].
  assert (Hnth : nth o' edges_in (0, 0) = e) by now apply nth_error_nth.
  assert (Ho' : In o' (ec2 (edges_copy st))) by (apply Hin; now left).
  assert (U : forall k i,
             nth_error (ec2 (edges_copy st)) k = Some i ->
             fst (nth i edges_in (0, 0)) = v \/ snd (nth i edges_in (0, 0)) = v ->
             i = o').
  { intros k i Hk Hb.
    assert (Hi : In i (o' :: rest)) by (apply Hin; eapply nth_error_In; eassumption).
    destruct Hi as [<- | Hi]; [reflexivity |].
    destruct (Hrest i Hi). tauto. }
  assert (Hk : exists k,
             (if contains Nat.eqb v (ec0 (edges_copy st))
              then list_index Nat.eqb v (ec0 (edges_copy st))
              else list_index Nat.eqb v (ec1 (edges_copy st))) = Ok k /\
             nth_error (ec2 (edges_copy st)) k = Some o').
  { destruct (contains Nat.eqb v (ec0 (edges_copy st))) eqn:E0.
    - apply (contains_In Nat.eqb Nat_eqb_eq) in E0.
      destruct (list_index_total Nat.eqb v _ Nat_eqb_eq E0) as [k Hk].
      exists k. split; [exact Hk |]. apply list_index_nth in Hk.
      rewrite H0, nth_error_map in Hk.
      destruct (nth_error (ec2 (edges_copy st)) k) as [i |] eqn:Ei; [| discriminate].
      inversion Hk. f_equal. eapply U; [exact Ei | now left].
    - apply (contains_not_In Nat.eqb Nat_eqb_eq) in E0.
      assert (Hb : In v (ec1 (edges_copy st))).
      { rewrite H1. apply in_map_iff. exists o'. split; [| exact Ho'].
        rewrite Hnth. destruct Hor as [<- | E]; [| now inversion E].
        exfalso. apply E0. rewrite H0. apply in_map_iff. exists o'.
        split; [| exact Ho']. now rewrite Hnth. }
      destruct (list_index_total Nat.eqb v _ Nat_eqb_eq Hb) as [k Hk].
      exists k. split; [exact Hk |]. apply list_index_nth in Hk.
      rewrite H1, nth_error_map in Hk.
      destruct (nth_error (ec2 (edges_copy st)) k) as [i |] eqn:Ei; [| discriminate].
      inversion Hk. f_equal. eapply U; [exact Ei | now right]. }
  destruct Hk as (k & Hk & Ek).
  unfold restart. cbn [negb]. rewrite Hnl, Hv, Hk. cbn [bind]. rewrite Ho.
  destruct (@take_along edges_in st o a b o' (lim_side lim) k rest Hst Hnot Ek)
    as (st2 & -> & Hout & Hed & Hs & Hc2 & Hnd2 & Hin2).
  exists st2. split; [reflexivity |]. split; [exact Hout |].
  split; [exact Hed |]. split; [| auto].
  unfold current_edge, getitem. rewrite Hed, He, Hs. cbn [bind].
  destruct Hside as [[-> Hf] | [-> Hsn]]; cbn [Nat.eqb]; f_equal.
  - destruct Hor as [<- | E]; [reflexivity |].
    inversion E; subst. congruence.
  - destruct Hor as [<- | E]; [| now rewrite <- E].
    cbn [snd] in Hsn. congruence.
Qed.

(** The walk follows the polylines one after the other: along the current
    one to its last vertex, then from the first vertex of the next. *)
Lemma walk_polylines (n : nat) :
  forall o rest a b r orders paths st vs,
    length (rest ++ concat orders) = n ->
    Forall2 (fun i ab => input_edge edges_in (i, ab)) (o :: rest) (chain (a :: b :: r)) ->
    Forall2 (fun order path =>
               order <> [] /\
               Forall2 (fun i ab => input_edge edges_in (i, ab)) order (chain path))
            orders paths ->
    NoDup (o :: rest ++ concat orders) ->
    NoDup (b :: r ++ concat paths) ->
    Forall (fun i => i < length verts_in) (a :: b :: r ++ concat paths) ->
    (forall v, In v (a :: vs) -> ~ In v (b :: r ++ concat paths)) ->
    Forall (fun p => hd 0 p < last p 0) paths ->
    StronglySorted (fun p q => hd 0 p < hd 0 q) paths ->
    (forall p, In p paths -> exists lim, In lim limits /\ lim_vertex lim = hd 0 p) ->
    (forall lim, In lim limits ->
       In (lim_vertex lim) (a :: vs) \/ lim_vertex lim = last (b :: r) 0 \/
       exists p, In p paths /\ (lim_vertex lim = hd 0 p \/ lim_vertex lim = last p 0)) ->
    standing edges_in st o a b (rest ++ concat orders) ->
    visited verts_in st vs ->
    exists st',
      walk verts_in edges_in true limits (S n) st = Ok st' /\
      walk_trace verts_in edges_in true limits (S n) st =
        Ok (combine (o :: rest ++ concat orders)
                    (chain (a :: b :: r) ++ flat_map chain paths)).
Proof.
  induction n as [n IH] using lt_wf_ind.
  intros o rest a b r orders paths st vs Hlen Hf Hfs Hno Hnp Hr Hvs Hlt Hs L1 L2
         Hst Hvis.
  apply Forall_cons_iff in Hr. destruct Hr as [Ha Hr].
  pose proof Hr as Hr'. apply Forall_cons_iff in Hr'. destruct Hr' as [Hb Hr'].
  change (chain (a :: b :: r)) with ((a, b) :: chain (b :: r)) in Hf |- *.
  apply Forall2_cons_iff in Hf. destruct Hf as [Hab Hf'].
  pose proof Hst as (Hed & Hcur & Hc & Hnd & Hin).
  destruct (@emit_edge_visited st a b vs Hcur Ha Hb Hvis)
    as (st1 & Hemit & Hec1 & Hed1 & Hs1 & Hvis1).
  pose proof (@standing_same edges_in st st1 o a b _ Hec1 Hed1 Hs1 Hst) as Hst1.
  apply NoDup_cons_iff in Hno. destruct Hno as [Ho Hno].
  apply NoDup_cons_iff in Hnp as Hnp'. destruct Hnp' as [Hb' Hnp'].
  assert (Hoth : forall i, In i (concat orders) ->
             In (fst (nth i edges_in (0, 0))) (concat paths) /\
             In (snd (nth i edges_in (0, 0))) (concat paths))
    by (intros i; apply paths_ends; exact Hfs).
  cbn [walk walk_trace]. unfold walk_step. rewrite Hcur, Hemit. cbn [bind fst snd].
  destruct rest as [| o' rest'].
  - (* the last edge of the polyline *)
    assert (r = []) as -> by (destruct r; [reflexivity | inversion Hf']).
    cbn [app] in *.
    assert (Hfind : find_next st1 b = Ok st1).
    { apply (@find_next_nothing st1 o a b _ Hst1). intros i Hi.
      destruct (Hoth i Hi) as [H1 H2]. split; intros E; apply Hb'; congruence. }
    rewrite Hfind. cbn [bind]. rewrite Nat.eqb_refl. cbn [andb].
    pose proof Hst1 as (_ & _ & [H0 H1] & _ & Hin1).
    destruct Hfs as [| order2 p2 orders' paths' [Hne2 Hf2] Hfs'].
    + (* no edge remains *)
      cbn [concat flat_map] in *. subst n.
      assert (E2 : ec2 (edges_copy st1) = []).
      { destruct (ec2 (edges_copy st1)) as [| i l]; [reflexivity |].
        exfalso. apply (Hin1 i). now left. }
      rewrite E2 in H0. cbn [map] in H0. rewrite H0.
      cbn [length Nat.ltb Nat.leb bind walk walk_trace combine].
      exists st1. rewrite Hed. split; reflexivity.
    + (* the walk resumes on the next polyline *)
      destruct order2 as [| o2 rest2]; [congruence |].
      destruct p2 as [| a2 [| b2 r2]]; [inversion Hf2 | inversion Hf2 |].
      cbn [concat flat_map] in *.
      change ((o2 :: rest2) ++ concat orders') with (o2 :: rest2 ++ concat orders') in *.
      change ((a2 :: b2 :: r2) ++ concat paths')
        with (a2 :: b2 :: r2 ++ concat paths') in *.
      assert (Hpos : (0 <? length (ec0 (edges_copy st1))) = true).
      { apply Nat.ltb_lt. rewrite H0, length_map.
        destruct (ec2 (edges_copy st1)) as [| i l]; [| cbn; lia].
        exfalso. apply (Hin1 o2). now left. }
      rewrite Hpos.
      pose proof Hf2 as Hf2'.
      change (chain (a2 :: b2 :: r2)) with ((a2, b2) :: chain (b2 :: r2)) in Hf2'.
      apply Forall2_cons_iff in Hf2'. destruct Hf2' as [Hab2 Hf2'].
      apply NoDup_cons_iff in Hnp' as Hnp2. destruct Hnp2 as [Ha2' Hnp2].
      apply NoDup_cons_iff in Hno as Hno2. destruct Hno2 as [Ho2 Hno2].
      apply Forall_cons_iff in Hlt. destruct Hlt as [Hlt2 Hlt'].
      apply StronglySorted_inv in Hs. destruct Hs as [Hs' Hs2].
      cbn [hd] in Hlt2, Hs2.
      destruct Hvis1 as (Hn1 & Hd1 & Hidx1).
      assert (Hun : ~ In a2 (index st1)).
      { rewrite Hidx1. intros [E | [E | Hv]].
        - apply Hb'. rewrite E. now left.
        - apply (Hvs a); [now left | rewrite E; right; now left].
        - apply (Hvs a2); [now right | right; now left]. }
      destruct (L1 (a2 :: b2 :: r2) (or_introl eq_refl)) as (lim2 & Hl2 & Hv2).
      cbn [hd] in Hv2.
      assert (Hnl : exists lim, next_limit limits (index st1) = Some lim /\
                                In lim limits /\ lim_vertex lim = a2).
      { pose proof (@next_limit_spec limits (index st1) limits_sorted) as Hsp.
        destruct (next_limit limits (index st1)) as [lim0 |].
        - destruct Hsp as (Hin0 & Hu0 & Hmin). exists lim0.
          split; [reflexivity |]. split; [exact Hin0 |].
          assert (Hle : lim_vertex lim0 <= a2).
          { rewrite <- Hv2. apply Hmin; [exact Hl2 |]. unfold unvisited.
            now rewrite Hv2. }
          unfold unvisited in Hu0. rewrite Hidx1 in Hu0.
          destruct (L2 lim0 Hin0) as [Hv0 | [Hv0 | (p & Hp & Hv0)]].
          + exfalso. apply Hu0. now right.
          + exfalso. apply Hu0. left. cbn [last] in Hv0. now symmetry.
          + destruct Hp as [<- | Hp].
            * cbn [hd] in Hv0. destruct Hv0 as [Hv0 | Hv0]; [exact Hv0 | lia].
            * rewrite Forall_forall in Hs2, Hlt'.
              specialize (Hs2 p Hp). specialize (Hlt' p Hp).
              destruct Hv0; lia.
        - exfalso. apply (Hsp lim2 Hl2). unfold unvisited. now rewrite Hv2. }
      destruct Hnl as (lim & Hnl & Hlim & Hva).
      destruct (limits_ends lim Hlim) as [Hdeg Hend]. rewrite Hva in Hdeg, Hend.
      destruct (@input_edge_end_of edges_in o2 a2 b2 Hab2) as [s' Hend'].
      pose proof (@degree_one_unique a2 edges_in _ _ _ _ Hdeg Hend Hend') as Hedge.
      rewrite Hedge in Hend.
      assert (Hne : a2 <> b2) by (intros ->; apply Ha2'; now left).
      assert (Hrest : forall i, In i (rest2 ++ concat orders') ->
                 fst (nth i edges_in (0, 0)) <> a2 /\ snd (nth i edges_in (0, 0)) <> a2).
      { intros i Hi. pose proof Ha2' as Hx.
        apply in_app_or in Hi. destruct Hi as [Hi | Hi].
        - destruct (@path_ends edges_in rest2 (b2 :: r2) i Hf2' Hi) as [H2 H3].
          split; intros E; apply Hx; rewrite <- E; rewrite app_comm_cons;
            apply in_or_app; now left.
        - destruct (@paths_ends edges_in orders' paths' i Hfs' Hi) as [H2 H3].
          split; intros E; apply Hx; rewrite <- E; right;
            apply in_or_app; now right. }
      destruct (@restart_along st1 o a b o2 a2 b2 (rest2 ++ concat orders') lim
                  Hst1 Hnl Hva Hedge Hend Hab2 Hne Ho2 Hrest)
        as (st2 & Hres & Hout & Hst2).
      rewrite Hres. cbn [bind].
      assert (Hvis2 : visited verts_in st2 (b :: a :: vs)).
      { apply (@visited_same st1 st2 _ Hout). now split. }
      subst n. cbn [length] in IH |- *.
      destruct (IH (length (rest2 ++ concat orders')) ltac:(lia)
                  o2 rest2 a2 b2 r2 orders' paths' st2 (b :: a :: vs) eq_refl
                  Hf2 Hfs' Hno Hnp2) as (st' & Hw & Ht).
      * exact Hr'.
      * intros v [<- | [<- | [<- | Hv]]] Hx.
        -- now apply Ha2'.
        -- apply Hb'. now right.
        -- apply (Hvs a); [now left | right; now right].
        -- apply (Hvs v); [now right | right; now right].
      * exact Hlt'.
      * exact Hs'.
      * intros p Hp. apply L1. now right.
      * intros lim' Hl'.
        destruct (L2 lim' Hl') as [Hv0 | [Hv0 | (p & Hp & Hv0)]].
        -- left. right. now right.
        -- left. right. left. cbn [last] in Hv0. now symmetry.
        -- destruct Hp as [<- | Hp].
           ++ cbn [hd] in Hv0. destruct Hv0 as [Hv0 | Hv0].
              ** left. left. now symmetry.
              ** right. left. exact Hv0.
           ++ right. right. eauto.
      * exact Hst2.
      * exact Hvis2.
      * exists st'. split; [exact Hw |]. rewrite Ht. cbn [bind combine].
        now rewrite Hed.
  - (* along the polyline *)
    destruct r as [| c r']; [inversion Hf' |].
    pose proof Hf' as Hf2.
    change (chain (b :: c :: r')) with ((b, c) :: chain (c :: r')) in Hf2.
    apply Forall2_cons_iff in Hf2. destruct Hf2 as [Hbc Hf''].
    change ((o' :: rest') ++ concat orders) with (o' :: rest' ++ concat orders) in *.
    change ((c :: r') ++ concat paths) with (c :: r' ++ concat paths) in *.
    assert (Hne : b <> c) by (intros ->; apply Hb'; now left).
    apply NoDup_cons_iff in Hno as Hno'. destruct Hno' as [Ho' _].
    assert (Hrest : forall i, In i (rest' ++ concat orders) ->
               fst (nth i edges_in (0, 0)) <> b /\ snd (nth i edges_in (0, 0)) <> b).
    { intros i Hi. apply in_app_or in Hi. destruct Hi as [Hi | Hi].
      - destruct (@path_ends edges_in rest' (c :: r') i Hf'' Hi) as [H2 H3].
        split; intros E; apply Hb'; rewrite <- E; rewrite app_comm_cons;
          apply in_or_app; now left.
      - destruct (Hoth i Hi) as [H2 H3].
        split; intros E; apply Hb'; rewrite <- E; right; apply in_or_app; now right. }
    destruct (@find_next_along edges_in st1 o a b o' c (rest' ++ concat orders)
                Hst1 Hbc Hne Ho' Hrest) as (st2 & Hfind & Hout & Hst2).
    rewrite Hfind. cbn [bind].
    pose proof Hst2 as (Hed2 & _).
    assert (Hneq : (ed_index st2 =? ed_index st1) = false).
    { apply Nat.eqb_neq. rewrite Hed2, Hed1, Hed. intros ->. apply Ho. now left. }
    rewrite Hneq. cbn [andb bind].
    assert (Hvis2 : visited verts_in st2 (b :: a :: vs))
      by apply (@visited_same st1 st2 _ Hout Hvis1).
    subst n. cbn [length] in IH |- *.
    destruct (IH (length (rest' ++ concat orders)) ltac:(lia)
                o' rest' b c r' orders paths st2 (b :: a :: vs) eq_refl
                Hf' Hfs Hno Hnp' Hr) as (st' & Hw & Ht).
    + intros v [<- | [<- | [<- | Hv]]] Hx.
      * now apply Hb'.
      * now apply Hb'.
      * apply (Hvs a); [now left | now right].
      * apply (Hvs v); [now right | now right].
    + exact Hlt.
    + exact Hs.
    + exact L1.
    + intros lim' Hl'.
      destruct (L2 lim' Hl') as [Hv0 | [Hv0 | Hv0]].
      * left. right. now right.
      * right. left. exact Hv0.
      * right. now right.
    + exact Hst2.
    + exact Hvis2.
    + exists st'. split; [exact Hw |]. rewrite Ht. cbn [bind combine].
      now rewrite Hed.
Qed.
End Polylines.

(* ------------------------------------------------------------------ *)
(** *** The degrees of the vertices of several polylines *)

Lemma NoDup_app_apart {A : Type} (l l' : list A) (x : A) :
  NoDup (l ++ l') -> In x l -> ~ In x l'.
Proof.
  induction l as [| y l IH]; [contradiction |].
  cbn [app]. intros Hd [-> | Hin] Hx.
  - apply NoDup_cons_iff in Hd. destruct Hd as [Hd _]. apply Hd.
    apply in_or_app. now right.
  - apply NoDup_cons_iff in Hd. destruct Hd as [_ Hd]. now apply (IH Hd Hin).
Qed.

Lemma last_In (l : list nat) : l <> [] -> In (last l 0) l.
Proof.
  intros Hne. eapply nth_error_In. apply nth_error_last. exact Hne.
Qed.

Lemma degree_off_chain (v : nat) (p : list nat) :
  ~ In v p -> degree v (chain p) = 0.
Proof.
  intros Hv. destruct p as [| a p]; [reflexivity |].
  pose proof (@degree_chain v (a :: p) ltac:(discriminate)) as H.
  rewrite (count_occ_not_In Nat.eq_dec) in Hv. lia.
Qed.

Lemma degree_off_paths (v : nat) (paths : list (list nat)) :
  ~ In v (concat paths) -> degree v (flat_map chain paths) = 0.
Proof.
  induction paths as [| p paths IH]; [reflexivity |].
  cbn [concat flat_map]. intros Hv. rewrite degree_app.
  rewrite degree_off_chain, IH; [reflexivity | |]; intros H; apply Hv;
    apply in_or_app; auto.
Qed.

(** The first vertex of each of several polylines that share no vertex
    has degree one. *)
Lemma degree_lower_end (paths : list (list nat)) (p : list nat) :
  NoDup (concat paths) -> In p paths -> 2 <= length p ->
  degree (hd 0 p) (flat_map chain paths) = 1.
Proof.
  intros Hd Hp Hlen.
  assert (Hhd : In (hd 0 p) p) by (destruct p; [cbn in Hlen; lia | now left]).
  induction paths as [| q paths IH]; [contradiction |].
  cbn [concat flat_map] in *. rewrite degree_app.
  destruct Hp as [-> | Hp].
  - rewrite (@degree_off_paths (hd 0 p) paths)
      by now apply (@NoDup_app_apart nat p (concat paths)).
    apply NoDup_app_remove_r in Hd.
    destruct p as [| a [| b r]]; try (cbn in Hlen; lia).
    pose proof (@degree_chain a (a :: b :: r) ltac:(discriminate)) as H.
    rewrite (@count_occ_NoDup (a :: b :: r) a Hd (or_introl eq_refl)) in H.
    cbn [hd] in *. rewrite Nat.eqb_refl in H.
    destruct (Nat.eqb_spec (last (a :: b :: r) 0) a) as [E | E]; [| lia].
    exfalso. apply NoDup_cons_iff in Hd. destruct Hd as [Hd _]. apply Hd.
    rewrite <- E. change (last (a :: b :: r) 0) with (last (b :: r) 0).
    apply last_In. discriminate.
  - rewrite degree_off_chain.
    + apply IH; [now apply NoDup_app_remove_l in Hd | exact Hp].
    + intros Hq. apply (@NoDup_app_apart nat q (concat paths) (hd 0 p) Hd Hq).
      apply in_concat. eauto.
Qed.

(** A vertex that is no end of a polyline has an even degree. *)
Lemma degree_one_end (v : nat) (paths : list (list nat)) :
  (exists p, In p paths /\ (hd 0 p = v \/ last p 0 = v)) \/
  (exists k, degree v (flat_map chain paths) = 2 * k).
Proof.
  induction paths as [| p paths IH]; [right; now exists 0 |].
  destruct IH as [(q & Hq & Hv) | [k Hk]]; [left; exists q; split; [now right | exact Hv] |].
  cbn [flat_map]. rewrite degree_app, Hk.
  destruct p as [| a p]; [right; now exists k |].
  pose proof (@degree_chain v (a :: p) ltac:(discriminate)) as H.
  destruct (Nat.eqb_spec (hd 0 (a :: p)) v) as [E | E];
    [left; exists (a :: p); split; [now left | now left] |].
  destruct (Nat.eqb_spec (last (a :: p) 0) v) as [E' | E'];
    [left; exists (a :: p); split; [now left | now right] |].
  right. exists (count_occ Nat.eq_dec (a :: p) v + k). lia.
Qed.

Lemma flips_of_order (edges_in : list edge) (order : list nat) (es : list edge) :
  Forall2 (fun i ab => input_edge edges_in (i, ab)) order es ->
  Forall2 (fun e ab : edge => e = ab \/ e = (snd ab, fst ab))
          (map (fun i => nth i edges_in (0, 0)) order) es.
Proof.
  induction 1 as [| i ab order es (e0 & He0 & Hor) H IH]; cbn [map]; constructor;
    [| exact IH].
  cbn [fst snd] in He0, Hor.
  assert (Hn : nth i edges_in (0, 0) = e0) by now apply nth_error_nth.
  rewrite Hn. destruct Hor as [-> | ->]; cbn [fst snd]; auto.
  right. now destruct e0.
Qed.

Section TrailsFacts.
Variable edges_in : list edge.
Variables orders paths : list (list nat).
Hypothesis on_trails : trails edges_in orders paths.

Lemma trails_degree (v : nat) :
  degree v edges_in = degree v (flat_map chain paths).
Proof.
  destruct on_trails as [Hp Hf].
  assert (He : Permutation (map (fun i => nth i edges_in (0, 0)) (concat orders))
                           edges_in).
  { rewrite (Permutation_map _ Hp), <- (map_nth_seq (fun e => e)).
    now rewrite map_id. }
  rewrite <- (degree_perm v He). apply degree_flip. clear - Hf.
  induction Hf as [| order path orders paths [_ Ho] Hf IH]; [constructor |].
  cbn [concat flat_map]. rewrite map_app. apply Forall2_app; [| exact IH].
  now apply flips_of_order.
Qed.

Lemma trails_in_range (n : nat) :
  Forall (fun i => i < n) (concat paths) -> edges_in_range n edges_in.
Proof.
  intros Hr. destruct on_trails as [Hp Hf].
  apply Forall_forall. intros e He. apply In_nth_error in He. destruct He as [i Hi].
  assert (Ho : In i (concat orders)).
  { apply (Permutation_in i (Permutation_sym Hp)). apply in_seq.
    assert (i < length edges_in) by (apply nth_error_Some; congruence). lia. }
  destruct (@paths_ends edges_in orders paths i Hf Ho) as [H1 H2].
  rewrite (nth_error_nth _ _ _ Hi) in H1, H2.
  rewrite Forall_forall in Hr. auto.
Qed.

Lemma trails_long : Forall (fun p => 2 <= length p) paths.
Proof.
  destruct on_trails as [_ Hf]. clear - Hf.
  induction Hf as [| order path orders paths [Hne Ho] Hf IH]; constructor;
    [| exact IH].
  apply Forall2_length in Ho. rewrite chain_length in Ho.
  destruct order; [congruence |]. cbn [length] in Ho. lia.
Qed.

Lemma trails_length : length (concat orders) = length (flat_map chain paths).
Proof.
  destruct on_trails as [_ Hf]. clear - Hf.
  induction Hf as [| order path orders paths [_ Ho] Hf IH]; [reflexivity |].
  cbn [concat flat_map]. rewrite !length_app, IH.
  now rewrite (Forall2_length Ho).
Qed.
End TrailsFacts.

(* ------------------------------------------------------------------ *)
(** *** The limits of several polylines *)

(** The limits of polylines that share no vertex, each given from its
    lower end, in ascending order of their lower ends: the first limit is
    the first vertex of the first polyline, on its first edge; the others
    are ends of polylines, and the first vertex of every further polyline
    is among them. *)
Lemma polylines_limits (verts_in : list point) (edges_in : list edge)
    (o a b : nat) (rest r : list nat) (orders paths : list (list nat)) :
  trails edges_in ((o :: rest) :: orders) ((a :: b :: r) :: paths) ->
  NoDup (concat ((a :: b :: r) :: paths)) ->
  Forall (fun i => i < length verts_in) (concat ((a :: b :: r) :: paths)) ->
  Forall (fun p => hd 0 p < last p 0) ((a :: b :: r) :: paths) ->
  StronglySorted (fun p q => hd 0 p < hd 0 q) ((a :: b :: r) :: paths) ->
  exists s lims e,
    find_limits verts_in edges_in = Ok ((a, s, o) :: lims) /\
    nth_error edges_in o = Some e /\
    (if s =? 1 then (snd e, fst e) else e) = (a, b) /\
    StronglySorted by_vertex lims /\ limits_ok edges_in lims /\
    (forall p, In p paths -> exists lim, In lim lims /\ lim_vertex lim = hd 0 p) /\
    (forall lim, In lim lims ->
       In (lim_vertex lim) [a] \/ lim_vertex lim = last (b :: r) 0 \/
       exists p, In p paths /\ (lim_vertex lim = hd 0 p \/ lim_vertex lim = last p 0)).
Proof.
  intros Ht Hd Hr Hlt Hs.
  pose proof (@trails_in_range edges_in _ _ Ht (length verts_in) Hr) as Hrange.
  pose proof (@trails_long edges_in _ _ Ht) as Hlong.
  destruct (find_limits_ok _ Hrange) as (lims & Hl & _).
  destruct (@find_limits_spec verts_in edges_in lims Hl) as (Hsort & Hsound & Hcomplete).
  assert (Hlow : forall p, In p ((a :: b :: r) :: paths) ->
             degree (hd 0 p) edges_in = 1 /\ hd 0 p < length verts_in).
  { intros p Hp. split.
    - rewrite (@trails_degree edges_in _ _ Ht).
      apply (@degree_lower_end _ p Hd Hp).
      rewrite Forall_forall in Hlong. now apply Hlong.
    - rewrite Forall_forall in Hr. apply Hr. apply in_concat. exists p.
      split; [exact Hp |].
      rewrite Forall_forall in Hlong. specialize (Hlong p Hp).
      destruct p; [cbn in Hlong; lia | now left]. }
  assert (Hend : forall v, degree v edges_in = 1 ->
             v = a \/ v = last (b :: r) 0 \/
             exists p, In p paths /\ (v = hd 0 p \/ v = last p 0)).
  { intros v Hv. rewrite (@trails_degree edges_in _ _ Ht) in Hv.
    destruct (degree_one_end v ((a :: b :: r) :: paths))
      as [(p & Hp & Hvp) | [k Hk]]; [| lia].
    destruct Hp as [<- | Hp].
    - cbn [hd] in Hvp. change (last (a :: b :: r) 0) with (last (b :: r) 0) in Hvp.
      destruct Hvp; auto.
    - right. right. exists p. split; [exact Hp |]. destruct Hvp; auto. }
  assert (Hup : forall v, degree v edges_in = 1 -> a <= v).
  { intros v Hv. apply Forall_cons_iff in Hlt. destruct Hlt as [Hlt1 Hlt'].
    apply StronglySorted_inv in Hs. destruct Hs as [_ Hs].
    cbn [hd] in Hlt1, Hs. change (last (a :: b :: r) 0) with (last (b :: r) 0) in Hlt1.
    destruct (Hend v Hv) as [-> | [-> | (p & Hp & Hvp)]]; [lia | lia |].
    rewrite Forall_forall in Hs, Hlt'. specialize (Hs p Hp). specialize (Hlt' p Hp).
    destruct Hvp; lia. }
  destruct (Hlow _ (or_introl eq_refl)) as [Ha Hra]. cbn [hd] in Ha, Hra.
  destruct (Hcomplete a Hra Ha) as (s & i & Hin).
  destruct lims as [| [[v0 s0] i0] lims]; [contradiction |].
  apply StronglySorted_inv in Hsort. destruct Hsort as [Hsort Hfirst].
  assert (v0 = a) as ->.
  { destruct Hin as [E | Hin]; [now inversion E |].
    rewrite Forall_forall in Hfirst. specialize (Hfirst _ Hin).
    unfold by_vertex, lim_vertex in Hfirst. cbn [fst] in Hfirst.
    destruct (Hsound v0 s0 i0 (or_introl eq_refl)) as (_ & Hd0 & _).
    specialize (Hup v0 Hd0). lia. }
  destruct (Hsound a s0 i0 (or_introl eq_refl)) as (_ & _ & Hside).
  destruct Ht as [_ Hf].
  apply Forall2_cons_iff in Hf. destruct Hf as [[_ Hf] _].
  change (chain (a :: b :: r)) with ((a, b) :: chain (b :: r)) in Hf.
  apply Forall2_cons_iff in Hf. destruct Hf as [Hab _].
  destruct (@input_edge_end_of edges_in o a b Hab) as [s' Hend'].
  assert (i0 = o) as ->
    by apply (@degree_one_unique a edges_in s0 s' i0 o Ha Hside Hend').
  destruct Hside as (e & He & Hside).
  exists s0, lims, e. split; [exact Hl |]. split; [exact He |].
  assert (Hne : a <> b).
  { cbn [concat app] in Hd. apply NoDup_cons_iff in Hd. destruct Hd as [Hd _].
    intros ->. apply Hd. now left. }
  split.
  { destruct Hab as (e0 & He0 & Hor). cbn [fst snd] in He0, Hor.
    assert (e0 = e) as -> by congruence.
    destruct Hside as [[-> Hfst] | [-> Hsnd]]; cbn [Nat.eqb].
    - destruct Hor as [<- | E]; [reflexivity |].
      inversion E; subst. congruence.
    - destruct Hor as [<- | E]; [| now rewrite <- E].
      cbn [snd] in Hsnd. congruence. }
  split; [exact Hsort |]. split.
  { intros [[v side] j] Hlim.
    destruct (Hsound v side j (or_intror Hlim)) as (_ & Hdv & Hev). now split. }
  split.
  - intros p Hp. destruct (Hlow p (or_intror Hp)) as [Hdp Hrp].
    destruct (Hcomplete _ Hrp Hdp) as (sp & ip & Hinp).
    exists (hd 0 p, sp, ip). split; [| reflexivity].
    destruct Hinp as [E | Hinp]; [| exact Hinp]. exfalso.
    apply StronglySorted_inv in Hs. destruct Hs as [_ Hs].
    rewrite Forall_forall in Hs. specialize (Hs p Hp). cbn [hd] in Hs.
    inversion E. lia.
  - intros [[v side] j] Hlim. unfold lim_vertex. cbn [fst In].
    destruct (Hsound v side j (or_intror Hlim)) as (_ & Hdv & _).
    destruct (Hend v Hdv) as [-> | [-> | H]]; auto.
Qed.

(* ------------------------------------------------------------------ *)
(** *** The outputs for several polylines *)

Lemma ends_app (es es' : list edge) : ends (es ++ es') = ends es ++ ends es'.
Proof. unfold ends. apply flat_map_app. Qed.

Lemma fold_ends_paths (paths : list (list nat)) :
  Forall (fun p => 2 <= length p) paths ->
  forall acc,
    fold_left note_index (ends (flat_map chain paths)) acc =
    fold_left note_index (concat paths) acc.
Proof.
  induction 1 as [| p paths Hp Hf IH]; intros acc; [reflexivity |].
  cbn [flat_map concat]. rewrite ends_app, !fold_left_app, IH. f_equal.
  destruct p as [| a [| b r]]; try (cbn in Hp; lia).
  change (chain (a :: b :: r)) with ((a, b) :: chain (b :: r)).
  unfold ends. cbn [flat_map app fst snd fold_left]. fold (ends (chain (b :: r))).
  apply fold_ends_chain. apply In_note_index.
Qed.

(** The chains of paths whose vertices are, one path after the other, in
    the item order. *)
Lemma reindex_paths (paths : list (list nat)) :
  forall pre post,
    NoDup (pre ++ concat paths ++ post) ->
    map (reindex (pre ++ concat paths ++ post)) (flat_map chain paths) =
    segments (length pre) (map (@length nat) paths).
Proof.
  induction paths as [| p paths IH]; intros pre post Hd; [reflexivity |].
  cbn [flat_map concat map segments] in Hd |- *. rewrite map_app.
  rewrite <- app_assoc in Hd. rewrite <- app_assoc. f_equal.
  - apply (@reindex_chain p pre (concat paths ++ post) Hd).
  - specialize (IH (pre ++ p) post).
    rewrite <- !app_assoc in IH. rewrite (IH Hd), length_app. reflexivity.
Qed.

(** With limit detection, polylines that share no vertex come out one
    after the other, each in the order of its vertices: when every
    polyline is given from its end with the lower index, and the
    polylines in ascending order of these ends, the item order lists the
    vertices of the first polyline, then those of the second, and so on,
    followed by the vertices on no polyline in ascending order; the
    output edges join each position of a polyline to the next. *)
Theorem polylines_in_path_order :
  forall verts_in edges_in orders paths,
    NoDup verts_in ->
    Forall (fun i => i < length verts_in) (concat paths) ->
    NoDup (concat paths) ->
    trails edges_in orders paths ->
    edges_in <> [] ->
    Forall (fun path => hd 0 path < last path 0) paths ->
    StronglySorted (fun p q => hd 0 p < hd 0 q) paths ->
    sort_vertices_by_connexions verts_in edges_in true =
      Ok (coords verts_in (concat paths ++ off_path (length verts_in) (concat paths)),
          segments 0 (map (@length nat) paths),
          concat paths ++ off_path (length verts_in) (concat paths)).
Proof.
  intros verts_in edges_in orders paths Hv Hr Hd Ht Hne Hlt Hs.
  pose proof (@trails_long edges_in _ _ Ht) as Hlong.
  pose proof (@trails_length edges_in _ _ Ht) as Hlen.
  assert (Hlen' : length (concat orders) = length edges_in).
  { destruct Ht as [Hp _]. apply Permutation_length in Hp.
    now rewrite length_seq in Hp. }
  pose proof Ht as [Hp Hf].
  destruct Hf as [| order path orders' paths' [Ho Hf1] Hf'];
    [destruct edges_in; [congruence | discriminate] |].
  destruct order as [| o rest]; [congruence |].
  destruct path as [| a [| b r]]; [inversion Hf1 | inversion Hf1 |].
  destruct (@polylines_limits verts_in edges_in o a b rest r orders' paths'
              Ht Hd Hr Hlt Hs)
    as (s & lims & e & Hl & He & Hab & Hsort & Hok & L1 & L2).
  cbn [concat] in Hp, Hd, Hr.
  change ((o :: rest) ++ concat orders') with (o :: rest ++ concat orders') in Hp.
  change ((a :: b :: r) ++ concat paths') with (a :: b :: r ++ concat paths')
    in Hd, Hr.
  destruct (@init_standing edges_in o s a b (rest ++ concat orders') e Hp He Hab)
    as (ec & Hpop & Hst).
  assert (Hinit : walk_init verts_in edges_in true =
                  Ok (true, lims, mk_state [] [] [] ec o s)).
  { unfold walk_init. rewrite Hl. cbn [bind andb length Nat.ltb Nat.leb getitem
                                       nth_error tl lim_edge lim_side fst snd].
    rewrite Hpop. reflexivity. }
  assert (Hno : NoDup (o :: rest ++ concat orders')).
  { eapply Permutation_NoDup; [symmetry; exact Hp | apply seq_NoDup]. }
  apply NoDup_cons_iff in Hd as Hd'. destruct Hd' as [Ha Hd'].
  apply Forall_cons_iff in Hlt as Hlt'. destruct Hlt' as [_ Hlt'].
  apply StronglySorted_inv in Hs as Hs'. destruct Hs' as [Hs' _].
  destruct (@walk_polylines verts_in edges_in lims Hv Hsort Hok
              (length (rest ++ concat orders')) o rest a b r orders' paths'
              (mk_state [] [] [] ec o s) [] eq_refl Hf1 Hf' Hno Hd' Hr)
    as (st' & Hw & Htr).
  { intros v [<- | []]. exact Ha. }
  { exact Hlt'. }
  { exact Hs'. }
  { exact L1. }
  { exact L2. }
  { exact Hst. }
  { split; [constructor |]. split; [constructor |]. intros v. reflexivity. }
  assert (Hn : S (length (rest ++ concat orders')) = length edges_in).
  { rewrite <- Hlen'. reflexivity. }
  rewrite Hn in Hw, Htr.
  assert (Hct : connex_trace verts_in edges_in true =
                Ok (combine (concat ((o :: rest) :: orders'))
                            (flat_map chain ((a :: b :: r) :: paths')))).
  { unfold connex_trace. rewrite Hinit. exact Htr. }
  destruct (sort_vertices_by_connexions verts_in edges_in true)
    as [[[vo eo] idx] | ex] eqn:E.
  - destruct (@connex_outputs_of_trace verts_in edges_in true vo eo idx _
                Hv E Hct) as (Hi & Hvo & Heo).
    rewrite (visits_of_combine _ _ Hlen) in Hi.
    rewrite (map_snd_combine _ _ Hlen) in Heo.
    assert (Hidx : idx = concat ((a :: b :: r) :: paths') ++
                         off_path (length verts_in) (concat ((a :: b :: r) :: paths'))).
    { rewrite Hi. unfold first_occurrences. rewrite fold_left_app.
      rewrite (fold_ends_paths Hlong).
      change (fold_left note_index (concat ((a :: b :: r) :: paths')) [])
        with (first_occurrences (concat ((a :: b :: r) :: paths'))).
      rewrite (@first_occurrences_NoDup (concat ((a :: b :: r) :: paths')) Hd).
      apply fold_note_off_path. }
    rewrite Hvo, Heo, Hidx. do 3 f_equal.
    apply (@reindex_paths ((a :: b :: r) :: paths') []
             (off_path (length verts_in) (concat ((a :: b :: r) :: paths')))).
    apply (@off_path_NoDup (length verts_in) (concat ((a :: b :: r) :: paths')) Hd).
  - exfalso. unfold sort_vertices_by_connexions, walk_result in E.
    rewrite Hinit in E. cbn [bind] in E. rewrite Hw in E. cbn [bind] in E.
    destruct (add_unconnected verts_in (verts_out st') (index st')). discriminate.
Qed.

Lemma polylines_in_path_order_witness :
  let verts_in := [pt 0 0 0; pt 1 0 0; pt 2 0 0; pt 3 0 0; pt 0 1 0; pt 1 1 0;
                   pt 9 9 9] in
  let paths := [[1; 4; 0; 3]; [2; 5]] in
  sort_vertices_by_connexions verts_in [(5, 2); (0, 4); (4, 1); (0, 3)] true =
    Ok (coords verts_in (concat paths ++ off_path 7 (concat paths)),
        segments 0 (map (@length nat) paths),
        concat paths ++ off_path 7 (concat paths)).
Proof.
  intros verts_in paths.
  apply (@polylines_in_path_order verts_in [(5, 2); (0, 4); (4, 1); (0, 3)]
           [[2; 1; 3]; [0]] paths).
  - apply NoDup_points. vm_compute. reflexivity.
  - repeat constructor.
  - repeat constructor; simpl; lia.
  - split.
    + apply perm_trans with [0; 2; 1; 3].
      * apply Permutation_sym, (Permutation_middle [2; 1; 3] [] 0).
      * apply perm_skip, perm_swap.
    + repeat (constructor;
              [split; [discriminate |];
               repeat (constructor;
                       [eexists; split;
                          [reflexivity | (left; reflexivity) || (right; reflexivity)]
                       |]);
               constructor
              |]).
      constructor.
  - discriminate.
  - repeat constructor.
  - repeat constructor.
Defined.
